(** * Pancho degen arena: round settlement, ledger and join handler

    A shallow embedding of the settlement engine of the repository:

    - [Oracle]         lib/oracle           (price snapshots)
    - [SimLedger]      lib/sim-ledger.ts    (entries and settlements of the sim game)
    - [SimSettlement]  lib/sim-settlement.ts
    - [RoundLedger]    lib/round-ledger     (custody ledger, receipts, locks)
    - [Settlement]     lib/settlement       (custody settlement and payouts)
    - [EntriesRoute]   app/api/entries/route.ts (the join handler)

    Conventions.  A JavaScript [number] that the code only ever uses as an
    integer (cents, lamports, millisecond timestamps) is a [Z].  Sums and
    differences are the exact ones, which is what IEEE doubles compute as
    long as every value stays below 2^53.  The product and the quotient of
    the custody payout shares leave that range at ordinary pools, so they
    are rounded to the nearest double as the code rounds them
    ([Js.product], [Js.quotient]).  The shares of the sim game and the
    fees are written with the exact product and floor, which is what the
    doubles compute while the product stays below 2^53
    ([DoubleFacts.share_exact]).  Prices and stakes in bucks are finite
    doubles and are modelled by rationals [Q]; only their order and
    equality are used.  A call that can throw returns an [option]
    ([None] is the exception).  Calls to [Date.now()] take the current time
    as an argument, and the audit log, which never feeds back into the
    program, is left out. *)

From Stdlib Require Import ZArith QArith Qround List String Ascii Bool Lia.
From Stdlib Require Import Permutation Sorted DecimalString DecimalZ.
Import ListNotations.

Local Open Scope string_scope.
Local Open Scope list_scope.
Local Open Scope Z_scope.

Notation "a =s? b" := (String.eqb a b) (at level 70, no associativity).

(** ** JavaScript helpers *)

Module Js.

(** [Math.round]: nearest integer, halves go up. *)
Definition Math_round (x : Q) : Z := Qfloor (x + (1 # 2)).

Definition Qlt_bool (a b : Q) : bool := negb (Qle_bool b a).

(** Truthiness of a string ([!s] is true on the empty string). *)
Definition truthy (s : string) : bool := negb (s =s? "").

(** Truthiness of an optional string (undefined is falsy). *)
Definition truthy_opt (s : option string) : bool :=
  match s with Some x => truthy x | None => false end.

(** Template-literal printing of an integer. *)
Definition numToString (z : Z) : string := NilZero.string_of_int (Z.to_int z).

(** [String.prototype.toUpperCase] on ASCII letters. *)
Definition upperAscii (c : ascii) : ascii :=
  let n := nat_of_ascii c in
  if (andb (Nat.leb 97 n) (Nat.leb n 122)) then ascii_of_nat (n - 32) else c.

Fixpoint toUpperCase (s : string) : string :=
  match s with
  | EmptyString => EmptyString
  | String c tl => String (upperAscii c) (toUpperCase tl)
  end.

(** A [Map<string, V>]: keys in insertion order; [set] on a present key
    replaces the value where the key already stands. *)
Definition JsMap (V : Type) : Type := list (string * V).

Fixpoint Map_set {V : Type} (k : string) (v : V) (m : JsMap V) : JsMap V :=
  match m with
  | [] => [(k, v)]
  | (k', v') :: tl => if k' =s? k then (k, v) :: tl else (k', v') :: Map_set k v tl
  end.

Fixpoint Map_get {V : Type} (k : string) (m : JsMap V) : option V :=
  match m with
  | [] => None
  | (k', v') :: tl => if k' =s? k then Some v' else Map_get k tl
  end.

Definition Map_values {V : Type} (m : JsMap V) : list V := map snd m.

Definition Map_delete {V : Type} (k : string) (m : JsMap V) : JsMap V :=
  filter (fun kv => negb (fst kv =s? k)) m.

(** [ORDER BY key DESC].  SQL leaves the order of rows with equal keys to
    the engine; the model keeps them in table order. *)
Fixpoint insertDesc {A : Type} (key : A -> Z) (e : A) (l : list A) : list A :=
  match l with
  | [] => [e]
  | x :: tl => if key x <=? key e then e :: l else x :: insertDesc key e tl
  end.

Definition orderByDesc {A : Type} (key : A -> Z) (rows : list A) : list A :=
  fold_right (insertDesc key) [] rows.

(** [xs.reduce((sum, x) => sum + f(x), 0)] *)
Definition sumOf {A : Type} (f : A -> Z) (xs : list A) : Z :=
  fold_left (fun sum x => sum + f x) xs 0.

(** *** Objects

    The own properties of an object are listed with the array indices
    first, in ascending numeric order, and the other string keys after
    them in the order they were added: the order of [Object.entries],
    [JSON.stringify] and [JSON.parse]. *)

(** The array index a property key stands for: a decimal numeral without
    sign or leading zero, at most 2^32 - 2. *)
Definition arrayIndex (k : string) : option Z :=
  match NilZero.uint_of_string k with
  | Some u =>
      let n := Z.of_uint u in
      if (numToString n =s? k) && (n <=? 4294967294) then Some n else None
  | None => None
  end.

Definition isArrayIndex (k : string) : bool :=
  match arrayIndex k with Some _ => true | None => false end.

Definition indexOf (k : string) : Z :=
  match arrayIndex k with Some n => n | None => 0 end.

Fixpoint insertByIndex {V : Type} (kv : string * V) (l : list (string * V))
  : list (string * V) :=
  match l with
  | [] => [kv]
  | x :: tl =>
      if indexOf (fst kv) <? indexOf (fst x) then kv :: l
      else x :: insertByIndex kv tl
  end.

(** [Object.fromEntries(map.entries())], as the list of its properties in
    their order; a JSON text written from the object and parsed back lists
    them in the same order. *)
Definition Object_fromEntries {V : Type} (m : JsMap V) : list (string * V) :=
  fold_right insertByIndex [] (filter (fun kv => isArrayIndex (fst kv)) m)
  ++ filter (fun kv => negb (isArrayIndex (fst kv))) m.

(** *** Doubles

    A finite double is [significand * 2 ^ exponent], the significand an
    integer of at most 53 bits.  The numbers met here lie far inside the
    range of the normal doubles. *)
Record Double := {
  significand : Z;
  exponent : Z
}.

(** The integer nearest to [n / d] for [0 <= n] and [0 < d]; a tie goes to
    the even one. *)
Definition roundHalfEven (n d : Z) : Z :=
  let q := n / d in
  let r := n mod d in
  if 2 * r <? d then q
  else if d <? 2 * r then q + 1
  else if Z.even q then q else q + 1.

(** The double nearest to the rational [n / d], ties to even: the rounding
    of every arithmetic operation of JavaScript.  The quotient is scaled by
    a power of two that brings it above 2^52; [e] is then the position of
    its leading bit, and the significand is the quotient counted in units
    of [2 ^ (e - 52)] and rounded.  ([d = 0] does not give a finite double;
    no caller divides by zero.) *)
Definition nearestDouble (n d : Z) : Double :=
  if (n =? 0) || (d =? 0) then {| significand := 0; exponent := 0 |}
  else
    let a := Z.abs n in
    let b := Z.abs d in
    let scale := Z.log2 b + 53 in
    let scaled := a * 2 ^ scale in
    let k := Z.log2 scaled - Z.log2 b in
    let e := if b * 2 ^ k <=? scaled then k else k - 1 in
    {| significand := Z.sgn n * Z.sgn d * roundHalfEven scaled (b * 2 ^ (e - 52));
       exponent := e - 52 - scale |}.

(** [Math.floor] *)
Definition Math_floor (x : Double) : Z :=
  if 0 <=? exponent x then significand x * 2 ^ exponent x
  else significand x / 2 ^ (- exponent x).

(** [a * b] of two integers: the product rounded to a double, which is an
    integer again. *)
Definition product (a b : Z) : Z := Math_floor (nearestDouble (a * b) 1).

(** [p / w] of two integers. *)
Definition quotient (p w : Z) : Double := nearestDouble p w.

End Js.
Import Js.

(** ** lib/oracle *)

Module Oracle.

Record MarketConfig := {
  key : string;
  label : string;
  asset : string;
  feedId : string
}.

Definition MARKET_CONFIGS : list MarketConfig := [
  {| key := "SOL"; label := "SOL"; asset := "SOL/USD";
     feedId := "ef0d8b6fda2ceba41da15d4095d1da392a0d2f8ed0c6c7bc0f4cfac8c280b56d" |};
  {| key := "BTC"; label := "BTC"; asset := "BTC/USD";
     feedId := "e62df6c8b4a85fe1a67db44dc12de5db330f7ac66b72dc658afedf0f4a415b43" |};
  {| key := "ETH"; label := "ETH"; asset := "ETH/USD";
     feedId := "ff61491a931112ddf1bd8147cd1b641375f79f5825126d665480874634fd0ace" |};
  {| key := "XRP"; label := "XRP"; asset := "XRP/USD";
     feedId := "ec5d399846a9209f3fe5881d70aae9268c94339ff9817e8d18ff19fa05eea1c8" |};
  {| key := "PEPE"; label := "PEPE"; asset := "1000PEPE/USD";
     feedId := "7f3febb69d47fd18c6e29697fc2c19ee70b9877111410238d8587f2cffacb232" |};
  {| key := "BONK"; label := "BONK"; asset := "BONK/USD";
     feedId := "72b021217ca3fe68922a19aaf990109cb9d84e9ad004b4d2025ad6f529314419" |}
].

Definition DEFAULT_MARKET : string := "SOL".

Definition defaultMarket : MarketConfig :=
  {| key := "SOL"; label := "SOL"; asset := "SOL/USD";
     feedId := "ef0d8b6fda2ceba41da15d4095d1da392a0d2f8ed0c6c7bc0f4cfac8c280b56d" |}.

Definition MARKET_BY_KEY (k : string) : option MarketConfig :=
  find (fun m => key m =s? k) MARKET_CONFIGS.

Definition MARKET_BY_FEED (f : string) : option MarketConfig :=
  find (fun m => feedId m =s? f) MARKET_CONFIGS.

Definition resolveMarketByKey (marketKey : option string) : MarketConfig :=
  match marketKey with
  | None => defaultMarket
  | Some k =>
      if truthy k then
        match MARKET_BY_KEY (toUpperCase k) with
        | Some m => m
        | None => defaultMarket
        end
      else defaultMarket
  end.

Definition resolveMarketByFeedId (feed : option string) : MarketConfig :=
  match feed with
  | None => defaultMarket
  | Some f =>
      if truthy f then
        match MARKET_BY_FEED f with
        | Some m => m
        | None => defaultMarket
        end
      else defaultMarket
  end.

(** The part of a snapshot that settlement reads. *)
Record OracleSnapshot := {
  price : Q;
  publishTime : Z
}.

(** What the Pyth endpoint answers.  [historical k ts] is the answer of
    [/v2/updates/price/{ts}] for the market [k], [latest k] the outcome of
    the cached latest-price request; [None] is a failed request (the
    function throws). *)
Record OracleWorld := {
  historical : string -> Z -> option OracleSnapshot;
  latest : string -> option OracleSnapshot
}.

Definition fetchOracleSnapshot (w : OracleWorld) (marketKey : option string)
  : option OracleSnapshot :=
  let market := resolveMarketByKey marketKey in
  latest w (key market).

Definition fetchOracleSnapshotAtTimestamp (w : OracleWorld) (marketKey : string)
  (unixTimestampSec : Z) : option OracleSnapshot :=
  let market := resolveMarketByKey (Some marketKey) in
  let clampedTs := Z.max 0 unixTimestampSec in
  historical w (key market) clampedTs.

End Oracle.

(** ** lib/sim-ledger.ts *)

Module SimLedger.

Inductive SimDirection := UP | DOWN.

Definition SimDirection_eqb (a b : SimDirection) : bool :=
  match a, b with
  | UP, UP | DOWN, DOWN => true
  | _, _ => false
  end.

Record SimEntry := {
  id : string;
  roundId : string;
  market : string;
  feedId : string;
  roundStartMs : Z;
  roundEndMs : Z;
  wallet : string;
  direction : SimDirection;
  stakeBucks : Q;
  joinedAtMs : Z
}.

Inductive Mode := WIN | REFUND.

Record SimRoundSettlement := {
  mode : Mode;
  winnerSide : option SimDirection;
  startPrice : Q;
  endPrice : Q
}.

Record SimRoundSettlementRecord := {
  rec_roundId : string;
  rec_settlement : SimRoundSettlement;
  rec_payoutsByEntryId : JsMap Z;
  rec_feeCents : Z;
  rec_settledAtMs : Z
}.

(** The two tables of the D1 / SQLite database. *)
Record SimDb := {
  sim_entries : list SimEntry;
  sim_round_settlements : list SimRoundSettlementRecord
}.

Definition emptyDb : SimDb := {| sim_entries := []; sim_round_settlements := [] |}.

(** [SELECT ... FROM sim_entries WHERE round_id IN (...) ORDER BY joined_at_ms DESC] *)
Definition readSimEntriesForRoundIds (roundIds : list string) (db : SimDb)
  : list SimEntry :=
  if (List.length roundIds =? 0)%nat then []
  else
    orderByDesc joinedAtMs
      (filter (fun row => existsb (fun r => r =s? roundId row) roundIds)
              (sim_entries db)).

(** [INSERT OR IGNORE INTO sim_entries]: the primary key is [id]. *)
Definition addSimEntry (entry : SimEntry) (db : SimDb) : bool * SimDb :=
  if existsb (fun row => id row =s? id entry) (sim_entries db)
  then (false, db)
  else (true, {| sim_entries := sim_entries db ++ [entry];
                 sim_round_settlements := sim_round_settlements db |}).

(** [SELECT ... WHERE round_id = ? LIMIT 1]; the payout map is built from
    the entries of the stored JSON text, in the order of the text. *)
Definition readSimRoundSettlement (r : string) (db : SimDb)
  : option SimRoundSettlementRecord :=
  find (fun row => rec_roundId row =s? r) (sim_round_settlements db).

(** [INSERT ... ON CONFLICT(round_id) DO NOTHING].  The payouts are stored
    as the JSON text of [Object.fromEntries(record.payoutsByEntryId.entries())],
    and [readSimRoundSettlement] builds its map from the entries of the
    parsed text: what is read back lists the payouts in property order. *)
Definition writeSimRoundSettlement (record : SimRoundSettlementRecord) (db : SimDb)
  : SimDb :=
  if existsb (fun row => rec_roundId row =s? rec_roundId record)
             (sim_round_settlements db)
  then db
  else
    let stored :=
      {| rec_roundId := rec_roundId record;
         rec_settlement := rec_settlement record;
         rec_payoutsByEntryId := Object_fromEntries (rec_payoutsByEntryId record);
         rec_feeCents := rec_feeCents record;
         rec_settledAtMs := rec_settledAtMs record |} in
    {| sim_entries := sim_entries db;
       sim_round_settlements := sim_round_settlements db ++ [stored] |}.

End SimLedger.

(** ** lib/sim-settlement.ts *)

Module SimSettlement.
Import Oracle SimLedger.

Definition FEE_BPS : Z := 600.

Record SimRoundSettlementSnapshot := {
  settlement : SimRoundSettlement;
  payoutsByEntryId : JsMap Z;
  feeCents : Z;
  settledAtMs : Z
}.

Record Recipient := {
  entryId : string;
  cents : Z
}.

(** [prepared[0].cents += remainder] *)
Definition bumpFirst (remainder : Z) (prepared : list Recipient) : list Recipient :=
  match prepared with
  | [] => []
  | first :: tl =>
      {| entryId := entryId first; cents := cents first + remainder |} :: tl
  end.

Definition proRataCents (recipients : list Recipient)
  (distributableCents inputTotalCents : Z) : JsMap Z :=
  if (distributableCents <=? 0) || (inputTotalCents <=? 0)
     || (List.length recipients =? 0)%nat
  then []
  else
    let prepared :=
      map (fun item => {| entryId := entryId item;
                          cents := (distributableCents * cents item) / inputTotalCents |})
          recipients in
    let paid := sumOf cents prepared in
    let remainder := distributableCents - paid in
    let prepared :=
      if (0 <? remainder) && (0 <? List.length prepared)%nat
      then bumpFirst remainder prepared else prepared in
    fold_left (fun allocations item => Map_set (entryId item) (cents item) allocations)
              prepared [].

Definition offsets : list Z := [0; -1; -2; -5; -10; 1; 2; 5; 10].

(** The loop of [fetchSnapshotNearTimestamp] over the remaining offsets. *)
Fixpoint probeOffsets (w : OracleWorld) (market : string) (unixTimestampSec : Z)
  (offs : list Z) : option OracleSnapshot :=
  match offs with
  | [] => None
  | offset :: rest =>
      let ts := Z.max 0 (unixTimestampSec + offset) in
      match fetchOracleSnapshotAtTimestamp w market ts with
      | Some snapshot => Some snapshot
      | None => probeOffsets w market unixTimestampSec rest
      end
  end.

Definition fetchSnapshotNearTimestamp (w : OracleWorld) (market : string)
  (unixTimestampSec : Z) : option OracleSnapshot :=
  match probeOffsets w market unixTimestampSec offsets with
  | Some snapshot => Some snapshot
  | None => fetchOracleSnapshot w (Some market)
  end.

Definition stakeCents (item : SimEntry) : Z := Math_round (stakeBucks item * 100).

Definition toRecipient (item : SimEntry) : Recipient :=
  {| entryId := id item; cents := stakeCents item |}.

Definition isSide (d : SimDirection) (item : SimEntry) : bool :=
  SimDirection_eqb (direction item) d.

(** [item.direction === winnerSide], where [winnerSide] may be undefined. *)
Definition isWinner (winnerSide : option SimDirection) (item : SimEntry) : bool :=
  match winnerSide with
  | Some d => isSide d item
  | None => false
  end.

Definition settleRound (w : OracleWorld) (nowMs : Z) (entries : list SimEntry)
  : option SimRoundSettlementSnapshot :=
  let market := match entries with e :: _ => market e | [] => "SOL" end in
  let roundStartMs := match entries with e :: _ => roundStartMs e | [] => nowMs end in
  let roundEndMs := match entries with e :: _ => roundEndMs e | [] => nowMs end in
  let lockTimestampSec := (roundStartMs + 60000) / 1000 in
  let roundEndSec := roundEndMs / 1000 in
  match fetchSnapshotNearTimestamp w market lockTimestampSec,
        fetchSnapshotNearTimestamp w market roundEndSec with
  | Some startSnapshot, Some endSnapshot =>
      let up := filter (isSide UP) entries in
      let down := filter (isSide DOWN) entries in
      let totalCents := sumOf stakeCents entries in
      let isRefundRound :=
        (List.length up =? 0)%nat || (List.length down =? 0)%nat
        || Qeq_bool (price endSnapshot) (price startSnapshot) in
      let feeCents := if isRefundRound then 0 else (totalCents * FEE_BPS) / 10000 in
      let distributableCents := Z.max 0 (totalCents - feeCents) in
      let '(mode, winnerSide) :=
        if (List.length up =? 0)%nat || (List.length down =? 0)%nat then (REFUND, None)
        else if Qlt_bool (price startSnapshot) (price endSnapshot) then (WIN, Some UP)
        else if Qlt_bool (price endSnapshot) (price startSnapshot) then (WIN, Some DOWN)
        else (REFUND, None) in
      let payoutsByEntryId :=
        match mode with
        | REFUND =>
            proRataCents (map toRecipient entries) distributableCents totalCents
        | WIN =>
            proRataCents (map toRecipient (filter (isWinner winnerSide) entries))
                         distributableCents
                         (sumOf stakeCents (filter (isWinner winnerSide) entries))
        end in
      Some {| settlement := {| mode := mode; winnerSide := winnerSide;
                               startPrice := price startSnapshot;
                               endPrice := price endSnapshot |};
              payoutsByEntryId := payoutsByEntryId;
              feeCents := feeCents;
              settledAtMs := nowMs |}
  | _, _ => None
  end.

Definition buildRefundSettlement (nowMs : Z) (entries : list SimEntry)
  : SimRoundSettlementSnapshot :=
  let totalCents := sumOf stakeCents entries in
  let feeCents := 0 in
  let distributableCents := Z.max 0 (totalCents - feeCents) in
  let payoutsByEntryId :=
    proRataCents (map toRecipient entries) distributableCents totalCents in
  {| settlement := {| mode := REFUND; winnerSide := None;
                      startPrice := 0; endPrice := 0 |};
     payoutsByEntryId := payoutsByEntryId;
     feeCents := feeCents;
     settledAtMs := nowMs |}.

Definition fromPersistedSettlement (persisted : option SimRoundSettlementRecord)
  : option SimRoundSettlementSnapshot :=
  match persisted with
  | None => None
  | Some p => Some {| settlement := rec_settlement p;
                      payoutsByEntryId := rec_payoutsByEntryId p;
                      feeCents := rec_feeCents p;
                      settledAtMs := rec_settledAtMs p |}
  end.

Definition settleRoundSafe (w : OracleWorld) (nowMs : Z) (entries : list SimEntry)
  : SimRoundSettlementSnapshot :=
  match settleRound w nowMs entries with
  | Some s => s
  | None => buildRefundSettlement nowMs entries
  end.

(** One call of [settleSimRoundOnce] run to completion.  The
    [inFlightSettlements] map only hands a second caller the promise of a
    run that is still pending; when a call runs alone the map is empty at
    its start and at its end, so it is not part of the state. *)
Definition settleSimRoundOnce (w : OracleWorld) (nowMs : Z) (r : string) (db : SimDb)
  : option SimRoundSettlementSnapshot * SimDb :=
  match fromPersistedSettlement (readSimRoundSettlement r db) with
  | Some existing => (Some existing, db)
  | None =>
      match fromPersistedSettlement (readSimRoundSettlement r db) with
      | Some recheck => (Some recheck, db)
      | None =>
          let fullRoundEntries := readSimEntriesForRoundIds [r] db in
          if (List.length fullRoundEntries =? 0)%nat then (None, db)
          else
            let settled := settleRoundSafe w nowMs fullRoundEntries in
            let db' :=
              writeSimRoundSettlement
                {| rec_roundId := r;
                   rec_settlement := settlement settled;
                   rec_payoutsByEntryId := payoutsByEntryId settled;
                   rec_feeCents := feeCents settled;
                   rec_settledAtMs := settledAtMs settled |} db in
            let canonical := fromPersistedSettlement (readSimRoundSettlement r db') in
            (match canonical with Some c => Some c | None => Some settled end, db')
      end
  end.

End SimSettlement.

(** ** lib/round-ledger *)

Module RoundLedger.

Inductive Direction := UP | DOWN.

Definition Direction_eqb (a b : Direction) : bool :=
  match a, b with
  | UP, UP | DOWN, DOWN => true
  | _, _ => false
  end.

Record LedgerEntry := {
  e_roundId : string;
  e_market : option string;
  e_feedId : option string;
  e_roundStartMs : Z;
  e_roundEndMs : Z;
  e_wallet : string;
  e_direction : Direction;
  e_stakeUsd : Z;
  e_stakeLamports : Z;
  e_signature : string;
  e_joinedAtMs : Z;
  e_startPrice : Q;
  e_clientIp : option string
}.

Record TransferRecord := {
  t_id : option string;
  t_wallet : string;
  t_lamports : Z;
  t_signature : string
}.

Inductive Kind := fee | payout.

Record PlannedTransfer := {
  p_id : string;
  p_wallet : string;
  p_lamports : Z;
  p_kind : Kind
}.

Inductive SettlementState := PROCESSING | COMPLETED.

Inductive Mode := WIN | REFUND.

Record RoundSettlement := {
  roundId : string;
  state : option SettlementState;
  settledAtMs : Z;
  mode : Mode;
  winnerSide : option Direction;
  startPrice : Q;
  endPrice : Q;
  feeLamports : Z;
  plannedTransfers : option (list PlannedTransfer);
  transfers : list TransferRecord
}.

Record LedgerData := {
  entries : list LedgerEntry;
  settlements : list RoundSettlement
}.

Definition EMPTY_LEDGER : LedgerData := {| entries := []; settlements := [] |}.

Record JoinAttempt := {
  a_wallet : string;
  a_ip : option string;
  a_created_at : Z
}.

(** The ledger with its backend.  [pool] says whether [DATABASE_URL] is set
    (Postgres) or not (the JSON file and the in-memory maps).  [data] is the
    file content, or the three Postgres tables with each settlement row
    carrying its [settlement_transfers] rows in insertion order, the shape
    [readLedger] builds. *)
Record Store := {
  pool : bool;
  data : LedgerData;
  join_attempts : list JoinAttempt;
  inMemoryWalletJoinAttempts : JsMap (list Z);
  inMemoryIpJoinAttempts : JsMap (list Z);
  round_processing_locks : JsMap Z
}.

Definition withData (st : Store) (d : LedgerData) : Store :=
  {| pool := pool st; data := d;
     join_attempts := join_attempts st;
     inMemoryWalletJoinAttempts := inMemoryWalletJoinAttempts st;
     inMemoryIpJoinAttempts := inMemoryIpJoinAttempts st;
     round_processing_locks := round_processing_locks st |}.

Definition withLocks (st : Store) (l : JsMap Z) : Store :=
  {| pool := pool st; data := data st;
     join_attempts := join_attempts st;
     inMemoryWalletJoinAttempts := inMemoryWalletJoinAttempts st;
     inMemoryIpJoinAttempts := inMemoryIpJoinAttempts st;
     round_processing_locks := l |}.

Definition withSettlements (d : LedgerData) (l : list RoundSettlement) : LedgerData :=
  {| entries := entries d; settlements := l |}.

Definition withTransfers (s : RoundSettlement) (l : list TransferRecord)
  : RoundSettlement :=
  {| roundId := roundId s; state := state s; settledAtMs := settledAtMs s;
     mode := mode s; winnerSide := winnerSide s; startPrice := startPrice s;
     endPrice := endPrice s; feeLamports := feeLamports s;
     plannedTransfers := plannedTransfers s; transfers := l |}.

(** [xs[idx] = f(xs[idx])] for the first element that satisfies [p]
    ([find] returns a reference into the array, which the callback mutates). *)
Fixpoint updateFirst {A : Type} (p : A -> bool) (f : A -> A) (xs : list A) : list A :=
  match xs with
  | [] => []
  | x :: tl => if p x then f x :: tl else x :: updateFirst p f tl
  end.

Definition readLedger (st : Store) : LedgerData :=
  if pool st then
    {| entries := orderByDesc e_joinedAtMs (entries (data st));
       settlements := orderByDesc settledAtMs (settlements (data st)) |}
  else data st.

Definition hasLedgerEntrySignature (sig : string) (st : Store) : bool :=
  existsb (fun item => e_signature item =s? sig) (entries (data st)).

(** File: [some(signature)] then [push]; Postgres:
    [ON CONFLICT (signature) DO NOTHING]. *)
Definition addLedgerEntry (entry : LedgerEntry) (st : Store) : bool * Store :=
  if existsb (fun item => e_signature item =s? e_signature entry) (entries (data st))
  then (false, st)
  else (true, withData st {| entries := entries (data st) ++ [entry];
                             settlements := settlements (data st) |}).

Definition findSettlement (r : string) (d : LedgerData) : option RoundSettlement :=
  find (fun item => roundId item =s? r) (settlements d).

(** File: [push] when no settlement of the round exists; Postgres:
    [ON CONFLICT (round_id) DO NOTHING], and the row has no transfers of its
    own ([planned_transfers] defaults to the empty array). *)
Definition addRoundSettlement (settlement : RoundSettlement) (st : Store) : Store :=
  if existsb (fun item => roundId item =s? roundId settlement) (settlements (data st))
  then st
  else
    let row :=
      if pool st then
        {| roundId := roundId settlement; state := state settlement;
           settledAtMs := settledAtMs settlement; mode := mode settlement;
           winnerSide := winnerSide settlement; startPrice := startPrice settlement;
           endPrice := endPrice settlement; feeLamports := feeLamports settlement;
           plannedTransfers :=
             Some (match plannedTransfers settlement with Some l => l | None => [] end);
           transfers := [] |}
      else settlement in
    withData st (withSettlements (data st) (settlements (data st) ++ [row])).

Definition sameId (i : option string) (item : TransferRecord) : bool :=
  match i, t_id item with
  | Some a, Some b => a =s? b
  | None, None => true
  | _, _ => false
  end.

(** [appendSettlementTransfer].  File: nothing happens when the round has
    no settlement, when the id is truthy and already recorded for the
    round, or when the signature is already recorded for the round.
    Postgres: [ON CONFLICT DO NOTHING] under [signature UNIQUE] and
    [UNIQUE (round_id, transfer_id)] (null ids never conflict); a row that
    conflicts is not inserted, and a row that is inserted for a round
    without settlement breaks the foreign key, so the call throws. *)
Definition appendSettlementTransfer (r : string) (transfer : TransferRecord)
  (st : Store) : option Store :=
  let push :=
    withData st
      (withSettlements (data st)
         (updateFirst (fun item => roundId item =s? r)
                      (fun s => withTransfers s (transfers s ++ [transfer]))
                      (settlements (data st)))) in
  if pool st then
    if existsb (fun s => existsb (fun item => t_signature item =s? t_signature transfer)
                                 (transfers s))
               (settlements (data st))
    then Some st
    else
      match findSettlement r (data st) with
      | None => None
      | Some settlement =>
          if match t_id transfer with
             | Some _ => existsb (sameId (t_id transfer)) (transfers settlement)
             | None => false
             end
          then Some st
          else Some push
      end
  else
    match findSettlement r (data st) with
    | None => Some st
    | Some settlement =>
        if truthy_opt (t_id transfer)
           && existsb (sameId (t_id transfer)) (transfers settlement)
        then Some st
        else if existsb (fun item => t_signature item =s? t_signature transfer)
                        (transfers settlement)
        then Some st
        else Some push
    end.

Definition markSettlementCompleted (nowMs : Z) (r : string) (st : Store) : Store :=
  withData st
    (withSettlements (data st)
       (updateFirst (fun item => roundId item =s? r)
          (fun s =>
             {| roundId := roundId s; state := Some COMPLETED; settledAtMs := nowMs;
                mode := mode s; winnerSide := winnerSide s; startPrice := startPrice s;
                endPrice := endPrice s; feeLamports := feeLamports s;
                plannedTransfers := plannedTransfers s; transfers := transfers s |})
          (settlements (data st)))).

Definition recordJoinAttempt (nowMs : Z) (wallet : string) (ip : option string)
  (st : Store) : Store :=
  if pool st then
    {| pool := pool st; data := data st;
       join_attempts :=
         join_attempts st ++ [{| a_wallet := wallet; a_ip := ip; a_created_at := nowMs |}];
       inMemoryWalletJoinAttempts := inMemoryWalletJoinAttempts st;
       inMemoryIpJoinAttempts := inMemoryIpJoinAttempts st;
       round_processing_locks := round_processing_locks st |}
  else
    let times (m : JsMap (list Z)) (k : string) :=
      match Map_get k m with Some l => l | None => [] end in
    {| pool := pool st; data := data st;
       join_attempts := join_attempts st;
       inMemoryWalletJoinAttempts :=
         Map_set wallet (times (inMemoryWalletJoinAttempts st) wallet ++ [nowMs])
                 (inMemoryWalletJoinAttempts st);
       inMemoryIpJoinAttempts :=
         match ip with
         | Some i =>
             if truthy i then
               Map_set i (times (inMemoryIpJoinAttempts st) i ++ [nowMs])
                       (inMemoryIpJoinAttempts st)
             else inMemoryIpJoinAttempts st
         | None => inMemoryIpJoinAttempts st
         end;
       round_processing_locks := round_processing_locks st |}.

Definition countRecentJoinAttempts (nowMs : Z) (wallet : string) (ip : option string)
  (windowSeconds : Z) (st : Store) : (Z * Z) * Store :=
  let cutoff := nowMs - Z.max 1 windowSeconds * 1000 in
  let ipKey := match ip with Some i => if truthy i then Some i else None | None => None end in
  if pool st then
    let walletCount :=
      Z.of_nat (List.length (filter (fun a => (a_wallet a =s? wallet)
                                              && (cutoff <=? a_created_at a))
                                    (join_attempts st))) in
    let ipCount :=
      match ipKey with
      | Some i =>
          Z.of_nat (List.length
                      (filter (fun a => match a_ip a with
                                        | Some j => (j =s? i) && (cutoff <=? a_created_at a)
                                        | None => false
                                        end)
                              (join_attempts st)))
      | None => 0
      end in
    ((walletCount, ipCount), st)
  else
    let times (m : JsMap (list Z)) (k : string) :=
      match Map_get k m with Some l => l | None => [] end in
    let walletTimes :=
      filter (fun ts => cutoff <=? ts) (times (inMemoryWalletJoinAttempts st) wallet) in
    let ipTimes :=
      match ipKey with
      | Some i => filter (fun ts => cutoff <=? ts) (times (inMemoryIpJoinAttempts st) i)
      | None => []
      end in
    ((Z.of_nat (List.length walletTimes),
      match ipKey with Some _ => Z.of_nat (List.length ipTimes) | None => 0 end),
     {| pool := pool st; data := data st;
        join_attempts := join_attempts st;
        inMemoryWalletJoinAttempts :=
          Map_set wallet walletTimes (inMemoryWalletJoinAttempts st);
        inMemoryIpJoinAttempts :=
          match ipKey with
          | Some i => Map_set i ipTimes (inMemoryIpJoinAttempts st)
          | None => inMemoryIpJoinAttempts st
          end;
        round_processing_locks := round_processing_locks st |}).

Definition DEFAULT_STALE_AFTER_MS : Z := 15 * 60 * 1000.

(** [INSERT ... ON CONFLICT (round_id) DO UPDATE SET acquired_at_ms = ...
    WHERE round_processing_locks.acquired_at_ms < staleBefore RETURNING round_id];
    without a pool the function answers [true] at once. *)
Definition tryAcquireRoundProcessingLock (nowMs : Z) (r : string) (staleAfterMs : Z)
  (st : Store) : bool * Store :=
  if negb (pool st) then (true, st)
  else
    let staleBefore := nowMs - Z.max 1 staleAfterMs in
    match Map_get r (round_processing_locks st) with
    | None => (true, withLocks st (Map_set r nowMs (round_processing_locks st)))
    | Some acquired_at_ms =>
        if acquired_at_ms <? staleBefore
        then (true, withLocks st (Map_set r nowMs (round_processing_locks st)))
        else (false, st)
    end.

Definition releaseRoundProcessingLock (r : string) (st : Store) : Store :=
  if negb (pool st) then st
  else withLocks st (Map_delete r (round_processing_locks st)).

End RoundLedger.

(** ** lib/settlement *)

Module Settlement.
Import Oracle RoundLedger.

Record SettledRoundSummary := {
  sum_roundId : string;
  sum_mode : Mode;
  sum_winnerSide : option Direction;
  sum_feeLamports : Z;
  sum_transferCount : Z
}.

Record Recipient := {
  wallet : string;
  lamports : Z
}.

Definition FEE_BPS : Z := 600.
Definition OPEN_ENTRY_SECONDS : Z := 60.

(** [payouts[0].lamports += remainder] *)
Definition bumpFirst (remainder : Z) (payouts : list Recipient) : list Recipient :=
  match payouts with
  | [] => []
  | first :: tl => {| wallet := wallet first; lamports := lamports first + remainder |} :: tl
  end.

Definition addProRataPayouts (winners : list Recipient)
  (distributableLamports winnerStakeTotalLamports : Z) : list Recipient :=
  if (winnerStakeTotalLamports <=? 0) || (distributableLamports <=? 0)
     || (List.length winners =? 0)%nat
  then []
  else
    let payouts :=
      map (fun winner =>
             {| wallet := wallet winner;
                lamports :=
                  Math_floor (quotient (product distributableLamports (lamports winner))
                                       winnerStakeTotalLamports) |})
          winners in
    let paid := sumOf lamports payouts in
    let remainder := distributableLamports - paid in
    if (0 <? remainder) && (0 <? List.length payouts)%nat
    then bumpFirst remainder payouts else payouts.

(** One submitted transfer as the chain saw it; [sent_for] remembers the
    planned transfer the call was made for. *)
Record Sent := {
  sent_for : string;
  sent_to : string;
  sent_lamports : Z;
  sent_signature : string
}.

(** [net n recipient] is the outcome of the [n]-th call of
    [sendAndConfirmTransaction]: the signature, or [None] when it throws. *)
Definition Network : Type := nat -> Recipient -> option string.

Definition sendTransfer (net : Network) (chain : list Sent) (forId : string)
  (recipient : Recipient) : option (string * list Sent) :=
  if lamports recipient <=? 0 then Some ("skipped", chain)
  else
    match net (List.length chain) recipient with
    | Some sig =>
        Some (sig, chain ++ [{| sent_for := forId; sent_to := wallet recipient;
                                sent_lamports := lamports recipient;
                                sent_signature := sig |}])
    | None => None
    end.

(** [merged.set(entry.wallet, (merged.get(entry.wallet) ?? 0) + entry.stakeLamports)] *)
Definition mergeByWallet (entries : list LedgerEntry) : JsMap Z :=
  fold_left
    (fun merged entry =>
       Map_set (e_wallet entry)
               (match Map_get (e_wallet entry) merged with Some v => v | None => 0 end
                + e_stakeLamports entry)
               merged)
    entries [].

(** [payoutRecipients.forEach((recipient, index) => ...)] from [index] on. *)
Fixpoint payoutTransfers (index : Z) (payoutRecipients : list Recipient)
  : list PlannedTransfer :=
  match payoutRecipients with
  | [] => []
  | recipient :: rest =>
      if lamports recipient <=? 0 then payoutTransfers (index + 1) rest
      else
        {| p_id := ("payout-" ++ numToString index)%string;
           p_wallet := wallet recipient;
           p_lamports := lamports recipient;
           p_kind := payout |} :: payoutTransfers (index + 1) rest
  end.

(** Lines 246-279 of [createProcessingSettlement], the part between the two
    oracle reads and the layout of the plan: side totals, fee,
    distributable, the decision and the payout recipients.  The result is
    (mode, winnerSide, feeLamports, distributable, payoutRecipients). *)
Definition settlePayouts (startPrice endPrice : Q) (entries : list LedgerEntry)
  : Mode * option Direction * Z * Z * list Recipient :=
  let up := filter (fun item => Direction_eqb (e_direction item) UP) entries in
  let down := filter (fun item => Direction_eqb (e_direction item) DOWN) entries in
  let upLamports := sumOf e_stakeLamports up in
  let downLamports := sumOf e_stakeLamports down in
  let totalLamports := upLamports + downLamports in
  let feeLamports := (totalLamports * FEE_BPS) / 10000 in
  let distributable := Z.max 0 (totalLamports - feeLamports) in
  if (upLamports =? 0) || (downLamports =? 0) || Qeq_bool endPrice startPrice then
    let merged := mergeByWallet entries in
    let recipients := map (fun kv => {| wallet := fst kv; lamports := snd kv |}) merged in
    let recipientStakeTotal := sumOf lamports recipients in
    (REFUND, None, feeLamports, distributable,
     addProRataPayouts recipients distributable recipientStakeTotal)
  else
    let winnerSide := if Qlt_bool startPrice endPrice then UP else DOWN in
    let winners :=
      map (fun item => {| wallet := e_wallet item; lamports := e_stakeLamports item |})
          (match winnerSide with UP => up | DOWN => down end) in
    let winnerStakeTotal := sumOf lamports winners in
    (WIN, Some winnerSide, feeLamports, distributable,
     addProRataPayouts winners distributable winnerStakeTotal).

Definition createProcessingSettlement (w : OracleWorld) (nowMs : Z) (r : string)
  (entries : list LedgerEntry) (treasuryWallet signerWallet : string)
  : option RoundSettlement :=
  let market :=
    resolveMarketByFeedId (match entries with e :: _ => e_feedId e | [] => None end) in
  let roundStartMs := match entries with e :: _ => e_roundStartMs e | [] => nowMs end in
  let lockTimestampSec := (roundStartMs + OPEN_ENTRY_SECONDS * 1000) / 1000 in
  let roundEndMs := match entries with e :: _ => e_roundEndMs e | [] => nowMs end in
  match fetchOracleSnapshotAtTimestamp w (key market) (roundEndMs / 1000) with
  | None => None
  | Some endSnapshot =>
      match fetchOracleSnapshotAtTimestamp w (key market) lockTimestampSec with
      | None => None
      | Some startSnapshot =>
          let startPrice := price startSnapshot in
          let endPrice := price endSnapshot in
          let '(mode, winnerSide, feeLamports, _, payoutRecipients) :=
            settlePayouts startPrice endPrice entries in
          let feePlan :=
            if (0 <? feeLamports) && truthy treasuryWallet
               && negb (treasuryWallet =s? signerWallet)
            then [{| p_id := "fee-0"; p_wallet := treasuryWallet;
                     p_lamports := feeLamports; p_kind := fee |}]
            else [] in
          Some {| roundId := r;
                  state := Some PROCESSING;
                  settledAtMs := nowMs;
                  mode := mode;
                  winnerSide := winnerSide;
                  startPrice := startPrice;
                  endPrice := endPrice;
                  feeLamports := feeLamports;
                  plannedTransfers := Some (feePlan ++ payoutTransfers 0 payoutRecipients);
                  transfers := [] |}
      end
  end.

(** State threaded through the transfer loop of [settleDueRounds]: the
    local [settlement] variable, the ledger and the chain. *)
Record LoopState := {
  ls_settlement : RoundSettlement;
  ls_store : Store;
  ls_chain : list Sent
}.

(** [for (const transfer of planned) { ... }] of [settleDueRounds].
    The result is [inl] when the loop runs to its end and [inr] when a call
    inside it throws; both carry the state reached. *)
Fixpoint transferLoop (net : Network) (r : string) (planned : list PlannedTransfer)
  (ls : LoopState) : LoopState + LoopState :=
  match planned with
  | [] => inl ls
  | transfer :: rest =>
      let alreadySent :=
        existsb (sameId (Some (p_id transfer))) (transfers (ls_settlement ls)) in
      if alreadySent then transferLoop net r rest ls
      else
        match sendTransfer net (ls_chain ls) (p_id transfer)
                {| wallet := p_wallet transfer; lamports := p_lamports transfer |} with
        | None => inr ls
        | Some (signature, chain') =>
            if signature =s? "skipped" then
              transferLoop net r rest
                {| ls_settlement := ls_settlement ls; ls_store := ls_store ls;
                   ls_chain := chain' |}
            else
              let receipt :=
                {| t_id := Some (p_id transfer); t_wallet := p_wallet transfer;
                   t_lamports := p_lamports transfer; t_signature := signature |} in
              match appendSettlementTransfer r receipt (ls_store ls) with
              | None =>
                  inr {| ls_settlement := ls_settlement ls; ls_store := ls_store ls;
                         ls_chain := chain' |}
              | Some store' =>
                  transferLoop net r rest
                    {| ls_settlement :=
                         withTransfers (ls_settlement ls)
                           (transfers (ls_settlement ls) ++ [receipt]);
                       ls_store := store';
                       ls_chain := chain' |}
              end
        end
  end.

(** The body of the [for (const [roundId, entries] of byRound.entries())]
    loop of [settleDueRounds] for one round: lock, settle or resume, send
    the planned transfers, complete, and release the lock on every path. *)
Definition settleOneRound (w : OracleWorld) (net : Network) (nowMs : Z)
  (treasuryWallet signerWallet : string) (r : string) (entries : list LedgerEntry)
  (st : Store) (chain : list Sent) : option SettledRoundSummary * Store * list Sent :=
  let '(hasLock, st1) := tryAcquireRoundProcessingLock nowMs r DEFAULT_STALE_AFTER_MS st in
  if negb hasLock then (None, st1, chain)
  else
    let existing := findSettlement r (readLedger st1) in
    let isCompleted :=
      match existing with
      | Some s => match state s with Some COMPLETED => true | _ => false end
      | None => false
      end in
    if isCompleted then (None, releaseRoundProcessingLock r st1, chain)
    else
      let created :=
        match existing with
        | Some s => Some (s, st1)
        | None =>
            match createProcessingSettlement w nowMs r entries treasuryWallet signerWallet with
            | Some s => Some (s, addRoundSettlement s st1)
            | None => None
            end
        end in
      match created with
      | None => (None, releaseRoundProcessingLock r st1, chain)
      | Some (settlement, st2) =>
          let planned := match plannedTransfers settlement with Some l => l | None => [] end in
          match transferLoop net r planned
                  {| ls_settlement := settlement; ls_store := st2; ls_chain := chain |} with
          | inr ls => (None, releaseRoundProcessingLock r (ls_store ls), ls_chain ls)
          | inl ls =>
              let st3 := ls_store ls in
              let refreshed :=
                match findSettlement r (readLedger st3) with
                | Some s => s
                | None => ls_settlement ls
                end in
              let refreshedPlanned :=
                match plannedTransfers refreshed with Some l => l | None => [] end in
              let allSent :=
                forallb (fun transfer =>
                           existsb (sameId (Some (p_id transfer))) (transfers refreshed))
                        refreshedPlanned in
              let st4 := if allSent then markSettlementCompleted nowMs r st3 else st3 in
              (Some {| sum_roundId := r; sum_mode := mode refreshed;
                       sum_winnerSide := winnerSide refreshed;
                       sum_feeLamports := feeLamports refreshed;
                       sum_transferCount := Z.of_nat (List.length (transfers refreshed)) |},
               releaseRoundProcessingLock r st4, ls_chain ls)
          end
      end.

End Settlement.

(** ** app/api/entries/route.ts *)

Module EntriesRoute.
Import Oracle RoundLedger.

Definition OPEN_ENTRY_SECONDS : Z := 60.
Definition LOCK_SECONDS : Z := 60.
Definition ENTRY_CYCLE_SECONDS : Z := OPEN_ENTRY_SECONDS + LOCK_SECONDS.
Definition SETTLEMENT_DURATION_SECONDS : Z := 5 * 60.
Definition RATE_LIMIT_WINDOW_SECONDS : Z := 60.
Definition MAX_ATTEMPTS_PER_WALLET_PER_WINDOW : Z := 12.
Definition MAX_ATTEMPTS_PER_IP_PER_WINDOW : Z := 30.
Definition MIN_STAKE_USD : Z := 1.
Definition MAX_STAKE_USD : Z := 5000.
Definition MAX_STAKE_LAMPORTS : Z := 25 * 1000000000.
Definition ALLOWED_DIRECTIONS : list string := ["UP"; "DOWN"].
Definition ALLOWED_MARKETS : list string := map key MARKET_CONFIGS.
Definition ALLOWED_STAKES : list Z := [5; 10; 25; 50; 100; 250].

Definition has (xs : list string) (x : string) : bool :=
  existsb (fun y => y =s? x) xs.

(** The JSON payload.  The fields that the handler requires to be integers
    ([Number.isInteger]) are [Z], so that guard holds by typing; a stake in
    dollars that is not an integer is in no tier.  [joinedAtMs] is never
    validated: [None] is an absent field. *)
Record Body := {
  roundId : string;
  market : string;
  feedId : string;
  roundStartMs : Z;
  roundEndMs : Z;
  wallet : string;
  direction : string;
  stakeUsd : Z;
  stakeLamports : Z;
  signature : string;
  joinedAtMs : option Z;
  startPrice : Q
}.

Inductive Instruction :=
| SystemTransfer (source destination : string) (lamports : Z)
| SplMemo (parsed : string)
| OtherInstruction.

Record ParsedTx := {
  metaErr : bool;
  blockTime : option Z;
  instructions : list Instruction
}.

(** Process environment and RPC node.  [getParsedTransaction sig] is [None]
    when the call throws and [Some None] when the node knows no such
    transaction. *)
Record Env := {
  offchainDisabledInProduction : bool;
  escrowAddress : string;
  isPublicKey : string -> bool;
  getParsedTransaction : string -> option (option ParsedTx)
}.

Inductive ResponseBody :=
| ErrorBody (error : string)
| OkBody (created : bool).

Record Response := {
  status : Z;
  body : ResponseBody
}.

Definition reject (code : Z) (msg : string) (st : Store) : Response * Store :=
  ({| status := code; body := ErrorBody msg |}, st).

Definition toDirection (d : string) : Direction :=
  if d =s? "UP" then UP else DOWN.

(** [body.joinedAtMs || Date.now()] *)
Definition joinedAtOrNow (j : option Z) (nowMs : Z) : Z :=
  match j with
  | Some v => if v =? 0 then nowMs else v
  | None => nowMs
  end.

Definition isTransferIx (env : Env) (b : Body) (instruction : Instruction) : bool :=
  match instruction with
  | SystemTransfer source destination lamports =>
      (source =s? wallet b) && (destination =s? escrowAddress env)
      && (lamports =? stakeLamports b)
  | _ => false
  end.

Definition isMemoIx (expectedMemo : string) (instruction : Instruction) : bool :=
  match instruction with
  | SplMemo parsed => parsed =s? expectedMemo
  | _ => false
  end.

Definition POST (env : Env) (nowMs : Z) (clientIp : option string) (b : Body)
  (st : Store) : Response * Store :=
  if offchainDisabledInProduction env then
    reject 503 "Real-money off-chain custody mode is disabled in production. Enable on-chain program mode." st
  else if negb (truthy (roundId b)) || negb (truthy (market b)) || negb (truthy (feedId b))
          || negb (truthy (wallet b)) || negb (truthy (direction b))
          || negb (truthy (signature b))
  then reject 400 "Invalid entry payload" st
  else if negb (has ALLOWED_DIRECTIONS (direction b)) then
    reject 400 "Invalid direction." st
  else if negb (has ALLOWED_MARKETS (market b)) then
    reject 400 "Invalid market." st
  else if negb (existsb (fun x => x =? stakeUsd b) ALLOWED_STAKES) then
    reject 400 "Invalid stake tier." st
  else if (stakeUsd b <? MIN_STAKE_USD) || (MAX_STAKE_USD <? stakeUsd b)
          || (stakeLamports b <=? 0) || (MAX_STAKE_LAMPORTS <? stakeLamports b)
  then reject 400 "Stake amount is outside allowed range." st
  else
    let expectedRoundId :=
      (market b ++ "-" ++ numToString (roundStartMs b / 1000) ++ "-5m")%string in
    if negb (roundId b =s? expectedRoundId) then
      reject 400 "Round ID does not match round start." st
    else if negb (Z.rem (roundStartMs b) (ENTRY_CYCLE_SECONDS * 1000) =? 0) then
      reject 400 "Round start is not aligned to cycle boundary." st
    else
      let expectedRoundEndMs :=
        roundStartMs b + (OPEN_ENTRY_SECONDS + SETTLEMENT_DURATION_SECONDS) * 1000 in
      if negb (roundEndMs b =? expectedRoundEndMs) then
        reject 400 "Round end does not match configured duration." st
      else if negb (isPublicKey env (wallet b)) then
        reject 400 "Invalid wallet address" st
      else
        let st1 := recordJoinAttempt nowMs (wallet b) clientIp st in
        let '((walletCount, ipCount), st2) :=
          countRecentJoinAttempts nowMs (wallet b) clientIp RATE_LIMIT_WINDOW_SECONDS st1 in
        if (MAX_ATTEMPTS_PER_WALLET_PER_WINDOW <? walletCount)
           || (MAX_ATTEMPTS_PER_IP_PER_WINDOW <? ipCount)
        then reject 429 "Too many requests. Slow down and try again." st2
        else if hasLedgerEntrySignature (signature b) st2 then
          ({| status := 200; body := OkBody false |}, st2)
        else
          let marketCfg := resolveMarketByKey (Some (market b)) in
          if negb (Oracle.feedId marketCfg =s? feedId b) then
            reject 400 "Market feed mismatch" st2
          else
            match getParsedTransaction env (signature b) with
            | None => reject 500 "Unknown entries error" st2
            | Some None => reject 400 "Transaction not confirmed onchain" st2
            | Some (Some parsedTx) =>
                if metaErr parsedTx then
                  reject 400 "Transaction not confirmed onchain" st2
                else
                  match blockTime parsedTx with
                  | None =>
                      reject 400 "Transaction block time unavailable for join-window validation." st2
                  | Some bt =>
                      let txMs := bt * 1000 in
                      let lockMs := roundStartMs b + OPEN_ENTRY_SECONDS * 1000 in
                      if (txMs <? roundStartMs b) || (lockMs <=? txMs) then
                        reject 400 "Transaction was not submitted during open entry window." st2
                      else if negb (existsb (isTransferIx env b) (instructions parsedTx)) then
                        reject 400 "Onchain transfer does not match entry payload" st2
                      else
                        let expectedMemo :=
                          ("PANCHO|" ++ market b ++ "|" ++ roundId b ++ "|" ++ direction b
                           ++ "|" ++ numToString (stakeUsd b))%string in
                        if negb (existsb (isMemoIx expectedMemo) (instructions parsedTx)) then
                          reject 400 "Onchain memo does not match entry payload" st2
                        else
                          let '(created, st3) :=
                            addLedgerEntry
                              {| e_roundId := roundId b;
                                 e_market := Some (market b);
                                 e_feedId := Some (feedId b);
                                 e_roundStartMs := roundStartMs b;
                                 e_roundEndMs := roundEndMs b;
                                 e_wallet := wallet b;
                                 e_direction := toDirection (direction b);
                                 e_stakeUsd := stakeUsd b;
                                 e_stakeLamports := stakeLamports b;
                                 e_signature := signature b;
                                 e_joinedAtMs := joinedAtOrNow (joinedAtMs b) nowMs;
                                 e_startPrice := 0;
                                 e_clientIp := clientIp |} st2 in
                          ({| status := 200; body := OkBody created |}, st3)
                  end
            end.

End EntriesRoute.

(** ** Words of the specification and reachable states *)

Module Shares.

(** The floor share of every recipient, before the remainder is placed:
    the array [prepared] of [proRataCents] and [payouts] of
    [addProRataPayouts] right after the [map]. *)
Definition floorShares (recipients : list SimSettlement.Recipient) (d W : Z)
  : list SimSettlement.Recipient :=
  map (fun item => {| SimSettlement.entryId := SimSettlement.entryId item;
                      SimSettlement.cents := (d * SimSettlement.cents item) / W |})
      recipients.

Definition floorPayouts (winners : list Settlement.Recipient) (d W : Z)
  : list Settlement.Recipient :=
  map (fun winner =>
         {| Settlement.wallet := Settlement.wallet winner;
            Settlement.lamports :=
              Math_floor (quotient (product d (Settlement.lamports winner)) W) |})
      winners.

(** The side totals [upLamports] and [downLamports] of
    [createProcessingSettlement]. *)
Definition upLamportsOf (entries : list RoundLedger.LedgerEntry) : Z :=
  sumOf RoundLedger.e_stakeLamports
        (filter (fun item => RoundLedger.Direction_eqb (RoundLedger.e_direction item)
                                                       RoundLedger.UP) entries).

Definition downLamportsOf (entries : list RoundLedger.LedgerEntry) : Z :=
  sumOf RoundLedger.e_stakeLamports
        (filter (fun item => RoundLedger.Direction_eqb (RoundLedger.e_direction item)
                                                       RoundLedger.DOWN) entries).

End Shares.

Module Canonical.
Import SimLedger.

(** The order the specification calls canonical: ascending [joined_at],
    ties broken by entry identity. *)
Definition canonLe (a b : SimEntry) : bool :=
  (joinedAtMs a <? joinedAtMs b)
  || ((joinedAtMs a =? joinedAtMs b) && String.leb (id a) (id b)).

Fixpoint insertCanon (e : SimEntry) (l : list SimEntry) : list SimEntry :=
  match l with
  | [] => [e]
  | x :: tl => if canonLe e x then e :: l else x :: insertCanon e tl
  end.

Definition canonicalOrder (rows : list SimEntry) : list SimEntry :=
  fold_right insertCanon [] rows.

End Canonical.

Module SimReach.
Import Oracle SimLedger SimSettlement.

(** States of the sim database that the program can produce: entries come
    in through [addSimEntry], settlements through [settleSimRoundOnce];
    nothing deletes a row. *)
Inductive reachable : SimDb -> Prop :=
| reach_empty : reachable emptyDb
| reach_add : forall db entry,
    reachable db -> reachable (snd (addSimEntry entry db))
| reach_settle : forall db w nowMs r,
    reachable db -> reachable (snd (settleSimRoundOnce w nowMs r db)).

(** [later db db']: the program has taken the database from [db] to [db'],
    by any number of added entries and settled rounds, at any times and
    under any oracle. *)
Inductive later : SimDb -> SimDb -> Prop :=
| later_now : forall db, later db db
| later_add : forall db db' entry,
    later db db' -> later db (snd (addSimEntry entry db'))
| later_settle : forall db db' w nowMs r,
    later db db' -> later db (snd (settleSimRoundOnce w nowMs r db')).

End SimReach.

Module LedgerReach.
Import RoundLedger.

(** The receipts stored for the pair (round, transfer id). *)
Definition receiptsOf (r i : string) (d : LedgerData) : list TransferRecord :=
  flat_map (fun s => if roundId s =s? r
                     then filter (sameId (Some i)) (transfers s) else [])
           (settlements d).

(** At most one receipt per transfer id inside every settlement, and one
    settlement per round. *)
Definition receiptsUnique (d : LedgerData) : Prop :=
  NoDup (map roundId (settlements d))
  /\ forall s, In s (settlements d) ->
       forall i, i <> "" ->
         (List.length (filter (sameId (Some i)) (transfers s)) <= 1)%nat.

(** States of the custody ledger that the program can produce.  A new
    settlement carries no receipts ([createProcessingSettlement] builds it
    with [transfers: []]). *)
Inductive reachable : Store -> Prop :=
| reach_init : forall p,
    reachable {| pool := p; data := EMPTY_LEDGER; join_attempts := [];
                 inMemoryWalletJoinAttempts := []; inMemoryIpJoinAttempts := [];
                 round_processing_locks := [] |}
| reach_entry : forall st entry,
    reachable st -> reachable (snd (addLedgerEntry entry st))
| reach_settlement : forall st s,
    reachable st -> transfers s = [] -> reachable (addRoundSettlement s st)
| reach_receipt : forall st st' r transfer,
    reachable st -> appendSettlementTransfer r transfer st = Some st' -> reachable st'
| reach_completed : forall st nowMs r,
    reachable st -> reachable (markSettlementCompleted nowMs r st)
| reach_attempt : forall st nowMs wallet ip,
    reachable st -> reachable (recordJoinAttempt nowMs wallet ip st)
| reach_count : forall st nowMs wallet ip window,
    reachable st -> reachable (snd (countRecentJoinAttempts nowMs wallet ip window st))
| reach_lock : forall st nowMs r stale,
    reachable st -> reachable (snd (tryAcquireRoundProcessingLock nowMs r stale st))
| reach_release : forall st r,
    reachable st -> reachable (releaseRoundProcessingLock r st).

End LedgerReach.

(** ** More of the code: queries, batch settlement, guards and routes *)

Module JsMore.

(** [new Set<string>()]: [add] keeps the first occurrence, iteration is in
    insertion order. *)
Definition Set_has (x : string) (s : list string) : bool :=
  existsb (fun y => y =s? x) s.

Definition Set_add (x : string) (s : list string) : list string :=
  if Set_has x s then s else s ++ [x].

(** [[...new Set(xs)]] *)
Definition Set_from (xs : list string) : list string :=
  fold_left (fun s x => Set_add x s) xs [].

(** [xs.slice(0, end)] for an integer [end]: a negative [end] counts from
    the end of the array. *)
Definition slice0 {A : Type} (endIdx : Z) (xs : list A) : list A :=
  if endIdx <? 0
  then firstn (Z.to_nat (Z.max 0 (Z.of_nat (List.length xs) + endIdx))) xs
  else firstn (Z.to_nat endIdx) xs.

(** [Math.ceil(x / 1000)] for an integer [x]. *)
Definition ceilDiv1000 (x : Z) : Z := - ((- x) / 1000).

End JsMore.
Import JsMore.

(** *** lib/sim-ledger.ts: the other queries *)

Module SimLedgerQueries.
Import SimLedger.

(** [SELECT ... FROM sim_entries ORDER BY joined_at_ms DESC] *)
Definition readSimLedger (db : SimDb) : list SimEntry :=
  orderByDesc joinedAtMs (sim_entries db).

(** [SELECT ... WHERE wallet = ? ORDER BY joined_at_ms DESC] *)
Definition readSimWalletEntries (w : string) (db : SimDb) : list SimEntry :=
  orderByDesc joinedAtMs (filter (fun row => wallet row =s? w) (sim_entries db)).

(** All the entries of the rounds the wallet has joined. *)
Definition readSimLedgerForWallet (w : string) (db : SimDb) : list SimEntry :=
  let roundIds :=
    Set_from (map roundId (filter (fun row => wallet row =s? w) (sim_entries db))) in
  if (List.length roundIds =? 0)%nat then []
  else
    orderByDesc joinedAtMs
      (filter (fun row => Set_has (roundId row) roundIds) (sim_entries db)).

Record SimRoundPoolStats := {
  ps_roundId : string;
  ps_market : string;
  totalBucks : Q;
  upBucks : Q;
  downBucks : Q;
  players : Z;
  ps_entries : Z
}.

(** The loop of [readSimRoundPoolStats] over the rows of the round:
    (upBucks, downBucks, wallets). *)
Definition poolStep (acc : Q * Q * list string) (item : SimEntry)
  : Q * Q * list string :=
  let '(up, down, wallets) := acc in
  let wallets := Set_add (wallet item) wallets in
  match direction item with
  | UP => ((up + stakeBucks item)%Q, down, wallets)
  | DOWN => (up, (down + stakeBucks item)%Q, wallets)
  end.

Definition readSimRoundPoolStats (r : string) (db : SimDb) : option SimRoundPoolStats :=
  let items := filter (fun row => roundId row =s? r) (sim_entries db) in
  match items with
  | [] => None
  | first :: _ =>
      let '(up, down, wallets) := fold_left poolStep items (0%Q, 0%Q, []) in
      Some {| ps_roundId := r;
              ps_market := market first;
              totalBucks := (up + down)%Q;
              upBucks := up;
              downBucks := down;
              players := Z.of_nat (List.length wallets);
              ps_entries := Z.of_nat (List.length items) |}
  end.

End SimLedgerQueries.

(** *** lib/sim-settlement.ts: settling everything that is due *)

Module SimBatch.
Import Oracle SimLedger SimSettlement SimLedgerQueries.

Record DueSimResult := {
  checked : Z;
  settled : Z;
  rounds : list string
}.

(** The [for (const roundId of dueRoundIds)] loop of [settleDueSimRounds];
    the state is the database, the counter [settled] and [settledRoundIds]. *)
Fixpoint settleDueLoop (w : OracleWorld) (nowMs : Z) (dueRoundIds : list string)
  (db : SimDb) (settled : Z) (settledRoundIds : list string)
  : SimDb * Z * list string :=
  match dueRoundIds with
  | [] => (db, settled, settledRoundIds)
  | r :: rest =>
      match readSimRoundSettlement r db with
      | Some _ => settleDueLoop w nowMs rest db settled settledRoundIds
      | None =>
          let '(result, db') := settleSimRoundOnce w nowMs r db in
          match result with
          | Some _ => settleDueLoop w nowMs rest db' (settled + 1) (settledRoundIds ++ [r])
          | None => settleDueLoop w nowMs rest db' settled settledRoundIds
          end
      end
  end.

Definition dueRoundIdsOf (nowMs limit : Z) (db : SimDb) : list string :=
  slice0 limit
    (Set_from (map roundId
                   (filter (fun entry => roundEndMs entry <=? nowMs) (readSimLedger db)))).

Definition settleDueSimRounds (w : OracleWorld) (nowMs limit : Z) (db : SimDb)
  : DueSimResult * SimDb :=
  let dueRoundIds := dueRoundIdsOf nowMs limit db in
  let '(db', settled, settledRoundIds) :=
    settleDueLoop w nowMs dueRoundIds db 0 [] in
  ({| checked := Z.of_nat (List.length dueRoundIds);
      settled := settled;
      rounds := settledRoundIds |}, db').

End SimBatch.

(** *** lib/settlement: the treasury lock and the run over all due rounds *)

Module SettlementRun.
Import Oracle RoundLedger Settlement.

(** Process environment of the settlement.  [payoutSigner] is the public
    key of the key pair [loadPayoutSigner] reads ([None]: it throws);
    [toBase58 s] is [new PublicKey(s).toBase58()] ([None]: the constructor
    throws). *)
Record SettleEnv := {
  TREASURY_WALLET : option string;
  PANCHO_TREASURY_WALLET : option string;
  PANCHO_EXPECTED_TREASURY_WALLET : option string;
  payoutSigner : option string;
  toBase58 : string -> option string
}.

Definition resolveTreasuryWallet (env : SettleEnv) (signer : string) : option string :=
  let configured :=
    match TREASURY_WALLET env with
    | Some v => v
    | None => match PANCHO_TREASURY_WALLET env with Some v => v | None => signer end
    end in
  match toBase58 env configured with
  | None => None
  | Some configuredPk =>
      match PANCHO_EXPECTED_TREASURY_WALLET env with
      | Some expected =>
          if truthy expected then
            match toBase58 env expected with
            | None => None
            | Some expectedPk =>
                if configuredPk =s? expectedPk then Some configuredPk else None
            end
          else Some configuredPk
      | None => Some configuredPk
      end
  end.

(** [byRound]: the entries of the rounds that are over, by round, in the
    order the rounds first appear. *)
Definition groupDue (nowMs : Z) (entries : list LedgerEntry) : JsMap (list LedgerEntry) :=
  fold_left
    (fun byRound entry =>
       if nowMs <? e_roundEndMs entry then byRound
       else
         Map_set (e_roundId entry)
                 (match Map_get (e_roundId entry) byRound with
                  | Some current => current
                  | None => []
                  end ++ [entry])
                 byRound)
    entries [].

Fixpoint settleRounds (w : OracleWorld) (net : Network) (nowMs : Z)
  (treasuryWallet signerWallet : string) (byRound : JsMap (list LedgerEntry))
  (st : Store) (chain : list Sent) (summaries : list SettledRoundSummary)
  : list SettledRoundSummary * Store * list Sent :=
  match byRound with
  | [] => (summaries, st, chain)
  | (r, entries) :: rest =>
      let '(summary, st', chain') :=
        settleOneRound w net nowMs treasuryWallet signerWallet r entries st chain in
      settleRounds w net nowMs treasuryWallet signerWallet rest st' chain'
        (match summary with Some s => summaries ++ [s] | None => summaries end)
  end.

(** One run of [settleDueRounds]; the first component is [None] when the
    run throws. *)
Definition settleDueRounds (env : SettleEnv) (w : OracleWorld) (net : Network)
  (nowMs : Z) (st : Store) (chain : list Sent)
  : option (list SettledRoundSummary) * Store * list Sent :=
  let ledger := readLedger st in
  let byRound := groupDue nowMs (entries ledger) in
  if (List.length byRound =? 0)%nat then (Some [], st, chain)
  else
    match payoutSigner env with
    | None => (None, st, chain)
    | Some signer =>
        match resolveTreasuryWallet env signer with
        | None => (None, st, chain)
        | Some treasuryWallet =>
            let '(summaries, st', chain') :=
              settleRounds w net nowMs treasuryWallet signer byRound st chain [] in
            (Some summaries, st', chain')
        end
    end.

End SettlementRun.

(** ** Settlement attempts around the round lock *)

Module LockProtocol.
Import RoundLedger.

(** What the settlement runs of the cluster do to the lock of a round, as
    [settleDueRounds] has it: a run calls [tryAcquireRoundProcessingLock]
    with the default stale time, and a run that was granted the lock calls
    [releaseRoundProcessingLock] in its [finally].  An attempt is in flight
    from its grant to its release; it is named by its round and by the time
    of the grant. *)
Inductive LockEvent :=
| Acquire (r : string) (nowMs : Z)
| Release (r : string) (grantedAtMs : Z).

Record Cluster := {
  c_store : Store;
  c_inFlight : list (string * Z)
}.

Definition isAttempt (r : string) (grantedAtMs : Z) (a : string * Z) : bool :=
  (fst a =s? r) && (snd a =? grantedAtMs).

Definition lockStep (ev : LockEvent) (c : Cluster) : Cluster :=
  match ev with
  | Acquire r nowMs =>
      let '(hasLock, st) :=
        tryAcquireRoundProcessingLock nowMs r DEFAULT_STALE_AFTER_MS (c_store c) in
      {| c_store := st;
         c_inFlight := if hasLock then (r, nowMs) :: c_inFlight c else c_inFlight c |}
  | Release r grantedAtMs =>
      if existsb (isAttempt r grantedAtMs) (c_inFlight c)
      then {| c_store := releaseRoundProcessingLock r (c_store c);
              c_inFlight :=
                filter (fun a => negb (isAttempt r grantedAtMs a)) (c_inFlight c) |}
      else c
  end.

Definition lockRun (evs : list LockEvent) (c : Cluster) : Cluster :=
  fold_left (fun c ev => lockStep ev c) evs c.

(** The attempts in flight on one round. *)
Definition inFlightOn (r : string) (c : Cluster) : list (string * Z) :=
  filter (fun a => fst a =s? r) (c_inFlight c).

(** No attempt in flight on the round has outlived the stale time at
    [nowMs]. *)
Definition noneStale (nowMs : Z) (r : string) (c : Cluster) : bool :=
  forallb (fun a => nowMs - Z.max 1 DEFAULT_STALE_AFTER_MS <=? snd a) (inFlightOn r c).

(** Every acquisition of the run comes while the attempts in flight on its
    round are younger than the stale time: every run reaches its [finally]
    before its lock row goes stale. *)
Fixpoint timely (evs : list LockEvent) (c : Cluster) : bool :=
  match evs with
  | [] => true
  | ev :: rest =>
      match ev with
      | Acquire r nowMs => noneStale nowMs r c
      | Release _ _ => true
      end && timely rest (lockStep ev c)
  end.

(** What holds of the cluster as long as every run is timely: the attempts
    in flight are pairwise different, and each one owns the lock row of its
    round. *)
Definition owned (c : Cluster) : Prop :=
  pool (c_store c) = true
  /\ NoDup (c_inFlight c)
  /\ (forall r t, In (r, t) (c_inFlight c) ->
        Map_get r (round_processing_locks (c_store c)) = Some t).

End LockProtocol.

(** *** lib/api-guards.ts *)

Module ApiGuards.

Record RateWindow := {
  count : Z;
  resetAtMs : Z
}.

Record Guards := {
  buckets : JsMap RateWindow;
  lastSweepMs : Z
}.

Definition noGuards : Guards := {| buckets := []; lastSweepMs := 0 |}.

Definition SWEEP_INTERVAL_MS : Z := 60000.

Definition sweepExpired (nowMs : Z) (g : Guards) : Guards :=
  if nowMs - lastSweepMs g <? SWEEP_INTERVAL_MS then g
  else {| buckets := filter (fun kv => negb (resetAtMs (snd kv) <=? nowMs)) (buckets g);
          lastSweepMs := nowMs |}.

Inductive RateLimitResult :=
| RateOk
| RateDenied (retryAfterSec : Z).

Definition checkRateLimit (key : string) (limit windowMs nowMs : Z) (g : Guards)
  : RateLimitResult * Guards :=
  let g := sweepExpired nowMs g in
  let fresh :=
    (RateOk,
     {| buckets := Map_set key {| count := 1; resetAtMs := nowMs + windowMs |} (buckets g);
        lastSweepMs := lastSweepMs g |}) in
  match Map_get key (buckets g) with
  | None => fresh
  | Some current =>
      if resetAtMs current <=? nowMs then fresh
      else if limit <=? count current then
        (RateDenied (Z.max 1 (ceilDiv1000 (resetAtMs current - nowMs))), g)
      else
        (RateOk,
         {| buckets := Map_set key {| count := count current + 1;
                                      resetAtMs := resetAtMs current |} (buckets g);
            lastSweepMs := lastSweepMs g |})
  end.

(** Calls for one key at the given times, one after the other; the
    answers are in call order. *)
Fixpoint checkMany (key : string) (limit windowMs : Z) (times : list Z) (g : Guards)
  : list RateLimitResult * Guards :=
  match times with
  | [] => ([], g)
  | nowMs :: rest =>
      let '(r, g1) := checkRateLimit key limit windowMs nowMs g in
      let '(rs, g2) := checkMany key limit windowMs rest g1 in
      (r :: rs, g2)
  end.

Definition isOk (r : RateLimitResult) : bool :=
  match r with RateOk => true | RateDenied _ => false end.

End ApiGuards.

(** *** The route that takes sim entries *)

Module SimEntriesRoute.
Import Oracle SimLedger ApiGuards.

Definition OPEN_ENTRY_SECONDS : Z := 60.
Definition LOCK_SECONDS : Z := 60.
Definition ENTRY_CYCLE_SECONDS : Z := OPEN_ENTRY_SECONDS + LOCK_SECONDS.
Definition SETTLEMENT_DURATION_SECONDS : Z := 5 * 60.
Definition ALLOWED_DIRECTIONS : list string := ["UP"; "DOWN"].
Definition ALLOWED_MARKETS : list string := map key MARKET_CONFIGS.
Definition FEED_BY_MARKET (k : string) : option string :=
  option_map Oracle.feedId (find (fun m => key m =s? k) MARKET_CONFIGS).
Definition ALLOWED_STAKES : list Z := [5; 10; 25; 50; 100; 250].
Definition MAX_ENTRY_ID_LEN : nat := 128.

(** The JSON payload; integer fields are [Z] as in the custody route, and
    a [joinedAtMs] that is not a finite number is [None]. *)
Record Body := {
  id : string;
  roundId : string;
  market : string;
  feedId : string;
  roundStartMs : Z;
  roundEndMs : Z;
  wallet : string;
  direction : string;
  stakeBucks : Z;
  joinedAtMs : option Z
}.

(** Environment: the pause flag, the four rate-limit settings read with
    [Number(process.env.X ?? default)], and the public-key check. *)
Record Env := {
  PANCHO_PAUSE_JOINS : bool;
  ipLimit : Z;
  ipWindowMs : Z;
  walletLimit : Z;
  walletWindowMs : Z;
  isPublicKey : string -> bool
}.

Inductive ResponseBody :=
| ErrorBody (error : string)
| TooMany (error : string) (retryAfterSec : Z)
| OkBody (created : bool).

Record Response := {
  status : Z;
  body : ResponseBody
}.

Record State := {
  guards : Guards;
  db : SimDb
}.

Definition toDirection (d : string) : SimDirection :=
  if d =s? "UP" then UP else DOWN.

Definition has (xs : list string) (x : string) : bool :=
  existsb (fun y => y =s? x) xs.

Definition POST (env : Env) (nowMs : Z) (ip : string) (b : Body) (st : State)
  : Response * State :=
  if PANCHO_PAUSE_JOINS env then
    ({| status := 503; body := ErrorBody "Joins are temporarily paused." |}, st)
  else
    let '(ipRate, g1) :=
      checkRateLimit ("sim-entries:ip:" ++ ip)%string (ipLimit env) (ipWindowMs env)
                     nowMs (guards st) in
    let st1 := {| guards := g1; db := db st |} in
    match ipRate with
    | RateDenied retryAfterSec =>
        ({| status := 429;
            body := TooMany "Too many join attempts from this IP." retryAfterSec |}, st1)
    | RateOk =>
        if negb (truthy (id b)) || negb (truthy (roundId b)) || negb (truthy (market b))
           || negb (truthy (feedId b)) || negb (truthy (wallet b))
           || negb (truthy (direction b))
           || match joinedAtMs b with Some _ => false | None => true end
        then ({| status := 400; body := ErrorBody "Invalid sim entry payload" |}, st1)
        else if (MAX_ENTRY_ID_LEN <? String.length (id b))%nat then
          ({| status := 400; body := ErrorBody "Entry id too long." |}, st1)
        else if negb (has ALLOWED_DIRECTIONS (direction b)) then
          ({| status := 400; body := ErrorBody "Invalid direction." |}, st1)
        else if negb (has ALLOWED_MARKETS (market b)) then
          ({| status := 400; body := ErrorBody "Invalid market." |}, st1)
        else if match FEED_BY_MARKET (market b) with
                | Some expectedFeedId =>
                    negb (truthy expectedFeedId) || negb (feedId b =s? expectedFeedId)
                | None => true
                end
        then ({| status := 400;
                 body := ErrorBody "Invalid oracle feed for selected market." |}, st1)
        else if negb (existsb (fun x => x =? stakeBucks b) ALLOWED_STAKES) then
          ({| status := 400; body := ErrorBody "Invalid Pancho Bucks tier." |}, st1)
        else
          let expectedRoundId :=
            (market b ++ "-" ++ numToString (roundStartMs b / 1000) ++ "-5m")%string in
          if negb (roundId b =s? expectedRoundId) then
            ({| status := 400; body := ErrorBody "Round ID does not match round start." |},
             st1)
          else if negb (Z.rem (roundStartMs b) (ENTRY_CYCLE_SECONDS * 1000) =? 0) then
            ({| status := 400;
                body := ErrorBody "Round start is not aligned to cycle boundary." |}, st1)
          else
            let expectedRoundEndMs :=
              roundStartMs b + (OPEN_ENTRY_SECONDS + SETTLEMENT_DURATION_SECONDS) * 1000 in
            if negb (roundEndMs b =? expectedRoundEndMs) then
              ({| status := 400;
                  body := ErrorBody "Round end does not match configured duration." |}, st1)
            else
              let lockMs := roundStartMs b + OPEN_ENTRY_SECONDS * 1000 in
              let nowInOpenWindow := (roundStartMs b <=? nowMs) && (nowMs <? lockMs) in
              if negb nowInOpenWindow then
                ({| status := 400; body := ErrorBody "Sim round is not open right now." |},
                 st1)
              else if negb (isPublicKey env (wallet b)) then
                ({| status := 400; body := ErrorBody "Invalid wallet address" |}, st1)
              else
                let '(walletRate, g2) :=
                  checkRateLimit ("sim-entries:wallet:" ++ wallet b)%string
                                 (walletLimit env) (walletWindowMs env) nowMs g1 in
                let st2 := {| guards := g2; db := db st |} in
                match walletRate with
                | RateDenied retryAfterSec =>
                    ({| status := 429;
                        body := TooMany "Too many join attempts from this wallet."
                                        retryAfterSec |}, st2)
                | RateOk =>
                    let '(created, db') :=
                      addSimEntry
                        {| SimLedger.id := id b;
                           SimLedger.roundId := roundId b;
                           SimLedger.market := market b;
                           SimLedger.feedId := feedId b;
                           SimLedger.roundStartMs := roundStartMs b;
                           SimLedger.roundEndMs := roundEndMs b;
                           SimLedger.wallet := wallet b;
                           SimLedger.direction := toDirection (direction b);
                           SimLedger.stakeBucks := inject_Z (stakeBucks b);
                           SimLedger.joinedAtMs := nowMs |} (db st) in
                    ({| status := 200; body := OkBody created |},
                     {| guards := g2; db := db' |})
                end
    end.

End SimEntriesRoute.

(** *** lib/auth and the route that triggers the sim settlement *)

Module SimSettleRoute.
Import Oracle SimLedger SimBatch.

(** Strings stand for their UTF-8 bytes, so the two buffers are the
    strings themselves and [timingSafeEqual] is their equality. *)
Definition safeHeaderSecretMatch (expected provided : option string) : bool :=
  match expected, provided with
  | Some e, Some p =>
      if negb (truthy e) || negb (truthy p) then false
      else (String.length e =? String.length p)%nat && (e =s? p)
  | _, _ => false
  end.

Record Env := {
  PANCHO_PAUSE_SIM_SETTLEMENTS : bool;
  SIM_SETTLE_API_KEY : option string;
  PANCHO_SIM_SETTLE_LIMIT : Z
}.

Inductive ResponseBody :=
| ErrorBody (error : string)
| Settled (result : DueSimResult).

Record Response := {
  status : Z;
  body : ResponseBody
}.

(** [header] is the value of [x-sim-settle-key], [None] when it is absent. *)
Definition POST (env : Env) (w : OracleWorld) (nowMs : Z) (header : option string)
  (db : SimDb) : Response * SimDb :=
  if PANCHO_PAUSE_SIM_SETTLEMENTS env then
    ({| status := 503; body := ErrorBody "Sim settlements are paused." |}, db)
  else if negb (safeHeaderSecretMatch (SIM_SETTLE_API_KEY env) header) then
    ({| status := 401; body := ErrorBody "Unauthorized" |}, db)
  else
    let '(result, db') := settleDueSimRounds w nowMs (PANCHO_SIM_SETTLE_LIMIT env) db in
    ({| status := 200; body := Settled result |}, db').

End SimSettleRoute.

(** *** app/api/ops/health/route.ts: the due rounds *)

Module OpsHealth.
Import SimLedger.

(** The loop of [distinctDueRounds] with its [out] and [seen]; [break]
    ends it as soon as [out] has [limit] elements. *)
Fixpoint distinctLoop (entries : list SimEntry) (nowMs limit : Z)
  (out : list (string * Z)) (seen : list string) : list (string * Z) :=
  match entries with
  | [] => out
  | entry :: rest =>
      if nowMs <? roundEndMs entry then distinctLoop rest nowMs limit out seen
      else if Set_has (roundId entry) seen then distinctLoop rest nowMs limit out seen
      else
        let seen := Set_add (roundId entry) seen in
        let out := out ++ [(roundId entry, roundEndMs entry)] in
        if limit <=? Z.of_nat (List.length out) then out
        else distinctLoop rest nowMs limit out seen
  end.

Definition distinctDueRounds (entries : list SimEntry) (nowMs limit : Z)
  : list (string * Z) :=
  distinctLoop entries nowMs limit [] [].

End OpsHealth.

(** *** The on-chain client: what a position is worth *)

Module OnchainClient.

Record OnchainRoundState := {
  status : Z;
  winnerSide : Z;
  lockTs : Z;
  endTs : Z;
  distributableLamports : Z;
  upTotal : Z;
  downTotal : Z
}.

Record OnchainPositionState := {
  side : Z;
  amountLamports : Z;
  claimed : bool
}.

(** [bigint] division truncates; the operands are never negative here. *)
Definition estimatePositionPayoutLamports (round : OnchainRoundState)
  (position : OnchainPositionState) : Z :=
  if amountLamports position =? 0 then 0
  else
    let total := upTotal round + downTotal round in
    if (total <=? 0) || (distributableLamports round <=? 0) then 0
    else if winnerSide round =? 255 then
      Z.quot (amountLamports position * distributableLamports round) total
    else if negb (side position =? winnerSide round) then 0
    else
      let winnerTotal :=
        if winnerSide round =? 0 then upTotal round else downTotal round in
      if winnerTotal <=? 0 then 0
      else Z.quot (amountLamports position * distributableLamports round) winnerTotal.

End OnchainClient.

(** *** States of the rate limiter *)

Module GuardsReach.
Import ApiGuards.

(** The module state of lib/api-guards.ts starts empty and changes only
    through [checkRateLimit]. *)
Inductive reachable : Guards -> Prop :=
| reach_none : reachable noGuards
| reach_check : forall g key limit windowMs nowMs,
    reachable g -> reachable (snd (checkRateLimit key limit windowMs nowMs g)).

End GuardsReach.

(** * Properties *)

(** ** Sums, maps and floors *)

Module JsFacts.

Lemma fold_add_acc {A : Type} (f : A -> Z) (xs : list A) (a : Z) :
  fold_left (fun sum x => sum + f x) xs a = a + sumOf f xs.
Proof.
  unfold sumOf. revert a.
  induction xs as [|x xs IH]; intro a; cbn [fold_left].
  - lia.
  - rewrite (IH (a + f x)), (IH (0 + f x)). lia.
Qed.

Lemma sumOf_nil {A : Type} (f : A -> Z) : sumOf f [] = 0.
Proof. reflexivity. Qed.

Lemma sumOf_cons {A : Type} (f : A -> Z) (x : A) (xs : list A) :
  sumOf f (x :: xs) = f x + sumOf f xs.
Proof. unfold sumOf at 1. cbn [fold_left]. rewrite fold_add_acc. lia. Qed.

Lemma sumOf_app {A : Type} (f : A -> Z) (xs ys : list A) :
  sumOf f (xs ++ ys) = sumOf f xs + sumOf f ys.
Proof.
  induction xs as [|x xs IH]; cbn [app].
  - rewrite sumOf_nil. lia.
  - rewrite !sumOf_cons, IH. lia.
Qed.

Lemma sumOf_map {A B : Type} (g : A -> B) (f : B -> Z) (xs : list A) :
  sumOf f (map g xs) = sumOf (fun x => f (g x)) xs.
Proof.
  induction xs as [|x xs IH]; cbn [map].
  - reflexivity.
  - rewrite !sumOf_cons, IH. reflexivity.
Qed.

Lemma sumOf_ext {A : Type} (f g : A -> Z) (xs : list A) :
  (forall x, In x xs -> f x = g x) -> sumOf f xs = sumOf g xs.
Proof.
  induction xs as [|x xs IH]; intro H.
  - reflexivity.
  - rewrite !sumOf_cons.
    rewrite (H x) by (left; reflexivity).
    rewrite IH by (intros y Hy; apply H; right; exact Hy).
    reflexivity.
Qed.

Lemma sumOf_nonneg {A : Type} (f : A -> Z) (xs : list A) :
  (forall x, In x xs -> 0 <= f x) -> 0 <= sumOf f xs.
Proof.
  induction xs as [|x xs IH]; intro H.
  - rewrite sumOf_nil. lia.
  - rewrite sumOf_cons.
    assert (0 <= f x) by (apply H; simpl; auto).
    assert (0 <= sumOf f xs) by (apply IH; intros; apply H; simpl; auto).
    lia.
Qed.

Lemma sumOf_pos {A : Type} (f : A -> Z) (xs : list A) :
  xs <> [] -> (forall x, In x xs -> 0 < f x) -> 0 < sumOf f xs.
Proof.
  destruct xs as [|x xs]; intros Hne H; [congruence|].
  rewrite sumOf_cons.
  assert (0 < f x) by (apply H; simpl; auto).
  assert (0 <= sumOf f xs).
  { apply sumOf_nonneg. intros y Hy. apply Z.lt_le_incl, H. simpl; auto. }
  lia.
Qed.

(** The floors of the shares never add up to more than what is shared. *)
Lemma floors_le {A : Type} (f : A -> Z) (xs : list A) (d W : Z) :
  0 < W -> 0 <= d -> (forall x, In x xs -> 0 <= f x) ->
  W * sumOf (fun x => (d * f x) / W) xs <= d * sumOf f xs.
Proof.
  intros HW Hd. induction xs as [|x xs IH]; intro H.
  - rewrite !sumOf_nil. lia.
  - rewrite !sumOf_cons.
    assert (W * ((d * f x) / W) <= d * f x) by (apply Z.mul_div_le; exact HW).
    assert (W * sumOf (fun x => (d * f x) / W) xs <= d * sumOf f xs)
      by (apply IH; intros; apply H; simpl; auto).
    lia.
Qed.

Lemma floors_sum_le {A : Type} (f : A -> Z) (xs : list A) (d : Z) :
  0 < sumOf f xs -> 0 <= d -> (forall x, In x xs -> 0 <= f x) ->
  sumOf (fun x => (d * f x) / sumOf f xs) xs <= d.
Proof.
  intros HW Hd H.
  pose proof (floors_le f xs d (sumOf f xs) HW Hd H) as Hle.
  nia.
Qed.

Lemma string_eqb_refl (s : string) : (s =s? s) = true.
Proof. apply String.eqb_refl. Qed.

Lemma Map_set_fresh {V : Type} (k : string) (v : V) (m : JsMap V) :
  ~ In k (map fst m) -> Map_set k v m = m ++ [(k, v)].
Proof.
  induction m as [|[k' v'] m IH]; simpl; intro H.
  - reflexivity.
  - destruct (String.eqb_spec k' k) as [->|Hne].
    + exfalso. apply H. left. reflexivity.
    + rewrite IH; [reflexivity|]. intro Hin. apply H. right. exact Hin.
Qed.

(** Filling a map from rows with pairwise distinct keys keeps the rows. *)
Lemma fold_Map_set_NoDup {A V : Type} (k : A -> string) (v : A -> V)
  (rows : list A) (m : JsMap V) :
  NoDup (map k rows) -> (forall x, In x rows -> ~ In (k x) (map fst m)) ->
  fold_left (fun acc item => Map_set (k item) (v item) acc) rows m
  = m ++ map (fun item => (k item, v item)) rows.
Proof.
  revert m. induction rows as [|x rows IH]; intros m Hnd Hfresh; simpl.
  - rewrite app_nil_r. reflexivity.
  - inversion Hnd as [|? ? Hx Hnd']; subst.
    rewrite Map_set_fresh by (apply Hfresh; simpl; auto).
    rewrite IH.
    + rewrite <- app_assoc. reflexivity.
    + exact Hnd'.
    + intros y Hy Hin. rewrite map_app, in_app_iff in Hin. simpl in Hin.
      destruct Hin as [Hin|[Heq|[]]].
      * apply (Hfresh y); simpl; auto.
      * apply Hx. rewrite Heq. apply in_map. exact Hy.
Qed.

Lemma Map_get_delete_same {V : Type} (k : string) (m : JsMap V) :
  Map_get k (Map_delete k m) = None.
Proof.
  unfold Map_delete. induction m as [|[k' v'] tl IH]; cbn [filter fst Map_get];
    [reflexivity|].
  destruct (String.eqb_spec k' k) as [->|Hne]; cbn [negb]; [exact IH|].
  cbn [Map_get]. destruct (String.eqb_spec k' k); [congruence|exact IH].
Qed.

Lemma Map_get_delete_other {V : Type} (k k' : string) (m : JsMap V) :
  k' <> k -> Map_get k' (Map_delete k m) = Map_get k' m.
Proof.
  intro Hne. unfold Map_delete.
  induction m as [|[k0 v0] tl IH]; cbn [filter fst Map_get]; [reflexivity|].
  destruct (String.eqb_spec k0 k) as [->|Hk]; cbn [negb].
  - destruct (String.eqb_spec k k'); [congruence|exact IH].
  - cbn [Map_get]. destruct (k0 =s? k'); [reflexivity|exact IH].
Qed.

Lemma Map_get_set_other {V : Type} (k k' : string) (v : V) (m : JsMap V) :
  k' <> k -> Map_get k' (Map_set k v m) = Map_get k' m.
Proof.
  intro Hne. induction m as [|[k0 v0] tl IH]; cbn [Map_set Map_get].
  - destruct (String.eqb_spec k k'); [congruence|reflexivity].
  - destruct (String.eqb_spec k0 k) as [->|Hk]; cbn [Map_get].
    + destruct (String.eqb_spec k k'); [congruence|reflexivity].
    + destruct (k0 =s? k'); [reflexivity|exact IH].
Qed.

Lemma Qlt_bool_iff (a b : Q) : Qlt_bool a b = true <-> (a < b)%Q.
Proof.
  unfold Qlt_bool. rewrite negb_true_iff.
  split.
  - intro H. apply Qnot_le_lt. intro Hle.
    apply Qle_bool_iff in Hle. congruence.
  - intro H. destruct (Qle_bool b a) eqn:E; [|reflexivity].
    apply Qle_bool_iff in E. exfalso. exact (Qlt_not_le _ _ H E).
Qed.

End JsFacts.

(** ** Rounding to doubles *)

Module DoubleFacts.
Import JsFacts.

Lemma roundHalfEven_near n d :
  0 < d ->
  2 * (roundHalfEven n d * d) <= 2 * n + d
  /\ 2 * n <= 2 * (roundHalfEven n d * d) + d.
Proof.
  intro Hd. unfold roundHalfEven.
  pose proof (Z.div_mod n d ltac:(lia)) as E.
  pose proof (Z.mod_pos_bound n d Hd) as B.
  set (q := n / d) in *. set (r := n mod d) in *.
  destruct (2 * r <? d) eqn:E1; [apply Z.ltb_lt in E1; nia|].
  apply Z.ltb_ge in E1.
  destruct (d <? 2 * r) eqn:E2; [apply Z.ltb_lt in E2; nia|].
  apply Z.ltb_ge in E2.
  destruct (Z.even q); nia.
Qed.

(** Rounding never goes below an integer that is below the quotient. *)
Lemma roundHalfEven_above n d k :
  0 < d -> k * d <= n -> k <= roundHalfEven n d.
Proof.
  intros Hd Hk. destruct (roundHalfEven_near n d Hd) as [_ H]. nia.
Qed.

Lemma roundHalfEven_nonneg n d : 0 <= n -> 0 < d -> 0 <= roundHalfEven n d.
Proof. intros Hn Hd. apply roundHalfEven_above; lia. Qed.

(** The exponent [nearestDouble] picks is the position of the leading bit
    of the scaled quotient, and it is at least 52. *)
Lemma exponent_ok n d :
  0 < n -> 0 < d ->
  let scale := Z.log2 d + 53 in
  let scaled := n * 2 ^ scale in
  let k := Z.log2 scaled - Z.log2 d in
  let e := if d * 2 ^ k <=? scaled then k else k - 1 in
  52 <= e /\ d * 2 ^ e <= scaled /\ scaled < d * 2 ^ (e + 1).
Proof.
  intros Hn Hd scale scaled k e.
  pose proof (Z.log2_nonneg d) as Hld.
  assert (Hs : 0 < scaled).
  { unfold scaled. apply Z.mul_pos_pos; [lia|apply Z.pow_pos_nonneg; lia]. }
  destruct (Z.log2_spec d Hd) as [D1 D2].
  destruct (Z.log2_spec scaled Hs) as [S1 S2].
  assert (Hk : 53 <= k).
  { unfold k. assert (scale <= Z.log2 scaled); [|lia].
    apply Z.log2_le_pow2; [lia|]. unfold scaled.
    assert (0 < 2 ^ scale) by (apply Z.pow_pos_nonneg; lia). nia. }
  assert (Hsplit : 2 ^ Z.log2 scaled = 2 ^ Z.log2 d * 2 ^ k).
  { rewrite <- Z.pow_add_r by lia. f_equal. unfold k. lia. }
  assert (Hk1 : 2 ^ k = 2 * 2 ^ (k - 1)).
  { rewrite <- Z.pow_succ_r by lia. f_equal. lia. }
  assert (Hk2 : 2 ^ (k + 1) = 2 * 2 ^ k).
  { rewrite <- Z.pow_succ_r by lia. f_equal. }
  assert (Hsucc : 2 ^ Z.succ (Z.log2 scaled) = 2 * 2 ^ Z.log2 scaled)
    by (apply Z.pow_succ_r; apply Z.log2_nonneg).
  assert (HsuccD : 2 ^ Z.succ (Z.log2 d) = 2 * 2 ^ Z.log2 d)
    by (apply Z.pow_succ_r; lia).
  assert (0 < 2 ^ (k - 1)) by (apply Z.pow_pos_nonneg; lia).
  assert (0 < 2 ^ Z.log2 d) by (apply Z.pow_pos_nonneg; lia).
  unfold e. destruct (d * 2 ^ k <=? scaled) eqn:E.
  - apply Z.leb_le in E. split; [lia|]. split; [exact E|].
    rewrite Hk2. nia.
  - apply Z.leb_gt in E. split; [lia|]. split.
    + nia.
    + replace (k - 1 + 1) with k by lia. exact E.
Qed.

(** [nearestDouble] on a positive quotient, with the signs out of the way. *)
Lemma nearestDouble_pos n d :
  0 < n -> 0 < d ->
  nearestDouble n d
  = let scale := Z.log2 d + 53 in
    let scaled := n * 2 ^ scale in
    let k := Z.log2 scaled - Z.log2 d in
    let e := if d * 2 ^ k <=? scaled then k else k - 1 in
    {| significand := roundHalfEven scaled (d * 2 ^ (e - 52));
       exponent := e - 52 - scale |}.
Proof.
  intros Hn Hd. unfold nearestDouble.
  replace (n =? 0) with false by (symmetry; apply Z.eqb_neq; lia).
  replace (d =? 0) with false by (symmetry; apply Z.eqb_neq; lia).
  cbn [orb]. rewrite (Z.abs_eq n), (Z.abs_eq d) by lia.
  rewrite (Z.sgn_pos n), (Z.sgn_pos d) by lia.
  cbv zeta. f_equal. lia.
Qed.

(** [nearestDouble] rounds as IEEE 754 does: the significand has 53 bits,
    and the double lies within half a unit in the last place of the
    quotient (the inequality is the one between [n / d] and
    [significand * 2 ^ exponent], multiplied by [d * 2 ^ k]). *)
Lemma nearestDouble_correct n d :
  0 < n -> 0 < d ->
  let x := nearestDouble n d in
  2 ^ 52 <= significand x <= 2 ^ 53
  /\ exists k,
       0 <= k /\ 0 <= exponent x + k
       /\ 2 * Z.abs (n * 2 ^ k - significand x * (d * 2 ^ (exponent x + k)))
          <= d * 2 ^ (exponent x + k).
Proof.
  intros Hn Hd. cbv zeta. rewrite nearestDouble_pos by assumption. cbv zeta.
  destruct (exponent_ok n d Hn Hd) as (He & Hlow & Hhigh).
  set (scale := Z.log2 d + 53) in *.
  set (scaled := n * 2 ^ scale) in *.
  set (e := if d * 2 ^ (Z.log2 scaled - Z.log2 d) <=? scaled
            then Z.log2 scaled - Z.log2 d else Z.log2 scaled - Z.log2 d - 1) in *.
  cbn [significand exponent].
  pose proof (Z.log2_nonneg d) as Hld.
  assert (Hu : 0 < 2 ^ (e - 52)) by (apply Z.pow_pos_nonneg; lia).
  assert (He52 : 2 ^ e = 2 ^ (e - 52) * 2 ^ 52).
  { rewrite <- Z.pow_add_r by lia. f_equal. lia. }
  assert (He1 : 2 ^ (e + 1) = 2 ^ (e - 52) * 2 ^ 53).
  { rewrite <- Z.pow_add_r by lia. f_equal. lia. }
  assert (HD : 0 < d * 2 ^ (e - 52)) by nia.
  destruct (roundHalfEven_near scaled (d * 2 ^ (e - 52)) HD) as [Hup Hdown].
  set (m := roundHalfEven scaled (d * 2 ^ (e - 52))) in *.
  split.
  - split.
    + apply roundHalfEven_above; [exact HD|]. rewrite He52 in Hlow. lia.
    + rewrite He1 in Hhigh.
      assert (2 * (m * (d * 2 ^ (e - 52))) < (2 * 2 ^ 53 + 1) * (d * 2 ^ (e - 52)))
        by lia.
      assert (2 * m < 2 * 2 ^ 53 + 1) by nia. lia.
  - exists scale. split; [unfold scale; lia|].
    replace (e - 52 - scale + scale) with (e - 52) by lia.
    split; [lia|]. fold scaled. lia.
Qed.

Lemma nearestDouble_zero d : nearestDouble 0 d = {| significand := 0; exponent := 0 |}.
Proof. reflexivity. Qed.

Lemma nearestDouble_nonneg n d :
  0 <= n -> 0 < d -> 0 <= significand (nearestDouble n d).
Proof.
  intros Hn Hd. destruct (Z.eq_dec n 0) as [->|Hn0]; [cbn; lia|].
  rewrite nearestDouble_pos by lia. cbn [significand].
  destruct (exponent_ok n d ltac:(lia) Hd) as (He & _).
  apply roundHalfEven_nonneg.
  - apply Z.mul_nonneg_nonneg; [lia|]. apply Z.pow_nonneg. lia.
  - apply Z.mul_pos_pos; [lia|]. apply Z.pow_pos_nonneg; lia.
Qed.

Lemma Math_floor_nonneg x : 0 <= significand x -> 0 <= Math_floor x.
Proof.
  intro H. unfold Math_floor. destruct (0 <=? exponent x) eqn:E.
  - apply Z.leb_le in E. apply Z.mul_nonneg_nonneg; [exact H|].
    apply Z.pow_nonneg. lia.
  - apply Z.leb_gt in E. apply Z.div_pos; [exact H|].
    apply Z.pow_pos_nonneg; lia.
Qed.

Lemma floor_quotient_nonneg p w :
  0 <= p -> 0 < w -> 0 <= Math_floor (quotient p w).
Proof. intros Hp Hw. apply Math_floor_nonneg, nearestDouble_nonneg; assumption. Qed.

Lemma product_nonneg a b : 0 <= a * b -> 0 <= product a b.
Proof. intro H. apply Math_floor_nonneg, nearestDouble_nonneg; lia. Qed.

(** Rounding to the nearest double raises a quotient by at most one part
    in 2^53, and so does the floor taken afterwards. *)
Lemma floor_quotient_le p w :
  0 <= p -> 0 < w ->
  Math_floor (quotient p w) * w * 2 ^ 53 <= p * (2 ^ 53 + 1).
Proof.
  intros Hp Hw. unfold quotient.
  destruct (Z.eq_dec p 0) as [->|Hp0]; [cbn; lia|].
  assert (Gp : 0 < p) by lia.
  rewrite nearestDouble_pos by assumption. cbv zeta.
  destruct (exponent_ok p w Gp Hw) as (He & Hlow & _).
  set (scale := Z.log2 w + 53) in *.
  set (scaled := p * 2 ^ scale) in *.
  set (e := if w * 2 ^ (Z.log2 scaled - Z.log2 w) <=? scaled
            then Z.log2 scaled - Z.log2 w else Z.log2 scaled - Z.log2 w - 1) in *.
  pose proof (Z.log2_nonneg w) as Hlw.
  assert (Hu : 0 < 2 ^ (e - 52)) by (apply Z.pow_pos_nonneg; lia).
  assert (Hsc : 0 < 2 ^ scale) by (apply Z.pow_pos_nonneg; lia).
  assert (He52 : 2 ^ e = 2 ^ (e - 52) * 2 ^ 52).
  { rewrite <- Z.pow_add_r by lia. f_equal. lia. }
  set (m := roundHalfEven scaled (w * 2 ^ (e - 52))).
  destruct (roundHalfEven_near scaled (w * 2 ^ (e - 52)) ltac:(nia)) as [Hm _].
  fold m in Hm.
  assert (Hm0 : 0 <= m).
  { apply roundHalfEven_nonneg; [|nia]. unfold scaled. nia. }
  assert (Hkey : m * (w * 2 ^ (e - 52)) * 2 ^ 53 <= scaled * (2 ^ 53 + 1)).
  { change (2 ^ 53) with (2 * 2 ^ 52). rewrite He52 in Hlow. nia. }
  unfold Math_floor. cbn [significand exponent].
  destruct (0 <=? e - 52 - scale) eqn:Ex.
  - apply Z.leb_le in Ex.
    assert (Hpow : 2 ^ (e - 52) = 2 ^ (e - 52 - scale) * 2 ^ scale).
    { rewrite <- Z.pow_add_r by lia. f_equal. lia. }
    rewrite Hpow in Hkey. unfold scaled in Hkey.
    set (u := 2 ^ (e - 52 - scale)) in *.
    assert (m * u * w * 2 ^ 53 * 2 ^ scale <= p * (2 ^ 53 + 1) * 2 ^ scale) by nia.
    apply Z.mul_le_mono_pos_r with (p := 2 ^ scale); [exact Hsc|]. lia.
  - apply Z.leb_gt in Ex.
    assert (Hpow : 2 ^ scale = 2 ^ (- (e - 52 - scale)) * 2 ^ (e - 52)).
    { rewrite <- Z.pow_add_r by lia. f_equal. lia. }
    set (v := 2 ^ (- (e - 52 - scale))) in *.
    assert (Hv : 0 < v) by (apply Z.pow_pos_nonneg; lia).
    pose proof (Z.mul_div_le m v Hv) as Hfl.
    set (f := m / v) in *.
    assert (0 <= f) by (apply Z.div_pos; lia).
    unfold scaled in Hkey. rewrite Hpow in Hkey.
    set (u := 2 ^ (e - 52)) in *.
    assert (f * w * 2 ^ 53 * (v * u) <= p * (2 ^ 53 + 1) * (v * u)).
    { assert (f * v * (w * u * 2 ^ 53) <= m * (w * u * 2 ^ 53)).
      { apply Z.mul_le_mono_nonneg_r; [nia|lia]. }
      nia. }
    apply Z.mul_le_mono_pos_r with (p := v * u); [nia|]. lia.
Qed.

(** Below 2^53 the floor of the rounded quotient is the floor of the exact
    one. *)
Lemma floor_quotient_exact p w :
  0 <= p < 2 ^ 53 -> 0 < w -> Math_floor (quotient p w) = p / w.
Proof.
  intros [Hp Hb] Hw. apply Z.le_antisymm.
  - apply Z.div_le_lower_bound; [exact Hw|].
    pose proof (floor_quotient_le p w Hp Hw) as H.
    pose proof (floor_quotient_nonneg p w Hp Hw).
    assert (w * Math_floor (quotient p w) < p + 1); [|lia].
    apply Z.mul_lt_mono_pos_r with (p := 2 ^ 53); [lia|]. nia.
  - unfold quotient.
    destruct (Z.eq_dec p 0) as [->|Hp0].
    { rewrite Z.div_0_l by lia. cbn. lia. }
    assert (Gp : 0 < p) by lia.
    rewrite nearestDouble_pos by assumption. cbv zeta.
    destruct (exponent_ok p w Gp Hw) as (He & Hlow & _).
    set (scale := Z.log2 w + 53) in *.
    set (scaled := p * 2 ^ scale) in *.
    set (e := if w * 2 ^ (Z.log2 scaled - Z.log2 w) <=? scaled
              then Z.log2 scaled - Z.log2 w else Z.log2 scaled - Z.log2 w - 1) in *.
    pose proof (Z.log2_nonneg w) as Hlw.
    assert (Hu : 0 < 2 ^ (e - 52)) by (apply Z.pow_pos_nonneg; lia).
    assert (Hsc : 0 < 2 ^ scale) by (apply Z.pow_pos_nonneg; lia).
    assert (Hemax : e < 53 + scale).
    { apply (Z.pow_lt_mono_r_iff 2); [lia|lia|].
      assert (2 ^ (53 + scale) = 2 ^ 53 * 2 ^ scale) by (apply Z.pow_add_r; lia).
      assert (0 < 2 ^ e) by (apply Z.pow_pos_nonneg; lia).
      unfold scaled in Hlow. nia. }
    unfold Math_floor. cbn [significand exponent].
    pose proof (Z.mul_div_le p w Hw) as Hq.
    assert (Hq0 : 0 <= p / w) by (apply Z.div_pos; lia).
    destruct (0 <=? e - 52 - scale) eqn:Ex.
    + apply Z.leb_le in Ex. assert (e - 52 - scale = 0) as -> by lia.
      rewrite Z.mul_1_r. apply roundHalfEven_above; [nia|].
      replace (e - 52) with scale by lia. unfold scaled. nia.
    + apply Z.leb_gt in Ex.
      set (v := 2 ^ (- (e - 52 - scale))).
      assert (Hv : 0 < v) by (apply Z.pow_pos_nonneg; lia).
      apply Z.div_le_lower_bound; [exact Hv|].
      apply roundHalfEven_above; [nia|].
      assert (Hpow : 2 ^ scale = v * 2 ^ (e - 52)).
      { unfold v. rewrite <- Z.pow_add_r by lia. f_equal. lia. }
      unfold scaled. rewrite Hpow. nia.
Qed.

Lemma product_exact a b : 0 <= a * b < 2 ^ 53 -> product a b = a * b.
Proof.
  intro H. unfold product.
  change (Math_floor (nearestDouble (a * b) 1))
    with (Math_floor (quotient (a * b) 1)).
  rewrite floor_quotient_exact by lia. apply Z.div_1_r.
Qed.

Lemma product_le a b : 0 <= a * b -> product a b * 2 ^ 53 <= a * b * (2 ^ 53 + 1).
Proof.
  intro H. pose proof (floor_quotient_le (a * b) 1 H ltac:(lia)) as K.
  unfold quotient in K. fold (product a b) in K. lia.
Qed.

(** A payout share as the code computes it, against the exact share: the
    two roundings raise it by at most two parts in 2^53. *)
Lemma share_le d w W :
  0 <= d * w -> 0 < W ->
  Math_floor (quotient (product d w) W) * W * 2 ^ 106
  <= d * w * ((2 ^ 53 + 1) * (2 ^ 53 + 1)).
Proof.
  intros Hp HW.
  pose proof (product_nonneg d w Hp) as H0.
  pose proof (product_le d w Hp) as H1.
  pose proof (floor_quotient_le (product d w) W H0 HW) as H2.
  change (2 ^ 106) with (2 ^ 53 * 2 ^ 53).
  set (f := Math_floor (quotient (product d w) W)) in *.
  set (t := product d w) in *.
  assert (f * W * 2 ^ 53 * 2 ^ 53 <= t * (2 ^ 53 + 1) * 2 ^ 53) by lia.
  assert (t * 2 ^ 53 * (2 ^ 53 + 1) <= d * w * (2 ^ 53 + 1) * (2 ^ 53 + 1)) by lia.
  lia.
Qed.

Lemma share_exact d w W :
  0 <= d * w < 2 ^ 53 -> 0 < W ->
  Math_floor (quotient (product d w) W) = d * w / W.
Proof.
  intros H HW. rewrite product_exact by exact H.
  apply floor_quotient_exact; assumption.
Qed.

(** Below 2^52 the shares of the code never add up to more than what is
    shared. *)
Lemma shares_sum_le {A : Type} (f : A -> Z) (xs : list A) (d : Z) :
  0 < sumOf f xs -> 0 <= d < 2 ^ 52 -> (forall x, In x xs -> 0 <= f x) ->
  sumOf (fun x => Math_floor (quotient (product d (f x)) (sumOf f xs))) xs <= d.
Proof.
  intros HW [Hd Hb] H.
  set (W := sumOf f xs) in *.
  assert (Hall : forall ys : list A,
             (forall x, In x ys -> 0 <= f x) ->
             sumOf (fun x => Math_floor (quotient (product d (f x)) W)) ys
             * W * 2 ^ 106
             <= d * sumOf f ys * ((2 ^ 53 + 1) * (2 ^ 53 + 1))).
  { induction ys as [|y ys IH]; intro Hys.
    - rewrite !sumOf_nil. lia.
    - rewrite !sumOf_cons.
      assert (Hy : 0 <= d * f y).
      { apply Z.mul_nonneg_nonneg; [exact Hd|]. apply Hys. left. reflexivity. }
      pose proof (share_le d (f y) W Hy HW) as Hs.
      assert (Hrest := IH (fun x Hx => Hys x (or_intror Hx))).
      lia. }
  specialize (Hall xs H). fold W in Hall.
  set (paid := sumOf (fun x => Math_floor (quotient (product d (f x)) W)) xs) in *.
  assert (paid * 2 ^ 106 * W <= (d * 2 ^ 106 + d * (2 ^ 54 + 1)) * W) by lia.
  assert (paid * 2 ^ 106 <= d * 2 ^ 106 + d * (2 ^ 54 + 1)).
  { apply Z.mul_le_mono_pos_r with (p := W); assumption. }
  assert (d * (2 ^ 54 + 1) < 2 ^ 106) by lia.
  lia.
Qed.

End DoubleFacts.

(** ** Pro-rata payouts *)

Module PayoutArithmetic.
Import JsFacts Shares.

Section Sim.
Import SimLedger SimSettlement.

Lemma floorShares_ids recipients d W :
  map entryId (floorShares recipients d W) = map entryId recipients.
Proof.
  unfold floorShares. rewrite map_map. apply map_ext. reflexivity.
Qed.

Lemma bumpFirst_ids remainder prepared :
  map entryId (bumpFirst remainder prepared) = map entryId prepared.
Proof. destruct prepared; reflexivity. Qed.

Lemma bumpFirst_sum remainder prepared :
  prepared <> [] ->
  sumOf cents (bumpFirst remainder prepared) = sumOf cents prepared + remainder.
Proof.
  destruct prepared as [|p tl]; [congruence|]. intros _.
  cbn [bumpFirst]. rewrite !sumOf_cons. cbn [cents]. lia.
Qed.

Lemma sumOf_floorShares recipients d W :
  sumOf cents (floorShares recipients d W)
  = sumOf (fun item => (d * cents item) / W) recipients.
Proof. unfold floorShares. rewrite sumOf_map. reflexivity. Qed.

(** What [proRataCents] returns once its guard is passed: the floor shares
    in input order, the first one raised by the remainder when that is
    positive. *)
Lemma proRataCents_shape recipients d W :
  0 < d -> 0 < W -> recipients <> [] -> NoDup (map entryId recipients) ->
  proRataCents recipients d W
  = map (fun item => (entryId item, cents item))
        (if 0 <? d - sumOf cents (floorShares recipients d W)
         then bumpFirst (d - sumOf cents (floorShares recipients d W))
                        (floorShares recipients d W)
         else floorShares recipients d W).
Proof.
  intros Hd HW Hne Hnd. unfold proRataCents.
  replace (d <=? 0) with false by (symmetry; apply Z.leb_gt; exact Hd).
  replace (W <=? 0) with false by (symmetry; apply Z.leb_gt; exact HW).
  replace (List.length recipients =? 0)%nat with false
    by (destruct recipients; [congruence|reflexivity]).
  cbn [orb]. fold (floorShares recipients d W).
  replace (0 <? List.length (floorShares recipients d W))%nat with true
    by (destruct recipients; [congruence|reflexivity]).
  rewrite andb_true_r.
  rewrite (fold_Map_set_NoDup entryId cents).
  - reflexivity.
  - destruct (0 <? d - sumOf cents (floorShares recipients d W)).
    + rewrite bumpFirst_ids, floorShares_ids. exact Hnd.
    + rewrite floorShares_ids. exact Hnd.
  - intros x _ [].
Qed.

Lemma proRataCents_sum recipients d :
  0 <= d -> recipients <> [] ->
  (forall item, In item recipients -> 0 < cents item) ->
  NoDup (map entryId recipients) ->
  sumOf snd (proRataCents recipients d (sumOf cents recipients)) = d.
Proof.
  intros Hd Hne Hpos Hnd.
  assert (HW : 0 < sumOf cents recipients) by (apply sumOf_pos; assumption).
  destruct (Z.eq_dec d 0) as [->|Hd0].
  { unfold proRataCents. reflexivity. }
  rewrite proRataCents_shape by (try assumption; lia).
  rewrite sumOf_map.
  change (sumOf (fun item : Recipient => snd (entryId item, cents item)))
    with (sumOf cents).
  pose proof (floors_sum_le cents recipients d HW Hd) as Hle.
  rewrite <- sumOf_floorShares in Hle.
  specialize (Hle (fun x Hx => Z.lt_le_incl _ _ (Hpos x Hx))).
  destruct (0 <? d - sumOf cents (floorShares recipients d (sumOf cents recipients))) eqn:E.
  - rewrite bumpFirst_sum; [lia|].
    destruct recipients; [congruence|discriminate].
  - apply Z.ltb_ge in E. lia.
Qed.

Lemma proRataCents_nonneg recipients d W :
  (forall item, In item recipients -> 0 <= cents item) ->
  Forall (fun kv => 0 <= snd kv) (proRataCents recipients d W).
Proof.
  intro Hpos. unfold proRataCents.
  destruct ((d <=? 0) || (W <=? 0) || (List.length recipients =? 0)%nat) eqn:G.
  { constructor. }
  apply orb_false_iff in G. destruct G as [G _].
  apply orb_false_iff in G. destruct G as [Gd GW].
  apply Z.leb_gt in Gd. apply Z.leb_gt in GW.
  fold (floorShares recipients d W).
  match goal with
  | |- context [fold_left _ ?p _] => set (prepared := p)
  end.
  assert (Hprep : forall item, In item prepared -> 0 <= cents item).
  { assert (Hfl : forall item, In item (floorShares recipients d W) -> 0 <= cents item).
    { intros item Hin. unfold floorShares in Hin. apply in_map_iff in Hin.
      destruct Hin as [x [<- Hx]]. cbn [cents].
      apply Z.div_pos; [|exact GW]. specialize (Hpos x Hx). nia. }
    subst prepared.
    destruct ((0 <? d - sumOf cents (floorShares recipients d W))
              && (0 <? List.length (floorShares recipients d W))%nat) eqn:E;
      [|exact Hfl].
    apply andb_true_iff in E. destruct E as [E _]. apply Z.ltb_lt in E.
    destruct (floorShares recipients d W) as [|p tl]; [intros ? []|].
    intros item [<-|Hin].
    - cbn [cents]. specialize (Hfl p (or_introl eq_refl)). lia.
    - apply Hfl. right. exact Hin. }
  clearbody prepared.
  assert (Hgen : forall (m : JsMap Z),
             Forall (fun kv => 0 <= snd kv) m ->
             Forall (fun kv => 0 <= snd kv)
                    (fold_left (fun allocations item =>
                                  Map_set (entryId item) (cents item) allocations)
                               prepared m)).
  { induction prepared as [|p tl IH]; intros m Hm; cbn [fold_left]; [exact Hm|].
    apply IH.
    - intros item Hin. apply Hprep. right. exact Hin.
    - assert (Hp : 0 <= cents p) by (apply Hprep; left; reflexivity).
      clear -Hm Hp. induction m as [|[k v] m IHm]; cbn [Map_set].
      + constructor; [exact Hp|constructor].
      + inversion Hm; subst.
        destruct (k =s? entryId p); constructor; auto. }
  apply Hgen. constructor.
Qed.

End Sim.

Section Custody.
Import RoundLedger Settlement.

Lemma sumOf_floorPayouts winners d W :
  sumOf lamports (floorPayouts winners d W)
  = sumOf (fun winner => Math_floor (quotient (product d (lamports winner)) W)) winners.
Proof. unfold floorPayouts. rewrite sumOf_map. reflexivity. Qed.

Lemma bumpFirst_lamports remainder payouts :
  payouts <> [] ->
  sumOf lamports (Settlement.bumpFirst remainder payouts)
  = sumOf lamports payouts + remainder.
Proof.
  destruct payouts as [|p tl]; [congruence|]. intros _.
  cbn [Settlement.bumpFirst]. rewrite !sumOf_cons. cbn [lamports]. lia.
Qed.

(** Below 2^52 the two roundings of a share cannot lift the shares above
    what is shared, so the remainder makes up the difference. *)
Lemma addProRataPayouts_sum winners d :
  0 <= d < 2 ^ 52 -> winners <> [] ->
  (forall winner, In winner winners -> 0 < lamports winner) ->
  sumOf lamports (addProRataPayouts winners d (sumOf lamports winners)) = d.
Proof.
  intros Hd Hne Hpos.
  assert (HW : 0 < sumOf lamports winners) by (apply sumOf_pos; assumption).
  unfold addProRataPayouts.
  replace (sumOf lamports winners <=? 0) with false by (symmetry; apply Z.leb_gt; exact HW).
  replace (List.length winners =? 0)%nat with false
    by (destruct winners; [congruence|reflexivity]).
  destruct (Z.eq_dec d 0) as [->|Hd0]; [reflexivity|].
  replace (d <=? 0) with false by (symmetry; apply Z.leb_gt; lia).
  cbn [orb]. fold (floorPayouts winners d (sumOf lamports winners)).
  pose proof (DoubleFacts.shares_sum_le lamports winners d HW Hd) as Hle.
  rewrite <- sumOf_floorPayouts in Hle.
  specialize (Hle (fun x Hx => Z.lt_le_incl _ _ (Hpos x Hx))).
  destruct ((0 <? d - sumOf lamports (floorPayouts winners d (sumOf lamports winners)))
            && (0 <? List.length (floorPayouts winners d (sumOf lamports winners)))%nat)
    eqn:E.
  - rewrite bumpFirst_lamports; [lia|].
    destruct winners; [congruence|discriminate].
  - apply andb_false_iff in E. destruct E as [E|E].
    + apply Z.ltb_ge in E. lia.
    + destruct winners; [congruence|discriminate].
Qed.

Lemma addProRataPayouts_nonneg winners d W :
  (forall winner, In winner winners -> 0 <= lamports winner) ->
  Forall (fun p => 0 <= lamports p) (addProRataPayouts winners d W).
Proof.
  intro Hpos. unfold addProRataPayouts.
  destruct ((W <=? 0) || (d <=? 0) || (List.length winners =? 0)%nat) eqn:G.
  { constructor. }
  apply orb_false_iff in G. destruct G as [G _].
  apply orb_false_iff in G. destruct G as [GW Gd].
  apply Z.leb_gt in Gd. apply Z.leb_gt in GW.
  fold (floorPayouts winners d W).
  assert (Hfl : Forall (fun p => 0 <= lamports p) (floorPayouts winners d W)).
  { apply Forall_forall. intros item Hin. unfold floorPayouts in Hin.
    apply in_map_iff in Hin. destruct Hin as [x [<- Hx]]. cbn [lamports].
    specialize (Hpos x Hx).
    apply DoubleFacts.floor_quotient_nonneg; [|exact GW].
    apply DoubleFacts.product_nonneg. nia. }
  destruct ((0 <? d - sumOf lamports (floorPayouts winners d W))
            && (0 <? List.length (floorPayouts winners d W))%nat) eqn:E;
    [|exact Hfl].
  apply andb_true_iff in E. destruct E as [E _]. apply Z.ltb_lt in E.
  destruct (floorPayouts winners d W) as [|p tl]; [constructor|].
  inversion Hfl; subst. constructor; [cbn [lamports]; lia|assumption].
Qed.

(** While the product stays below 2^53 the share of the code is the exact
    floor share. *)
Lemma floorPayouts_exact winners d W :
  0 <= d -> 0 < W ->
  (forall winner, In winner winners ->
                  0 <= lamports winner /\ d * lamports winner < 2 ^ 53) ->
  floorPayouts winners d W
  = map (fun winner => {| wallet := wallet winner;
                          lamports := (d * lamports winner) / W |}) winners.
Proof.
  intros Hd HW Hb. unfold floorPayouts. apply map_ext_in. intros x Hx.
  destruct (Hb x Hx) as [H0 H1].
  rewrite DoubleFacts.share_exact; [reflexivity| |exact HW].
  split; [nia|exact H1].
Qed.

End Custody.

(** The fee never exceeds the pool when the rate is at most 10000 bps. *)
Lemma fee_le_total (total feeBps : Z) :
  0 <= total -> 0 <= feeBps <= 10000 ->
  0 <= (total * feeBps) / 10000 <= total.
Proof.
  intros Ht Hb. split.
  - apply Z.div_pos; nia.
  - apply Z.div_le_upper_bound; nia.
Qed.

(** Nor does the fee as the doubles compute it, below 2^52. *)
Lemma rounded_fee_le_total (total feeBps : Z) :
  0 <= total < 2 ^ 52 -> 0 <= feeBps <= 10000 ->
  0 <= Math_floor (quotient (product total feeBps) 10000) <= total.
Proof.
  intros [Ht Hb] Hf. split.
  - apply DoubleFacts.floor_quotient_nonneg; [|lia].
    apply DoubleFacts.product_nonneg. nia.
  - pose proof (DoubleFacts.share_le total feeBps 10000 ltac:(nia) ltac:(lia)) as H.
    set (f := Math_floor (quotient (product total feeBps) 10000)) in *.
    assert (f * 10000 * 2 ^ 106
            <= total * 10000 * ((2 ^ 53 + 1) * (2 ^ 53 + 1))) by nia.
    assert (f * 2 ^ 106 <= total * 2 ^ 106 + total * (2 ^ 54 + 1)) by lia.
    assert (total * (2 ^ 54 + 1) < 2 ^ 106) by lia.
    lia.
Qed.

(** C2.  The pro-rata allocation conserves what it shares out, as long as
    the numbers stay where doubles are exact enough.  Take a non-empty
    recipient list with positive integer weights, a pool total and a fee
    between 0 and the total, and let the distributable amount be
    [max 0 (total - fee)].

    - Sim game ([proRataCents]), recipients with distinct ids, every product
      total * weight below 2^53: every floor share the code computes in
      doubles is the exact floor share, the allocation adds up to the
      distributable amount, payouts plus fee equal the total, and no
      allocation is negative.
    - Custody ([addProRataPayouts]), total below 2^52 and weights adding up
      to at most 2^53: the payouts add up to the distributable amount,
      payouts plus fee equal the total, and no payout is negative; the
      shares are the ones the code rounds twice.
    - For every rate between 0 and 10000 basis points the fee, written
      exactly or computed in doubles, lies between 0 and the total. *)
Theorem pro_rata_conserves_the_pool :
  (forall (recipients : list SimSettlement.Recipient) (fee total : Z),
      recipients <> [] ->
      (forall item, In item recipients -> 0 < SimSettlement.cents item) ->
      NoDup (map SimSettlement.entryId recipients) ->
      0 <= fee <= total ->
      (forall item, In item recipients -> total * SimSettlement.cents item < 2 ^ 53) ->
      let distributable := Z.max 0 (total - fee) in
      let inputTotal := sumOf SimSettlement.cents recipients in
      let allocations :=
        SimSettlement.proRataCents recipients distributable inputTotal in
      (forall item, In item recipients ->
         Math_floor (quotient (product distributable (SimSettlement.cents item))
                              inputTotal)
         = (distributable * SimSettlement.cents item) / inputTotal)
      /\ sumOf snd allocations = distributable
      /\ sumOf snd allocations + fee = total
      /\ Forall (fun kv => 0 <= snd kv) allocations)
  /\
  (forall (winners : list Settlement.Recipient) (fee total : Z),
      winners <> [] ->
      (forall winner, In winner winners -> 0 < Settlement.lamports winner) ->
      sumOf Settlement.lamports winners <= 2 ^ 53 ->
      0 <= fee <= total -> total < 2 ^ 52 ->
      let distributable := Z.max 0 (total - fee) in
      let payouts :=
        Settlement.addProRataPayouts winners distributable
          (sumOf Settlement.lamports winners) in
      sumOf Settlement.lamports payouts = distributable
      /\ sumOf Settlement.lamports payouts + fee = total
      /\ Forall (fun p => 0 <= Settlement.lamports p) payouts)
  /\
  (forall total feeBps : Z,
      0 <= total < 2 ^ 52 -> 0 <= feeBps <= 10000 ->
      0 <= (total * feeBps) / 10000 <= total
      /\ 0 <= Math_floor (quotient (product total feeBps) 10000) <= total).
Proof.
  split; [|split].
  - intros recipients fee total Hne Hpos Hnd Hfee Hb distributable inputTotal allocations.
    assert (Hd : distributable = total - fee) by (unfold distributable; lia).
    assert (HW : 0 < inputTotal) by (apply sumOf_pos; assumption).
    assert (Hsum : sumOf snd allocations = distributable).
    { unfold allocations. apply proRataCents_sum; try assumption. lia. }
    split; [|repeat split].
    + intros item Hin. apply DoubleFacts.share_exact; [|exact HW].
      specialize (Hpos item Hin). specialize (Hb item Hin). split; nia.
    + exact Hsum.
    + lia.
    + apply proRataCents_nonneg. intros item Hin. apply Z.lt_le_incl, Hpos, Hin.
  - intros winners fee total Hne Hpos HW Hfee Hb distributable payouts.
    assert (Hd : distributable = total - fee) by (unfold distributable; lia).
    assert (Hsum : sumOf Settlement.lamports payouts = distributable).
    { unfold payouts. apply addProRataPayouts_sum; try assumption. lia. }
    repeat split.
    + exact Hsum.
    + lia.
    + apply addProRataPayouts_nonneg. intros item Hin. apply Z.lt_le_incl, Hpos, Hin.
  - intros total feeBps Ht Hf. split.
    + apply fee_le_total; lia.
    + apply rounded_fee_le_total; assumption.
Qed.

(** Above 2^52 the two roundings can lift the shares above what is shared.

    - A pool of 7665701493396596 lamports at 600 basis points leaves
      7205759403792801 to share between two winners of 0.1 SOL each: the
      product 7205759403792801 * 100000000 is rounded up to a double, both
      shares come out as 3602879701896401, and the payouts add up to one
      lamport more than the distributable amount.  The remainder is
      negative and nothing is taken back.
    - The bound is as low as it can be, but for one part in 10^8: with no
      fee, 2^52 + 53687091 lamports shared between two winners of
      536870907 lamports each come out as two shares that add up to one
      lamport more. *)
Lemma rounded_shares_exceed_the_pool :
  (let winners :=
     [ {| Settlement.wallet := "alice"; Settlement.lamports := 100000000 |};
       {| Settlement.wallet := "bob"; Settlement.lamports := 100000000 |} ] in
   let total := 7665701493396596 in
   let fee := (total * 600) / 10000 in
   let distributable := Z.max 0 (total - fee) in
   let payouts :=
     Settlement.addProRataPayouts winners distributable
       (sumOf Settlement.lamports winners) in
   total < 2 ^ 53
   /\ fee = Math_floor (quotient (product total 600) 10000)
   /\ distributable = 7205759403792801
   /\ payouts
      = [ {| Settlement.wallet := "alice"; Settlement.lamports := 3602879701896401 |};
          {| Settlement.wallet := "bob"; Settlement.lamports := 3602879701896401 |} ]
   /\ sumOf Settlement.lamports payouts = distributable + 1
   /\ sumOf Settlement.lamports payouts + fee = total + 1)
  /\
  (let winners :=
     [ {| Settlement.wallet := "alice"; Settlement.lamports := 536870907 |};
       {| Settlement.wallet := "bob"; Settlement.lamports := 536870907 |} ] in
   let total := 2 ^ 52 + 53687091 in
   let fee := (total * 0) / 10000 in
   let distributable := Z.max 0 (total - fee) in
   let payouts :=
     Settlement.addProRataPayouts winners distributable
       (sumOf Settlement.lamports winners) in
   fee = 0
   /\ sumOf Settlement.lamports payouts = distributable + 1
   /\ sumOf Settlement.lamports payouts + fee = total + 1).
Proof. vm_compute. repeat split; intro H; discriminate H. Qed.

End PayoutArithmetic.

Module PayoutWitness.
Import PayoutArithmetic.

Lemma pro_rata_conserves_the_pool_witness :
  (let recipients :=
     [ {| SimSettlement.entryId := "alice"; SimSettlement.cents := 50 |};
       {| SimSettlement.entryId := "bob"; SimSettlement.cents := 25 |} ] in
   let distributable := Z.max 0 (105 - 6) in
   let inputTotal := sumOf SimSettlement.cents recipients in
   let allocations :=
     SimSettlement.proRataCents recipients distributable inputTotal in
   (forall item, In item recipients ->
      Math_floor (quotient (product distributable (SimSettlement.cents item))
                           inputTotal)
      = (distributable * SimSettlement.cents item) / inputTotal)
   /\ sumOf snd allocations = distributable
   /\ sumOf snd allocations + 6 = 105
   /\ Forall (fun kv => 0 <= snd kv) allocations)
  /\
  (let winners :=
     [ {| Settlement.wallet := "w1"; Settlement.lamports := 11021500001 |};
       {| Settlement.wallet := "w2"; Settlement.lamports := 11021499999 |} ] in
   let distributable := Z.max 0 (23450000000 - 1407000000) in
   let payouts :=
     Settlement.addProRataPayouts winners distributable
       (sumOf Settlement.lamports winners) in
   sumOf Settlement.lamports payouts = distributable
   /\ sumOf Settlement.lamports payouts + 1407000000 = 23450000000
   /\ Forall (fun p => 0 <= Settlement.lamports p) payouts)
  /\
  (0 <= (23450000000 * 600) / 10000 <= 23450000000
   /\ 0 <= Math_floor (quotient (product 23450000000 600) 10000) <= 23450000000).
Proof.
  split; [|split].
  - apply (proj1 pro_rata_conserves_the_pool).
    + discriminate.
    + intros item [<-|[<-|[]]]; simpl; lia.
    + constructor.
      * intros [H|[]]. discriminate H.
      * constructor; [intros []|constructor].
    + lia.
    + intros item [<-|[<-|[]]]; simpl; lia.
  - apply (proj1 (proj2 pro_rata_conserves_the_pool)).
    + discriminate.
    + intros item [<-|[<-|[]]]; simpl; lia.
    + vm_compute. discriminate.
    + lia.
    + lia.
  - apply (proj2 (proj2 pro_rata_conserves_the_pool)); lia.
Defined.

End PayoutWitness.

(** ** The settlement decision and the fee *)

Module Decision.
Import JsFacts Shares.

Lemma length_zero_iff {A : Type} (l : list A) :
  (List.length l =? 0)%nat = true <-> l = [].
Proof. destruct l; simpl; split; intro H; congruence. Qed.

Lemma total_zero_iff_empty {A : Type} (f : A -> Z) (l : list A) :
  (forall x, In x l -> 0 < f x) -> (sumOf f l = 0 <-> l = []).
Proof.
  intro Hpos. split.
  - intro H0. destruct l as [|x tl]; [reflexivity|].
    assert (0 < sumOf f (x :: tl)) by (apply sumOf_pos; [discriminate|exact Hpos]).
    lia.
  - intros ->. reflexivity.
Qed.

Lemma Q_trichotomy_bool (a b : Q) :
  Qlt_bool a b = false -> Qlt_bool b a = false -> Qeq_bool b a = true.
Proof.
  unfold Qlt_bool. rewrite !negb_false_iff. intros H1 H2.
  apply Qle_bool_iff in H1. apply Qle_bool_iff in H2.
  apply Qeq_bool_iff. apply Qle_antisym; assumption.
Qed.

Lemma Qlt_bool_not_eq (a b : Q) :
  Qlt_bool a b = true -> Qeq_bool b a = false /\ Qlt_bool b a = false.
Proof.
  intro H. apply Qlt_bool_iff in H. split.
  - destruct (Qeq_bool b a) eqn:E; [|reflexivity].
    apply Qeq_bool_iff in E. rewrite E in H. exfalso. exact (Qlt_irrefl _ H).
  - destruct (Qlt_bool b a) eqn:E; [|reflexivity].
    apply Qlt_bool_iff in E. exfalso.
    exact (Qlt_irrefl _ (Qlt_trans _ _ _ H E)).
Qed.

Section Sim.
Import Oracle SimLedger SimSettlement.

(** The four ways out of [settleRound], with the fee each one charges. *)
Lemma settleRound_cases w nowMs entries s :
  settleRound w nowMs entries = Some s ->
  let up := filter (isSide UP) entries in
  let down := filter (isSide DOWN) entries in
  let p0 := startPrice (settlement s) in
  let p1 := endPrice (settlement s) in
  ((up = [] \/ down = [])
   /\ mode (settlement s) = REFUND /\ winnerSide (settlement s) = None
   /\ feeCents s = 0)
  \/ (up <> [] /\ down <> [] /\ (p0 < p1)%Q
      /\ mode (settlement s) = WIN /\ winnerSide (settlement s) = Some UP
      /\ feeCents s = (sumOf stakeCents entries * FEE_BPS) / 10000)
  \/ (up <> [] /\ down <> [] /\ (p1 < p0)%Q
      /\ mode (settlement s) = WIN /\ winnerSide (settlement s) = Some DOWN
      /\ feeCents s = (sumOf stakeCents entries * FEE_BPS) / 10000)
  \/ (up <> [] /\ down <> [] /\ (p1 == p0)%Q
      /\ mode (settlement s) = REFUND /\ winnerSide (settlement s) = None
      /\ feeCents s = 0).
Proof.
  unfold settleRound. intro H.
  destruct (fetchSnapshotNearTimestamp w _ _) as [startSnapshot|]; [|discriminate].
  destruct (fetchSnapshotNearTimestamp w _ _) as [endSnapshot|]; [|discriminate].
  destruct (List.length (filter (isSide UP) entries) =? 0)%nat eqn:Eu.
  { cbn [orb] in H. inversion H; subst; clear H. cbn.
    left. apply length_zero_iff in Eu. auto. }
  destruct (List.length (filter (isSide DOWN) entries) =? 0)%nat eqn:Ed.
  { cbn [orb] in H. inversion H; subst; clear H. cbn.
    left. apply length_zero_iff in Ed. auto. }
  assert (Hu : filter (isSide UP) entries <> []).
  { intro E. apply length_zero_iff in E. congruence. }
  assert (Hd : filter (isSide DOWN) entries <> []).
  { intro E. apply length_zero_iff in E. congruence. }
  cbn [orb] in H.
  destruct (Qlt_bool (price startSnapshot) (price endSnapshot)) eqn:E1.
  { destruct (Qlt_bool_not_eq _ _ E1) as [Hne _]. rewrite Hne in H.
    inversion H; subst; clear H. cbn.
    right; left. apply Qlt_bool_iff in E1. auto 10. }
  destruct (Qlt_bool (price endSnapshot) (price startSnapshot)) eqn:E2.
  { destruct (Qlt_bool_not_eq _ _ E2) as [Hne _].
    assert (Hne' : Qeq_bool (price endSnapshot) (price startSnapshot) = false).
    { destruct (Qeq_bool (price endSnapshot) (price startSnapshot)) eqn:E; [|reflexivity].
      apply Qeq_bool_iff in E. apply Qlt_bool_iff in E2. rewrite E in E2.
      exfalso. exact (Qlt_irrefl _ E2). }
    rewrite Hne' in H. inversion H; subst; clear H. cbn.
    right; right; left. apply Qlt_bool_iff in E2. auto 10. }
  pose proof (Q_trichotomy_bool _ _ E1 E2) as Heq. rewrite Heq in H.
  inversion H; subst; clear H. cbn.
  right; right; right. apply Qeq_bool_iff in Heq. auto 10.
Qed.

(** In the sim game a refund round charges no fee: the fee is zero and
    what is shared out is the whole pool. *)
Lemma sim_refund_charges_no_fee w nowMs entries s :
  settleRound w nowMs entries = Some s ->
  mode (settlement s) = REFUND ->
  feeCents s = 0
  /\ payoutsByEntryId s
     = proRataCents (map toRecipient entries)
                    (Z.max 0 (sumOf stakeCents entries)) (sumOf stakeCents entries).
Proof.
  intros H Hmode.
  pose proof (settleRound_cases _ _ _ _ H) as Hc. cbv zeta in Hc.
  assert (Hfee : feeCents s = 0).
  { destruct Hc as [(_ & _ & _ & F)|[(_ & _ & _ & M & _)|[(_ & _ & _ & M & _)|(_ & _ & _ & _ & _ & F)]]];
      try exact F; congruence. }
  split; [exact Hfee|]. clear Hfee Hc.
  unfold settleRound in H.
  destruct (fetchSnapshotNearTimestamp w _ _) as [startSnapshot|]; [|discriminate].
  destruct (fetchSnapshotNearTimestamp w _ _) as [endSnapshot|]; [|discriminate].
  destruct ((List.length (filter (isSide UP) entries) =? 0)%nat
            || (List.length (filter (isSide DOWN) entries) =? 0)%nat) eqn:E.
  - cbn [orb] in H. injection H as <-.
    cbn [payoutsByEntryId settlement mode] in *. rewrite Z.sub_0_r. reflexivity.
  - cbn [orb] in H.
    destruct (Qlt_bool (price startSnapshot) (price endSnapshot)) eqn:E1.
    { injection H as <-. discriminate Hmode. }
    destruct (Qlt_bool (price endSnapshot) (price startSnapshot)) eqn:E2.
    { injection H as <-. discriminate Hmode. }
    rewrite (Q_trichotomy_bool _ _ E1 E2) in H. injection H as <-.
    cbn [payoutsByEntryId settlement mode] in *. rewrite Z.sub_0_r. reflexivity.
Qed.

End Sim.

Section Custody.
Import Oracle RoundLedger Settlement.

(** The three ways out of the decision of [createProcessingSettlement];
    the fee is the same on all of them. *)
Lemma settlePayouts_cases p0 p1 entries :
  let '(m, side, feeL, _, _) := settlePayouts p0 p1 entries in
  feeL = ((upLamportsOf entries + downLamportsOf entries) * FEE_BPS) / 10000
  /\ (((upLamportsOf entries = 0 \/ downLamportsOf entries = 0 \/ (p1 == p0)%Q)
       /\ m = REFUND /\ side = None)
      \/ (upLamportsOf entries <> 0 /\ downLamportsOf entries <> 0 /\ (p0 < p1)%Q
          /\ m = WIN /\ side = Some UP)
      \/ (upLamportsOf entries <> 0 /\ downLamportsOf entries <> 0 /\ (p1 < p0)%Q
          /\ m = WIN /\ side = Some DOWN)).
Proof.
  unfold settlePayouts. fold (upLamportsOf entries). fold (downLamportsOf entries).
  destruct (upLamportsOf entries =? 0) eqn:Eu.
  { cbn [orb]. split; [reflexivity|]. left. apply Z.eqb_eq in Eu. auto. }
  destruct (downLamportsOf entries =? 0) eqn:Ed.
  { cbn [orb]. split; [reflexivity|]. left. apply Z.eqb_eq in Ed. auto. }
  apply Z.eqb_neq in Eu. apply Z.eqb_neq in Ed. cbn [orb].
  destruct (Qeq_bool p1 p0) eqn:Eq.
  { split; [reflexivity|]. left. apply Qeq_bool_iff in Eq. auto. }
  destruct (Qlt_bool p0 p1) eqn:E1.
  { split; [reflexivity|]. right; left. apply Qlt_bool_iff in E1. auto 10. }
  split; [reflexivity|]. right; right.
  destruct (Qlt_bool p1 p0) eqn:E2.
  - apply Qlt_bool_iff in E2. auto 10.
  - pose proof (Q_trichotomy_bool _ _ E1 E2). congruence.
Qed.

Lemma createProcessingSettlement_decision w nowMs r entries treasuryWallet signerWallet s :
  createProcessingSettlement w nowMs r entries treasuryWallet signerWallet = Some s ->
  let '(m, side, feeL, _, _) := settlePayouts (startPrice s) (endPrice s) entries in
  mode s = m /\ winnerSide s = side /\ feeLamports s = feeL.
Proof.
  unfold createProcessingSettlement. intro H.
  destruct (fetchOracleSnapshotAtTimestamp w _ _) as [endSnapshot|]; [|discriminate].
  destruct (fetchOracleSnapshotAtTimestamp w _ _) as [startSnapshot|]; [|discriminate].
  destruct (settlePayouts (price startSnapshot) (price endSnapshot) entries)
    as [[[[m side] feeL] d] payouts] eqn:E.
  injection H as <-. cbn [startPrice endPrice mode winnerSide feeLamports].
  rewrite E. auto.
Qed.

End Custody.

(** C1.  The custody settlement charges the fee on a refund round.  One
    entry of 1 SOL on UP and nothing on DOWN: the round is a REFUND, the fee
    is 60000000 lamports and only 940000000 lamports go back to the
    player, where the claim asks for fee 0 and the whole pool. *)
Theorem custody_refund_deducts_the_fee :
  let entry :=
    {| RoundLedger.e_roundId := "SOL-1200-5m";
       RoundLedger.e_market := Some "SOL";
       RoundLedger.e_feedId :=
         Some "ef0d8b6fda2ceba41da15d4095d1da392a0d2f8ed0c6c7bc0f4cfac8c280b56d";
       RoundLedger.e_roundStartMs := 1200000;
       RoundLedger.e_roundEndMs := 1560000;
       RoundLedger.e_wallet := "alice";
       RoundLedger.e_direction := RoundLedger.UP;
       RoundLedger.e_stakeUsd := 5;
       RoundLedger.e_stakeLamports := 1000000000;
       RoundLedger.e_signature := "sig-alice";
       RoundLedger.e_joinedAtMs := 1200500;
       RoundLedger.e_startPrice := 0;
       RoundLedger.e_clientIp := None |} in
  let w :=
    {| Oracle.historical := fun _ ts =>
         Some {| Oracle.price := if ts =? 1260 then 100 else 101;
                 Oracle.publishTime := ts |};
       Oracle.latest := fun _ => None |} in
  exists s,
    Settlement.createProcessingSettlement w 1600000 "SOL-1200-5m" [entry]
      "treasury" "signer" = Some s
    /\ RoundLedger.mode s = RoundLedger.REFUND
    /\ RoundLedger.feeLamports s = 60000000
    /\ RoundLedger.plannedTransfers s
       = Some [ {| RoundLedger.p_id := "fee-0"; RoundLedger.p_wallet := "treasury";
                   RoundLedger.p_lamports := 60000000;
                   RoundLedger.p_kind := RoundLedger.fee |};
                {| RoundLedger.p_id := "payout-0"; RoundLedger.p_wallet := "alice";
                   RoundLedger.p_lamports := 940000000;
                   RoundLedger.p_kind := RoundLedger.payout |} ].
Proof.
  cbv zeta. eexists. split; [vm_compute; reflexivity|].
  repeat split.
Qed.

(** In the custody settlement the fee of a round never depends on its mode. *)
Lemma custody_fee_ignores_mode p0 p1 entries :
  let '(_, _, feeL, d, _) := Settlement.settlePayouts p0 p1 entries in
  feeL = ((upLamportsOf entries + downLamportsOf entries) * Settlement.FEE_BPS) / 10000
  /\ d = Z.max 0 (upLamportsOf entries + downLamportsOf entries - feeL).
Proof.
  unfold Settlement.settlePayouts.
  fold (upLamportsOf entries). fold (downLamportsOf entries).
  destruct ((upLamportsOf entries =? 0) || (downLamportsOf entries =? 0)
            || Qeq_bool p1 p0); split; reflexivity.
Qed.

Ltac rule_case :=
  repeat split; intros;
  repeat match goal with
         | H : _ /\ _ |- _ => destruct H
         end;
  try discriminate; try congruence; try lia; try tauto;
  try (left; reflexivity); try (right; reflexivity).

(** The rule read off a settled round, with the prices it recorded. *)
Lemma sim_decision_of_recorded_prices :
  forall w nowMs entries s,
    (forall e, In e entries -> 0 < SimSettlement.stakeCents e) ->
    SimSettlement.settleRound w nowMs entries = Some s ->
    let upTotal :=
      sumOf SimSettlement.stakeCents
            (filter (SimSettlement.isSide SimLedger.UP) entries) in
    let downTotal :=
      sumOf SimSettlement.stakeCents
            (filter (SimSettlement.isSide SimLedger.DOWN) entries) in
    let m := SimLedger.mode (SimSettlement.settlement s) in
    let side := SimLedger.winnerSide (SimSettlement.settlement s) in
    let p0 := SimLedger.startPrice (SimSettlement.settlement s) in
    let p1 := SimLedger.endPrice (SimSettlement.settlement s) in
    (m = SimLedger.WIN /\ side = Some SimLedger.UP
     <-> upTotal <> 0 /\ downTotal <> 0 /\ (p0 < p1)%Q)
    /\ (m = SimLedger.WIN /\ side = Some SimLedger.DOWN
        <-> upTotal <> 0 /\ downTotal <> 0 /\ (p1 < p0)%Q)
    /\ (m = SimLedger.REFUND <-> upTotal = 0 \/ downTotal = 0 \/ (p1 == p0)%Q)
    /\ (m = SimLedger.WIN ->
        (side = Some SimLedger.UP \/ side = Some SimLedger.DOWN)
        /\ 0 < upTotal /\ 0 < downTotal /\ ~ (p0 == p1)%Q).
Proof.
  intros w nowMs entries s Hpos H upTotal downTotal m side p0 p1.
  pose proof (settleRound_cases _ _ _ _ H) as Hc. cbv zeta in Hc.
  fold m side p0 p1 in Hc.
  assert (Hu : upTotal = 0 <-> filter (SimSettlement.isSide SimLedger.UP) entries = []).
  { apply total_zero_iff_empty. intros x Hx. apply Hpos.
    apply filter_In in Hx. tauto. }
  assert (Hd : downTotal = 0 <-> filter (SimSettlement.isSide SimLedger.DOWN) entries = []).
  { apply total_zero_iff_empty. intros x Hx. apply Hpos.
    apply filter_In in Hx. tauto. }
  assert (Hun : 0 <= upTotal).
  { apply sumOf_nonneg. intros x Hx. apply Z.lt_le_incl, Hpos.
    apply filter_In in Hx. tauto. }
  assert (Hdn : 0 <= downTotal).
  { apply sumOf_nonneg. intros x Hx. apply Z.lt_le_incl, Hpos.
    apply filter_In in Hx. tauto. }
  assert (Hlt1 : (p0 < p1)%Q -> ~ (p1 < p0)%Q /\ ~ (p1 == p0)%Q /\ ~ (p0 == p1)%Q).
  { intro L. repeat split; intro K.
    - exact (Qlt_irrefl _ (Qlt_trans _ _ _ L K)).
    - rewrite K in L. exact (Qlt_irrefl _ L).
    - rewrite K in L. exact (Qlt_irrefl _ L). }
  assert (Hlt2 : (p1 < p0)%Q -> ~ (p0 < p1)%Q /\ ~ (p1 == p0)%Q /\ ~ (p0 == p1)%Q).
  { intro L. repeat split; intro K.
    - exact (Qlt_irrefl _ (Qlt_trans _ _ _ L K)).
    - rewrite K in L. exact (Qlt_irrefl _ L).
    - rewrite K in L. exact (Qlt_irrefl _ L). }
  assert (Heq : (p1 == p0)%Q -> ~ (p0 < p1)%Q /\ ~ (p1 < p0)%Q).
  { intro K. split; intro L; rewrite K in L; exact (Qlt_irrefl _ L). }
  destruct Hc as [(E & M & S & _)|[(U & D & L & M & S & _)|[(U & D & L & M & S & _)|(U & D & K & M & S & _)]]];
    rewrite M, S.
  + assert (upTotal = 0 \/ downTotal = 0) by tauto. rule_case.
  + assert (upTotal <> 0) by tauto. assert (downTotal <> 0) by tauto.
    specialize (Hlt1 L). rule_case.
  + assert (upTotal <> 0) by tauto. assert (downTotal <> 0) by tauto.
    specialize (Hlt2 L). rule_case.
  + assert (upTotal <> 0) by tauto. assert (downTotal <> 0) by tauto.
    specialize (Heq K). rule_case.
Qed.

Lemma custody_decision_of_recorded_prices :
  forall w nowMs r entries treasuryWallet signerWallet s,
    (forall e, In e entries -> 0 < RoundLedger.e_stakeLamports e) ->
    Settlement.createProcessingSettlement w nowMs r entries treasuryWallet signerWallet
    = Some s ->
    let upTotal := upLamportsOf entries in
    let downTotal := downLamportsOf entries in
    let m := RoundLedger.mode s in
    let side := RoundLedger.winnerSide s in
    let p0 := RoundLedger.startPrice s in
    let p1 := RoundLedger.endPrice s in
    (m = RoundLedger.WIN /\ side = Some RoundLedger.UP
     <-> upTotal <> 0 /\ downTotal <> 0 /\ (p0 < p1)%Q)
    /\ (m = RoundLedger.WIN /\ side = Some RoundLedger.DOWN
        <-> upTotal <> 0 /\ downTotal <> 0 /\ (p1 < p0)%Q)
    /\ (m = RoundLedger.REFUND <-> upTotal = 0 \/ downTotal = 0 \/ (p1 == p0)%Q)
    /\ (m = RoundLedger.WIN ->
        (side = Some RoundLedger.UP \/ side = Some RoundLedger.DOWN)
        /\ 0 < upTotal /\ 0 < downTotal /\ ~ (p0 == p1)%Q).
Proof.
  intros w nowMs r entries tw sw s Hpos H upTotal downTotal m side p0 p1.
  pose proof (createProcessingSettlement_decision _ _ _ _ _ _ _ H) as Hdec.
  pose proof (settlePayouts_cases p0 p1 entries) as Hc.
  fold p0 p1 in Hdec.
  destruct (Settlement.settlePayouts p0 p1 entries) as [[[[m' side'] feeL] d] payouts].
  destruct Hdec as (Hm & Hs & _). fold m in Hm. fold side in Hs.
  fold upTotal downTotal in Hc. destruct Hc as [_ Hc].
  assert (Hun : 0 <= upTotal).
  { apply sumOf_nonneg. intros x Hx. apply Z.lt_le_incl, Hpos.
    apply filter_In in Hx. tauto. }
  assert (Hdn : 0 <= downTotal).
  { apply sumOf_nonneg. intros x Hx. apply Z.lt_le_incl, Hpos.
    apply filter_In in Hx. tauto. }
  assert (Hlt1 : (p0 < p1)%Q -> ~ (p1 < p0)%Q /\ ~ (p1 == p0)%Q /\ ~ (p0 == p1)%Q).
  { intro L. repeat split; intro K.
    - exact (Qlt_irrefl _ (Qlt_trans _ _ _ L K)).
    - rewrite K in L. exact (Qlt_irrefl _ L).
    - rewrite K in L. exact (Qlt_irrefl _ L). }
  assert (Hlt2 : (p1 < p0)%Q -> ~ (p0 < p1)%Q /\ ~ (p1 == p0)%Q /\ ~ (p0 == p1)%Q).
  { intro L. repeat split; intro K.
    - exact (Qlt_irrefl _ (Qlt_trans _ _ _ L K)).
    - rewrite K in L. exact (Qlt_irrefl _ L).
    - rewrite K in L. exact (Qlt_irrefl _ L). }
  assert (Heq : (p1 == p0)%Q -> ~ (p0 < p1)%Q /\ ~ (p1 < p0)%Q).
  { intro K. split; intro L; rewrite K in L; exact (Qlt_irrefl _ L). }
  rewrite Hm, Hs.
  destruct Hc as [(E & M & S)|[(U & D & L & M & S)|(U & D & L & M & S)]];
    rewrite M, S.
  + assert (Hk : (p1 == p0)%Q -> ~ (p0 < p1)%Q /\ ~ (p1 < p0)%Q) by exact Heq.
    rule_case.
  + specialize (Hlt1 L). rule_case.
  + specialize (Hlt2 L). rule_case.
Qed.

(** The prices a settlement records are the two the oracle gave: the
    snapshot near the lock time and the snapshot near the end time of the
    round of the first entry. *)
Lemma settleRound_records_the_oracle w nowMs entries startSnapshot endSnapshot :
  let market :=
    match entries with e :: _ => SimLedger.market e | [] => "SOL" end in
  let roundStartMs :=
    match entries with e :: _ => SimLedger.roundStartMs e | [] => nowMs end in
  let roundEndMs :=
    match entries with e :: _ => SimLedger.roundEndMs e | [] => nowMs end in
  SimSettlement.fetchSnapshotNearTimestamp w market ((roundStartMs + 60000) / 1000)
  = Some startSnapshot ->
  SimSettlement.fetchSnapshotNearTimestamp w market (roundEndMs / 1000)
  = Some endSnapshot ->
  exists s,
    SimSettlement.settleRound w nowMs entries = Some s
    /\ SimLedger.startPrice (SimSettlement.settlement s) = Oracle.price startSnapshot
    /\ SimLedger.endPrice (SimSettlement.settlement s) = Oracle.price endSnapshot.
Proof.
  intros market roundStartMs roundEndMs H1 H2.
  unfold SimSettlement.settleRound.
  fold market roundStartMs roundEndMs. rewrite H1, H2.
  destruct ((List.length (filter (SimSettlement.isSide SimLedger.UP) entries) =? 0)%nat
            || (List.length (filter (SimSettlement.isSide SimLedger.DOWN) entries) =? 0)%nat).
  { eexists. split; [reflexivity|]. split; reflexivity. }
  destruct (Qlt_bool (Oracle.price startSnapshot) (Oracle.price endSnapshot)).
  { eexists. split; [reflexivity|]. split; reflexivity. }
  destruct (Qlt_bool (Oracle.price endSnapshot) (Oracle.price startSnapshot));
    eexists; (split; [reflexivity|]); split; reflexivity.
Qed.

Lemma createProcessingSettlement_records_the_oracle
  w nowMs r entries treasuryWallet signerWallet startSnapshot endSnapshot :
  let market :=
    Oracle.resolveMarketByFeedId
      (match entries with e :: _ => RoundLedger.e_feedId e | [] => None end) in
  let roundStartMs :=
    match entries with e :: _ => RoundLedger.e_roundStartMs e | [] => nowMs end in
  let roundEndMs :=
    match entries with e :: _ => RoundLedger.e_roundEndMs e | [] => nowMs end in
  Oracle.fetchOracleSnapshotAtTimestamp w (Oracle.key market)
    ((roundStartMs + Settlement.OPEN_ENTRY_SECONDS * 1000) / 1000) = Some startSnapshot ->
  Oracle.fetchOracleSnapshotAtTimestamp w (Oracle.key market) (roundEndMs / 1000)
  = Some endSnapshot ->
  exists s,
    Settlement.createProcessingSettlement w nowMs r entries treasuryWallet signerWallet
    = Some s
    /\ RoundLedger.startPrice s = Oracle.price startSnapshot
    /\ RoundLedger.endPrice s = Oracle.price endSnapshot.
Proof.
  intros market roundStartMs roundEndMs H1 H2.
  unfold Settlement.createProcessingSettlement.
  fold market roundStartMs roundEndMs. rewrite H2, H1.
  destruct (Settlement.settlePayouts (Oracle.price startSnapshot)
              (Oracle.price endSnapshot) entries) as [[[[m side] feeL] d] payouts].
  eexists. split; [reflexivity|]. split; reflexivity.
Qed.

(** C4.  The decision of a settlement is a function of the two side totals
    and of the two prices the oracle gives, and of nothing else.  With
    positive stakes, in the sim game ([settleRound]) and in the custody
    settlement ([createProcessingSettlement]): when the oracle gives a
    snapshot for the lock time and one for the end time of the round, the
    round is settled, the settlement records the prices of these two
    snapshots, and it is a WIN for UP exactly when both side totals are
    nonzero and the end price is above the start price, a WIN for DOWN
    exactly when both are nonzero and the end price is below, and a REFUND
    exactly when a side total is zero or the prices are equal; hence a WIN
    round has a winner among UP and DOWN, two positive side totals and two
    different prices. *)
Theorem settlement_decision_rule :
  (forall w nowMs entries startSnapshot endSnapshot,
      (forall e, In e entries -> 0 < SimSettlement.stakeCents e) ->
      let market :=
        match entries with e :: _ => SimLedger.market e | [] => "SOL" end in
      let roundStartMs :=
        match entries with e :: _ => SimLedger.roundStartMs e | [] => nowMs end in
      let roundEndMs :=
        match entries with e :: _ => SimLedger.roundEndMs e | [] => nowMs end in
      SimSettlement.fetchSnapshotNearTimestamp w market ((roundStartMs + 60000) / 1000)
      = Some startSnapshot ->
      SimSettlement.fetchSnapshotNearTimestamp w market (roundEndMs / 1000)
      = Some endSnapshot ->
      let upTotal :=
        sumOf SimSettlement.stakeCents
              (filter (SimSettlement.isSide SimLedger.UP) entries) in
      let downTotal :=
        sumOf SimSettlement.stakeCents
              (filter (SimSettlement.isSide SimLedger.DOWN) entries) in
      let p0 := Oracle.price startSnapshot in
      let p1 := Oracle.price endSnapshot in
      exists s,
        SimSettlement.settleRound w nowMs entries = Some s
        /\ SimLedger.startPrice (SimSettlement.settlement s) = p0
        /\ SimLedger.endPrice (SimSettlement.settlement s) = p1
        /\ let m := SimLedger.mode (SimSettlement.settlement s) in
           let side := SimLedger.winnerSide (SimSettlement.settlement s) in
           (m = SimLedger.WIN /\ side = Some SimLedger.UP
            <-> upTotal <> 0 /\ downTotal <> 0 /\ (p0 < p1)%Q)
           /\ (m = SimLedger.WIN /\ side = Some SimLedger.DOWN
               <-> upTotal <> 0 /\ downTotal <> 0 /\ (p1 < p0)%Q)
           /\ (m = SimLedger.REFUND <-> upTotal = 0 \/ downTotal = 0 \/ (p1 == p0)%Q)
           /\ (m = SimLedger.WIN ->
               (side = Some SimLedger.UP \/ side = Some SimLedger.DOWN)
               /\ 0 < upTotal /\ 0 < downTotal /\ ~ (p0 == p1)%Q))
  /\
  (forall w nowMs r entries treasuryWallet signerWallet startSnapshot endSnapshot,
      (forall e, In e entries -> 0 < RoundLedger.e_stakeLamports e) ->
      let market :=
        Oracle.resolveMarketByFeedId
          (match entries with e :: _ => RoundLedger.e_feedId e | [] => None end) in
      let roundStartMs :=
        match entries with e :: _ => RoundLedger.e_roundStartMs e | [] => nowMs end in
      let roundEndMs :=
        match entries with e :: _ => RoundLedger.e_roundEndMs e | [] => nowMs end in
      Oracle.fetchOracleSnapshotAtTimestamp w (Oracle.key market)
        ((roundStartMs + Settlement.OPEN_ENTRY_SECONDS * 1000) / 1000)
      = Some startSnapshot ->
      Oracle.fetchOracleSnapshotAtTimestamp w (Oracle.key market) (roundEndMs / 1000)
      = Some endSnapshot ->
      let upTotal := upLamportsOf entries in
      let downTotal := downLamportsOf entries in
      let p0 := Oracle.price startSnapshot in
      let p1 := Oracle.price endSnapshot in
      exists s,
        Settlement.createProcessingSettlement w nowMs r entries treasuryWallet signerWallet
        = Some s
        /\ RoundLedger.startPrice s = p0
        /\ RoundLedger.endPrice s = p1
        /\ let m := RoundLedger.mode s in
           let side := RoundLedger.winnerSide s in
           (m = RoundLedger.WIN /\ side = Some RoundLedger.UP
            <-> upTotal <> 0 /\ downTotal <> 0 /\ (p0 < p1)%Q)
           /\ (m = RoundLedger.WIN /\ side = Some RoundLedger.DOWN
               <-> upTotal <> 0 /\ downTotal <> 0 /\ (p1 < p0)%Q)
           /\ (m = RoundLedger.REFUND <-> upTotal = 0 \/ downTotal = 0 \/ (p1 == p0)%Q)
           /\ (m = RoundLedger.WIN ->
               (side = Some RoundLedger.UP \/ side = Some RoundLedger.DOWN)
               /\ 0 < upTotal /\ 0 < downTotal /\ ~ (p0 == p1)%Q)).
Proof.
  split.
  - intros w nowMs entries startSnapshot endSnapshot Hpos market roundStartMs roundEndMs
           H1 H2 upTotal downTotal p0 p1.
    destruct (settleRound_records_the_oracle w nowMs entries startSnapshot endSnapshot
                H1 H2) as (s & Hs & Hp0 & Hp1).
    exists s. split; [exact Hs|]. split; [exact Hp0|]. split; [exact Hp1|].
    pose proof (sim_decision_of_recorded_prices w nowMs entries s Hpos Hs) as Hrule.
    cbv zeta in Hrule. rewrite Hp0, Hp1 in Hrule. exact Hrule.
  - intros w nowMs r entries treasuryWallet signerWallet startSnapshot endSnapshot Hpos
           market roundStartMs roundEndMs H1 H2 upTotal downTotal p0 p1.
    destruct (createProcessingSettlement_records_the_oracle w nowMs r entries
                treasuryWallet signerWallet startSnapshot endSnapshot H1 H2)
      as (s & Hs & Hp0 & Hp1).
    exists s. split; [exact Hs|]. split; [exact Hp0|]. split; [exact Hp1|].
    pose proof (custody_decision_of_recorded_prices w nowMs r entries
                  treasuryWallet signerWallet s Hpos Hs) as Hrule.
    cbv zeta in Hrule. rewrite Hp0, Hp1 in Hrule. exact Hrule.
Qed.

End Decision.

Module DecisionWitness.
Import Decision Shares.

Lemma settlement_decision_rule_witness :
  (let mk i d b :=
     {| SimLedger.id := i; SimLedger.roundId := "SOL-1200-5m";
        SimLedger.market := "SOL"; SimLedger.feedId := "feed";
        SimLedger.roundStartMs := 1200000; SimLedger.roundEndMs := 1560000;
        SimLedger.wallet := i; SimLedger.direction := d;
        SimLedger.stakeBucks := b; SimLedger.joinedAtMs := 1200100 |} in
   let entries := [mk "alice" SimLedger.UP 50%Q; mk "carol" SimLedger.DOWN 25%Q] in
   let w :=
     {| Oracle.historical := fun _ ts =>
          Some {| Oracle.price := if ts =? 1260 then 100 else 101;
                  Oracle.publishTime := ts |};
        Oracle.latest := fun _ => None |} in
   exists s,
     SimSettlement.settleRound w 1600000 entries = Some s
     /\ SimLedger.startPrice (SimSettlement.settlement s) = 100%Q
     /\ SimLedger.endPrice (SimSettlement.settlement s) = 101%Q
     /\ (SimLedger.mode (SimSettlement.settlement s) = SimLedger.WIN
         /\ SimLedger.winnerSide (SimSettlement.settlement s) = Some SimLedger.UP
         <-> sumOf SimSettlement.stakeCents
                   (filter (SimSettlement.isSide SimLedger.UP) entries) <> 0
             /\ sumOf SimSettlement.stakeCents
                      (filter (SimSettlement.isSide SimLedger.DOWN) entries) <> 0
             /\ (100 < 101)%Q))
  /\
  (let mk i d l :=
     {| RoundLedger.e_roundId := "SOL-1200-5m";
        RoundLedger.e_market := Some "SOL";
        RoundLedger.e_feedId := None;
        RoundLedger.e_roundStartMs := 1200000;
        RoundLedger.e_roundEndMs := 1560000;
        RoundLedger.e_wallet := i;
        RoundLedger.e_direction := d;
        RoundLedger.e_stakeUsd := 5;
        RoundLedger.e_stakeLamports := l;
        RoundLedger.e_signature := i;
        RoundLedger.e_joinedAtMs := 1200100;
        RoundLedger.e_startPrice := 0;
        RoundLedger.e_clientIp := None |} in
   let entries := [mk "alice" RoundLedger.UP 50; mk "carol" RoundLedger.DOWN 30] in
   let w :=
     {| Oracle.historical := fun _ ts =>
          Some {| Oracle.price := if ts =? 1260 then 101 else 100;
                  Oracle.publishTime := ts |};
        Oracle.latest := fun _ => None |} in
   exists s,
     Settlement.createProcessingSettlement w 1600000 "SOL-1200-5m" entries
       "treasury" "signer" = Some s
     /\ RoundLedger.startPrice s = 101%Q
     /\ RoundLedger.endPrice s = 100%Q
     /\ (RoundLedger.mode s = RoundLedger.WIN
         /\ RoundLedger.winnerSide s = Some RoundLedger.DOWN
         <-> upLamportsOf entries <> 0 /\ downLamportsOf entries <> 0
             /\ (100 < 101)%Q)).
Proof.
  split.
  - intros mk entries w.
    destruct (proj1 settlement_decision_rule w 1600000 entries
                {| Oracle.price := 100; Oracle.publishTime := 1260 |}
                {| Oracle.price := 101; Oracle.publishTime := 1560 |})
      as (s & Hs & Hp0 & Hp1 & Hup & _).
    + intros e [<-|[<-|[]]]; vm_compute; reflexivity.
    + vm_compute. reflexivity.
    + vm_compute. reflexivity.
    + exists s. split; [exact Hs|]. split; [exact Hp0|]. split; [exact Hp1|].
      exact Hup.
  - intros mk entries w.
    destruct (proj2 settlement_decision_rule w 1600000 "SOL-1200-5m" entries
                "treasury" "signer"
                {| Oracle.price := 101; Oracle.publishTime := 1260 |}
                {| Oracle.price := 100; Oracle.publishTime := 1560 |})
      as (s & Hs & Hp0 & Hp1 & _ & Hdown & _).
    + intros e [<-|[<-|[]]]; vm_compute; reflexivity.
    + vm_compute. reflexivity.
    + vm_compute. reflexivity.
    + exists s. split; [exact Hs|]. split; [exact Hp0|]. split; [exact Hp1|].
      exact Hdown.
Defined.

End DecisionWitness.

(** ** Conservation along the whole settlement *)

Module Conservation.
Import JsFacts Shares PayoutArithmetic Decision.

(** Dropping rows keeps their keys pairwise distinct. *)
Lemma distinct_keys_after_filter {Row : Type} (keep : Row -> bool)
  (keyOf : Row -> string) (rows : list Row) :
  NoDup (map keyOf rows) -> NoDup (map keyOf (filter keep rows)).
Proof.
  intro Hdistinct. induction rows as [|row rest IH]; cbn [map filter] in *.
  - constructor.
  - apply NoDup_cons_iff in Hdistinct. destruct Hdistinct as [Hfresh Hrest].
    destruct (keep row); cbn [map]; [|exact (IH Hrest)].
    apply NoDup_cons_iff. split; [|exact (IH Hrest)].
    intro Hin. apply Hfresh. apply in_map_iff in Hin.
    destruct Hin as [other [Hkey Hother]]. apply filter_In in Hother.
    rewrite <- Hkey. apply in_map. exact (proj1 Hother).
Qed.

Section Sim.
Import Oracle SimLedger SimSettlement.

Lemma share_out_rows (rows : list SimEntry) (d : Z) :
  0 <= d -> rows <> [] ->
  (forall e, In e rows -> 0 < stakeCents e) ->
  NoDup (map id rows) ->
  sumOf snd (proRataCents (map toRecipient rows) d (sumOf stakeCents rows)) = d.
Proof.
  intros Hd Hne Hpos Hnd.
  replace (sumOf stakeCents rows) with (sumOf cents (map toRecipient rows))
    by (rewrite sumOf_map; reflexivity).
  apply proRataCents_sum.
  - exact Hd.
  - destruct rows; [congruence|discriminate].
  - intros item Hin. apply in_map_iff in Hin. destruct Hin as [e [<- He]].
    apply Hpos. exact He.
  - rewrite map_map. exact Hnd.
Qed.

(** In the sim game the payouts and the fee of a settled round add up to
    the pool. *)
Lemma settleRound_conserves_the_pool w nowMs entries s :
  entries <> [] ->
  (forall e, In e entries -> 0 < stakeCents e) ->
  NoDup (map id entries) ->
  settleRound w nowMs entries = Some s ->
  sumOf snd (payoutsByEntryId s) + feeCents s = sumOf stakeCents entries.
Proof.
  intros Hne Hpos Hnd H.
  assert (Htotal : 0 < sumOf stakeCents entries) by (apply sumOf_pos; assumption).
  pose proof (fee_le_total (sumOf stakeCents entries) FEE_BPS) as Hfee.
  assert (Hside : forall d, forall rows, rows = filter (isSide d) entries ->
            (forall e, In e rows -> 0 < stakeCents e) /\ NoDup (map id rows)).
  { intros d rows ->. split.
    - intros e He. apply Hpos. apply filter_In in He. tauto.
    - apply distinct_keys_after_filter. exact Hnd. }
  unfold settleRound in H.
  destruct (fetchSnapshotNearTimestamp w _ _) as [startSnapshot|]; [|discriminate].
  destruct (fetchSnapshotNearTimestamp w _ _) as [endSnapshot|]; [|discriminate].
  destruct ((List.length (filter (isSide UP) entries) =? 0)%nat
            || (List.length (filter (isSide DOWN) entries) =? 0)%nat) eqn:E.
  { cbn [orb] in H. injection H as <-.
    cbn [payoutsByEntryId feeCents settlement mode].
    rewrite share_out_rows; try assumption; lia. }
  apply orb_false_iff in E. destruct E as [Eu Ed].
  assert (Hu : filter (isSide UP) entries <> []).
  { intro K. apply length_zero_iff in K. congruence. }
  assert (Hd : filter (isSide DOWN) entries <> []).
  { intro K. apply length_zero_iff in K. congruence. }
  cbn [orb] in H.
  destruct (Qlt_bool (price startSnapshot) (price endSnapshot)) eqn:E1.
  { destruct (Qlt_bool_not_eq _ _ E1) as [Hne' _]. rewrite Hne' in H.
    injection H as <-.
    cbn [payoutsByEntryId feeCents settlement mode winnerSide isWinner].
    destruct (Hside UP _ eq_refl) as [Hp Hn].
    rewrite share_out_rows; try assumption; unfold FEE_BPS in *; lia. }
  destruct (Qlt_bool (price endSnapshot) (price startSnapshot)) eqn:E2.
  { assert (Hne' : Qeq_bool (price endSnapshot) (price startSnapshot) = false).
    { destruct (Qeq_bool (price endSnapshot) (price startSnapshot)) eqn:K; [|reflexivity].
      apply Qeq_bool_iff in K. apply Qlt_bool_iff in E2. rewrite K in E2.
      exfalso. exact (Qlt_irrefl _ E2). }
    rewrite Hne' in H. injection H as <-.
    cbn [payoutsByEntryId feeCents settlement mode winnerSide isWinner].
    destruct (Hside DOWN _ eq_refl) as [Hp Hn].
    rewrite share_out_rows; try assumption; unfold FEE_BPS in *; lia. }
  rewrite (Q_trichotomy_bool _ _ E1 E2) in H. injection H as <-.
  cbn [payoutsByEntryId feeCents settlement mode].
  rewrite share_out_rows; try assumption; lia.
Qed.

End Sim.

Section Custody.
Import RoundLedger Settlement.

Lemma Map_set_values_pos (k : string) (v : Z) (m : JsMap Z) :
  0 < v -> Forall (fun kv => 0 < snd kv) m ->
  Forall (fun kv => 0 < snd kv) (Map_set k v m) /\ Map_set k v m <> [].
Proof.
  intros Hv. induction m as [|[k' v'] tl IH]; cbn [Map_set]; intro Hm.
  - split; [constructor; [exact Hv|constructor]|discriminate].
  - inversion Hm; subst. destruct (k' =s? k).
    + split; [constructor; assumption|discriminate].
    + split; [|discriminate]. constructor; [assumption|]. apply IH. assumption.
Qed.

Lemma Map_get_pos (k : string) (m : JsMap Z) (v : Z) :
  Forall (fun kv => 0 < snd kv) m -> Map_get k m = Some v -> 0 < v.
Proof.
  induction m as [|[k' v'] tl IH]; cbn [Map_get]; intros Hm H.
  - discriminate.
  - inversion Hm; subst. destruct (k' =s? k).
    + injection H as <-. assumption.
    + apply IH; assumption.
Qed.

Lemma mergeByWallet_pos (entries : list LedgerEntry) :
  entries <> [] ->
  (forall e, In e entries -> 0 < e_stakeLamports e) ->
  Forall (fun kv => 0 < snd kv) (mergeByWallet entries)
  /\ mergeByWallet entries <> [].
Proof.
  unfold mergeByWallet. intros Hne Hpos.
  assert (Hgen : forall (l : list LedgerEntry) (m : JsMap Z),
             (forall e, In e l -> 0 < e_stakeLamports e) ->
             Forall (fun kv => 0 < snd kv) m ->
             (l <> [] \/ m <> []) ->
             let out :=
               fold_left
                 (fun merged entry =>
                    Map_set (e_wallet entry)
                      (match Map_get (e_wallet entry) merged with
                       | Some v => v | None => 0 end + e_stakeLamports entry)
                      merged) l m in
             Forall (fun kv => 0 < snd kv) out /\ out <> []).
  { induction l as [|x tl IH]; intros m Hl Hm Hnon; cbn [fold_left].
    - split; [exact Hm|]. destruct Hnon as [K|K]; [congruence|exact K].
    - assert (Hx : 0 < e_stakeLamports x) by (apply Hl; left; reflexivity).
      assert (Hold : 0 <= match Map_get (e_wallet x) m with
                          | Some v => v | None => 0 end).
      { destruct (Map_get (e_wallet x) m) as [v|] eqn:G; [|lia].
        apply Z.lt_le_incl. exact (Map_get_pos _ _ _ Hm G). }
      destruct (Map_set_values_pos (e_wallet x)
                  (match Map_get (e_wallet x) m with Some v => v | None => 0 end
                   + e_stakeLamports x) m) as [Hm' Hne']; [lia|exact Hm|].
      apply IH.
      + intros e He. apply Hl. right. exact He.
      + exact Hm'.
      + right. exact Hne'. }
  apply (Hgen entries []); [exact Hpos|constructor|left; exact Hne].
Qed.

(** In the custody settlement the payouts and the fee add up to the pool,
    on a win and on a refund alike, for a pool below 2^52 lamports. *)
Lemma settlePayouts_conserves_the_pool p0 p1 entries :
  entries <> [] ->
  (forall e, In e entries -> 0 < e_stakeLamports e) ->
  upLamportsOf entries + downLamportsOf entries < 2 ^ 52 ->
  let '(_, _, feeL, d, payouts) := settlePayouts p0 p1 entries in
  sumOf lamports payouts = d
  /\ sumOf lamports payouts + feeL = upLamportsOf entries + downLamportsOf entries.
Proof.
  intros Hne Hpos Hbound. unfold settlePayouts.
  fold (upLamportsOf entries). fold (downLamportsOf entries).
  set (total := upLamportsOf entries + downLamportsOf entries).
  assert (Hup : 0 <= upLamportsOf entries).
  { apply sumOf_nonneg. intros x Hx. apply Z.lt_le_incl, Hpos.
    apply filter_In in Hx. tauto. }
  assert (Hdown : 0 <= downLamportsOf entries).
  { apply sumOf_nonneg. intros x Hx. apply Z.lt_le_incl, Hpos.
    apply filter_In in Hx. tauto. }
  pose proof (fee_le_total total FEE_BPS) as Hfee.
  assert (Hdeq : Z.max 0 (total - (total * FEE_BPS) / 10000)
                 = total - (total * FEE_BPS) / 10000)
    by (unfold FEE_BPS in *; subst total; lia).
  assert (Hd : 0 <= Z.max 0 (total - (total * FEE_BPS) / 10000) < 2 ^ 52)
    by (unfold FEE_BPS in *; subst total; lia).
  destruct ((upLamportsOf entries =? 0) || (downLamportsOf entries =? 0)
            || Qeq_bool p1 p0) eqn:E.
  - destruct (mergeByWallet_pos entries Hne Hpos) as [Hm Hmne].
    rewrite addProRataPayouts_sum.
    + split; [reflexivity|lia].
    + exact Hd.
    + destruct (mergeByWallet entries); [congruence|discriminate].
    + intros winner Hin. apply in_map_iff in Hin. destruct Hin as [kv [<- Hkv]].
      cbn [lamports]. rewrite Forall_forall in Hm. apply Hm. exact Hkv.
  - apply orb_false_iff in E. destruct E as [E _].
    apply orb_false_iff in E. destruct E as [Eu Ed].
    apply Z.eqb_neq in Eu. apply Z.eqb_neq in Ed.
    assert (Hwin : forall side : Direction,
              let rows := filter (fun item => Direction_eqb (e_direction item) side)
                                 entries in
              sumOf e_stakeLamports rows <> 0 ->
              sumOf lamports
                (addProRataPayouts
                   (map (fun item => {| wallet := e_wallet item;
                                        lamports := e_stakeLamports item |}) rows)
                   (Z.max 0 (total - (total * FEE_BPS) / 10000))
                   (sumOf lamports
                      (map (fun item => {| wallet := e_wallet item;
                                           lamports := e_stakeLamports item |}) rows)))
              = Z.max 0 (total - (total * FEE_BPS) / 10000)).
    { intros side rows Hnz. apply addProRataPayouts_sum.
      - exact Hd.
      - destruct rows; [exfalso; apply Hnz; reflexivity|discriminate].
      - intros winner Hin. apply in_map_iff in Hin. destruct Hin as [e [<- He]].
        cbn [lamports]. apply Hpos. apply filter_In in He. tauto. }
    destruct (Qlt_bool p0 p1).
    + rewrite (Hwin UP Eu). split; [reflexivity|lia].
    + rewrite (Hwin DOWN Ed). split; [reflexivity|lia].
Qed.

End Custody.

End Conservation.

(** ** The order of the rows and the remainder *)

Module Ordering.
Import JsFacts Shares.

Lemma insertDesc_perm {A : Type} (key : A -> Z) (e : A) (l : list A) :
  Permutation (insertDesc key e l) (e :: l).
Proof.
  induction l as [|x tl IH]; cbn [insertDesc].
  - apply Permutation_refl.
  - destruct (key x <=? key e).
    + apply Permutation_refl.
    + apply Permutation_trans with (x :: e :: tl).
      * apply perm_skip. exact IH.
      * apply perm_swap.
Qed.

Lemma orderByDesc_perm {A : Type} (key : A -> Z) (rows : list A) :
  Permutation (orderByDesc key rows) rows.
Proof.
  induction rows as [|x tl IH]; cbn [orderByDesc fold_right].
  - apply Permutation_refl.
  - apply Permutation_trans with (x :: orderByDesc key tl).
    + apply insertDesc_perm.
    + apply perm_skip. exact IH.
Qed.

Lemma insertDesc_sorted {A : Type} (key : A -> Z) (e : A) (l : list A) :
  StronglySorted (fun a b => key b <= key a) l ->
  StronglySorted (fun a b => key b <= key a) (insertDesc key e l).
Proof.
  induction l as [|x tl IH]; intro Hs; cbn [insertDesc].
  - constructor; constructor.
  - inversion Hs as [|? ? Htl Hx]; subst.
    destruct (key x <=? key e) eqn:E.
    + apply Z.leb_le in E. constructor; [exact Hs|].
      constructor; [exact E|].
      apply Forall_forall. intros y Hy.
      rewrite Forall_forall in Hx. specialize (Hx y Hy). lia.
    + apply Z.leb_gt in E. constructor; [apply IH; exact Htl|].
      apply (Permutation_Forall (Permutation_sym (insertDesc_perm key e tl))).
      constructor; [lia|exact Hx].
Qed.

Lemma orderByDesc_sorted {A : Type} (key : A -> Z) (rows : list A) :
  StronglySorted (fun a b => key b <= key a) (orderByDesc key rows).
Proof.
  induction rows as [|x tl IH]; cbn [orderByDesc fold_right].
  - constructor.
  - apply insertDesc_sorted. exact IH.
Qed.

Section Sim.
Import Oracle SimLedger SimSettlement.

(** The recipients of [settleRound] are its input rows, in input order:
    all of them on a refund, those of the winning side on a win. *)
Lemma settleRound_recipients w nowMs entries s :
  settleRound w nowMs entries = Some s ->
  let rows :=
    match mode (settlement s) with
    | REFUND => entries
    | WIN => filter (isWinner (winnerSide (settlement s))) entries
    end in
  exists d W, payoutsByEntryId s = proRataCents (map toRecipient rows) d W.
Proof.
  unfold settleRound. intro H.
  destruct (fetchSnapshotNearTimestamp w _ _) as [startSnapshot|]; [|discriminate].
  destruct (fetchSnapshotNearTimestamp w _ _) as [endSnapshot|]; [|discriminate].
  destruct ((List.length (filter (isSide UP) entries) =? 0)%nat
            || (List.length (filter (isSide DOWN) entries) =? 0)%nat).
  { injection H as <-. cbn [payoutsByEntryId settlement mode winnerSide].
    eexists. eexists. reflexivity. }
  destruct (Qlt_bool (price startSnapshot) (price endSnapshot)).
  { injection H as <-. cbn [payoutsByEntryId settlement mode winnerSide].
    eexists. eexists. reflexivity. }
  destruct (Qlt_bool (price endSnapshot) (price startSnapshot)).
  { injection H as <-. cbn [payoutsByEntryId settlement mode winnerSide].
    eexists. eexists. reflexivity. }
  injection H as <-. cbn [payoutsByEntryId settlement mode winnerSide].
  eexists. eexists. reflexivity.
Qed.

End Sim.

(** C3, as the code has it.  The rows of a round are read in descending
    [joined_at] order (latest join first) with no tie-break on the entry
    id; [settleRound] shares out among these rows in that order (all rows
    on a refund, the winning side's rows on a win); and when the rounding
    remainder is positive, [proRataCents] gives every recipient its floor
    share and adds the whole remainder to the first recipient of its
    input, without sorting it. *)
Theorem remainder_goes_to_first_row_read :
  (forall roundIds db,
      let rows := SimLedger.readSimEntriesForRoundIds roundIds db in
      StronglySorted
        (fun a b => SimLedger.joinedAtMs b <= SimLedger.joinedAtMs a) rows
      /\ (roundIds <> [] ->
          Permutation rows
            (filter (fun row => existsb (fun r => r =s? SimLedger.roundId row) roundIds)
                    (SimLedger.sim_entries db))))
  /\
  (forall w nowMs entries s,
      SimSettlement.settleRound w nowMs entries = Some s ->
      exists d W,
        SimSettlement.payoutsByEntryId s
        = SimSettlement.proRataCents
            (map SimSettlement.toRecipient
                 (match SimLedger.mode (SimSettlement.settlement s) with
                  | SimLedger.REFUND => entries
                  | SimLedger.WIN =>
                      filter (SimSettlement.isWinner
                                (SimLedger.winnerSide (SimSettlement.settlement s)))
                             entries
                  end)) d W)
  /\
  (forall first rest d W,
      0 < d -> 0 < W ->
      NoDup (map SimSettlement.entryId (first :: rest)) ->
      let remainder :=
        d - sumOf (fun item => (d * SimSettlement.cents item) / W) (first :: rest) in
      0 < remainder ->
      SimSettlement.proRataCents (first :: rest) d W
      = (SimSettlement.entryId first,
         (d * SimSettlement.cents first) / W + remainder)
        :: map (fun item => (SimSettlement.entryId item,
                             (d * SimSettlement.cents item) / W)) rest).
Proof.
  split; [|split].
  - intros roundIds db rows. subst rows.
    unfold SimLedger.readSimEntriesForRoundIds.
    destruct roundIds as [|r0 rs]; cbn [List.length Nat.eqb].
    + split; [constructor|congruence].
    + split; [apply orderByDesc_sorted|]. intros _. apply orderByDesc_perm.
  - intros w nowMs entries s H.
    exact (settleRound_recipients w nowMs entries s H).
  - intros first rest d W Hd HW Hnd remainder Hrem.
    rewrite PayoutArithmetic.proRataCents_shape by (assumption || discriminate).
    rewrite PayoutArithmetic.sumOf_floorShares. fold remainder.
    replace (0 <? remainder) with true by (symmetry; apply Z.ltb_lt; exact Hrem).
    unfold floorShares. cbn [map SimSettlement.bumpFirst SimSettlement.entryId
                              SimSettlement.cents].
    rewrite map_map. reflexivity.
Qed.

Lemma remainder_goes_to_first_row_read_witness :
  let x := {| SimSettlement.entryId := "x"; SimSettlement.cents := 1 |} in
  let y := {| SimSettlement.entryId := "y"; SimSettlement.cents := 1 |} in
  let z := {| SimSettlement.entryId := "z"; SimSettlement.cents := 1 |} in
  SimSettlement.proRataCents [x; y; z] 10 3 = [("x", 3 + 1); ("y", 3); ("z", 3)].
Proof.
  intros x y z.
  apply (proj2 (proj2 remainder_goes_to_first_row_read) x [y; z] 10 3).
  - lia.
  - lia.
  - constructor.
    + intros [H|[H|[]]]; discriminate H.
    + constructor.
      * intros [H|[]]; discriminate H.
      * constructor; [intros []|constructor].
  - vm_compute. reflexivity.
Defined.

(** C3 as stated fails.  Three UP entries of 5 bucks joined at 1, 2 and 3
    ms past the start and one DOWN entry, the price rising: the remainder
    of 2 cents goes to "c", the latest joiner, not to "a", which comes
    first in ascending [joined_at] order; and settling the same rows in
    that canonical order changes the allocation. *)
Lemma remainder_not_to_canonical_first :
  let mk i d j :=
    {| SimLedger.id := i; SimLedger.roundId := "SOL-1200-5m";
       SimLedger.market := "SOL"; SimLedger.feedId := "feed";
       SimLedger.roundStartMs := 1200000; SimLedger.roundEndMs := 1560000;
       SimLedger.wallet := i; SimLedger.direction := d;
       SimLedger.stakeBucks := 5%Q; SimLedger.joinedAtMs := j |} in
  let db :=
    {| SimLedger.sim_entries :=
         [mk "a" SimLedger.UP 1200001; mk "b" SimLedger.UP 1200002;
          mk "c" SimLedger.UP 1200003; mk "d" SimLedger.DOWN 1200004];
       SimLedger.sim_round_settlements := [] |} in
  let w :=
    {| Oracle.historical := fun _ ts =>
         Some {| Oracle.price := if ts =? 1260 then 100 else 101;
                 Oracle.publishTime := ts |};
       Oracle.latest := fun _ => None |} in
  let rows := SimLedger.readSimEntriesForRoundIds ["SOL-1200-5m"] db in
  exists s s',
    SimSettlement.settleRound w 1600000 rows = Some s
    /\ SimSettlement.settleRound w 1600000 (Canonical.canonicalOrder rows) = Some s'
    /\ map SimLedger.id (Canonical.canonicalOrder rows) = ["a"; "b"; "c"; "d"]
    /\ Permutation rows (Canonical.canonicalOrder rows)
    /\ SimSettlement.payoutsByEntryId s = [("c", 628); ("b", 626); ("a", 626)]
    /\ SimSettlement.payoutsByEntryId s' = [("a", 628); ("b", 626); ("c", 626)]
    /\ Map_get "a" (SimSettlement.payoutsByEntryId s)
       <> Map_get "a" (SimSettlement.payoutsByEntryId s').
Proof.
  cbv zeta. eexists. eexists.
  split; [vm_compute; reflexivity|].
  split; [vm_compute; reflexivity|].
  split; [vm_compute; reflexivity|].
  split.
  { match goal with
    | |- Permutation ?a ?b =>
        let a' := eval vm_compute in a in
        let b' := eval vm_compute in b in
        change (Permutation a' b')
    end.
    match goal with
    | |- Permutation ?a ?b => change (Permutation a (rev a))
    end.
    apply Permutation_rev. }
  split; [vm_compute; reflexivity|].
  split; [vm_compute; reflexivity|].
  vm_compute. discriminate.
Qed.

End Ordering.

(** ** Transfer receipts *)

Module Receipts.
Import JsFacts RoundLedger LedgerReach Settlement.

Lemma updateFirst_roundIds (p : RoundSettlement -> bool) f l :
  (forall s, roundId (f s) = roundId s) ->
  map roundId (updateFirst p f l) = map roundId l.
Proof.
  intro Hf. induction l as [|x tl IH]; cbn [updateFirst map].
  - reflexivity.
  - destruct (p x); cbn [map].
    + rewrite Hf. reflexivity.
    + rewrite IH. reflexivity.
Qed.

Lemma updateFirst_In {A : Type} (p : A -> bool) (f : A -> A) (l : list A) (y : A) :
  In y (updateFirst p f l) ->
  In y l \/ exists x, find p l = Some x /\ y = f x.
Proof.
  induction l as [|x tl IH]; cbn [updateFirst find].
  - intros [].
  - destruct (p x).
    + intros [<-|Hin].
      * right. exists x. auto.
      * left. right. exact Hin.
    + intros [<-|Hin].
      * left. left. reflexivity.
      * destruct (IH Hin) as [H|H]; [left; right; exact H|right; exact H].
Qed.

Lemma find_In {A : Type} (p : A -> bool) (l : list A) (x : A) :
  find p l = Some x -> In x l /\ p x = true.
Proof. apply find_some. Qed.

Lemma filter_app_one {A : Type} (p : A -> bool) (l : list A) (x : A) :
  filter p (l ++ [x]) = filter p l ++ (if p x then [x] else []).
Proof. rewrite filter_app. reflexivity. Qed.

Lemma filter_nil_of_existsb {A : Type} (p : A -> bool) (l : list A) :
  existsb p l = false -> filter p l = [].
Proof.
  induction l as [|x tl IH]; cbn [existsb filter]; intro H.
  - reflexivity.
  - apply orb_false_iff in H. destruct H as [Hx Htl].
    rewrite Hx. apply IH. exact Htl.
Qed.

Lemma sameId_Some_eq (i j : string) (t : TransferRecord) :
  sameId (Some i) t = true -> sameId (Some j) t = true -> i = j.
Proof.
  unfold sameId. destruct (t_id t) as [k|]; [|discriminate].
  intros H1 H2. apply String.eqb_eq in H1. apply String.eqb_eq in H2. congruence.
Qed.

(** Pushing a receipt whose id, when it is a non-empty string, is not yet
    recorded keeps the receipts of every id unique. *)
Lemma push_keeps_unique (l : list TransferRecord) (t : TransferRecord) :
  (forall i, i <> "" -> (List.length (filter (sameId (Some i)) l) <= 1)%nat) ->
  (forall i, i <> "" -> sameId (Some i) t = true -> existsb (sameId (Some i)) l = false) ->
  forall i, i <> "" -> (List.length (filter (sameId (Some i)) (l ++ [t])) <= 1)%nat.
Proof.
  intros Hl Ht i Hi. rewrite filter_app_one, length_app.
  destruct (sameId (Some i) t) eqn:E; cbn [List.length].
  - rewrite (filter_nil_of_existsb _ _ (Ht i Hi E)). cbn. lia.
  - specialize (Hl i Hi). lia.
Qed.

Lemma withTransfers_roundId s l : roundId (withTransfers s l) = roundId s.
Proof. reflexivity. Qed.

(** Whenever [appendSettlementTransfer] stores the receipt, the receipt's
    id is new for the round (or absent, or the empty string). *)
Lemma append_preserves_unique r transfer st st' :
  receiptsUnique (data st) ->
  appendSettlementTransfer r transfer st = Some st' ->
  receiptsUnique (data st').
Proof.
  intros [Hnd Hu] H. unfold appendSettlementTransfer in H.
  assert (Hpush :
    forall settlement,
      findSettlement r (data st) = Some settlement ->
      (forall i, i <> "" -> sameId (Some i) transfer = true ->
                 existsb (sameId (Some i)) (transfers settlement) = false) ->
      receiptsUnique
        (data (withData st
                 (withSettlements (data st)
                    (updateFirst (fun item => roundId item =s? r)
                       (fun s => withTransfers s (transfers s ++ [transfer]))
                       (settlements (data st))))))).
  { intros settlement Hfind Hnew. unfold receiptsUnique.
    cbn [data withData withSettlements settlements].
    split.
    - rewrite updateFirst_roundIds by (intro; apply withTransfers_roundId). exact Hnd.
    - intros s Hin. apply updateFirst_In in Hin.
      destruct Hin as [Hin|[x [Hx ->]]]; [apply Hu; exact Hin|].
      unfold findSettlement in Hfind. rewrite Hfind in Hx. injection Hx as <-.
      cbn [transfers withTransfers]. apply push_keeps_unique.
      + apply Hu. apply (find_In _ _ _ Hfind).
      + exact Hnew. }
  destruct (pool st).
  - destruct (existsb _ (settlements (data st))); [injection H as <-; split; assumption|].
    destruct (findSettlement r (data st)) as [settlement|] eqn:Hfind; [|discriminate].
    destruct (t_id transfer) as [j|] eqn:Eid.
    + destruct (existsb (sameId (Some j)) (transfers settlement)) eqn:Ex;
        injection H as <-; [split; assumption|].
      apply (Hpush settlement eq_refl).
      intros i Hi Hs. unfold sameId in Hs. rewrite Eid in Hs.
      apply String.eqb_eq in Hs. subst i. exact Ex.
    + injection H as <-. apply (Hpush settlement eq_refl).
      intros i Hi Hs. unfold sameId in Hs. rewrite Eid in Hs. discriminate.
  - destruct (findSettlement r (data st)) as [settlement|] eqn:Hfind;
      [|injection H as <-; split; assumption].
    destruct (truthy_opt (t_id transfer)
              && existsb (sameId (t_id transfer)) (transfers settlement)) eqn:E1;
      [injection H as <-; split; assumption|].
    destruct (existsb (fun item => t_signature item =s? t_signature transfer)
                      (transfers settlement));
      [injection H as <-; split; assumption|].
    injection H as <-. apply (Hpush settlement eq_refl).
    intros i Hi Hs. unfold sameId in Hs.
    destruct (t_id transfer) as [j|] eqn:Eid; [|discriminate].
    apply String.eqb_eq in Hs. subst j.
    apply andb_false_iff in E1. destruct E1 as [E1|E1]; [|exact E1].
    cbn [truthy_opt] in E1. unfold truthy in E1. apply negb_false_iff in E1.
    apply String.eqb_eq in E1. contradiction.
Qed.

Lemma addRoundSettlement_preserves_unique s st :
  transfers s = [] -> receiptsUnique (data st) ->
  receiptsUnique (data (addRoundSettlement s st)).
Proof.
  intros Hs [Hnd Hu]. unfold addRoundSettlement.
  destruct (existsb (fun item => roundId item =s? roundId s) (settlements (data st)))
    eqn:Ex; [split; assumption|].
  unfold receiptsUnique. cbn [data withData withSettlements settlements]. split.
  - rewrite map_app. cbn [map].
    assert (Hrow : forall row : RoundSettlement,
               roundId row = roundId s ->
               NoDup (map roundId (settlements (data st)) ++ [roundId row])).
    { intros row ->. apply NoDup_app; [exact Hnd|constructor; [intros []|constructor]|].
      intros a Ha [<-|[]]. apply in_map_iff in Ha. destruct Ha as [x [Hx Hin]].
      assert (existsb (fun item => roundId item =s? roundId s) (settlements (data st))
              = true).
      { apply existsb_exists. exists x. split; [exact Hin|].
        rewrite Hx. apply String.eqb_refl. }
      congruence. }
    destruct (pool st); apply Hrow; reflexivity.
  - intros x Hin. apply in_app_iff in Hin. destruct Hin as [Hin|[<-|[]]].
    + apply Hu. exact Hin.
    + intros i _. destruct (pool st); cbn [transfers]; [|rewrite Hs]; cbn; lia.
Qed.

Lemma markSettlementCompleted_preserves_unique nowMs r st :
  receiptsUnique (data st) -> receiptsUnique (data (markSettlementCompleted nowMs r st)).
Proof.
  intros [Hnd Hu]. unfold markSettlementCompleted, receiptsUnique.
  cbn [data withData withSettlements settlements]. split.
  - rewrite updateFirst_roundIds by reflexivity. exact Hnd.
  - intros s Hin. apply updateFirst_In in Hin.
    destruct Hin as [Hin|[x [Hx ->]]]; [apply Hu; exact Hin|].
    cbn [transfers]. apply Hu. apply (find_In _ _ _ Hx).
Qed.

Lemma reachable_receiptsUnique st : reachable st -> receiptsUnique (data st).
Proof.
  induction 1 as [p|st entry _ IH|st s _ IH Hs|st st' r transfer _ IH Happ
                 |st nowMs r _ IH|st nowMs wallet ip _ IH
                 |st nowMs wallet ip window _ IH|st nowMs r stale _ IH|st r _ IH].
  - split; [constructor|intros s []].
  - unfold addLedgerEntry. destruct (existsb _ _); exact IH.
  - apply addRoundSettlement_preserves_unique; assumption.
  - exact (append_preserves_unique _ _ _ _ IH Happ).
  - apply markSettlementCompleted_preserves_unique. exact IH.
  - unfold recordJoinAttempt. destruct (pool st); exact IH.
  - unfold countRecentJoinAttempts. destruct (pool st); exact IH.
  - unfold tryAcquireRoundProcessingLock.
    destruct (negb (pool st)); [exact IH|].
    destruct (Map_get r (round_processing_locks st)) as [a|]; [|exact IH].
    destruct (a <? _); exact IH.
  - unfold releaseRoundProcessingLock. destruct (negb (pool st)); exact IH.
Qed.

Lemma flat_map_other_rounds (l : list RoundSettlement) (r i : string) :
  ~ In r (map roundId l) ->
  flat_map (fun s => if roundId s =s? r
                     then filter (sameId (Some i)) (transfers s) else []) l = [].
Proof.
  induction l as [|x tl IH]; cbn [flat_map map]; intro Hnotin.
  - reflexivity.
  - destruct (String.eqb_spec (roundId x) r) as [Hx|Hx].
    + exfalso. apply Hnotin. left. exact Hx.
    + cbn [app]. apply IH. intro Hin. apply Hnotin. right. exact Hin.
Qed.

Lemma flat_receipts_le_one (l : list RoundSettlement) (r i : string) :
  NoDup (map roundId l) ->
  (forall s, In s l ->
     (List.length (filter (sameId (Some i)) (transfers s)) <= 1)%nat) ->
  (List.length
     (flat_map (fun s => if roundId s =s? r
                         then filter (sameId (Some i)) (transfers s) else []) l)
   <= 1)%nat.
Proof.
  induction l as [|s tl IH]; cbn [flat_map map]; intros Hnd Hu.
  - cbn. lia.
  - inversion Hnd as [|? ? Hnotin Hnd']; subst.
    rewrite length_app.
    destruct (String.eqb_spec (roundId s) r) as [Heq|Hne].
    + rewrite flat_map_other_rounds by (rewrite <- Heq; exact Hnotin).
      cbn [List.length]. specialize (Hu s (or_introl eq_refl)). lia.
    + cbn [List.length].
      apply IH; [exact Hnd'|]. intros x Hx. apply Hu. right. exact Hx.
Qed.

Lemma receiptsOf_le_one r i d :
  receiptsUnique d -> i <> "" -> (List.length (receiptsOf r i d) <= 1)%nat.
Proof.
  intros [Hnd Hu] Hi. unfold receiptsOf.
  apply flat_receipts_le_one; [exact Hnd|].
  intros s Hs. apply Hu; assumption.
Qed.

(** Re-appending is a no-op. *)
Lemma append_again_is_noop r transfer st settlement :
  findSettlement r (data st) = Some settlement ->
  (exists i, t_id transfer = Some i /\ i <> ""
             /\ existsb (sameId (Some i)) (transfers settlement) = true)
  \/ existsb (fun item => t_signature item =s? t_signature transfer)
             (transfers settlement) = true ->
  appendSettlementTransfer r transfer st = Some st.
Proof.
  intros Hfind Hdup. unfold appendSettlementTransfer. rewrite Hfind.
  destruct (pool st).
  - destruct (existsb _ (settlements (data st))) eqn:Eg; [reflexivity|].
    destruct Hdup as [(i & Hid & Hi & Hex)|Hsig].
    + rewrite Hid, Hex. reflexivity.
    + exfalso.
      assert (existsb
                (fun s => existsb (fun item => t_signature item =s? t_signature transfer)
                                  (transfers s))
                (settlements (data st)) = true).
      { apply existsb_exists. exists settlement. split; [|exact Hsig].
        apply (find_In _ _ _ Hfind). }
      congruence.
  - destruct Hdup as [(i & Hid & Hi & Hex)|Hsig].
    + rewrite Hid, Hex. cbn [truthy_opt]. unfold truthy.
      destruct (String.eqb_spec i ""); [contradiction|]. reflexivity.
    + rewrite Hsig. destruct (truthy_opt _ && _); reflexivity.
Qed.

Lemma existsb_app_false {A : Type} (p : A -> bool) (l l' : list A) :
  existsb p (l ++ l') = false -> existsb p l = false.
Proof. rewrite existsb_app. intro H. apply orb_false_iff in H. tauto. Qed.

(** The transfer loop only submits transfers that have no receipt yet. *)
Lemma transferLoop_skips_receipted net r planned :
  forall ls,
    let out := match transferLoop net r planned ls with inl x => x | inr x => x end in
    exists newly,
      ls_chain out = ls_chain ls ++ newly
      /\ forall x, In x newly ->
           existsb (sameId (Some (sent_for x))) (transfers (ls_settlement ls)) = false.
Proof.
  induction planned as [|transfer rest IH]; intro ls; cbn [transferLoop].
  - exists []. rewrite app_nil_r. split; [reflexivity|intros x []].
  - destruct (existsb (sameId (Some (p_id transfer))) (transfers (ls_settlement ls)))
      eqn:Esent.
    + apply IH.
    + unfold sendTransfer. cbn [lamports wallet].
      destruct (p_lamports transfer <=? 0).
      * change ("skipped" =s? "skipped") with true. cbv iota.
        specialize (IH {| ls_settlement := ls_settlement ls; ls_store := ls_store ls;
                          ls_chain := ls_chain ls |}).
        exact IH.
      * destruct (net (List.length (ls_chain ls)) _) as [sig|].
        2:{ exists []. rewrite app_nil_r. split; [reflexivity|intros x []]. }
        set (sent := {| sent_for := p_id transfer; sent_to := p_wallet transfer;
                        sent_lamports := p_lamports transfer; sent_signature := sig |}).
        destruct (sig =s? "skipped").
        { match goal with
          | |- context [transferLoop net r rest ?ls1] =>
              destruct (IH ls1) as [newly [Hc Hn]]
          end.
          exists (sent :: newly). cbn [ls_chain ls_settlement] in *.
          split; [rewrite Hc, <- app_assoc; reflexivity|].
          intros x [<-|Hx]; [exact Esent|apply Hn; exact Hx]. }
        destruct (appendSettlementTransfer r _ (ls_store ls)) as [store'|].
        2:{ exists [sent]. cbn [ls_chain ls_settlement].
            split; [reflexivity|]. intros x [<-|[]]. exact Esent. }
        match goal with
        | |- context [transferLoop net r rest ?ls1] =>
            destruct (IH ls1) as [newly [Hc Hn]]
        end.
        exists (sent :: newly). cbn [ls_chain ls_settlement transfers withTransfers] in *.
        split; [rewrite Hc, <- app_assoc; reflexivity|].
        intros x [<-|Hx]; [exact Esent|].
        apply (existsb_app_false _ _ _ (Hn x Hx)).
Qed.

(** A settlement run on one round, fresh or resumed, submits only
    transfers that have no receipt in the settlement it found in the
    ledger. *)
Lemma settleOneRound_skips_receipted w net nowMs treasuryWallet signerWallet r
      entries st chain :
  let out := settleOneRound w net nowMs treasuryWallet signerWallet r entries st chain in
  exists newly,
    snd out = chain ++ newly
    /\ forall existing,
         findSettlement r
           (readLedger (snd (tryAcquireRoundProcessingLock nowMs r
                               DEFAULT_STALE_AFTER_MS st))) = Some existing ->
         forall x, In x newly ->
           existsb (sameId (Some (sent_for x))) (transfers existing) = false.
Proof.
  unfold settleOneRound.
  destruct (tryAcquireRoundProcessingLock nowMs r DEFAULT_STALE_AFTER_MS st)
    as [hasLock st1].
  cbn [snd].
  assert (Hnone : exists newly : list Sent,
             chain = chain ++ newly
             /\ forall existing,
                  findSettlement r (readLedger st1) = Some existing ->
                  forall x, In x newly ->
                    existsb (sameId (Some (sent_for x))) (transfers existing) = false).
  { exists []. rewrite app_nil_r. split; [reflexivity|intros ? ? x []]. }
  destruct hasLock; cbn [negb]; [|exact Hnone].
  destruct (findSettlement r (readLedger st1)) as [s|] eqn:Efind.
  - destruct (match state s with Some COMPLETED => true | _ => false end);
      [exact Hnone|].
    pose proof (transferLoop_skips_receipted net r
                  (match plannedTransfers s with Some l => l | None => [] end)
                  {| ls_settlement := s; ls_store := st1; ls_chain := chain |})
      as Hloop.
    cbv zeta in Hloop. cbn [ls_chain ls_settlement] in Hloop.
    destruct Hloop as [newly [Hc Hn]].
    destruct (transferLoop net r _ _) as [ls|ls]; cbn [snd];
      (exists newly; split; [exact Hc|];
       intros existing Hex x Hx; injection Hex as <-; apply Hn; exact Hx).
  - destruct (createProcessingSettlement w nowMs r entries treasuryWallet signerWallet)
      as [s|]; [|cbn [snd]; exists []; rewrite app_nil_r;
                 split; [reflexivity|intros ? ? x []]].
    pose proof (transferLoop_skips_receipted net r
                  (match plannedTransfers s with Some l => l | None => [] end)
                  {| ls_settlement := s; ls_store := addRoundSettlement s st1;
                     ls_chain := chain |})
      as Hloop.
    cbv zeta in Hloop. cbn [ls_chain ls_settlement] in Hloop.
    destruct Hloop as [newly [Hc _]].
    destruct (transferLoop net r _ _) as [ls|ls]; cbn [snd];
      (exists newly; split; [exact Hc|]; intros existing Hex; discriminate Hex).
Qed.

(** C5.  In every state the ledger can reach there is at most one receipt
    for a pair of round and (non-empty) transfer id; appending a receipt
    whose transfer id or signature is already recorded for the round
    returns without changing the ledger; and a settlement run, resumed or
    not, submits only planned transfers whose id has no receipt in the
    settlement it started from (stated for the transfer loop and for the
    whole run on a round). *)
Theorem receipts_are_unique_and_replays_are_noops :
  (forall st, reachable st ->
     forall r i, i <> "" -> (List.length (receiptsOf r i (data st)) <= 1)%nat)
  /\
  (forall r transfer st settlement,
     findSettlement r (data st) = Some settlement ->
     (exists i, t_id transfer = Some i /\ i <> ""
                /\ existsb (sameId (Some i)) (transfers settlement) = true)
     \/ existsb (fun item => t_signature item =s? t_signature transfer)
                (transfers settlement) = true ->
     appendSettlementTransfer r transfer st = Some st)
  /\
  (forall net r planned ls,
     let out := match transferLoop net r planned ls with inl x => x | inr x => x end in
     exists newly,
       ls_chain out = ls_chain ls ++ newly
       /\ forall x, In x newly ->
            existsb (sameId (Some (sent_for x))) (transfers (ls_settlement ls)) = false)
  /\
  (forall w net nowMs treasuryWallet signerWallet r entries st chain,
     let out :=
       settleOneRound w net nowMs treasuryWallet signerWallet r entries st chain in
     exists newly,
       snd out = chain ++ newly
       /\ forall existing,
            findSettlement r
              (readLedger (snd (tryAcquireRoundProcessingLock nowMs r
                                  DEFAULT_STALE_AFTER_MS st))) = Some existing ->
            forall x, In x newly ->
              existsb (sameId (Some (sent_for x))) (transfers existing) = false).
Proof.
  split; [|split; [|split]].
  - intros st Hreach r i Hi. apply receiptsOf_le_one; [|exact Hi].
    apply reachable_receiptsUnique. exact Hreach.
  - exact append_again_is_noop.
  - exact transferLoop_skips_receipted.
  - exact settleOneRound_skips_receipted.
Qed.

End Receipts.

Module ReceiptsWitness.
Import RoundLedger LedgerReach Settlement Receipts.

Lemma receipts_are_unique_and_replays_are_noops_witness :
  let receipt :=
    {| t_id := Some "fee-0"; t_wallet := "treasury"; t_lamports := 6;
       t_signature := "sigA" |} in
  let settlement :=
    {| roundId := "SOL-1200-5m"; state := Some PROCESSING; settledAtMs := 1600000;
       mode := WIN; winnerSide := Some UP; startPrice := 100; endPrice := 101;
       feeLamports := 6; plannedTransfers := Some []; transfers := [receipt] |} in
  let st :=
    {| pool := false;
       data := {| entries := []; settlements := [settlement] |};
       join_attempts := []; inMemoryWalletJoinAttempts := [];
       inMemoryIpJoinAttempts := []; round_processing_locks := [] |} in
  let again :=
    {| t_id := Some "fee-0"; t_wallet := "treasury"; t_lamports := 6;
       t_signature := "sigB" |} in
  appendSettlementTransfer "SOL-1200-5m" again st = Some st
  /\ (List.length (receiptsOf "SOL-1200-5m" "fee-0" EMPTY_LEDGER) <= 1)%nat.
Proof.
  intros receipt settlement st again. split.
  - apply (proj1 (proj2 receipts_are_unique_and_replays_are_noops)
             "SOL-1200-5m" again st settlement).
    + reflexivity.
    + left. exists "fee-0". split; [reflexivity|]. split; [discriminate|reflexivity].
  - apply (proj1 receipts_are_unique_and_replays_are_noops _ (reach_init false)).
    discriminate.
Defined.

End ReceiptsWitness.

(** ** The round processing lock *)

Module Locks.
Import JsFacts RoundLedger.

Lemma Map_get_set_same {V : Type} (k : string) (v : V) (m : JsMap V) :
  Map_get k (Map_set k v m) = Some v.
Proof.
  induction m as [|[k' v'] m IH]; cbn [Map_set Map_get].
  - rewrite String.eqb_refl. reflexivity.
  - destruct (String.eqb_spec k' k) as [->|Hne]; cbn [Map_get].
    + rewrite String.eqb_refl. reflexivity.
    + destruct (String.eqb_spec k' k); [contradiction|]. exact IH.
Qed.

Lemma acquire_without_pool nowMs r staleAfterMs st :
  pool st = false ->
  tryAcquireRoundProcessingLock nowMs r staleAfterMs st = (true, st).
Proof.
  intro Hp. unfold tryAcquireRoundProcessingLock. rewrite Hp. reflexivity.
Qed.

Lemma acquire_with_pool_iff nowMs r staleAfterMs st :
  pool st = true ->
  (fst (tryAcquireRoundProcessingLock nowMs r staleAfterMs st) = true
   <-> Map_get r (round_processing_locks st) = None
       \/ exists acquired_at_ms,
            Map_get r (round_processing_locks st) = Some acquired_at_ms
            /\ acquired_at_ms < nowMs - Z.max 1 staleAfterMs).
Proof.
  intro Hp. unfold tryAcquireRoundProcessingLock. rewrite Hp. cbn [negb].
  destruct (Map_get r (round_processing_locks st)) as [a|].
  - destruct (a <? nowMs - Z.max 1 staleAfterMs) eqn:E; cbn [fst].
    + apply Z.ltb_lt in E. split; [|reflexivity].
      intros _. right. exists a. auto.
    + apply Z.ltb_ge in E. split; [discriminate|].
      intros [H|[a' [H Hlt]]]; [discriminate|].
      injection H as <-. lia.
  - cbn [fst]. split; auto.
Qed.

Lemma acquire_fresh_holder_refuses nowMs r staleAfterMs st acquired_at_ms :
  pool st = true ->
  Map_get r (round_processing_locks st) = Some acquired_at_ms ->
  nowMs - Z.max 1 staleAfterMs <= acquired_at_ms ->
  tryAcquireRoundProcessingLock nowMs r staleAfterMs st = (false, st).
Proof.
  intros Hp Hget Hfresh. unfold tryAcquireRoundProcessingLock.
  rewrite Hp, Hget. cbn [negb].
  replace (acquired_at_ms <? nowMs - Z.max 1 staleAfterMs) with false
    by (symmetry; apply Z.ltb_ge; exact Hfresh).
  reflexivity.
Qed.

Lemma acquire_records_holder nowMs r staleAfterMs st :
  pool st = true ->
  fst (tryAcquireRoundProcessingLock nowMs r staleAfterMs st) = true ->
  Map_get r (round_processing_locks
               (snd (tryAcquireRoundProcessingLock nowMs r staleAfterMs st)))
  = Some nowMs
  /\ pool (snd (tryAcquireRoundProcessingLock nowMs r staleAfterMs st)) = true.
Proof.
  intros Hp. unfold tryAcquireRoundProcessingLock. rewrite Hp. cbn [negb].
  destruct (Map_get r (round_processing_locks st)) as [a|].
  - destruct (a <? nowMs - Z.max 1 staleAfterMs); cbn [fst snd]; [|discriminate].
    intros _. cbn [round_processing_locks withLocks pool].
    split; [apply Map_get_set_same|exact Hp].
  - cbn [fst snd]. intros _. cbn [round_processing_locks withLocks pool].
    split; [apply Map_get_set_same|exact Hp].
Qed.

Lemma release_deletes_the_row r st :
  pool st = true ->
  pool (releaseRoundProcessingLock r st) = true
  /\ Map_get r (round_processing_locks (releaseRoundProcessingLock r st)) = None
  /\ (forall r', r' <> r ->
        Map_get r' (round_processing_locks (releaseRoundProcessingLock r st))
        = Map_get r' (round_processing_locks st)).
Proof.
  intro Hp. unfold releaseRoundProcessingLock. rewrite Hp. cbn [negb].
  cbn [round_processing_locks withLocks pool].
  split; [exact Hp|]. split; [apply Map_get_delete_same|].
  intros r' Hne. apply Map_get_delete_other. exact Hne.
Qed.

(** *** The lock around the settlement attempts *)

Section Protocol.
Import LockProtocol.

Lemma isAttempt_iff r t a : isAttempt r t a = true <-> a = (r, t).
Proof.
  unfold isAttempt. destruct a as [r0 t0]. cbn [fst snd].
  rewrite andb_true_iff, String.eqb_eq, Z.eqb_eq. split.
  - intros [-> ->]. reflexivity.
  - intro H. injection H as -> ->. auto.
Qed.

Lemma noneStale_spec nowMs r c t :
  noneStale nowMs r c = true -> In (r, t) (c_inFlight c) ->
  nowMs - Z.max 1 DEFAULT_STALE_AFTER_MS <= t.
Proof.
  unfold noneStale, inFlightOn. intros H Hin.
  rewrite forallb_forall in H.
  specialize (H (r, t)). cbn [snd] in H. apply Z.leb_le, H.
  apply filter_In. split; [exact Hin|]. cbn [fst]. apply String.eqb_refl.
Qed.

Lemma acquire_keeps_owned r nowMs c :
  owned c -> noneStale nowMs r c = true -> owned (lockStep (Acquire r nowMs) c).
Proof.
  intros (Hp & Hnd & Hrow) Hfresh. cbn [lockStep].
  assert (Hgrant :
            forall a, (Map_get r (round_processing_locks (c_store c)) = None
                       \/ (Map_get r (round_processing_locks (c_store c)) = Some a
                           /\ a < nowMs - Z.max 1 DEFAULT_STALE_AFTER_MS)) ->
            owned {| c_store :=
                       withLocks (c_store c)
                         (Map_set r nowMs (round_processing_locks (c_store c)));
                     c_inFlight := (r, nowMs) :: c_inFlight c |}).
  { intros a Hcase.
    assert (Hnone : forall t, ~ In (r, t) (c_inFlight c)).
    { intros t Hin. pose proof (Hrow r t Hin) as Hget.
      pose proof (noneStale_spec nowMs r c t Hfresh Hin) as Hle.
      destruct Hcase as [Hn|[Hs Hlt]]; rewrite Hget in *; [discriminate|].
      injection Hs as <-. lia. }
    split; [exact Hp|]. cbn [c_store c_inFlight round_processing_locks withLocks].
    split.
    - constructor; [apply Hnone|exact Hnd].
    - intros r1 t1 [Heq|Hin].
      + injection Heq as <- <-. apply Map_get_set_same.
      + destruct (String.eqb_spec r1 r) as [->|Hne].
        * exfalso. exact (Hnone t1 Hin).
        * rewrite Map_get_set_other by exact Hne. exact (Hrow r1 t1 Hin). }
  unfold tryAcquireRoundProcessingLock. rewrite Hp. cbn [negb].
  destruct (Map_get r (round_processing_locks (c_store c))) as [a|] eqn:Eget.
  - destruct (a <? nowMs - Z.max 1 DEFAULT_STALE_AFTER_MS) eqn:E.
    + apply Z.ltb_lt in E. apply (Hgrant a). right. auto.
    + destruct c as [st fl]. exact (conj Hp (conj Hnd Hrow)).
  - apply (Hgrant 0). left. reflexivity.
Qed.

Lemma release_keeps_owned r t c : owned c -> owned (lockStep (Release r t) c).
Proof.
  intros (Hp & Hnd & Hrow). cbn [lockStep].
  destruct (existsb (isAttempt r t) (c_inFlight c)) eqn:E;
    [|exact (conj Hp (conj Hnd Hrow))].
  destruct (release_deletes_the_row r (c_store c) Hp) as (Hp' & Hgone & Hother).
  split; [exact Hp'|]. cbn [c_store c_inFlight]. split.
  - apply NoDup_filter. exact Hnd.
  - intros r1 t1 Hin. apply filter_In in Hin. destruct Hin as [Hin Hnot].
    destruct (String.eqb_spec r1 r) as [->|Hne].
    + exfalso. apply existsb_exists in E. destruct E as [a [Ha Hatt]].
      apply isAttempt_iff in Hatt. subst a.
      pose proof (Hrow r t Ha) as H1. pose proof (Hrow r t1 Hin) as H2.
      rewrite H1 in H2. injection H2 as <-.
      apply negb_true_iff in Hnot.
      rewrite (proj2 (isAttempt_iff r t (r, t)) eq_refl) in Hnot. discriminate Hnot.
    + rewrite Hother by exact Hne. exact (Hrow r1 t1 Hin).
Qed.

Lemma timely_run_keeps_owned evs c :
  owned c -> timely evs c = true -> owned (lockRun evs c).
Proof.
  revert c. induction evs as [|ev rest IH]; intros c Hc Ht; cbn [lockRun fold_left].
  - exact Hc.
  - cbn [timely] in Ht. apply andb_true_iff in Ht. destruct Ht as [Hev Hrest].
    apply IH; [|exact Hrest].
    destruct ev as [r nowMs|r t].
    + apply acquire_keeps_owned; assumption.
    + apply release_keeps_owned. exact Hc.
Qed.

Lemma owned_at_most_one r c : owned c -> (List.length (inFlightOn r c) <= 1)%nat.
Proof.
  intros (_ & Hnd & Hrow). unfold inFlightOn.
  assert (Hnd' : NoDup (filter (fun a => fst a =s? r) (c_inFlight c)))
    by (apply NoDup_filter; exact Hnd).
  assert (Hall : forall a, In a (filter (fun a => fst a =s? r) (c_inFlight c)) ->
                           Some (snd a) = Map_get r (round_processing_locks (c_store c))
                           /\ fst a = r).
  { intros [r0 t0] Ha. apply filter_In in Ha. destruct Ha as [Ha Hr].
    cbn [fst] in Hr. apply String.eqb_eq in Hr. subst r0.
    split; [symmetry; exact (Hrow r t0 Ha)|reflexivity]. }
  destruct (filter (fun a => fst a =s? r) (c_inFlight c)) as [|x [|y rest]];
    cbn [List.length]; [lia|lia|].
  exfalso.
  destruct (Hall x (or_introl eq_refl)) as [Hx1 Hx2].
  destruct (Hall y (or_intror (or_introl eq_refl))) as [Hy1 Hy2].
  inversion Hnd' as [|? ? Hnotin _]; subst. apply Hnotin. left.
  destruct x as [rx tx], y as [ry ty]. cbn [fst snd] in *.
  rewrite <- Hx1 in Hy1. injection Hy1 as ->. subst. reflexivity.
Qed.

End Protocol.

(** C6, as the code has it.  With a Postgres pool the lock is granted
    exactly when the round has no lock row or the row is older than
    [now - max 1 staleAfterMs]; a grant records the holder, and while that
    row is fresh every further attempt answers [false] and leaves the
    ledger as it is.  The release deletes the row of the round whoever
    wrote it, and the next attempt is granted.  Hence, with a pool and
    starting with no attempt in flight: as long as every acquisition comes
    while the attempts in flight on its round are younger than the stale
    time, at most one settlement attempt per round is in flight, and the
    lock row of the round carries the time of its grant.  Without a pool
    every attempt answers [true] and no holder is recorded. *)
Theorem round_lock_is_exclusive_with_postgres :
  (forall nowMs r staleAfterMs st,
      pool st = true ->
      (fst (tryAcquireRoundProcessingLock nowMs r staleAfterMs st) = true
       <-> Map_get r (round_processing_locks st) = None
           \/ exists acquired_at_ms,
                Map_get r (round_processing_locks st) = Some acquired_at_ms
                /\ acquired_at_ms < nowMs - Z.max 1 staleAfterMs))
  /\
  (forall t0 r stale0 st nowMs staleAfterMs,
      pool st = true ->
      fst (tryAcquireRoundProcessingLock t0 r stale0 st) = true ->
      nowMs - Z.max 1 staleAfterMs <= t0 ->
      let held := snd (tryAcquireRoundProcessingLock t0 r stale0 st) in
      tryAcquireRoundProcessingLock nowMs r staleAfterMs held = (false, held))
  /\
  (forall nowMs r staleAfterMs st acquired_at_ms,
      pool st = true ->
      Map_get r (round_processing_locks st) = Some acquired_at_ms ->
      nowMs - Z.max 1 staleAfterMs <= acquired_at_ms ->
      tryAcquireRoundProcessingLock nowMs r staleAfterMs st = (false, st))
  /\
  (forall nowMs r staleAfterMs st,
      pool st = true ->
      Map_get r (round_processing_locks (releaseRoundProcessingLock r st)) = None
      /\ fst (tryAcquireRoundProcessingLock nowMs r staleAfterMs
                (releaseRoundProcessingLock r st)) = true)
  /\
  (forall st evs r,
      pool st = true ->
      LockProtocol.timely evs
        {| LockProtocol.c_store := st; LockProtocol.c_inFlight := [] |} = true ->
      let final :=
        LockProtocol.lockRun evs
          {| LockProtocol.c_store := st; LockProtocol.c_inFlight := [] |} in
      (List.length (LockProtocol.inFlightOn r final) <= 1)%nat
      /\ (forall t, In (r, t) (LockProtocol.c_inFlight final) ->
            Map_get r (round_processing_locks (LockProtocol.c_store final)) = Some t))
  /\
  (forall nowMs r staleAfterMs st,
      pool st = false ->
      tryAcquireRoundProcessingLock nowMs r staleAfterMs st = (true, st)).
Proof.
  split; [|split; [|split; [|split; [|split]]]].
  - exact acquire_with_pool_iff.
  - intros t0 r stale0 st nowMs staleAfterMs Hp Hacq Hfresh held.
    destruct (acquire_records_holder t0 r stale0 st Hp Hacq) as [Hget Hp'].
    fold held in Hget, Hp'.
    exact (acquire_fresh_holder_refuses nowMs r staleAfterMs held t0 Hp' Hget Hfresh).
  - intros nowMs r staleAfterMs st a Hp Hget Hfresh.
    exact (acquire_fresh_holder_refuses nowMs r staleAfterMs st a Hp Hget Hfresh).
  - intros nowMs r staleAfterMs st Hp.
    destruct (release_deletes_the_row r st Hp) as (Hp' & Hgone & _).
    split; [exact Hgone|].
    apply acquire_with_pool_iff; [exact Hp'|]. left. exact Hgone.
  - intros st evs r Hp Htimely final.
    assert (Hown : LockProtocol.owned final).
    { apply timely_run_keeps_owned; [|exact Htimely].
      split; [exact Hp|]. split; [constructor|]. intros r0 t0 []. }
    split; [apply owned_at_most_one; exact Hown|].
    intros t Hin. destruct Hown as (_ & _ & Hrow). exact (Hrow r t Hin).
  - exact acquire_without_pool.
Qed.

Lemma round_lock_is_exclusive_with_postgres_witness :
  let st :=
    {| pool := true; data := EMPTY_LEDGER; join_attempts := [];
       inMemoryWalletJoinAttempts := []; inMemoryIpJoinAttempts := [];
       round_processing_locks := [] |} in
  let held := snd (tryAcquireRoundProcessingLock 1600000 "SOL-1200-5m"
                     DEFAULT_STALE_AFTER_MS st) in
  tryAcquireRoundProcessingLock 1604000 "SOL-1200-5m" DEFAULT_STALE_AFTER_MS held
  = (false, held)
  /\ fst (tryAcquireRoundProcessingLock 1604000 "SOL-1200-5m" DEFAULT_STALE_AFTER_MS
            (releaseRoundProcessingLock "SOL-1200-5m" held)) = true
  /\ (let evs :=
        [ LockProtocol.Acquire "SOL-1200-5m" 1600000;
          LockProtocol.Acquire "SOL-1200-5m" 1604000;
          LockProtocol.Acquire "BTC-1200-5m" 1604500;
          LockProtocol.Release "SOL-1200-5m" 1600000;
          LockProtocol.Acquire "SOL-1200-5m" 1700000 ] in
      (List.length
         (LockProtocol.inFlightOn "SOL-1200-5m"
            (LockProtocol.lockRun evs
               {| LockProtocol.c_store := st; LockProtocol.c_inFlight := [] |}))
       <= 1)%nat).
Proof.
  intros st held. split; [|split].
  - apply (proj1 (proj2 round_lock_is_exclusive_with_postgres)
             1600000 "SOL-1200-5m" DEFAULT_STALE_AFTER_MS st
             1604000 DEFAULT_STALE_AFTER_MS).
    + reflexivity.
    + reflexivity.
    + vm_compute. discriminate.
  - apply (proj1 (proj2 (proj2 (proj2 round_lock_is_exclusive_with_postgres)))
             1604000 "SOL-1200-5m" DEFAULT_STALE_AFTER_MS held).
    reflexivity.
  - intro evs.
    apply (proj1 (proj2 (proj2 (proj2 (proj2 round_lock_is_exclusive_with_postgres))))
             st evs "SOL-1200-5m").
    + reflexivity.
    + vm_compute. reflexivity.
Defined.

(** C6 as stated fails twice.  On the file ledger, with no pool, a second
    attempt one millisecond after a granted one, with no release in
    between, is granted too.  With a pool, an attempt that outlives the
    stale time loses its row to a second attempt; its own release then
    deletes the row of the second, and a third attempt is granted one
    second later while the second is still in flight and its grant is
    fresh. *)
Lemma two_settlement_attempts_hold_the_lock :
  (let st :=
     {| pool := false; data := EMPTY_LEDGER; join_attempts := [];
        inMemoryWalletJoinAttempts := []; inMemoryIpJoinAttempts := [];
        round_processing_locks := [] |} in
   let first := tryAcquireRoundProcessingLock 1600000 "SOL-1200-5m"
                  DEFAULT_STALE_AFTER_MS st in
   let second := tryAcquireRoundProcessingLock 1600001 "SOL-1200-5m"
                   DEFAULT_STALE_AFTER_MS (snd first) in
   fst first = true /\ fst second = true
   /\ 1600001 - Z.max 1 DEFAULT_STALE_AFTER_MS <= 1600000)
  /\
  (let st :=
     {| pool := true; data := EMPTY_LEDGER; join_attempts := [];
        inMemoryWalletJoinAttempts := []; inMemoryIpJoinAttempts := [];
        round_processing_locks := [] |} in
   let first := tryAcquireRoundProcessingLock 1600000 "SOL-1200-5m"
                  DEFAULT_STALE_AFTER_MS st in
   let second := tryAcquireRoundProcessingLock 2500001 "SOL-1200-5m"
                   DEFAULT_STALE_AFTER_MS (snd first) in
   let released := releaseRoundProcessingLock "SOL-1200-5m" (snd second) in
   let third := tryAcquireRoundProcessingLock 2501001 "SOL-1200-5m"
                  DEFAULT_STALE_AFTER_MS released in
   fst first = true /\ fst second = true /\ fst third = true
   /\ 2501001 - Z.max 1 DEFAULT_STALE_AFTER_MS <= 2500001
   /\ LockProtocol.c_inFlight
        (LockProtocol.lockRun
           [ LockProtocol.Acquire "SOL-1200-5m" 1600000;
             LockProtocol.Acquire "SOL-1200-5m" 2500001;
             LockProtocol.Release "SOL-1200-5m" 1600000;
             LockProtocol.Acquire "SOL-1200-5m" 2501001 ]
           {| LockProtocol.c_store := st; LockProtocol.c_inFlight := [] |})
      = [("SOL-1200-5m", 2501001); ("SOL-1200-5m", 2500001)]).
Proof.
  split.
  - cbv zeta. split; [reflexivity|]. split; [reflexivity|].
    vm_compute. discriminate.
  - cbv zeta. split; [reflexivity|]. split; [reflexivity|]. split; [reflexivity|].
    split; [vm_compute; discriminate|]. vm_compute. reflexivity.
Qed.

End Locks.

(** ** Oracle fallback of the sim settlement *)

Module OracleFallback.
Import JsFacts Oracle SimLedger SimSettlement.

Lemma probeOffsets_none w market ts offs :
  (forall off, In off offs ->
     fetchOracleSnapshotAtTimestamp w market (Z.max 0 (ts + off)) = None) ->
  probeOffsets w market ts offs = None.
Proof.
  induction offs as [|off rest IH]; cbn [probeOffsets]; intro H.
  - reflexivity.
  - rewrite (H off) by (left; reflexivity).
    apply IH. intros o Ho. apply H. right. exact Ho.
Qed.

Lemma probeOffsets_some w market ts offs snapshot :
  probeOffsets w market ts offs = Some snapshot ->
  exists off, In off offs
    /\ fetchOracleSnapshotAtTimestamp w market (Z.max 0 (ts + off)) = Some snapshot.
Proof.
  induction offs as [|off rest IH]; cbn [probeOffsets]; intro H.
  - discriminate.
  - destruct (fetchOracleSnapshotAtTimestamp w market (Z.max 0 (ts + off))) eqn:E.
    + injection H as <-. exists off. split; [left; reflexivity|exact E].
    + destruct (IH H) as [o [Ho Hf]]. exists o. split; [right; exact Ho|exact Hf].
Qed.

Lemma settleRoundSafe_refund_on_failure w nowMs entries :
  settleRound w nowMs entries = None ->
  settleRoundSafe w nowMs entries = buildRefundSettlement nowMs entries.
Proof. unfold settleRoundSafe. intros ->. reflexivity. Qed.

Lemma settleRound_none_iff w nowMs entries :
  settleRound w nowMs entries = None <->
  let market := match entries with e :: _ => market e | [] => "SOL" end in
  let roundStartMs := match entries with e :: _ => roundStartMs e | [] => nowMs end in
  let roundEndMs := match entries with e :: _ => roundEndMs e | [] => nowMs end in
  fetchSnapshotNearTimestamp w market ((roundStartMs + 60000) / 1000) = None
  \/ fetchSnapshotNearTimestamp w market (roundEndMs / 1000) = None.
Proof.
  unfold settleRound. cbv zeta.
  destruct (fetchSnapshotNearTimestamp w _ ((_ + 60000) / 1000)) as [s0|].
  - destruct (fetchSnapshotNearTimestamp w _ _) as [s1|].
    + split; [|intros [H|H]; discriminate H].
      destruct ((List.length (filter (isSide UP) entries) =? 0)%nat
                || (List.length (filter (isSide DOWN) entries) =? 0)%nat);
        [discriminate|].
      destruct (Qlt_bool (price s0) (price s1)); [discriminate|].
      destruct (Qlt_bool (price s1) (price s0)); discriminate.
    + split; auto.
  - split; auto.
Qed.

(** The loop stops at the first offset, in list order, that gives a
    snapshot. *)
Lemma probeOffsets_first w market ts offs snapshot :
  probeOffsets w market ts offs = Some snapshot <->
  exists before off after,
    offs = before ++ off :: after
    /\ (forall o, In o before ->
          fetchOracleSnapshotAtTimestamp w market (Z.max 0 (ts + o)) = None)
    /\ fetchOracleSnapshotAtTimestamp w market (Z.max 0 (ts + off)) = Some snapshot.
Proof.
  induction offs as [|first rest IH]; cbn [probeOffsets].
  - split; [discriminate|].
    intros (before & off & after & Heq & _). destruct before; discriminate Heq.
  - destruct (fetchOracleSnapshotAtTimestamp w market (Z.max 0 (ts + first))) as [s0|] eqn:E.
    + split.
      * intro H. injection H as <-. exists [], first, rest.
        split; [reflexivity|]. split; [intros o []|exact E].
      * intros (before & off & after & Heq & Hnone & Hsome).
        destruct before as [|b0 before]; cbn [app] in Heq; injection Heq as <- _.
        -- rewrite E in Hsome. exact Hsome.
        -- rewrite (Hnone first (or_introl eq_refl)) in E. discriminate E.
    + rewrite IH. split.
      * intros (before & off & after & Heq & Hnone & Hsome).
        exists (first :: before), off, after. split; [rewrite Heq; reflexivity|].
        split; [|exact Hsome].
        intros o [<-|Ho]; [exact E|exact (Hnone o Ho)].
      * intros (before & off & after & Heq & Hnone & Hsome).
        destruct before as [|b0 before]; cbn [app] in Heq; injection Heq as <- Heq.
        -- rewrite E in Hsome. discriminate Hsome.
        -- exists before, off, after. split; [exact Heq|]. split; [|exact Hsome].
           intros o Ho. apply Hnone. right. exact Ho.
Qed.

Lemma probeOffsets_none_iff w market ts offs :
  probeOffsets w market ts offs = None <->
  (forall off, In off offs ->
     fetchOracleSnapshotAtTimestamp w market (Z.max 0 (ts + off)) = None).
Proof.
  split; [|apply probeOffsets_none].
  induction offs as [|first rest IH]; cbn [probeOffsets]; intros H off Hin.
  - destruct Hin.
  - destruct (fetchOracleSnapshotAtTimestamp w market (Z.max 0 (ts + first))) eqn:E;
      [discriminate H|].
    destruct Hin as [<-|Hin]; [exact E|exact (IH H off Hin)].
Qed.

(** C7, as the code has it.  [fetchSnapshotNearTimestamp] probes the
    offsets 0, -1, -2, -5, -10, 1, 2, 5, 10 seconds in this order and takes
    the first snapshot it can fetch: its answer is a snapshot exactly when
    that snapshot comes from an offset of the list before which every
    offset failed, or every offset failed and it is the latest snapshot of
    the market; it has no answer exactly when every offset and the latest
    snapshot failed.  The round is settled by [settleRound] from whatever
    two snapshots come back, whose prices it records, and when one of the
    two cannot be had at all it is settled as a refund with zero for both
    prices and no fee. *)
Theorem oracle_fallback_is_latest_snapshot_then_refund :
  offsets = [0; -1; -2; -5; -10; 1; 2; 5; 10]
  /\
  (forall w market ts,
      (forall off, In off offsets ->
         fetchOracleSnapshotAtTimestamp w market (Z.max 0 (ts + off)) = None) ->
      fetchSnapshotNearTimestamp w market ts = fetchOracleSnapshot w (Some market))
  /\
  (forall w market ts snapshot,
      fetchSnapshotNearTimestamp w market ts = Some snapshot <->
      (exists before off after,
          offsets = before ++ off :: after
          /\ -10 <= off <= 10
          /\ (forall o, In o before ->
                fetchOracleSnapshotAtTimestamp w market (Z.max 0 (ts + o)) = None)
          /\ fetchOracleSnapshotAtTimestamp w market (Z.max 0 (ts + off))
             = Some snapshot)
      \/ ((forall o, In o offsets ->
             fetchOracleSnapshotAtTimestamp w market (Z.max 0 (ts + o)) = None)
          /\ fetchOracleSnapshot w (Some market) = Some snapshot))
  /\
  (forall w market ts,
      fetchSnapshotNearTimestamp w market ts = None <->
      (forall o, In o offsets ->
         fetchOracleSnapshotAtTimestamp w market (Z.max 0 (ts + o)) = None)
      /\ fetchOracleSnapshot w (Some market) = None)
  /\
  (forall w nowMs entries,
      let market := match entries with e :: _ => market e | [] => "SOL" end in
      let roundStartMs := match entries with e :: _ => roundStartMs e | [] => nowMs end in
      let roundEndMs := match entries with e :: _ => roundEndMs e | [] => nowMs end in
      fetchSnapshotNearTimestamp w market ((roundStartMs + 60000) / 1000) = None
      \/ fetchSnapshotNearTimestamp w market (roundEndMs / 1000) = None ->
      settleRoundSafe w nowMs entries = buildRefundSettlement nowMs entries
      /\ mode (settlement (settleRoundSafe w nowMs entries)) = REFUND
      /\ startPrice (settlement (settleRoundSafe w nowMs entries)) = 0%Q
      /\ endPrice (settlement (settleRoundSafe w nowMs entries)) = 0%Q
      /\ feeCents (settleRoundSafe w nowMs entries) = 0)
  /\
  (forall w nowMs entries s,
      settleRound w nowMs entries = Some s -> settleRoundSafe w nowMs entries = s)
  /\
  (forall w nowMs entries startSnapshot endSnapshot,
      let market := match entries with e :: _ => market e | [] => "SOL" end in
      let roundStartMs := match entries with e :: _ => roundStartMs e | [] => nowMs end in
      let roundEndMs := match entries with e :: _ => roundEndMs e | [] => nowMs end in
      fetchSnapshotNearTimestamp w market ((roundStartMs + 60000) / 1000)
      = Some startSnapshot ->
      fetchSnapshotNearTimestamp w market (roundEndMs / 1000) = Some endSnapshot ->
      settleRound w nowMs entries = Some (settleRoundSafe w nowMs entries)
      /\ startPrice (settlement (settleRoundSafe w nowMs entries)) = price startSnapshot
      /\ endPrice (settlement (settleRoundSafe w nowMs entries)) = price endSnapshot).
Proof.
  split; [reflexivity|]. split; [|split; [|split; [|split; [|split]]]].
  - intros w market ts H. unfold fetchSnapshotNearTimestamp.
    rewrite (probeOffsets_none w market ts offsets H). reflexivity.
  - intros w market ts snapshot. unfold fetchSnapshotNearTimestamp.
    destruct (probeOffsets w market ts offsets) as [s|] eqn:E.
    + split.
      * intro H. injection H as ->. left.
        destruct (proj1 (probeOffsets_first _ _ _ _ _) E)
          as (before & off & after & Heq & Hnone & Hsome).
        exists before, off, after. split; [exact Heq|]. split; [|split; assumption].
        assert (Hin : In off offsets)
          by (rewrite Heq; apply in_or_app; right; left; reflexivity).
        unfold offsets in Hin. cbn [In] in Hin.
        repeat (destruct Hin as [<-|Hin]; [lia|]). destruct Hin.
      * intros [(before & off & after & Heq & _ & Hnone & Hsome)|[Hall _]].
        -- rewrite <- E. apply probeOffsets_first.
           exists before, off, after. auto.
        -- rewrite (probeOffsets_none _ _ _ _ Hall) in E. discriminate E.
    + split.
      * intro H. right. split; [|exact H].
        apply probeOffsets_none_iff. exact E.
      * intros [(before & off & after & Heq & _ & Hnone & Hsome)|[_ Hlatest]];
          [|exact Hlatest].
        assert (Hsome' : probeOffsets w market ts offsets = Some snapshot).
        { apply probeOffsets_first. exists before, off, after. auto. }
        rewrite E in Hsome'. discriminate Hsome'.
  - intros w market ts. unfold fetchSnapshotNearTimestamp.
    destruct (probeOffsets w market ts offsets) as [s|] eqn:E.
    + split; [discriminate|]. intros [Hall _].
      rewrite (probeOffsets_none _ _ _ _ Hall) in E. discriminate E.
    + split.
      * intro H. split; [apply probeOffsets_none_iff; exact E|exact H].
      * intros [_ H]. exact H.
  - intros w nowMs entries market roundStartMs roundEndMs H.
    assert (Hnone : settleRound w nowMs entries = None)
      by (apply settleRound_none_iff; exact H).
    rewrite (settleRoundSafe_refund_on_failure _ _ _ Hnone).
    repeat split.
  - intros w nowMs entries s H. unfold settleRoundSafe. rewrite H. reflexivity.
  - intros w nowMs entries startSnapshot endSnapshot market roundStartMs roundEndMs
           H1 H2.
    destruct (Decision.settleRound_records_the_oracle w nowMs entries
                startSnapshot endSnapshot H1 H2) as (s & Hs & Hp0 & Hp1).
    unfold settleRoundSafe. rewrite Hs. auto.
Qed.

Lemma oracle_fallback_is_latest_snapshot_then_refund_witness :
  (let w :=
     {| historical := fun _ _ => None;
        latest := fun _ => Some {| price := 101; publishTime := 1700 |} |} in
   fetchSnapshotNearTimestamp w "SOL" 1560
   = fetchOracleSnapshot w (Some "SOL"))
  /\
  (let w :=
     {| historical := fun _ ts =>
          if ts =? 1559 then Some {| price := 99; publishTime := 1559 |}
          else if ts =? 1561 then Some {| price := 102; publishTime := 1561 |}
          else None;
        latest := fun _ => Some {| price := 101; publishTime := 1700 |} |} in
   fetchSnapshotNearTimestamp w "SOL" 1560
   = Some {| price := 99; publishTime := 1559 |}).
Proof.
  split.
  - intro w.
    apply (proj1 (proj2 oracle_fallback_is_latest_snapshot_then_refund) w "SOL" 1560).
    intros off _. reflexivity.
  - intro w.
    apply (proj1 (proj2 (proj2 oracle_fallback_is_latest_snapshot_then_refund))
             w "SOL" 1560).
    left. exists [0], (-1), [-2; -5; -10; 1; 2; 5; 10].
    split; [reflexivity|]. split; [lia|]. split.
    + intros o [<-|[]]. reflexivity.
    + reflexivity.
Defined.

(** C7 as stated fails.  No snapshot can be fetched within ten seconds of
    the end of the round, the latest snapshot of the market says 101, the
    start snapshot says 100: the round is settled as a WIN for UP from the
    latest snapshot. *)
Lemma unreachable_end_snapshot_still_settles_as_win :
  let mk i d :=
    {| id := i; roundId := "SOL-1200-5m"; market := "SOL"; feedId := "feed";
       roundStartMs := 1200000; roundEndMs := 1560000; wallet := i;
       direction := d; stakeBucks := 5%Q; joinedAtMs := 1200100 |} in
  let entries := [mk "a" UP; mk "b" DOWN] in
  let w :=
    {| historical := fun _ ts =>
         if (1250 <=? ts) && (ts <=? 1270)
         then Some {| price := 100; publishTime := ts |} else None;
       latest := fun _ => Some {| price := 101; publishTime := 1700 |} |} in
  (forall off, In off offsets ->
     fetchOracleSnapshotAtTimestamp w "SOL" (Z.max 0 (1560 + off)) = None)
  /\ mode (settlement (settleRoundSafe w 1700000 entries)) = WIN
  /\ winnerSide (settlement (settleRoundSafe w 1700000 entries)) = Some UP
  /\ endPrice (settlement (settleRoundSafe w 1700000 entries)) = 101%Q.
Proof.
  cbv zeta. split.
  - intros off Hin. unfold offsets in Hin. cbn [In] in Hin.
    repeat (destruct Hin as [<-|Hin]; [vm_compute; reflexivity|]). destruct Hin.
  - repeat split; vm_compute; reflexivity.
Qed.

End OracleFallback.

(** ** The join handler *)

Module Join.
Import JsFacts Oracle RoundLedger EntriesRoute.

Lemma recordJoinAttempt_data nowMs w ip st :
  data (recordJoinAttempt nowMs w ip st) = data st.
Proof. unfold recordJoinAttempt. destruct (pool st); reflexivity. Qed.

Lemma countRecentJoinAttempts_data nowMs w ip window st :
  data (snd (countRecentJoinAttempts nowMs w ip window st)) = data st.
Proof. unfold countRecentJoinAttempts. destruct (pool st); reflexivity. Qed.

Lemma joinedAtOrNow_client (v nowMs : Z) :
  v <> 0 -> joinedAtOrNow (Some v) nowMs = v.
Proof.
  intro H. unfold joinedAtOrNow.
  destruct (Z.eqb_spec v 0); [contradiction|reflexivity].
Qed.

(** The store as the handler leaves it once the join attempt is counted. *)
Lemma attempts_keep_data nowMs b clientIp st counts st2 :
  countRecentJoinAttempts nowMs (wallet b) clientIp RATE_LIMIT_WINDOW_SECONDS
    (recordJoinAttempt nowMs (wallet b) clientIp st) = (counts, st2) ->
  data st2 = data st
  /\ st2 = snd (countRecentJoinAttempts nowMs (wallet b) clientIp
                  RATE_LIMIT_WINDOW_SECONDS
                  (recordJoinAttempt nowMs (wallet b) clientIp st)).
Proof.
  intro H. split.
  - pose proof (countRecentJoinAttempts_data nowMs (wallet b) clientIp
                  RATE_LIMIT_WINDOW_SECONDS
                  (recordJoinAttempt nowMs (wallet b) clientIp st)) as Hd.
    rewrite H in Hd. cbn [snd] in Hd. rewrite Hd. apply recordJoinAttempt_data.
  - rewrite H. reflexivity.
Qed.

Ltac gate_case :=
  cbn [fst snd status body];
  repeat match goal with
         | |- _ /\ _ => split
         end;
  try reflexivity; try assumption; try discriminate;
  try (left; reflexivity);
  try (right; left; reflexivity);
  try (right; right; left; reflexivity);
  try (right; right; right; reflexivity);
  try (let H := fresh in intro H; discriminate H);
  try (intros _; reflexivity);
  try (intros _; assumption).

(** C9, as the code has it.  A submission whose transfer has a block time
    before the start of the round or at or after its lock is never
    accepted and changes neither the entries nor the settlements of the
    ledger.  The answer is 400, unless one of the gates that come before
    the look at the transfer answers first: 503, and then off-chain custody
    is disabled; 429, and then the wallet or the address is over the rate
    limit; 200 with [created: false], and then the signature is already in
    the ledger.  When the answer is the rejection of the window check, the
    store is the one the rate limit left. *)
Theorem late_join_adds_no_entry :
  forall env nowMs clientIp b st tx bt,
    getParsedTransaction env (signature b) = Some (Some tx) ->
    blockTime tx = Some bt ->
    bt * 1000 < roundStartMs b
    \/ roundStartMs b + OPEN_ENTRY_SECONDS * 1000 <= bt * 1000 ->
    let resp := fst (POST env nowMs clientIp b st) in
    let st' := snd (POST env nowMs clientIp b st) in
    let counts :=
      fst (countRecentJoinAttempts nowMs (wallet b) clientIp RATE_LIMIT_WINDOW_SECONDS
             (recordJoinAttempt nowMs (wallet b) clientIp st)) in
    data st' = data st
    /\ body resp <> OkBody true
    /\ (status resp = 400 \/ status resp = 503 \/ status resp = 429
        \/ resp = {| status := 200; body := OkBody false |})
    /\ (resp = {| status := 400;
                  body := ErrorBody
                    "Transaction was not submitted during open entry window." |} ->
        st' = snd (countRecentJoinAttempts nowMs (wallet b) clientIp
                     RATE_LIMIT_WINDOW_SECONDS
                     (recordJoinAttempt nowMs (wallet b) clientIp st)))
    /\ (status resp = 503 -> offchainDisabledInProduction env = true)
    /\ (status resp = 429 ->
        MAX_ATTEMPTS_PER_WALLET_PER_WINDOW < fst counts
        \/ MAX_ATTEMPTS_PER_IP_PER_WINDOW < snd counts)
    /\ (resp = {| status := 200; body := OkBody false |} ->
        hasLedgerEntrySignature (signature b) st' = true).
Proof.
  intros env nowMs clientIp b st tx bt Htx Hbt Hout resp st' counts.
  subst resp st' counts. unfold POST, reject.
  assert (Hwin : (bt * 1000 <? roundStartMs b)
                 || (roundStartMs b + OPEN_ENTRY_SECONDS * 1000 <=? bt * 1000) = true).
  { apply orb_true_iff. destruct Hout as [H|H];
      [left; apply Z.ltb_lt; exact H|right; apply Z.leb_le; exact H]. }
  destruct (offchainDisabledInProduction env); [gate_case|].
  destruct (negb (truthy (roundId b)) || negb (truthy (market b))
            || negb (truthy (feedId b)) || negb (truthy (wallet b))
            || negb (truthy (direction b)) || negb (truthy (signature b)));
    [gate_case|].
  destruct (negb (has ALLOWED_DIRECTIONS (direction b))); [gate_case|].
  destruct (negb (has ALLOWED_MARKETS (market b))); [gate_case|].
  destruct (negb (existsb (fun x => x =? stakeUsd b) ALLOWED_STAKES)); [gate_case|].
  destruct ((stakeUsd b <? MIN_STAKE_USD) || (MAX_STAKE_USD <? stakeUsd b)
            || (stakeLamports b <=? 0) || (MAX_STAKE_LAMPORTS <? stakeLamports b));
    [gate_case|].
  destruct (negb (roundId b =s? _)); [gate_case|].
  destruct (negb (Z.rem (roundStartMs b) (ENTRY_CYCLE_SECONDS * 1000) =? 0));
    [gate_case|].
  destruct (negb (roundEndMs b =? _)); [gate_case|].
  destruct (negb (isPublicKey env (wallet b))); [gate_case|].
  destruct (countRecentJoinAttempts nowMs (wallet b) clientIp RATE_LIMIT_WINDOW_SECONDS
              (recordJoinAttempt nowMs (wallet b) clientIp st))
    as [[walletCount ipCount] st2] eqn:Ecount.
  destruct (attempts_keep_data _ _ _ _ _ _ Ecount) as [Hdata Hst2].
  cbn [fst snd].
  destruct ((MAX_ATTEMPTS_PER_WALLET_PER_WINDOW <? walletCount)
            || (MAX_ATTEMPTS_PER_IP_PER_WINDOW <? ipCount)) eqn:Erate.
  { gate_case. intros _. apply orb_true_iff in Erate.
    destruct Erate as [E|E]; [left|right]; apply Z.ltb_lt; exact E. }
  destruct (hasLedgerEntrySignature (signature b) st2) eqn:Esig; [gate_case|].
  destruct (negb (Oracle.feedId (resolveMarketByKey (Some (market b))) =s? feedId b));
    [gate_case|].
  rewrite Htx.
  destruct (metaErr tx); [gate_case|].
  rewrite Hbt, Hwin. gate_case.
Qed.

Lemma late_join_adds_no_entry_witness :
  let env :=
    {| offchainDisabledInProduction := false;
       escrowAddress := "escrow";
       isPublicKey := fun _ => true;
       getParsedTransaction := fun _ =>
         Some (Some {| metaErr := false; blockTime := Some 1260;
                       instructions :=
                         [SystemTransfer "alice" "escrow" 1000000000;
                          SplMemo "PANCHO|SOL|SOL-1200-5m|UP|5"] |}) |} in
  let b :=
    {| roundId := "SOL-1200-5m"; market := "SOL";
       feedId := "ef0d8b6fda2ceba41da15d4095d1da392a0d2f8ed0c6c7bc0f4cfac8c280b56d";
       roundStartMs := 1200000; roundEndMs := 1560000; wallet := "alice";
       direction := "UP"; stakeUsd := 5; stakeLamports := 1000000000;
       signature := "sig-alice"; joinedAtMs := Some 1230000; startPrice := 100 |} in
  let st :=
    {| pool := true; data := EMPTY_LEDGER; join_attempts := [];
       inMemoryWalletJoinAttempts := []; inMemoryIpJoinAttempts := [];
       round_processing_locks := [] |} in
  data (snd (POST env 1261000 (Some "10.0.0.1") b st)) = data st
  /\ status (fst (POST env 1261000 (Some "10.0.0.1") b st)) = 400.
Proof.
  intros env b st.
  destruct (late_join_adds_no_entry env 1261000 (Some "10.0.0.1") b st
              {| metaErr := false; blockTime := Some 1260;
                 instructions :=
                   [SystemTransfer "alice" "escrow" 1000000000;
                    SplMemo "PANCHO|SOL|SOL-1200-5m|UP|5"] |} 1260)
    as (Hdata & _).
  - reflexivity.
  - reflexivity.
  - right. vm_compute. discriminate.
  - split; [exact Hdata|]. vm_compute. reflexivity.
Defined.

(** C9 as stated fails: three submissions with a transfer outside the open
    window that are not answered with 400.

    - The deposit of an accepted entry of round SOL-1200-5m (block time
      1230 s) is submitted again for round SOL-1320-5m, which opens at
      1320 s: the signature is already in the ledger and the answer is 200
      with [created: false].
    - A wallet sends a transfer that landed at the lock (1260 s) thirteen
      times within a minute: the first twelve answers are 400, the
      thirteenth is 429.
    - With off-chain custody disabled in production the same submission is
      answered with 503.

    The entries of the ledger are the same before and after in all
    three. *)
Lemma late_join_is_not_always_answered_400 :
  let tx bt :=
    {| metaErr := false; blockTime := Some bt;
       instructions :=
         [SystemTransfer "alice" "escrow" 1000000000;
          SplMemo "PANCHO|SOL|SOL-1200-5m|UP|5"] |} in
  let env disabled bt :=
    {| offchainDisabledInProduction := disabled;
       escrowAddress := "escrow";
       isPublicKey := fun _ => true;
       getParsedTransaction := fun _ => Some (Some (tx bt)) |} in
  let b r startMs endMs :=
    {| roundId := r; market := "SOL";
       feedId := "ef0d8b6fda2ceba41da15d4095d1da392a0d2f8ed0c6c7bc0f4cfac8c280b56d";
       roundStartMs := startMs; roundEndMs := endMs; wallet := "alice";
       direction := "UP"; stakeUsd := 5; stakeLamports := 1000000000;
       signature := "sig-alice"; joinedAtMs := None; startPrice := 100 |} in
  let st :=
    {| pool := true; data := EMPTY_LEDGER; join_attempts := [];
       inMemoryWalletJoinAttempts := []; inMemoryIpJoinAttempts := [];
       round_processing_locks := [] |} in
  let ip := Some "10.0.0.1" in
  (let accepted := POST (env false 1230) 1231000 ip (b "SOL-1200-5m" 1200000 1560000) st in
   let again :=
     POST (env false 1230) 1321000 ip (b "SOL-1320-5m" 1320000 1680000) (snd accepted) in
   fst accepted = {| status := 200; body := OkBody true |}
   /\ 1230 * 1000 < 1320000
   /\ fst again = {| status := 200; body := OkBody false |}
   /\ data (snd again) = data (snd accepted))
  /\
  (let late := b "SOL-1200-5m" 1200000 1560000 in
   let twelve :=
     Nat.iter 12 (fun store => snd (POST (env false 1260) 1261000 ip late store)) st in
   let thirteenth := POST (env false 1260) 1261000 ip late twelve in
   1200000 + OPEN_ENTRY_SECONDS * 1000 <= 1260 * 1000
   /\ status (fst (POST (env false 1260) 1261000 ip late st)) = 400
   /\ status (fst thirteenth) = 429
   /\ data (snd thirteenth) = data st)
  /\
  (let late := b "SOL-1200-5m" 1200000 1560000 in
   let refused := POST (env true 1260) 1261000 ip late st in
   status (fst refused) = 503 /\ snd refused = st).
Proof.
  cbv zeta. split; [|split].
  - split; [vm_compute; reflexivity|]. split; [reflexivity|].
    split; vm_compute; reflexivity.
  - split; [vm_compute; discriminate|]. split; [vm_compute; reflexivity|].
    split; vm_compute; reflexivity.
  - split; vm_compute; reflexivity.
Qed.

(** C8.  The join handler stores the [joinedAtMs] of the payload.  A
    valid submission received at 1231000 ms whose payload says
    [joinedAtMs = 1] is accepted and its ledger row has [joinedAtMs = 1],
    where the claim asks for the time the server received it. *)
Theorem client_joined_at_is_stored :
  let env :=
    {| offchainDisabledInProduction := false;
       escrowAddress := "escrow";
       isPublicKey := fun _ => true;
       getParsedTransaction := fun _ =>
         Some (Some {| metaErr := false; blockTime := Some 1230;
                       instructions :=
                         [SystemTransfer "alice" "escrow" 1000000000;
                          SplMemo "PANCHO|SOL|SOL-1200-5m|UP|5"] |}) |} in
  let b :=
    {| roundId := "SOL-1200-5m"; market := "SOL";
       feedId := "ef0d8b6fda2ceba41da15d4095d1da392a0d2f8ed0c6c7bc0f4cfac8c280b56d";
       roundStartMs := 1200000; roundEndMs := 1560000; wallet := "alice";
       direction := "UP"; stakeUsd := 5; stakeLamports := 1000000000;
       signature := "sig-alice"; joinedAtMs := Some 1; startPrice := 100 |} in
  let st :=
    {| pool := false; data := EMPTY_LEDGER; join_attempts := [];
       inMemoryWalletJoinAttempts := []; inMemoryIpJoinAttempts := [];
       round_processing_locks := [] |} in
  fst (POST env 1231000 (Some "10.0.0.1") b st)
  = {| status := 200; body := OkBody true |}
  /\ map e_joinedAtMs (entries (data (snd (POST env 1231000 (Some "10.0.0.1") b st))))
     = [1]
  /\ 1 <> 1231000.
Proof.
  cbv zeta. split; [vm_compute; reflexivity|].
  split; [vm_compute; reflexivity|]. discriminate.
Qed.

(** Every entry the handler creates carries [body.joinedAtMs || Date.now()]. *)
Lemma created_entry_joined_at env nowMs clientIp b st :
  fst (POST env nowMs clientIp b st) = {| status := 200; body := OkBody true |} ->
  exists entry,
    entries (data (snd (POST env nowMs clientIp b st)))
    = entries (data st) ++ [entry]
    /\ e_joinedAtMs entry = joinedAtOrNow (joinedAtMs b) nowMs.
Proof.
  unfold POST, reject.
  destruct (offchainDisabledInProduction env); [discriminate|].
  destruct (negb (truthy (roundId b)) || negb (truthy (market b))
            || negb (truthy (feedId b)) || negb (truthy (wallet b))
            || negb (truthy (direction b)) || negb (truthy (signature b)));
    [discriminate|].
  destruct (negb (has ALLOWED_DIRECTIONS (direction b))); [discriminate|].
  destruct (negb (has ALLOWED_MARKETS (market b))); [discriminate|].
  destruct (negb (existsb (fun x => x =? stakeUsd b) ALLOWED_STAKES)); [discriminate|].
  destruct ((stakeUsd b <? MIN_STAKE_USD) || (MAX_STAKE_USD <? stakeUsd b)
            || (stakeLamports b <=? 0) || (MAX_STAKE_LAMPORTS <? stakeLamports b));
    [discriminate|].
  destruct (negb (roundId b =s? _)); [discriminate|].
  destruct (negb (Z.rem (roundStartMs b) (ENTRY_CYCLE_SECONDS * 1000) =? 0));
    [discriminate|].
  destruct (negb (roundEndMs b =? _)); [discriminate|].
  destruct (negb (isPublicKey env (wallet b))); [discriminate|].
  destruct (countRecentJoinAttempts nowMs (wallet b) clientIp RATE_LIMIT_WINDOW_SECONDS
              (recordJoinAttempt nowMs (wallet b) clientIp st))
    as [[walletCount ipCount] st2] eqn:Ecount.
  destruct (attempts_keep_data _ _ _ _ _ _ Ecount) as [Hdata _].
  destruct ((MAX_ATTEMPTS_PER_WALLET_PER_WINDOW <? walletCount)
            || (MAX_ATTEMPTS_PER_IP_PER_WINDOW <? ipCount)); [discriminate|].
  destruct (hasLedgerEntrySignature (signature b) st2); [discriminate|].
  destruct (negb (Oracle.feedId (resolveMarketByKey (Some (market b))) =s? feedId b));
    [discriminate|].
  destruct (getParsedTransaction env (signature b)) as [[tx|]|]; try discriminate.
  destruct (metaErr tx); [discriminate|].
  destruct (blockTime tx) as [bt|]; [|discriminate].
  destruct ((bt * 1000 <? roundStartMs b)
            || (roundStartMs b + OPEN_ENTRY_SECONDS * 1000 <=? bt * 1000));
    [discriminate|].
  destruct (negb (existsb (isTransferIx env b) (instructions tx))); [discriminate|].
  destruct (negb (existsb (isMemoIx _) (instructions tx))); [discriminate|].
  unfold addLedgerEntry. cbn [e_signature].
  destruct (existsb (fun item => e_signature item =s? signature b) (entries (data st2)));
    [discriminate|].
  cbn [fst snd]. intros _.
  eexists. cbn [data withData entries]. rewrite Hdata.
  split; reflexivity.
Qed.

End Join.

(** ** Settling a sim round once *)

Module SimOnce.
Import JsFacts Oracle SimLedger SimSettlement SimReach.

(** Every stored settlement belongs to a round that has an entry. *)
Lemma read_rows_of_round r db e :
  In e (readSimEntriesForRoundIds [r] db) <->
  In e (sim_entries db) /\ roundId e = r.
Proof.
  unfold readSimEntriesForRoundIds. cbn [List.length Nat.eqb].
  split.
  - intro H.
    apply (Permutation_in _ (Ordering.orderByDesc_perm joinedAtMs _)) in H.
    apply filter_In in H. destruct H as [Hin Hr]. split; [exact Hin|].
    cbn [existsb] in Hr. rewrite orb_false_r in Hr.
    apply String.eqb_eq in Hr. congruence.
  - intros [Hin Hr].
    apply (Permutation_in _ (Permutation_sym (Ordering.orderByDesc_perm joinedAtMs _))).
    apply filter_In. split; [exact Hin|].
    cbn [existsb]. rewrite orb_false_r. apply String.eqb_eq. congruence.
Qed.

Lemma settleSimRoundOnce_entries w nowMs r db :
  sim_entries (snd (settleSimRoundOnce w nowMs r db)) = sim_entries db.
Proof.
  unfold settleSimRoundOnce.
  destruct (fromPersistedSettlement (readSimRoundSettlement r db)); [reflexivity|].
  destruct (List.length (readSimEntriesForRoundIds [r] db) =? 0)%nat; [reflexivity|].
  cbn [snd]. unfold writeSimRoundSettlement.
  destruct (existsb _ (sim_round_settlements db)); reflexivity.
Qed.

Lemma settleSimRoundOnce_settlements w nowMs r db rec :
  In rec (sim_round_settlements (snd (settleSimRoundOnce w nowMs r db))) ->
  In rec (sim_round_settlements db)
  \/ (rec_roundId rec = r /\ readSimEntriesForRoundIds [r] db <> []).
Proof.
  unfold settleSimRoundOnce.
  destruct (fromPersistedSettlement (readSimRoundSettlement r db)); [auto|].
  destruct (readSimEntriesForRoundIds [r] db) as [|e rows] eqn:Erows;
    cbn [List.length Nat.eqb snd]; [auto|].
  unfold writeSimRoundSettlement. cbn [rec_roundId].
  destruct (existsb _ (sim_round_settlements db)); [auto|].
  cbn [sim_round_settlements]. intro Hin. apply in_app_iff in Hin.
  destruct Hin as [Hin|[<-|[]]]; [auto|].
  right. cbn [rec_roundId]. split; [reflexivity|discriminate].
Qed.

Lemma reachable_settled_rounds_have_entries db :
  reachable db ->
  forall rec, In rec (sim_round_settlements db) ->
    exists e, In e (sim_entries db) /\ roundId e = rec_roundId rec.
Proof.
  induction 1 as [|db entry _ IH|db w nowMs r _ IH]; intros rec Hin.
  - destruct Hin.
  - unfold addSimEntry in *.
    destruct (existsb (fun row => id row =s? id entry) (sim_entries db));
      cbn [snd sim_entries sim_round_settlements] in *.
    + apply IH. exact Hin.
    + destruct (IH rec Hin) as [e [He Hr]]. exists e. split; [|exact Hr].
      apply in_app_iff. left. exact He.
  - rewrite settleSimRoundOnce_entries.
    apply settleSimRoundOnce_settlements in Hin.
    destruct Hin as [Hin|[Hr Hne]]; [apply IH; exact Hin|].
    destruct (readSimEntriesForRoundIds [r] db) as [|e rows] eqn:Erows; [congruence|].
    assert (He : In e (readSimEntriesForRoundIds [r] db))
      by (rewrite Erows; left; reflexivity).
    apply read_rows_of_round in He. destruct He as [He Hre].
    exists e. split; [exact He|congruence].
Qed.

(** C10.  In every state the sim database can reach, a round without
    entries is not settled: [settleSimRoundOnce] returns null and leaves
    the database as it is; and every settlement record that is stored
    belongs to a round with at least one entry. *)
Theorem round_without_entries_is_not_settled :
  forall db, reachable db ->
    (forall w nowMs r,
        (forall e, In e (sim_entries db) -> roundId e <> r) ->
        settleSimRoundOnce w nowMs r db = (None, db))
    /\ (forall rec, In rec (sim_round_settlements db) ->
          exists e, In e (sim_entries db) /\ roundId e = rec_roundId rec).
Proof.
  intros db Hreach. split.
  - intros w nowMs r Hnone.
    assert (Hrows : readSimEntriesForRoundIds [r] db = []).
    { destruct (readSimEntriesForRoundIds [r] db) as [|e rows] eqn:Erows; [reflexivity|].
      assert (He : In e (readSimEntriesForRoundIds [r] db))
        by (rewrite Erows; left; reflexivity).
      apply read_rows_of_round in He. destruct He as [He Hre].
      exfalso. exact (Hnone e He Hre). }
    assert (Hread : readSimRoundSettlement r db = None).
    { destruct (readSimRoundSettlement r db) as [rec|] eqn:Eread; [|reflexivity].
      unfold readSimRoundSettlement in Eread. apply find_some in Eread.
      destruct Eread as [Hin Hr]. apply String.eqb_eq in Hr.
      destruct (reachable_settled_rounds_have_entries db Hreach rec Hin) as [e [He Hre]].
      exfalso. apply (Hnone e He). congruence. }
    unfold settleSimRoundOnce. rewrite Hread. cbn [fromPersistedSettlement].
    rewrite Hrows. reflexivity.
  - exact (reachable_settled_rounds_have_entries db Hreach).
Qed.

Lemma round_without_entries_is_not_settled_witness :
  let entry :=
    {| id := "e1"; roundId := "SOL-1200-5m"; market := "SOL"; feedId := "feed";
       roundStartMs := 1200000; roundEndMs := 1560000; wallet := "alice";
       direction := UP; stakeBucks := 5%Q; joinedAtMs := 1200100 |} in
  let w := {| historical := fun _ _ => None; latest := fun _ => None |} in
  let db := snd (addSimEntry entry emptyDb) in
  settleSimRoundOnce w 1700000 "BTC-1200-5m" db = (None, db).
Proof.
  intros entry w db.
  apply (proj1 (round_without_entries_is_not_settled db
                  (reach_add emptyDb entry reach_empty)) w 1700000 "BTC-1200-5m").
  intros e [<-|[]]. discriminate.
Defined.

End SimOnce.

(** ** The scenarios of the specification, run on the model *)

Module Scenarios.
Import Oracle.

(** Scenario A on the custody settlement: alice UP 50, bob UP 25, carol
    DOWN 30, price 100 then 101.  Fee 6, distributable 99, alice 66, bob 33. *)
Example scenario_A_custody :
  let mk i d l :=
    {| RoundLedger.e_roundId := "SOL-1000-5m"; RoundLedger.e_market := Some "SOL";
       RoundLedger.e_feedId := None; RoundLedger.e_roundStartMs := 1000000;
       RoundLedger.e_roundEndMs := 1360000; RoundLedger.e_wallet := i;
       RoundLedger.e_direction := d; RoundLedger.e_stakeUsd := 5;
       RoundLedger.e_stakeLamports := l; RoundLedger.e_signature := i;
       RoundLedger.e_joinedAtMs := 1000100; RoundLedger.e_startPrice := 0;
       RoundLedger.e_clientIp := None |} in
  Settlement.settlePayouts 100 101
    [mk "alice" RoundLedger.UP 50; mk "bob" RoundLedger.UP 25;
     mk "carol" RoundLedger.DOWN 30]
  = (RoundLedger.WIN, Some RoundLedger.UP, 6, 99,
     [ {| Settlement.wallet := "alice"; Settlement.lamports := 66 |};
       {| Settlement.wallet := "bob"; Settlement.lamports := 33 |} ]).
Proof. vm_compute. reflexivity. Qed.

(** Scenarios B and C on the sim game: a one-sided round and a tie are
    refunds without fee, every stake goes back whole. *)
Example scenario_B_sim :
  let alice :=
    {| SimLedger.id := "alice-1"; SimLedger.roundId := "SOL-1200-5m";
       SimLedger.market := "SOL"; SimLedger.feedId := "feed";
       SimLedger.roundStartMs := 1200000; SimLedger.roundEndMs := 1560000;
       SimLedger.wallet := "alice"; SimLedger.direction := SimLedger.UP;
       SimLedger.stakeBucks := 50%Q; SimLedger.joinedAtMs := 1200100 |} in
  let w :=
    {| historical := fun _ ts =>
         Some {| price := if ts =? 1260 then 100 else 101; publishTime := ts |};
       latest := fun _ => None |} in
  option_map (fun s => (SimLedger.mode (SimSettlement.settlement s),
                        SimSettlement.feeCents s,
                        SimSettlement.payoutsByEntryId s))
             (SimSettlement.settleRound w 1600000 [alice])
  = Some (SimLedger.REFUND, 0, [("alice-1", 5000)]).
Proof. vm_compute. reflexivity. Qed.

Example scenario_C_sim :
  let mk i d b :=
    {| SimLedger.id := i; SimLedger.roundId := "SOL-1200-5m";
       SimLedger.market := "SOL"; SimLedger.feedId := "feed";
       SimLedger.roundStartMs := 1200000; SimLedger.roundEndMs := 1560000;
       SimLedger.wallet := i; SimLedger.direction := d;
       SimLedger.stakeBucks := b; SimLedger.joinedAtMs := 1200100 |} in
  let w :=
    {| historical := fun _ ts => Some {| price := 50; publishTime := ts |};
       latest := fun _ => None |} in
  option_map (fun s => (SimLedger.mode (SimSettlement.settlement s),
                        SimSettlement.feeCents s,
                        SimSettlement.payoutsByEntryId s))
             (SimSettlement.settleRound w 1600000
                [mk "a" SimLedger.UP 25%Q; mk "b" SimLedger.DOWN 10%Q])
  = Some (SimLedger.REFUND, 0, [("a", 2500); ("b", 1000)]).
Proof. vm_compute. reflexivity. Qed.

(** Scenario D: weights 1, 1, 1 and 10 to share give 4, 3, 3. *)
Example scenario_D :
  SimSettlement.proRataCents
    [ {| SimSettlement.entryId := "x"; SimSettlement.cents := 1 |};
      {| SimSettlement.entryId := "y"; SimSettlement.cents := 1 |};
      {| SimSettlement.entryId := "z"; SimSettlement.cents := 1 |} ] 10 3
  = [("x", 4); ("y", 3); ("z", 3)]
  /\ map Settlement.lamports
       (Settlement.addProRataPayouts
          [ {| Settlement.wallet := "x"; Settlement.lamports := 1 |};
            {| Settlement.wallet := "y"; Settlement.lamports := 1 |};
            {| Settlement.wallet := "z"; Settlement.lamports := 1 |} ] 10 3)
     = [4; 3; 3].
Proof. split; vm_compute; reflexivity. Qed.

End Scenarios.

(** ** The sim ledger: identities, lookups, settle once *)

Module SimLedgerFacts.
Import JsFacts Oracle SimLedger SimSettlement SimReach.

Lemma addSimEntry_ids entry db :
  NoDup (map id (sim_entries db)) ->
  NoDup (map id (sim_entries (snd (addSimEntry entry db)))).
Proof.
  intro Hnd. unfold addSimEntry.
  destruct (existsb (fun row => id row =s? id entry) (sim_entries db)) eqn:Ex;
    cbn [snd sim_entries]; [exact Hnd|].
  rewrite map_app. cbn [map]. apply NoDup_app; [exact Hnd| |].
  - constructor; [intros []|constructor].
  - intros k Hk [<-|[]]. apply in_map_iff in Hk. destruct Hk as [row [Hid Hrow]].
    assert (existsb (fun row => id row =s? id entry) (sim_entries db) = true).
    { apply existsb_exists. exists row. split; [exact Hrow|].
      apply String.eqb_eq. exact Hid. }
    congruence.
Qed.

(** Entry ids stay pairwise distinct, and an entry whose id is already in
    the ledger is not stored again. *)
Theorem sim_entry_ids_are_unique :
  forall db, reachable db ->
    NoDup (map id (sim_entries db))
    /\ forall entry, In (id entry) (map id (sim_entries db)) ->
         addSimEntry entry db = (false, db).
Proof.
  intros db Hreach. split.
  - induction Hreach as [|db entry _ IH|db w nowMs r _ IH].
    + constructor.
    + apply addSimEntry_ids. exact IH.
    + rewrite SimOnce.settleSimRoundOnce_entries. exact IH.
  - intros entry Hin. unfold addSimEntry.
    assert (Hex : existsb (fun row => id row =s? id entry) (sim_entries db) = true).
    { apply in_map_iff in Hin. destruct Hin as [row [Hid Hrow]].
      apply existsb_exists. exists row. split; [exact Hrow|].
      apply String.eqb_eq. exact Hid. }
    rewrite Hex. reflexivity.
Qed.

Lemma sim_entry_ids_are_unique_witness :
  let entry :=
    {| id := "e1"; roundId := "SOL-1200-5m"; market := "SOL"; feedId := "feed";
       roundStartMs := 1200000; roundEndMs := 1560000; wallet := "alice";
       direction := UP; stakeBucks := 5%Q; joinedAtMs := 1200100 |} in
  let db := snd (addSimEntry entry emptyDb) in
  NoDup (map id (sim_entries db)).
Proof.
  intros entry db.
  exact (proj1 (sim_entry_ids_are_unique db (reach_add emptyDb entry reach_empty))).
Defined.

Lemma read_rows_of_rounds roundIds db e :
  roundIds <> [] ->
  (In e (readSimEntriesForRoundIds roundIds db) <->
   In e (sim_entries db) /\ In (roundId e) roundIds).
Proof.
  intro Hne. unfold readSimEntriesForRoundIds.
  replace (List.length roundIds =? 0)%nat with false
    by (destruct roundIds; [congruence|reflexivity]).
  assert (Hex : existsb (fun r => r =s? roundId e) roundIds = true
                <-> In (roundId e) roundIds).
  { rewrite existsb_exists. split.
    - intros [r [Hr Heq]]. apply String.eqb_eq in Heq. congruence.
    - intro Hin. exists (roundId e). split; [exact Hin|apply String.eqb_refl]. }
  split.
  - intro H.
    apply (Permutation_in _ (Ordering.orderByDesc_perm joinedAtMs _)) in H.
    apply filter_In in H. tauto.
  - intros [Hin Hr].
    apply (Permutation_in _ (Permutation_sym (Ordering.orderByDesc_perm joinedAtMs _))).
    apply filter_In. tauto.
Qed.

(** Insert and look up: an entry that was stored is among the rows read
    for its round, and a read returns rows of the requested rounds only;
    with no round id asked for it returns nothing. *)
Theorem stored_entry_is_read_back :
  (forall entry db,
      fst (addSimEntry entry db) = true ->
      In entry (readSimEntriesForRoundIds [roundId entry] (snd (addSimEntry entry db))))
  /\ (forall roundIds db e,
        In e (readSimEntriesForRoundIds roundIds db) ->
        In e (sim_entries db) /\ In (roundId e) roundIds)
  /\ (forall db, readSimEntriesForRoundIds [] db = []).
Proof.
  split; [|split].
  - intros entry db Hcreated. apply read_rows_of_rounds; [discriminate|].
    unfold addSimEntry in *.
    destruct (existsb (fun row => id row =s? id entry) (sim_entries db));
      [discriminate Hcreated|].
    cbn [snd sim_entries]. split; [|left; reflexivity].
    apply in_app_iff. right. left. reflexivity.
  - intros roundIds db e H. destruct roundIds as [|r rs]; [destruct H|].
    apply (read_rows_of_rounds (r :: rs) db e); [discriminate|exact H].
  - reflexivity.
Qed.

Lemma stored_entry_is_read_back_witness :
  let entry :=
    {| id := "e1"; roundId := "SOL-1200-5m"; market := "SOL"; feedId := "feed";
       roundStartMs := 1200000; roundEndMs := 1560000; wallet := "alice";
       direction := UP; stakeBucks := 5%Q; joinedAtMs := 1200100 |} in
  In entry (readSimEntriesForRoundIds ["SOL-1200-5m"] (snd (addSimEntry entry emptyDb))).
Proof.
  intro entry.
  apply (proj1 stored_entry_is_read_back entry emptyDb). reflexivity.
Defined.

Lemma find_app_none {A : Type} (p : A -> bool) (l : list A) (x : A) :
  find p l = None -> p x = true -> find p (l ++ [x]) = Some x.
Proof.
  induction l as [|y tl IH]; cbn [find app]; intros Hnone Hx.
  - rewrite Hx. reflexivity.
  - destruct (p y); [discriminate|]. apply IH; assumption.
Qed.

Lemma find_none_existsb {A : Type} (p : A -> bool) (l : list A) :
  find p l = None -> existsb p l = false.
Proof.
  induction l as [|y tl IH]; cbn [find existsb]; intro H.
  - reflexivity.
  - destruct (p y); [discriminate|]. apply IH. exact H.
Qed.

(** What [settleSimRoundOnce] answers is what the ledger holds for the
    round afterwards. *)
Lemma find_app_some {A : Type} (p : A -> bool) (l m : list A) (x : A) :
  find p l = Some x -> find p (l ++ m) = Some x.
Proof.
  induction l as [|y tl IH]; cbn [find app]; [discriminate|].
  destruct (p y); [auto|exact IH].
Qed.

Lemma once_keeps_settlements w nowMs r db r' rec :
  readSimRoundSettlement r' db = Some rec ->
  readSimRoundSettlement r' (snd (settleSimRoundOnce w nowMs r db)) = Some rec.
Proof.
  intro H. unfold settleSimRoundOnce.
  destruct (fromPersistedSettlement (readSimRoundSettlement r db)); [exact H|].
  destruct (List.length (readSimEntriesForRoundIds [r] db) =? 0)%nat; [exact H|].
  cbn [snd]. unfold writeSimRoundSettlement.
  destruct (existsb _ (sim_round_settlements db)); [exact H|].
  unfold readSimRoundSettlement in *. cbn [sim_round_settlements].
  apply find_app_some. exact H.
Qed.

Lemma settled_is_persisted w nowMs r db s db1 :
  settleSimRoundOnce w nowMs r db = (Some s, db1) ->
  fromPersistedSettlement (readSimRoundSettlement r db1) = Some s.
Proof.
  unfold settleSimRoundOnce.
  destruct (fromPersistedSettlement (readSimRoundSettlement r db)) as [existing|] eqn:E.
  - intro H. injection H as <- <-. exact E.
  - destruct (List.length (readSimEntriesForRoundIds [r] db) =? 0)%nat;
      [discriminate|].
    intro H.
    destruct (fromPersistedSettlement
                (readSimRoundSettlement r
                   (writeSimRoundSettlement _ db))) as [c|] eqn:Ec.
    + injection H as <- <-. exact Ec.
    + exfalso. clear H.
      assert (Hnone : readSimRoundSettlement r db = None).
      { destruct (readSimRoundSettlement r db); [discriminate E|reflexivity]. }
      unfold readSimRoundSettlement in Hnone.
      unfold writeSimRoundSettlement in Ec. cbn [rec_roundId] in Ec.
      rewrite (find_none_existsb _ _ Hnone) in Ec.
      unfold readSimRoundSettlement in Ec. cbn [sim_round_settlements] in Ec.
      rewrite (find_app_none _ _ _ Hnone) in Ec
        by (cbn [rec_roundId]; apply String.eqb_refl).
      discriminate Ec.
Qed.

(** The stored payouts are the payouts of the settlement in another order:
    entry ids that are array indices come first. *)
Lemma insertByIndex_perm {V : Type} (kv : string * V) (l : list (string * V)) :
  Permutation (insertByIndex kv l) (kv :: l).
Proof.
  induction l as [|x tl IH]; cbn [insertByIndex]; [apply Permutation_refl|].
  destruct (indexOf (fst kv) <? indexOf (fst x)); [apply Permutation_refl|].
  apply perm_trans with (x :: kv :: tl); [apply perm_skip; exact IH|apply perm_swap].
Qed.

Lemma Object_fromEntries_perm {V : Type} (m : JsMap V) :
  Permutation (Object_fromEntries m) m.
Proof.
  unfold Object_fromEntries.
  induction m as [|x tl IH]; cbn [filter fold_right app]; [apply Permutation_refl|].
  destruct (isArrayIndex (fst x)); cbn [negb fold_right].
  - apply perm_trans
      with (x :: (fold_right insertByIndex []
                    (filter (fun kv => isArrayIndex (fst kv)) tl)
                  ++ filter (fun kv => negb (isArrayIndex (fst kv))) tl)).
    + apply (Permutation_app_tail _ (insertByIndex_perm x _)).
    + apply perm_skip. exact IH.
  - apply perm_trans
      with (x :: (fold_right insertByIndex []
                    (filter (fun kv => isArrayIndex (fst kv)) tl)
                  ++ filter (fun kv => negb (isArrayIndex (fst kv))) tl)).
    + apply Permutation_sym, Permutation_middle.
    + apply perm_skip. exact IH.
Qed.

Lemma stored_payouts_are_in_property_order :
  Object_fromEntries [("e1", 470); ("10", 0); ("9", 470); ("007", 0)]
  = [("9", 470); ("10", 0); ("e1", 470); ("007", 0)].
Proof. vm_compute. reflexivity. Qed.

Lemma addSimEntry_keeps_settlements entry db :
  sim_round_settlements (snd (addSimEntry entry db)) = sim_round_settlements db.
Proof.
  unfold addSimEntry.
  destruct (existsb (fun row => id row =s? id entry) (sim_entries db)); reflexivity.
Qed.

(** A settlement that is stored is read back unchanged in every later
    state. *)
Lemma later_keeps_settlements db db' r rec :
  later db db' ->
  readSimRoundSettlement r db = Some rec -> readSimRoundSettlement r db' = Some rec.
Proof.
  intros Hlater Hread.
  induction Hlater as [db|db db' entry _ IH|db db' w nowMs r0 _ IH].
  - exact Hread.
  - unfold readSimRoundSettlement. rewrite addSimEntry_keeps_settlements.
    exact (IH Hread).
  - apply once_keeps_settlements. exact (IH Hread).
Qed.

(** Settle once: after a round has been settled, every later call for it,
    at any later time, whatever the oracle says then, whatever entries have
    come in and whatever rounds have been settled since, returns the same
    settlement, payout by payout and in the same order, and writes
    nothing.  The same holds in every state with the same table of
    settlements. *)
Theorem settle_once_is_final :
  forall w nowMs r db s db1,
    settleSimRoundOnce w nowMs r db = (Some s, db1) ->
    forall w' nowMs' db2,
      later db1 db2 \/ sim_round_settlements db2 = sim_round_settlements db1 ->
      settleSimRoundOnce w' nowMs' r db2 = (Some s, db2).
Proof.
  intros w nowMs r db s db1 H w' nowMs' db2 Hlater.
  pose proof (settled_is_persisted _ _ _ _ _ _ H) as Hp.
  assert (Hp2 : fromPersistedSettlement (readSimRoundSettlement r db2) = Some s).
  { destruct Hlater as [Hlater|Hsame].
    - destruct (readSimRoundSettlement r db1) as [rec|] eqn:Eread;
        [|discriminate Hp].
      rewrite (later_keeps_settlements db1 db2 r rec Hlater Eread). exact Hp.
    - unfold readSimRoundSettlement in *. rewrite Hsame. exact Hp. }
  unfold settleSimRoundOnce. rewrite Hp2. reflexivity.
Qed.

Lemma settle_once_is_final_witness :
  let mk i r startMs endMs d :=
    {| id := i; roundId := r; market := "SOL"; feedId := "feed";
       roundStartMs := startMs; roundEndMs := endMs; wallet := i;
       direction := d; stakeBucks := 5%Q; joinedAtMs := startMs + 100 |} in
  let w := {| historical := fun _ _ => None; latest := fun _ => None |} in
  let w' := {| historical := fun _ _ => None;
               latest := fun _ => Some {| price := 7; publishTime := 1 |} |} in
  let db := snd (addSimEntry (mk "10" "SOL-1200-5m" 1200000 1560000 UP)
                   (snd (addSimEntry (mk "9" "SOL-1200-5m" 1200000 1560000 DOWN)
                           emptyDb))) in
  let first := settleSimRoundOnce w 1700000 "SOL-1200-5m" db in
  let db2 :=
    snd (settleSimRoundOnce w' 2100000 "SOL-1560-5m"
           (snd (addSimEntry (mk "e3" "SOL-1560-5m" 1560000 1920000 UP)
                   (snd (addSimEntry (mk "e2" "SOL-1200-5m" 1200000 1560000 DOWN)
                           (snd first)))))) in
  sim_round_settlements db2 <> sim_round_settlements (snd first)
  /\ settleSimRoundOnce w' 2200000 "SOL-1200-5m" db2 = (fst first, db2).
Proof.
  intros mk w w' db first db2. split.
  - vm_compute. intro H. discriminate H.
  - assert (Hs : first = (fst first, snd first)) by (destruct first; reflexivity).
    assert (Hsome : exists s, fst first = Some s)
      by (eexists; vm_compute; reflexivity).
    destruct Hsome as [s Hfs]. rewrite Hfs.
    apply (settle_once_is_final w 1700000 "SOL-1200-5m" db s (snd first)).
    + rewrite <- Hfs. exact Hs.
    + left. unfold db2. apply later_settle. apply later_add. apply later_add.
      apply later_now.
Defined.

End SimLedgerFacts.

(** ** The sim settlement: who gets what *)

Module SimPayouts.
Import JsFacts Shares PayoutArithmetic Decision Oracle SimLedger SimSettlement.

Lemma sumOf_const_div (rows : list Recipient) (W : Z) :
  0 < W ->
  sumOf (fun item => (W * cents item) / W) rows = sumOf cents rows.
Proof.
  intro HW. apply sumOf_ext. intros x _.
  rewrite Z.mul_comm. apply Z.div_mul. lia.
Qed.

(** Sharing out exactly the weight total gives every recipient its own
    weight. *)
Lemma share_out_total_is_identity (rows : list SimEntry) :
  (forall e, In e rows -> 0 < stakeCents e) ->
  NoDup (map id rows) ->
  proRataCents (map toRecipient rows)
               (Z.max 0 (sumOf stakeCents rows)) (sumOf stakeCents rows)
  = map (fun e => (id e, stakeCents e)) rows.
Proof.
  intros Hpos Hnd.
  destruct rows as [|e0 rest] eqn:Erows; [reflexivity|]. rewrite <- Erows in *.
  assert (Hne : rows <> []) by (subst rows; discriminate).
  assert (HW : 0 < sumOf stakeCents rows) by (apply sumOf_pos; assumption).
  replace (Z.max 0 (sumOf stakeCents rows)) with (sumOf stakeCents rows) by lia.
  rewrite proRataCents_shape; try assumption.
  - rewrite sumOf_floorShares.
    replace (sumOf stakeCents rows) with (sumOf cents (map toRecipient rows))
      by (rewrite sumOf_map; reflexivity).
    rewrite sumOf_const_div
      by (rewrite sumOf_map; exact HW).
    rewrite Z.sub_diag. cbn [Z.ltb Z.compare].
    unfold floorShares. rewrite !map_map. apply map_ext_in.
    intros e He. cbn [entryId cents toRecipient]. f_equal.
    rewrite Z.mul_comm. apply Z.div_mul.
    rewrite sumOf_map.
    change (sumOf stakeCents rows <> 0). lia.
  - destruct rows; [congruence|discriminate].
  - rewrite map_map. exact Hnd.
Qed.

Lemma settleRound_refund_payouts w nowMs entries s :
  settleRound w nowMs entries = Some s ->
  mode (settlement s) = REFUND ->
  payoutsByEntryId s
  = proRataCents (map toRecipient entries)
                 (Z.max 0 (sumOf stakeCents entries)) (sumOf stakeCents entries).
Proof.
  intros H Hm. exact (proj2 (sim_refund_charges_no_fee w nowMs entries s H Hm)).
Qed.

(** A refund gives every entry exactly its stake back, whether the round
    was one-sided, tied, or could not be priced at all. *)
Theorem sim_refund_returns_every_stake :
  forall w nowMs entries,
    (forall e, In e entries -> 0 < stakeCents e) ->
    NoDup (map id entries) ->
    mode (settlement (settleRoundSafe w nowMs entries)) = REFUND ->
    payoutsByEntryId (settleRoundSafe w nowMs entries)
    = map (fun e => (id e, stakeCents e)) entries
    /\ feeCents (settleRoundSafe w nowMs entries) = 0.
Proof.
  intros w nowMs entries Hpos Hnd Hmode. unfold settleRoundSafe in *.
  destruct (settleRound w nowMs entries) as [s|] eqn:E.
  - split.
    + rewrite (settleRound_refund_payouts _ _ _ _ E Hmode).
      apply share_out_total_is_identity; assumption.
    + exact (proj1 (sim_refund_charges_no_fee _ _ _ _ E Hmode)).
  - split; [|reflexivity].
    unfold buildRefundSettlement. cbn [payoutsByEntryId].
    rewrite Z.sub_0_r. apply share_out_total_is_identity; assumption.
Qed.

Lemma sim_refund_returns_every_stake_witness :
  let mk i d b :=
    {| id := i; roundId := "SOL-1200-5m"; market := "SOL"; feedId := "feed";
       roundStartMs := 1200000; roundEndMs := 1560000; wallet := i;
       direction := d; stakeBucks := b; joinedAtMs := 1200100 |} in
  let entries := [mk "a" UP 25%Q; mk "b" UP 10%Q] in
  let w := {| historical := fun _ _ => None; latest := fun _ => None |} in
  payoutsByEntryId (settleRoundSafe w 1700000 entries)
  = map (fun e => (id e, stakeCents e)) entries
  /\ feeCents (settleRoundSafe w 1700000 entries) = 0.
Proof.
  intros mk entries w.
  apply (sim_refund_returns_every_stake w 1700000 entries).
  - intros e [<-|[<-|[]]]; vm_compute; reflexivity.
  - constructor.
    + intros [H|[]]. discriminate H.
    + constructor; [intros []|constructor].
  - reflexivity.
Defined.

Lemma Map_get_of_rows {A : Type} (k : A -> string) (v : A -> Z) (rows : list A) (x : A) :
  NoDup (map k rows) -> In x rows ->
  Map_get (k x) (map (fun item => (k item, v item)) rows) = Some (v x).
Proof.
  induction rows as [|y tl IH]; cbn [map Map_get]; intros Hnd Hin; [destruct Hin|].
  inversion Hnd as [|? ? Hy Htl]; subst.
  destruct Hin as [->|Hin].
  - rewrite String.eqb_refl. reflexivity.
  - destruct (String.eqb_spec (k y) (k x)) as [Heq|Hne].
    + exfalso. apply Hy. rewrite Heq. apply in_map. exact Hin.
    + apply IH; assumption.
Qed.

Lemma Map_get_absent {V : Type} (key : string) (m : JsMap V) :
  ~ In key (map fst m) -> Map_get key m = None.
Proof.
  induction m as [|[k v] tl IH]; cbn [map Map_get fst]; intro H.
  - reflexivity.
  - destruct (String.eqb_spec k key) as [->|Hne].
    + exfalso. apply H. left. reflexivity.
    + apply IH. intro Hin. apply H. right. exact Hin.
Qed.

Lemma Map_get_bumpFirst (rem : Z) (l : list Recipient) (x : Recipient) :
  0 <= rem -> NoDup (map entryId l) -> In x l ->
  exists v,
    Map_get (entryId x) (map (fun item => (entryId item, cents item)) (bumpFirst rem l))
    = Some v
    /\ cents x <= v.
Proof.
  intros Hrem Hnd Hin. destruct l as [|r0 tl]; [destruct Hin|].
  cbn [bumpFirst map entryId cents Map_get].
  cbn [map] in Hnd. inversion Hnd as [|? ? H0 Htl]; subst.
  destruct Hin as [->|Hin].
  - rewrite String.eqb_refl. eexists. split; [reflexivity|]. lia.
  - destruct (String.eqb_spec (entryId r0) (entryId x)) as [Heq|Hne].
    + exfalso. apply H0. rewrite Heq. apply in_map. exact Hin.
    + exists (cents x). split; [|lia].
      apply (Map_get_of_rows entryId cents); assumption.
Qed.

(** The payouts of a WIN round, row by row: the floor shares of the
    winning side's rows, the first one raised by the remainder. *)
Lemma settleRound_win_payouts w nowMs entries s :
  (forall e, In e entries -> 0 < stakeCents e) ->
  NoDup (map id entries) ->
  settleRound w nowMs entries = Some s ->
  mode (settlement s) = WIN ->
  exists side d,
    winnerSide (settlement s) = Some side
    /\ filter (isSide side) entries <> []
    /\ d = sumOf stakeCents entries - (sumOf stakeCents entries * FEE_BPS) / 10000
    /\ 0 < d
    /\ map fst (payoutsByEntryId s) = map id (filter (isSide side) entries)
    /\ forall e, In e (filter (isSide side) entries) ->
         exists v, Map_get (id e) (payoutsByEntryId s) = Some v
                   /\ (d * stakeCents e)
                      / sumOf stakeCents (filter (isSide side) entries) <= v.
Proof.
  intros Hpos Hnd H Hmode.
  assert (Hwin : forall side,
            filter (isSide side) entries <> [] ->
            let d := sumOf stakeCents entries
                     - (sumOf stakeCents entries * FEE_BPS) / 10000 in
            let payouts :=
              proRataCents (map toRecipient (filter (isWinner (Some side)) entries))
                (Z.max 0 d)
                (sumOf stakeCents (filter (isWinner (Some side)) entries)) in
            0 < d
            /\ map fst payouts = map id (filter (isSide side) entries)
            /\ forall e, In e (filter (isSide side) entries) ->
                 exists v, Map_get (id e) payouts = Some v
                           /\ (d * stakeCents e)
                              / sumOf stakeCents (filter (isSide side) entries) <= v).
  { intros side Hne d payouts. cbn [isWinner] in payouts.
    set (rows := filter (isSide side) entries) in *.
    assert (Hrows : forall e, In e rows -> 0 < stakeCents e).
    { intros e He. apply Hpos. apply filter_In in He. tauto. }
    assert (Hentries : entries <> []).
    { intro K. subst entries. apply Hne. reflexivity. }
    assert (Htotal : 0 < sumOf stakeCents entries) by (apply sumOf_pos; assumption).
    assert (HW : 0 < sumOf stakeCents rows) by (apply sumOf_pos; assumption).
    assert (Hd : 0 < d).
    { subst d. unfold FEE_BPS.
      assert ((sumOf stakeCents entries * 600) / 10000 < sumOf stakeCents entries)
        by (apply Z.div_lt_upper_bound; lia).
      lia. }
    assert (Hndr : NoDup (map id rows))
      by (apply Conservation.distinct_keys_after_filter; exact Hnd).
    split; [exact Hd|].
    assert (Hshape :
      payouts
      = map (fun item => (entryId item, cents item))
            (if 0 <? d - sumOf cents (floorShares (map toRecipient rows) d
                                                  (sumOf stakeCents rows))
             then bumpFirst (d - sumOf cents (floorShares (map toRecipient rows) d
                                                          (sumOf stakeCents rows)))
                            (floorShares (map toRecipient rows) d (sumOf stakeCents rows))
             else floorShares (map toRecipient rows) d (sumOf stakeCents rows))).
    { subst payouts. replace (Z.max 0 d) with d by lia.
      apply proRataCents_shape; try assumption.
      - destruct rows; [congruence|discriminate].
      - rewrite map_map. exact Hndr. }
    rewrite Hshape. clear Hshape payouts.
    set (fl := floorShares (map toRecipient rows) d (sumOf stakeCents rows)).
    set (rem := d - sumOf cents fl).
    assert (Hids : forall l, map entryId l = map id rows ->
                   map fst (map (fun item => (entryId item, cents item)) l)
                   = map id rows).
    { intros l Hl. rewrite map_map. cbn [fst]. exact Hl. }
    assert (Hfl_ids : map entryId fl = map id rows).
    { subst fl. rewrite floorShares_ids, map_map. reflexivity. }
    split.
    - destruct (0 <? rem); apply Hids; [rewrite bumpFirst_ids|]; exact Hfl_ids.
    - intros e He.
      set (r := {| entryId := id e;
                   cents := (d * stakeCents e) / sumOf stakeCents rows |}).
      assert (Hr : In r fl).
      { subst fl. unfold floorShares. rewrite map_map.
        apply in_map_iff. exists e. split; [reflexivity|exact He]. }
      assert (Hndfl : NoDup (map entryId fl)) by (rewrite Hfl_ids; exact Hndr).
      change (id e) with (entryId r).
      change ((d * stakeCents e) / sumOf stakeCents rows) with (cents r).
      destruct (0 <? rem) eqn:Er.
      + apply Z.ltb_lt in Er. apply Map_get_bumpFirst; [lia|assumption|assumption].
      + exists (cents r). split; [|lia].
        apply (Map_get_of_rows entryId cents); assumption. }
  unfold settleRound in H.
  destruct (fetchSnapshotNearTimestamp w _ _) as [startSnapshot|]; [|discriminate].
  destruct (fetchSnapshotNearTimestamp w _ _) as [endSnapshot|]; [|discriminate].
  destruct ((List.length (filter (isSide UP) entries) =? 0)%nat
            || (List.length (filter (isSide DOWN) entries) =? 0)%nat) eqn:E.
  { cbn [orb] in H. injection H as <-. discriminate Hmode. }
  apply orb_false_iff in E. destruct E as [Eu Ed].
  assert (Hu : filter (isSide UP) entries <> []).
  { intro K. apply length_zero_iff in K. congruence. }
  assert (Hdn : filter (isSide DOWN) entries <> []).
  { intro K. apply length_zero_iff in K. congruence. }
  cbn [orb] in H.
  destruct (Qlt_bool (price startSnapshot) (price endSnapshot)) eqn:E1.
  { destruct (Qlt_bool_not_eq _ _ E1) as [Hne' _]. rewrite Hne' in H.
    injection H as <-. cbn [payoutsByEntryId settlement mode winnerSide].
    destruct (Hwin UP Hu) as (Hd & Hk & Hv).
    exists UP. eexists. split; [reflexivity|]. split; [exact Hu|].
    split; [reflexivity|]. split; [exact Hd|]. split; [exact Hk|exact Hv]. }
  destruct (Qlt_bool (price endSnapshot) (price startSnapshot)) eqn:E2.
  { assert (Hne' : Qeq_bool (price endSnapshot) (price startSnapshot) = false).
    { destruct (Qeq_bool (price endSnapshot) (price startSnapshot)) eqn:K; [|reflexivity].
      apply Qeq_bool_iff in K. apply Qlt_bool_iff in E2. rewrite K in E2.
      exfalso. exact (Qlt_irrefl _ E2). }
    rewrite Hne' in H. injection H as <-.
    cbn [payoutsByEntryId settlement mode winnerSide].
    destruct (Hwin DOWN Hdn) as (Hd & Hk & Hv).
    exists DOWN. eexists. split; [reflexivity|]. split; [exact Hdn|].
    split; [reflexivity|]. split; [exact Hd|]. split; [exact Hk|exact Hv]. }
  rewrite (Q_trichotomy_bool _ _ E1 E2) in H. injection H as <-. discriminate Hmode.
Qed.

(** In a WIN round the payout map has exactly the entries of the winning
    side as keys, in the order they were read; an entry of the losing side
    has no payout. *)
Theorem sim_win_pays_the_winning_side_only :
  forall w nowMs entries s,
    (forall e, In e entries -> 0 < stakeCents e) ->
    NoDup (map id entries) ->
    settleRound w nowMs entries = Some s ->
    mode (settlement s) = WIN ->
    exists side,
      winnerSide (settlement s) = Some side
      /\ map fst (payoutsByEntryId s) = map id (filter (isSide side) entries)
      /\ (forall e, In e entries -> isSide side e = false ->
            Map_get (id e) (payoutsByEntryId s) = None)
      /\ (forall e, In e entries -> isSide side e = true ->
            exists v, Map_get (id e) (payoutsByEntryId s) = Some v /\ 0 <= v).
Proof.
  intros w nowMs entries s Hpos Hnd H Hmode.
  destruct (settleRound_win_payouts w nowMs entries s Hpos Hnd H Hmode)
    as (side & d & Hside & Hne & Hd & Hdpos & Hkeys & Hvals).
  exists side. split; [exact Hside|]. split; [exact Hkeys|]. split.
  - intros e He Hlost. apply Map_get_absent. rewrite Hkeys.
    intro Hin. apply in_map_iff in Hin. destruct Hin as [x [Hid Hx]].
    apply filter_In in Hx. destruct Hx as [Hx Hxs].
    assert (x = e).
    { clear -Hnd Hx He Hid. induction entries as [|y tl IH]; [destruct Hx|].
      cbn [map] in Hnd. inversion Hnd as [|? ? Hy Htl]; subst.
      destruct Hx as [->|Hx], He as [->|He]; try reflexivity.
      - exfalso. apply Hy. rewrite Hid. apply in_map. exact He.
      - exfalso. apply Hy. rewrite <- Hid. apply in_map. exact Hx.
      - apply IH; assumption. }
    subst x. congruence.
  - intros e He Hwon.
    destruct (Hvals e) as [v [Hv Hle]]; [apply filter_In; tauto|].
    exists v. split; [exact Hv|].
    assert (0 <= (d * stakeCents e) / sumOf stakeCents (filter (isSide side) entries)).
    { apply Z.div_pos.
      - specialize (Hpos e He). nia.
      - apply sumOf_pos; [exact Hne|].
        intros x Hx. apply Hpos. apply filter_In in Hx. tauto. }
    lia.
Qed.

Lemma sumOf_filter_le {A : Type} (f : A -> Z) (p : A -> bool) (l : list A) :
  (forall x, In x l -> 0 <= f x) -> sumOf f (filter p l) <= sumOf f l.
Proof.
  induction l as [|x tl IH]; cbn [filter]; intro H.
  - lia.
  - assert (0 <= f x) by (apply H; left; reflexivity).
    assert (sumOf f (filter p tl) <= sumOf f tl)
      by (apply IH; intros y Hy; apply H; right; exact Hy).
    destruct (p x); rewrite ?sumOf_cons; lia.
Qed.

(** The fee is the only thing a winner can lose: every winning entry is
    paid at least 94% of its stake, rounded down. *)
Theorem sim_winner_keeps_94_percent :
  forall w nowMs entries s e v,
    (forall x, In x entries -> 0 < stakeCents x) ->
    NoDup (map id entries) ->
    settleRound w nowMs entries = Some s ->
    mode (settlement s) = WIN ->
    In e entries ->
    winnerSide (settlement s) = Some (direction e) ->
    Map_get (id e) (payoutsByEntryId s) = Some v ->
    (9400 * stakeCents e) / 10000 <= v.
Proof.
  intros w nowMs entries s e v Hpos Hnd H Hmode He Hside Hv.
  destruct (settleRound_win_payouts w nowMs entries s Hpos Hnd H Hmode)
    as (side & d & Hside' & Hne & Hd & Hdpos & Hkeys & Hvals).
  rewrite Hside in Hside'. injection Hside' as <-.
  assert (Hin : In e (filter (isSide (direction e)) entries)).
  { apply filter_In. split; [exact He|].
    unfold isSide. destruct (direction e); reflexivity. }
  destruct (Hvals e Hin) as [v' [Hv' Hle]].
  rewrite Hv in Hv'. injection Hv' as <-.
  set (W := sumOf stakeCents (filter (isSide (direction e)) entries)) in *.
  set (T := sumOf stakeCents entries) in *.
  assert (HW : 0 < W).
  { apply sumOf_pos; [exact Hne|].
    intros x Hx. apply Hpos. apply filter_In in Hx. tauto. }
  assert (HWT : W <= T).
  { apply sumOf_filter_le. intros x Hx. apply Z.lt_le_incl, Hpos, Hx. }
  assert (Hfee : (T * FEE_BPS) / 10000 * 10000 <= T * 600).
  { unfold FEE_BPS. pose proof (Z.mul_div_le (T * 600) 10000). lia. }
  assert (Hc : 0 < stakeCents e) by (apply Hpos; exact He).
  assert (Hq : (9400 * stakeCents e) / 10000 <= (d * stakeCents e) / W).
  { apply Z.div_le_lower_bound; [exact HW|].
    pose proof (Z.mul_div_le (9400 * stakeCents e) 10000).
    assert (9400 * W <= d * 10000) by (subst d; lia).
    nia. }
  lia.
Qed.

Lemma sim_winner_keeps_94_percent_witness :
  let mk i d b :=
    {| id := i; roundId := "SOL-1200-5m"; market := "SOL"; feedId := "feed";
       roundStartMs := 1200000; roundEndMs := 1560000; wallet := i;
       direction := d; stakeBucks := b; joinedAtMs := 1200100 |} in
  let entries := [mk "a" UP 25%Q; mk "b" DOWN 10%Q] in
  let w :=
    {| historical := fun _ ts =>
         Some {| price := if ts =? 1260 then 100 else 101; publishTime := ts |};
       latest := fun _ => None |} in
  (9400 * stakeCents (mk "a" UP 25%Q)) / 10000 <= 3290.
Proof.
  intros mk entries w.
  refine (sim_winner_keeps_94_percent w 1700000 entries _ (mk "a" UP 25%Q) 3290
            _ _ _ _ _ _ _).
  - intros e [<-|[<-|[]]]; vm_compute; reflexivity.
  - constructor.
    + intros [H|[]]. discriminate H.
    + constructor; [intros []|constructor].
  - vm_compute. reflexivity.
  - reflexivity.
  - left. reflexivity.
  - reflexivity.
  - vm_compute. reflexivity.
Defined.

Lemma sim_win_pays_the_winning_side_only_witness :
  let mk i d b :=
    {| id := i; roundId := "SOL-1200-5m"; market := "SOL"; feedId := "feed";
       roundStartMs := 1200000; roundEndMs := 1560000; wallet := i;
       direction := d; stakeBucks := b; joinedAtMs := 1200100 |} in
  let entries := [mk "a" UP 25%Q; mk "b" DOWN 10%Q] in
  let w :=
    {| historical := fun _ ts =>
         Some {| price := if ts =? 1260 then 100 else 101; publishTime := ts |};
       latest := fun _ => None |} in
  exists s side,
    settleRound w 1700000 entries = Some s
    /\ winnerSide (settlement s) = Some side
    /\ map fst (payoutsByEntryId s) = map id (filter (isSide side) entries).
Proof.
  intros mk entries w. eexists.
  assert (Hs : settleRound w 1700000 entries
               = Some {| settlement := {| mode := WIN; winnerSide := Some UP;
                                          startPrice := 100; endPrice := 101 |};
                         payoutsByEntryId := [("a", 3290)];
                         feeCents := 210; settledAtMs := 1700000 |})
    by (vm_compute; reflexivity).
  assert (Hpos : forall e, In e entries -> 0 < stakeCents e).
  { intros e [<-|[<-|[]]]; vm_compute; reflexivity. }
  assert (Hnd : NoDup (map id entries)).
  { constructor.
    - intros [K|[]]. discriminate K.
    - constructor; [intros []|constructor]. }
  destruct (sim_win_pays_the_winning_side_only w 1700000 entries _ Hpos Hnd Hs eq_refl)
    as (side & H1 & H2 & _).
  exists side. split; [exact Hs|]. split; assumption.
Defined.

(** Whatever the oracle answers, [settleRoundSafe] hands out the whole
    pool: payouts and fee add up to the stakes. *)
Theorem sim_safe_settlement_conserves_the_pool :
  forall w nowMs entries,
    entries <> [] ->
    (forall e, In e entries -> 0 < stakeCents e) ->
    NoDup (map id entries) ->
    sumOf snd (payoutsByEntryId (settleRoundSafe w nowMs entries))
    + feeCents (settleRoundSafe w nowMs entries)
    = sumOf stakeCents entries.
Proof.
  intros w nowMs entries Hne Hpos Hnd. unfold settleRoundSafe.
  destruct (settleRound w nowMs entries) as [s|] eqn:E.
  - exact (Conservation.settleRound_conserves_the_pool w nowMs entries s Hne Hpos Hnd E).
  - unfold buildRefundSettlement. cbn [payoutsByEntryId feeCents].
    rewrite Z.sub_0_r, share_out_total_is_identity by assumption.
    rewrite sumOf_map, Z.add_0_r. reflexivity.
Qed.

Lemma sim_safe_settlement_conserves_the_pool_witness :
  let mk i d b :=
    {| id := i; roundId := "SOL-1200-5m"; market := "SOL"; feedId := "feed";
       roundStartMs := 1200000; roundEndMs := 1560000; wallet := i;
       direction := d; stakeBucks := b; joinedAtMs := 1200100 |} in
  let entries := [mk "a" UP 25%Q; mk "b" DOWN 10%Q] in
  let w :=
    {| historical := fun _ ts =>
         Some {| price := if ts =? 1260 then 100 else 101; publishTime := ts |};
       latest := fun _ => None |} in
  sumOf snd (payoutsByEntryId (settleRoundSafe w 1700000 entries))
  + feeCents (settleRoundSafe w 1700000 entries)
  = sumOf stakeCents entries.
Proof.
  intros mk entries w.
  apply (sim_safe_settlement_conserves_the_pool w 1700000 entries).
  - discriminate.
  - intros e [<-|[<-|[]]]; vm_compute; reflexivity.
  - constructor.
    + intros [H|[]]. discriminate H.
    + constructor; [intros []|constructor].
Defined.

End SimPayouts.

(** ** Sets of round ids and array slices *)

Module SetFacts.

Lemma Set_has_true x s : Set_has x s = true <-> In x s.
Proof.
  unfold Set_has. rewrite existsb_exists. split.
  - intros [y [Hy Heq]]. apply String.eqb_eq in Heq. subst y. exact Hy.
  - intro Hin. exists x. split; [exact Hin|apply String.eqb_refl].
Qed.

Lemma Set_add_spec x s y : In y (Set_add x s) <-> In y s \/ y = x.
Proof.
  unfold Set_add. destruct (Set_has x s) eqn:E.
  - apply Set_has_true in E. split; [auto|]. intros [H | ->]; assumption.
  - rewrite in_app_iff. cbn [In]. split.
    + intros [H|[H|[]]]; auto.
    + intros [H|H]; auto.
Qed.

Lemma Set_add_distinct x s : NoDup s -> NoDup (Set_add x s).
Proof.
  intro Hnd. unfold Set_add. destruct (Set_has x s) eqn:E; [exact Hnd|].
  apply NoDup_app; [exact Hnd| |].
  - constructor; [intros []|constructor].
  - intros y Hy [<-|[]]. apply Set_has_true in Hy. congruence.
Qed.

Lemma Set_add_length x s :
  (List.length s <= List.length (Set_add x s) <= S (List.length s))%nat.
Proof.
  unfold Set_add. destruct (Set_has x s); [lia|].
  rewrite length_app. cbn [List.length]. lia.
Qed.

Lemma Set_fold_spec xs acc y :
  In y (fold_left (fun s x => Set_add x s) xs acc) <-> In y acc \/ In y xs.
Proof.
  revert acc. induction xs as [|x tl IH]; intro acc; cbn [fold_left In].
  - tauto.
  - rewrite IH, Set_add_spec. intuition congruence.
Qed.

Lemma Set_fold_distinct xs acc :
  NoDup acc -> NoDup (fold_left (fun s x => Set_add x s) xs acc).
Proof.
  revert acc. induction xs as [|x tl IH]; intros acc H; cbn [fold_left].
  - exact H.
  - apply IH, Set_add_distinct, H.
Qed.

Lemma Set_from_spec xs y : In y (Set_from xs) <-> In y xs.
Proof. unfold Set_from. rewrite Set_fold_spec. cbn [In]. tauto. Qed.

Lemma Set_from_distinct xs : NoDup (Set_from xs).
Proof. apply Set_fold_distinct. constructor. Qed.

Lemma slice0_incl {A : Type} (n : Z) (xs : list A) (x : A) :
  In x (slice0 n xs) -> In x xs.
Proof.
  assert (Hfirst : forall k, In x (firstn k xs) -> In x xs).
  { intros k H. rewrite <- (firstn_skipn k xs). apply in_or_app. left. exact H. }
  unfold slice0. destruct (n <? 0); apply Hfirst.
Qed.

Lemma slice0_length {A : Type} (n : Z) (xs : list A) :
  0 <= n -> Z.of_nat (List.length (slice0 n xs)) <= n.
Proof.
  intro Hn. unfold slice0.
  replace (n <? 0) with false by (symmetry; apply Z.ltb_ge; exact Hn).
  rewrite length_firstn. lia.
Qed.

Lemma slice0_short {A : Type} (n : Z) (xs : list A) :
  Z.of_nat (List.length (slice0 n xs)) < n -> slice0 n xs = xs.
Proof.
  unfold slice0. destruct (n <? 0) eqn:E.
  - apply Z.ltb_lt in E. lia.
  - apply Z.ltb_ge in E. rewrite length_firstn. intro H.
    apply firstn_all2. lia.
Qed.

End SetFacts.

(** ** Settling every round that is due *)

Module SimBatchFacts.
Import SetFacts Oracle SimLedger SimSettlement SimLedgerQueries SimBatch.

Lemma once_none_no_entries w nowMs r db db1 :
  settleSimRoundOnce w nowMs r db = (None, db1) ->
  readSimEntriesForRoundIds [r] db = [].
Proof.
  unfold settleSimRoundOnce.
  destruct (fromPersistedSettlement (readSimRoundSettlement r db)); [discriminate|].
  destruct (readSimEntriesForRoundIds [r] db) as [|e rows]; [reflexivity|].
  cbn [List.length Nat.eqb].
  destruct (fromPersistedSettlement _); discriminate.
Qed.

Lemma once_some_is_settled w nowMs r db s db1 :
  settleSimRoundOnce w nowMs r db = (Some s, db1) ->
  readSimRoundSettlement r db1 <> None.
Proof.
  intros H K. apply SimLedgerFacts.settled_is_persisted in H.
  rewrite K in H. discriminate H.
Qed.

(** What one run of the loop of [settleDueSimRounds] does. *)
Lemma settleDueLoop_spec w nowMs ids :
  forall db n acc db' n' acc',
    settleDueLoop w nowMs ids db n acc = (db', n', acc') ->
    sim_entries db' = sim_entries db
    /\ (forall r rec, readSimRoundSettlement r db = Some rec ->
                      readSimRoundSettlement r db' = Some rec)
    /\ (forall r, In r ids ->
          (exists e, In e (sim_entries db) /\ roundId e = r) ->
          readSimRoundSettlement r db' <> None)
    /\ exists new,
         acc' = acc ++ new
         /\ n' = n + Z.of_nat (List.length new)
         /\ (List.length new <= List.length ids)%nat
         /\ NoDup new
         /\ forall r, In r new ->
              In r ids
              /\ readSimRoundSettlement r db = None
              /\ readSimRoundSettlement r db' <> None.
Proof.
  induction ids as [|r rest IH]; intros db n acc db' n' acc' H; cbn [settleDueLoop] in H.
  - injection H as <- <- <-. split; [reflexivity|]. split; [auto|].
    split; [intros r []|]. exists []. rewrite app_nil_r. cbn [List.length].
    split; [reflexivity|]. split; [lia|]. split; [lia|]. split; [constructor|].
    intros r [].
  - destruct (readSimRoundSettlement r db) as [existing|] eqn:Er.
    + destruct (IH _ _ _ _ _ _ H) as (He & Hkeep & Hall & new & Hacc & Hn & Hlen & Hnd & Hnew).
      split; [exact He|]. split; [exact Hkeep|]. split.
      * intros r0 [<-|Hin] Hex.
        -- rewrite (Hkeep _ _ Er). discriminate.
        -- apply Hall; assumption.
      * exists new. split; [exact Hacc|]. split; [exact Hn|].
        split; [cbn [List.length]; lia|]. split; [exact Hnd|].
        intros r0 Hin. destruct (Hnew r0 Hin) as (K1 & K2 & K3).
        split; [right; exact K1|]. split; assumption.
    + destruct (settleSimRoundOnce w nowMs r db) as [result db1] eqn:Eo.
      assert (He1 : sim_entries db1 = sim_entries db).
      { pose proof (SimOnce.settleSimRoundOnce_entries w nowMs r db) as K.
        rewrite Eo in K. exact K. }
      assert (Hk1 : forall r0 rec, readSimRoundSettlement r0 db = Some rec ->
                                   readSimRoundSettlement r0 db1 = Some rec).
      { intros r0 rec K. pose proof (SimLedgerFacts.once_keeps_settlements w nowMs r db r0 rec K) as K'.
        rewrite Eo in K'. exact K'. }
      assert (Hback : forall r0, readSimRoundSettlement r0 db1 = None ->
                                 readSimRoundSettlement r0 db = None).
      { intros r0 K. destruct (readSimRoundSettlement r0 db) as [rec|] eqn:E0;
          [|reflexivity]. rewrite (Hk1 _ _ E0) in K. discriminate K. }
      destruct result as [s|].
      * destruct (IH _ _ _ _ _ _ H)
          as (He & Hkeep & Hall & new & Hacc & Hn & Hlen & Hnd & Hnew).
        assert (Hr1 : readSimRoundSettlement r db1 <> None)
          by (exact (once_some_is_settled _ _ _ _ _ _ Eo)).
        assert (Hr' : readSimRoundSettlement r db' <> None).
        { destruct (readSimRoundSettlement r db1) as [rec|] eqn:E1; [|congruence].
          rewrite (Hkeep _ _ E1). discriminate. }
        split; [congruence|]. split; [intros r0 rec K; apply Hkeep, Hk1, K|]. split.
        -- intros r0 [<-|Hin] Hex; [exact Hr'|].
           apply Hall; [exact Hin|]. rewrite He1. exact Hex.
        -- exists (r :: new). rewrite Hacc, <- app_assoc. cbn [app List.length].
           split; [reflexivity|]. split; [lia|]. split; [lia|]. split.
           ++ constructor; [|exact Hnd]. intro Hin.
              destruct (Hnew r Hin) as (_ & K & _). congruence.
           ++ intros r0 [<-|Hin].
              ** split; [left; reflexivity|]. split; assumption.
              ** destruct (Hnew r0 Hin) as (K1 & K2 & K3).
                 split; [right; exact K1|]. split; [apply Hback, K2|exact K3].
      * destruct (IH _ _ _ _ _ _ H)
          as (He & Hkeep & Hall & new & Hacc & Hn & Hlen & Hnd & Hnew).
        split; [congruence|]. split; [intros r0 rec K; apply Hkeep, Hk1, K|]. split.
        -- intros r0 [<-|Hin] Hex.
           ++ exfalso. destruct Hex as [e [He0 Hr0]].
              pose proof (once_none_no_entries _ _ _ _ _ Eo) as K.
              assert (Hin : In e (readSimEntriesForRoundIds [roundId e] db)).
              { apply SimOnce.read_rows_of_round. split; [exact He0|reflexivity]. }
              rewrite Hr0, K in Hin. destruct Hin.
           ++ apply Hall; [exact Hin|]. rewrite He1. exact Hex.
        -- exists new. split; [exact Hacc|]. split; [exact Hn|].
           split; [cbn [List.length]; lia|]. split; [exact Hnd|].
           intros r0 Hin. destruct (Hnew r0 Hin) as (K1 & K2 & K3).
           split; [right; exact K1|]. split; [apply Hback, K2|exact K3].
Qed.

Lemma due_ids_are_due nowMs limit db r :
  In r (dueRoundIdsOf nowMs limit db) ->
  exists e, In e (sim_entries db) /\ roundId e = r /\ roundEndMs e <= nowMs.
Proof.
  unfold dueRoundIdsOf, readSimLedger. intro H.
  apply slice0_incl, Set_from_spec, in_map_iff in H.
  destruct H as [e [Hr He]]. apply filter_In in He. destruct He as [He Hdue].
  apply (Permutation_in _ (Ordering.orderByDesc_perm joinedAtMs _)) in He.
  exists e. split; [exact He|]. split; [exact Hr|]. apply Z.leb_le. exact Hdue.
Qed.

(** A batch run settles rounds that are over and were not settled yet,
    and only those: it neither adds nor drops an entry, keeps every
    settlement that was there, reports each round it settled once, and
    checks no more rounds than its limit. *)
Theorem sim_batch_settles_only_due_open_rounds :
  forall w nowMs limit db,
    let res := fst (settleDueSimRounds w nowMs limit db) in
    let db' := snd (settleDueSimRounds w nowMs limit db) in
    sim_entries db' = sim_entries db
    /\ (forall r rec, readSimRoundSettlement r db = Some rec ->
                      readSimRoundSettlement r db' = Some rec)
    /\ (forall r, In r (rounds res) ->
          readSimRoundSettlement r db = None
          /\ readSimRoundSettlement r db' <> None
          /\ exists e, In e (sim_entries db) /\ roundId e = r /\ roundEndMs e <= nowMs)
    /\ NoDup (rounds res)
    /\ settled res = Z.of_nat (List.length (rounds res))
    /\ settled res <= checked res
    /\ (0 <= limit -> checked res <= limit).
Proof.
  intros w nowMs limit db. unfold settleDueSimRounds.
  destruct (settleDueLoop w nowMs (dueRoundIdsOf nowMs limit db) db 0 [])
    as [[db' n'] acc'] eqn:E.
  cbn [fst snd rounds settled checked].
  destruct (settleDueLoop_spec _ _ _ _ _ _ _ _ _ E)
    as (He & Hkeep & _ & new & Hacc & Hn & Hlen & Hnd & Hnew).
  cbn [app] in Hacc. subst acc'.
  split; [exact He|]. split; [exact Hkeep|]. split.
  - intros r Hin. destruct (Hnew r Hin) as (K1 & K2 & K3).
    split; [exact K2|]. split; [exact K3|]. apply (due_ids_are_due nowMs limit). exact K1.
  - split; [exact Hnd|]. split; [lia|]. split; [lia|].
    intro Hl. apply slice0_length. exact Hl.
Qed.

(** When the batch checked fewer rounds than its limit allows, it has
    seen every round that is over: none of them is left without a
    settlement. *)
Theorem sim_batch_below_limit_settles_all_due_rounds :
  forall w nowMs limit db,
    checked (fst (settleDueSimRounds w nowMs limit db)) < limit ->
    forall e, In e (sim_entries db) -> roundEndMs e <= nowMs ->
      readSimRoundSettlement (roundId e)
        (snd (settleDueSimRounds w nowMs limit db)) <> None.
Proof.
  intros w nowMs limit db. unfold settleDueSimRounds.
  destruct (settleDueLoop w nowMs (dueRoundIdsOf nowMs limit db) db 0 [])
    as [[db' n'] acc'] eqn:E.
  cbn [fst snd checked]. intros Hlt e He Hdue.
  destruct (settleDueLoop_spec _ _ _ _ _ _ _ _ _ E) as (_ & _ & Hall & _).
  apply Hall.
  - unfold dueRoundIdsOf in *. rewrite (slice0_short _ _ Hlt).
    apply Set_from_spec, in_map_iff. exists e. split; [reflexivity|].
    apply filter_In. split; [|apply Z.leb_le; exact Hdue].
    unfold readSimLedger.
    apply (Permutation_in _ (Permutation_sym (Ordering.orderByDesc_perm joinedAtMs _))).
    exact He.
  - exists e. split; [exact He|reflexivity].
Qed.

Lemma sim_batch_below_limit_settles_all_due_rounds_witness :
  let mk i r e d b :=
    {| id := i; roundId := r; market := "SOL"; feedId := "feed";
       roundStartMs := e - 360000; roundEndMs := e; wallet := i;
       direction := d; stakeBucks := b; joinedAtMs := e - 350000 |} in
  let db := {| sim_entries := [mk "a" "SOL-1200-5m" 1560000 UP 25%Q;
                               mk "b" "SOL-1320-5m" 1680000 DOWN 10%Q];
               sim_round_settlements := [] |} in
  let w := {| historical := fun _ _ => None; latest := fun _ => None |} in
  readSimRoundSettlement "SOL-1200-5m" (snd (settleDueSimRounds w 1600000 250 db))
  <> None.
Proof.
  intros mk db w.
  apply (sim_batch_below_limit_settles_all_due_rounds w 1600000 250 db
           ltac:(vm_compute; reflexivity)
           (mk "a" "SOL-1200-5m" 1560000 UP 25%Q)).
  - left. reflexivity.
  - vm_compute. discriminate.
Defined.


Lemma sim_batch_settles_only_due_open_rounds_witness :
  let mk i r e d b :=
    {| id := i; roundId := r; market := "SOL"; feedId := "feed";
       roundStartMs := e - 360000; roundEndMs := e; wallet := i;
       direction := d; stakeBucks := b; joinedAtMs := e - 350000 |} in
  let db := {| sim_entries := [mk "a" "SOL-1200-5m" 1560000 UP 25%Q;
                               mk "b" "SOL-1320-5m" 1680000 DOWN 10%Q];
               sim_round_settlements := [] |} in
  let w := {| historical := fun _ _ => None; latest := fun _ => None |} in
  readSimRoundSettlement "SOL-1200-5m" db = None
  /\ readSimRoundSettlement "SOL-1200-5m" (snd (settleDueSimRounds w 1600000 250 db))
     <> None
  /\ exists e, In e (sim_entries db) /\ roundId e = "SOL-1200-5m"
               /\ roundEndMs e <= 1600000.
Proof.
  intros mk db w.
  apply (proj1 (proj2 (proj2 (sim_batch_settles_only_due_open_rounds w 1600000 250 db)))
           "SOL-1200-5m").
  vm_compute. left. reflexivity.
Defined.

End SimBatchFacts.

(** ** The rate limiter of lib/api-guards.ts *)

Module RateLimitFacts.
Import ApiGuards GuardsReach.

Lemma Map_set_keys {V : Type} (k : string) (v : V) (m : JsMap V) :
  NoDup (map fst m) -> NoDup (map fst (Map_set k v m)).
Proof.
  intro Hnd. destruct (in_dec string_dec k (map fst m)) as [Hin|Hout].
  - assert (Hsame : map fst (Map_set k v m) = map fst m).
    { clear Hnd. induction m as [|[k' v'] tl IH]; [destruct Hin|].
      cbn [Map_set map fst] in *.
      destruct (String.eqb_spec k' k) as [->|Hne]; [reflexivity|].
      cbn [map fst]. f_equal. apply IH. destruct Hin as [H|H]; [congruence|exact H]. }
    rewrite Hsame. exact Hnd.
  - rewrite (JsFacts.Map_set_fresh k v m Hout), map_app. cbn [map fst].
    apply NoDup_app; [exact Hnd| |].
    + constructor; [intros []|constructor].
    + intros x Hx [<-|[]]. exact (Hout Hx).
Qed.

Lemma Map_get_filter {V : Type} (keep : string * V -> bool) (k : string) (m : JsMap V) :
  NoDup (map fst m) ->
  Map_get k (filter keep m)
  = match Map_get k m with
    | Some v => if keep (k, v) then Some v else None
    | None => None
    end.
Proof.
  induction m as [|[k' v'] tl IH]; cbn [map fst filter Map_get]; intro Hnd;
    [reflexivity|].
  inversion Hnd as [|? ? Hk Htl]; subst.
  destruct (String.eqb_spec k' k) as [->|Hne].
  - destruct (keep (k, v')) eqn:Ek.
    + cbn [Map_get]. rewrite String.eqb_refl. reflexivity.
    + apply SimPayouts.Map_get_absent. intro Hin. apply Hk.
      apply in_map_iff in Hin. destruct Hin as [kv [Hkv Hin]].
      apply filter_In in Hin. apply in_map_iff. exists kv. tauto.
  - destruct (keep (k', v')).
    + cbn [Map_get]. destruct (String.eqb_spec k' k); [congruence|]. apply IH, Htl.
    + apply IH, Htl.
Qed.

Lemma sweepExpired_keys nowMs g :
  NoDup (map fst (buckets g)) -> NoDup (map fst (buckets (sweepExpired nowMs g))).
Proof.
  intro H. unfold sweepExpired. destruct (nowMs - lastSweepMs g <? SWEEP_INTERVAL_MS);
    [exact H|]. cbn [buckets].
  apply Conservation.distinct_keys_after_filter. exact H.
Qed.

Lemma reachable_keys g : reachable g -> NoDup (map fst (buckets g)).
Proof.
  induction 1 as [|g key limit windowMs nowMs _ IH]; [constructor|].
  pose proof (sweepExpired_keys nowMs g IH) as Hs.
  unfold checkRateLimit.
  destruct (Map_get key (buckets (sweepExpired nowMs g))) as [current|];
    [|cbn [snd buckets]; apply Map_set_keys, Hs].
  destruct (resetAtMs current <=? nowMs); [cbn [snd buckets]; apply Map_set_keys, Hs|].
  destruct (limit <=? count current); cbn [snd buckets]; [exact Hs|].
  apply Map_set_keys, Hs.
Qed.

(** What the sweep leaves of one key: its window when that is still open. *)
Lemma sweepExpired_get nowMs key g :
  NoDup (map fst (buckets g)) ->
  match Map_get key (buckets (sweepExpired nowMs g)) with
  | Some c => Map_get key (buckets g) = Some c
  | None =>
      match Map_get key (buckets g) with
      | Some c => resetAtMs c <= nowMs
      | None => True
      end
  end.
Proof.
  intro Hnd. unfold sweepExpired.
  destruct (nowMs - lastSweepMs g <? SWEEP_INTERVAL_MS).
  - destruct (Map_get key (buckets g)); [reflexivity|exact I].
  - cbn [buckets]. rewrite Map_get_filter by exact Hnd. cbn [snd].
    destruct (Map_get key (buckets g)) as [c|]; [|exact I].
    destruct (resetAtMs c <=? nowMs) eqn:E; cbn [negb]; [|reflexivity].
    apply Z.leb_le. exact E.
Qed.

Lemma sweepExpired_open nowMs key g c :
  NoDup (map fst (buckets g)) ->
  Map_get key (buckets g) = Some c -> nowMs < resetAtMs c ->
  Map_get key (buckets (sweepExpired nowMs g)) = Some c.
Proof.
  intros Hnd Hc Hopen. pose proof (sweepExpired_get nowMs key g Hnd) as H.
  rewrite Hc in H.
  destruct (Map_get key (buckets (sweepExpired nowMs g))) as [c'|]; [congruence|lia].
Qed.

(** One call when the key has no open window: it is let through and opens
    a window with count 1. *)
Lemma checkRateLimit_opens key limit windowMs nowMs g :
  NoDup (map fst (buckets g)) ->
  match Map_get key (buckets g) with
  | Some c => resetAtMs c <= nowMs
  | None => True
  end ->
  fst (checkRateLimit key limit windowMs nowMs g) = RateOk
  /\ Map_get key (buckets (snd (checkRateLimit key limit windowMs nowMs g)))
     = Some {| count := 1; resetAtMs := nowMs + windowMs |}.
Proof.
  intros Hnd Hclosed. pose proof (sweepExpired_get nowMs key g Hnd) as H.
  unfold checkRateLimit.
  destruct (Map_get key (buckets (sweepExpired nowMs g))) as [c|].
  - rewrite H in Hclosed.
    replace (resetAtMs c <=? nowMs) with true by (symmetry; apply Z.leb_le; exact Hclosed).
    cbn [fst snd buckets]. split; [reflexivity|apply Locks.Map_get_set_same].
  - cbn [fst snd buckets]. split; [reflexivity|apply Locks.Map_get_set_same].
Qed.

(** One call inside an open window. *)
Lemma checkRateLimit_inside key limit windowMs nowMs g c :
  NoDup (map fst (buckets g)) ->
  Map_get key (buckets g) = Some c -> nowMs < resetAtMs c ->
  (limit <= count c ->
     checkRateLimit key limit windowMs nowMs g
     = (RateDenied (Z.max 1 (ceilDiv1000 (resetAtMs c - nowMs))), sweepExpired nowMs g))
  /\ (count c < limit ->
        fst (checkRateLimit key limit windowMs nowMs g) = RateOk
        /\ Map_get key (buckets (snd (checkRateLimit key limit windowMs nowMs g)))
           = Some {| count := count c + 1; resetAtMs := resetAtMs c |}).
Proof.
  intros Hnd Hc Hopen. unfold checkRateLimit.
  rewrite (sweepExpired_open nowMs key g c Hnd Hc Hopen).
  replace (resetAtMs c <=? nowMs) with false by (symmetry; apply Z.leb_gt; exact Hopen).
  split; intro Hl.
  - replace (limit <=? count c) with true by (symmetry; apply Z.leb_le; exact Hl).
    reflexivity.
  - replace (limit <=? count c) with false by (symmetry; apply Z.leb_gt; exact Hl).
    cbn [fst snd buckets]. split; [reflexivity|apply Locks.Map_get_set_same].
Qed.

Lemma checkRateLimit_keys key limit windowMs nowMs g :
  NoDup (map fst (buckets g)) ->
  NoDup (map fst (buckets (snd (checkRateLimit key limit windowMs nowMs g)))).
Proof.
  intro Hnd. pose proof (sweepExpired_keys nowMs g Hnd) as Hs.
  unfold checkRateLimit.
  destruct (Map_get key (buckets (sweepExpired nowMs g))) as [current|];
    [|cbn [snd buckets]; apply Map_set_keys, Hs].
  destruct (resetAtMs current <=? nowMs); [cbn [snd buckets]; apply Map_set_keys, Hs|].
  destruct (limit <=? count current); cbn [snd buckets]; [exact Hs|].
  apply Map_set_keys, Hs.
Qed.

(** Calls that all fall inside the open window of the key: those that
    still fit under the limit are let through. *)
Lemma checkMany_inside key limit windowMs times :
  forall g c,
    NoDup (map fst (buckets g)) ->
    Map_get key (buckets g) = Some c ->
    Forall (fun t => t < resetAtMs c) times ->
    Z.of_nat (List.length (filter isOk (fst (checkMany key limit windowMs times g))))
    = Z.min (Z.of_nat (List.length times)) (Z.max 0 (limit - count c)).
Proof.
  induction times as [|t rest IH]; intros g c Hnd Hc Hin; cbn [checkMany].
  - cbn [fst filter List.length]. lia.
  - inversion Hin as [|? ? Ht Hrest]; subst.
    destruct (checkRateLimit_inside key limit windowMs t g c Hnd Hc Ht) as [Hfull Hroom].
    pose proof (checkRateLimit_keys key limit windowMs t g Hnd) as Hnd1.
    destruct (checkRateLimit key limit windowMs t g) as [r g1] eqn:E1.
    cbn [fst snd] in *.
    destruct (checkMany key limit windowMs rest g1) as [rs g2] eqn:E2.
    cbn [fst filter].
    destruct (Z_le_gt_dec limit (count c)) as [Hl|Hl].
    + specialize (Hfull Hl). injection Hfull as -> ->. cbn [isOk].
      pose proof (IH (sweepExpired t g) c (sweepExpired_keys t g Hnd)
                    (sweepExpired_open t key g c Hnd Hc Ht) Hrest) as K.
      rewrite E2 in K. cbn [fst] in K. rewrite K. cbn [List.length]. lia.
    + destruct (Hroom ltac:(lia)) as [-> Hc1]. cbn [isOk List.length].
      pose proof (IH g1 _ Hnd1 Hc1 Hrest) as K.
      rewrite E2 in K. cbn [fst count] in K. lia.
Qed.

(** The limit holds per window.  When a key has no open window at [t0],
    the call at [t0] opens one, and of the calls made before that window
    ends exactly [max 1 limit] are let through (all of them when there are
    fewer): the first call always passes, the others pass while the count
    is below the limit. *)
Theorem rate_limit_lets_through_limit_calls_per_window :
  forall key limit windowMs t0 times g,
    reachable g ->
    match Map_get key (buckets g) with
    | Some c => resetAtMs c <= t0
    | None => True
    end ->
    Forall (fun t => t < t0 + windowMs) times ->
    Z.of_nat (List.length
                (filter isOk (fst (checkMany key limit windowMs (t0 :: times) g))))
    = Z.min (1 + Z.of_nat (List.length times)) (Z.max 1 limit).
Proof.
  intros key limit windowMs t0 times g Hreach Hclosed Hin.
  pose proof (reachable_keys g Hreach) as Hnd.
  destruct (checkRateLimit_opens key limit windowMs t0 g Hnd Hclosed) as [Hok Hc].
  pose proof (checkRateLimit_keys key limit windowMs t0 g Hnd) as Hnd1.
  cbn [checkMany].
  destruct (checkRateLimit key limit windowMs t0 g) as [r g1] eqn:E1.
  cbn [fst snd] in *. subst r.
  pose proof (checkMany_inside key limit windowMs times g1 _ Hnd1 Hc Hin) as K.
  destruct (checkMany key limit windowMs times g1) as [rs g2].
  cbn [fst filter isOk List.length count] in *. lia.
Qed.

Lemma rate_limit_lets_through_limit_calls_per_window_witness :
  Z.of_nat (List.length
              (filter isOk
                 (fst (checkMany "sim-entries:ip:1.2.3.4" 2 10000
                                 [5000; 6000; 7000; 14999] noGuards))))
  = Z.min (1 + Z.of_nat (List.length [6000; 7000; 14999])) (Z.max 1 2).
Proof.
  apply (rate_limit_lets_through_limit_calls_per_window
           "sim-entries:ip:1.2.3.4" 2 10000 5000 [6000; 7000; 14999] noGuards).
  - apply reach_none.
  - exact I.
  - repeat constructor.
Defined.

Lemma ceilDiv1000_covers x : x <= ceilDiv1000 x * 1000.
Proof.
  unfold ceilDiv1000.
  pose proof (Z.mul_div_le (- x) 1000 ltac:(lia)). lia.
Qed.

(** A refused caller is told to wait at least one second, and waiting the
    announced number of seconds is enough: the next call of that key is
    let through, whatever limit it is checked against. *)
Theorem rate_limit_retry_after_is_enough :
  forall key limit windowMs nowMs g retryAfterSec g',
    reachable g ->
    checkRateLimit key limit windowMs nowMs g = (RateDenied retryAfterSec, g') ->
    1 <= retryAfterSec
    /\ forall limit' windowMs' later,
         nowMs + retryAfterSec * 1000 <= later ->
         fst (checkRateLimit key limit' windowMs' later g') = RateOk.
Proof.
  intros key limit windowMs nowMs g n g' Hreach H.
  pose proof (reachable_keys g Hreach) as Hnd.
  pose proof (sweepExpired_keys nowMs g Hnd) as Hs.
  unfold checkRateLimit in H.
  destruct (Map_get key (buckets (sweepExpired nowMs g))) as [c|] eqn:Ec; [|discriminate].
  destruct (resetAtMs c <=? nowMs); [discriminate|].
  destruct (limit <=? count c); [|discriminate].
  injection H as <- <-. split; [lia|].
  intros limit' windowMs' later Hlater.
  apply (checkRateLimit_opens key limit' windowMs' later (sweepExpired nowMs g) Hs).
  rewrite Ec. pose proof (ceilDiv1000_covers (resetAtMs c - nowMs)). nia.
Qed.

Lemma rate_limit_retry_after_is_enough_witness :
  let g := snd (checkRateLimit "k" 1 10000 5000 noGuards) in
  1 <= 9
  /\ forall limit' windowMs' later,
       6500 + 9 * 1000 <= later ->
       fst (checkRateLimit "k" limit' windowMs' later
              (snd (checkRateLimit "k" 1 10000 6500 g))) = RateOk.
Proof.
  intro g.
  apply (rate_limit_retry_after_is_enough "k" 1 10000 6500 g 9
           (snd (checkRateLimit "k" 1 10000 6500 g))).
  - apply reach_check, reach_none.
  - vm_compute. reflexivity.
Defined.

End RateLimitFacts.

(** ** The sim routes *)

Module SimRouteFacts.
Import SetFacts.

Ltac sim_reject :=
  cbn [fst snd SimEntriesRoute.status SimEntriesRoute.body
       SimEntriesRoute.db SimEntriesRoute.guards];
  repeat split; intros;
  try reflexivity; try discriminate; try congruence.

(** A sim entry is stored only by a request that arrives while the round
    is open, and it is stamped with the time the server received it, not
    with the [joinedAtMs] of the payload.  Every other answer leaves the
    sim ledger as it was, the 503 of a paused arena even leaves the rate
    limiter alone, and no request touches a settlement. *)
Theorem sim_join_is_stamped_with_server_time :
  forall env nowMs ip b st,
    let resp := fst (SimEntriesRoute.POST env nowMs ip b st) in
    let st' := snd (SimEntriesRoute.POST env nowMs ip b st) in
    SimLedger.sim_round_settlements (SimEntriesRoute.db st')
    = SimLedger.sim_round_settlements (SimEntriesRoute.db st)
    /\ (SimEntriesRoute.body resp = SimEntriesRoute.OkBody true ->
          SimEntriesRoute.status resp = 200
          /\ SimEntriesRoute.roundStartMs b <= nowMs
             < SimEntriesRoute.roundStartMs b + 60000
          /\ SimEntriesRoute.roundEndMs b = SimEntriesRoute.roundStartMs b + 360000
          /\ In (SimEntriesRoute.stakeBucks b) [5; 10; 25; 50; 100; 250]
          /\ exists e,
               SimLedger.sim_entries (SimEntriesRoute.db st')
               = SimLedger.sim_entries (SimEntriesRoute.db st) ++ [e]
               /\ SimLedger.id e = SimEntriesRoute.id b
               /\ SimLedger.roundId e = SimEntriesRoute.roundId b
               /\ SimLedger.wallet e = SimEntriesRoute.wallet b
               /\ SimLedger.stakeBucks e = inject_Z (SimEntriesRoute.stakeBucks b)
               /\ SimLedger.roundStartMs e = SimEntriesRoute.roundStartMs b
               /\ SimLedger.roundEndMs e = SimEntriesRoute.roundEndMs b
               /\ SimLedger.joinedAtMs e = nowMs)
    /\ (SimEntriesRoute.body resp <> SimEntriesRoute.OkBody true ->
          SimEntriesRoute.db st' = SimEntriesRoute.db st)
    /\ (SimEntriesRoute.PANCHO_PAUSE_JOINS env = true ->
          SimEntriesRoute.status resp = 503 /\ st' = st).
Proof.
  intros env nowMs ip b st resp st'. subst resp st'. unfold SimEntriesRoute.POST.
  destruct (SimEntriesRoute.PANCHO_PAUSE_JOINS env); [sim_reject|].
  destruct (ApiGuards.checkRateLimit _ (SimEntriesRoute.ipLimit env) _ nowMs
              (SimEntriesRoute.guards st)) as [ipRate g1].
  destruct ipRate; [|sim_reject].
  destruct (negb (truthy (SimEntriesRoute.id b)) || _ || _ || _ || _ || _ || _);
    [sim_reject|].
  destruct (SimEntriesRoute.MAX_ENTRY_ID_LEN <? _)%nat; [sim_reject|].
  destruct (negb (SimEntriesRoute.has SimEntriesRoute.ALLOWED_DIRECTIONS _));
    [sim_reject|].
  destruct (negb (SimEntriesRoute.has SimEntriesRoute.ALLOWED_MARKETS _));
    [sim_reject|].
  destruct (match SimEntriesRoute.FEED_BY_MARKET _ with Some _ => _ | None => true end);
    [sim_reject|].
  destruct (negb (existsb (fun x => x =? SimEntriesRoute.stakeBucks b)
                          SimEntriesRoute.ALLOWED_STAKES)) eqn:Etier; [sim_reject|].
  destruct (negb (SimEntriesRoute.roundId b =s? _)); [sim_reject|].
  destruct (negb (Z.rem _ _ =? 0)); [sim_reject|].
  destruct (negb (SimEntriesRoute.roundEndMs b =? _)) eqn:Eend; [sim_reject|].
  destruct (negb ((SimEntriesRoute.roundStartMs b <=? nowMs) && (nowMs <? _))) eqn:Eopen;
    [sim_reject|].
  destruct (negb (SimEntriesRoute.isPublicKey env _)); [sim_reject|].
  destruct (ApiGuards.checkRateLimit _ (SimEntriesRoute.walletLimit env) _ nowMs g1)
    as [walletRate g2].
  destruct walletRate; [|sim_reject].
  unfold SimLedger.addSimEntry. cbn [SimLedger.id].
  destruct (existsb _ (SimLedger.sim_entries (SimEntriesRoute.db st))); [sim_reject|].
  cbn [fst snd SimEntriesRoute.status SimEntriesRoute.body SimEntriesRoute.db
       SimLedger.sim_round_settlements SimLedger.sim_entries].
  apply negb_false_iff in Etier, Eend, Eopen.
  apply andb_true_iff in Eopen. destruct Eopen as [Eo1 Eo2].
  apply Z.leb_le in Eo1. apply Z.ltb_lt in Eo2. apply Z.eqb_eq in Eend.
  unfold SimEntriesRoute.OPEN_ENTRY_SECONDS,
    SimEntriesRoute.SETTLEMENT_DURATION_SECONDS in *.
  split; [reflexivity|]. split; [|split; [congruence|discriminate]].
  intros _. split; [reflexivity|]. split; [lia|]. split; [lia|]. split.
  - apply existsb_exists in Etier. destruct Etier as [x [Hx Heq]].
    apply Z.eqb_eq in Heq. subst x. exact Hx.
  - eexists. split; [reflexivity|]. cbn. repeat split; reflexivity.
Qed.

Lemma safeHeaderSecretMatch_true expected provided :
  SimSettleRoute.safeHeaderSecretMatch expected provided = true
  <-> exists k, expected = Some k /\ provided = Some k /\ k <> "".
Proof.
  unfold SimSettleRoute.safeHeaderSecretMatch, truthy. split.
  - destruct expected as [e|]; [|discriminate].
    destruct provided as [p|]; [|discriminate].
    destruct (String.eqb_spec e ""); cbn [negb orb]; [discriminate|].
    destruct (String.eqb_spec p ""); cbn [negb orb]; [discriminate|].
    intro H. apply andb_true_iff in H. destruct H as [_ H].
    apply String.eqb_eq in H. subst p. exists e. auto.
  - intros [k [-> [-> Hk]]].
    destruct (String.eqb_spec k ""); [contradiction|]. cbn [negb orb].
    rewrite Nat.eqb_refl, String.eqb_refl. reflexivity.
Qed.

(** The settle route runs the batch only for a caller who presents the
    configured key, and never while settlements are paused or no key (or
    an empty one) is configured; every other request leaves the sim
    ledger as it was. *)
Theorem sim_settle_route_needs_the_key :
  forall env w nowMs header db,
    let resp := fst (SimSettleRoute.POST env w nowMs header db) in
    let db' := snd (SimSettleRoute.POST env w nowMs header db) in
    (SimSettleRoute.status resp = 200
     <-> SimSettleRoute.PANCHO_PAUSE_SIM_SETTLEMENTS env = false
         /\ exists k, SimSettleRoute.SIM_SETTLE_API_KEY env = Some k
                      /\ header = Some k /\ k <> "")
    /\ (SimSettleRoute.status resp <> 200 -> db' = db)
    /\ (SimSettleRoute.status resp = 200 ->
          SimSettleRoute.body resp
          = SimSettleRoute.Settled
              (fst (SimBatch.settleDueSimRounds w nowMs
                      (SimSettleRoute.PANCHO_SIM_SETTLE_LIMIT env) db))
          /\ db' = snd (SimBatch.settleDueSimRounds w nowMs
                          (SimSettleRoute.PANCHO_SIM_SETTLE_LIMIT env) db)).
Proof.
  intros env w nowMs header db resp db'. subst resp db'. unfold SimSettleRoute.POST.
  destruct (SimSettleRoute.PANCHO_PAUSE_SIM_SETTLEMENTS env).
  { cbn [fst snd SimSettleRoute.status]. split; [split|split].
    - discriminate.
    - intros [K _]. discriminate K.
    - reflexivity.
    - discriminate. }
  destruct (SimSettleRoute.safeHeaderSecretMatch
              (SimSettleRoute.SIM_SETTLE_API_KEY env) header) eqn:E; cbn [negb].
  - destruct (SimBatch.settleDueSimRounds w nowMs _ db) as [result db1].
    cbn [fst snd SimSettleRoute.status SimSettleRoute.body].
    split; [split|split].
    + intros _. split; [reflexivity|]. apply safeHeaderSecretMatch_true. exact E.
    + reflexivity.
    + congruence.
    + intros _. split; reflexivity.
  - cbn [fst snd SimSettleRoute.status]. split; [split|split].
    + discriminate.
    + intros [_ K]. apply safeHeaderSecretMatch_true in K. congruence.
    + reflexivity.
    + discriminate.
Qed.


Lemma sim_join_is_stamped_with_server_time_witness :
  let env :=
    {| SimEntriesRoute.PANCHO_PAUSE_JOINS := false;
       SimEntriesRoute.ipLimit := 150; SimEntriesRoute.ipWindowMs := 10000;
       SimEntriesRoute.walletLimit := 20; SimEntriesRoute.walletWindowMs := 10000;
       SimEntriesRoute.isPublicKey := fun _ => true |} in
  let b :=
    {| SimEntriesRoute.id := "entry-1"; SimEntriesRoute.roundId := "SOL-1200-5m";
       SimEntriesRoute.market := "SOL";
       SimEntriesRoute.feedId :=
         "ef0d8b6fda2ceba41da15d4095d1da392a0d2f8ed0c6c7bc0f4cfac8c280b56d";
       SimEntriesRoute.roundStartMs := 1200000; SimEntriesRoute.roundEndMs := 1560000;
       SimEntriesRoute.wallet := "alice"; SimEntriesRoute.direction := "UP";
       SimEntriesRoute.stakeBucks := 25; SimEntriesRoute.joinedAtMs := Some 1 |} in
  let st := {| SimEntriesRoute.guards := ApiGuards.noGuards;
               SimEntriesRoute.db := SimLedger.emptyDb |} in
  exists e,
    SimLedger.sim_entries
      (SimEntriesRoute.db (snd (SimEntriesRoute.POST env 1231000 "10.0.0.1" b st)))
    = [e]
    /\ SimLedger.joinedAtMs e = 1231000.
Proof.
  intros env b st.
  destruct (proj1 (proj2 (sim_join_is_stamped_with_server_time env 1231000 "10.0.0.1" b st))
              ltac:(vm_compute; reflexivity))
    as (_ & _ & _ & _ & e & He & _ & _ & _ & _ & _ & _ & Hj).
  exists e. split; [exact He|exact Hj].
Defined.

Lemma sim_settle_route_needs_the_key_witness :
  let env :=
    {| SimSettleRoute.PANCHO_PAUSE_SIM_SETTLEMENTS := false;
       SimSettleRoute.SIM_SETTLE_API_KEY := Some "secret";
       SimSettleRoute.PANCHO_SIM_SETTLE_LIMIT := 300 |} in
  let w := {| Oracle.historical := fun _ _ => None; Oracle.latest := fun _ => None |} in
  SimSettleRoute.status
    (fst (SimSettleRoute.POST env w 1600000 (Some "guess") SimLedger.emptyDb)) <> 200
  /\ snd (SimSettleRoute.POST env w 1600000 (Some "guess") SimLedger.emptyDb)
     = SimLedger.emptyDb.
Proof.
  intros env w.
  assert (Hno : SimSettleRoute.status
                  (fst (SimSettleRoute.POST env w 1600000 (Some "guess")
                          SimLedger.emptyDb)) <> 200)
    by (vm_compute; discriminate).
  split; [exact Hno|].
  exact (proj1 (proj2 (sim_settle_route_needs_the_key env w 1600000 (Some "guess")
                         SimLedger.emptyDb)) Hno).
Defined.

End SimRouteFacts.

(** ** The due rounds of the health route *)

Module OpsHealthFacts.
Import SetFacts SimLedger OpsHealth.

Lemma distinctLoop_spec nowMs limit entries :
  forall out seen,
    seen = map fst out -> NoDup seen ->
    Z.of_nat (List.length out) < limit \/ out = [] ->
    NoDup (map fst (distinctLoop entries nowMs limit out seen))
    /\ (exists extra,
          distinctLoop entries nowMs limit out seen = out ++ extra
          /\ forall p, In p extra ->
               exists entry, In entry entries /\ roundId entry = fst p
                             /\ roundEndMs entry = snd p /\ snd p <= nowMs)
    /\ Z.of_nat (List.length (distinctLoop entries nowMs limit out seen))
       <= Z.max 1 (Z.max limit (Z.of_nat (List.length out)))
    /\ (Z.of_nat (List.length (distinctLoop entries nowMs limit out seen)) < limit ->
        forall entry, In entry entries -> roundEndMs entry <= nowMs ->
          In (roundId entry) (map fst (distinctLoop entries nowMs limit out seen))).
Proof.
  induction entries as [|entry rest IH]; intros out seen Hseen Hnd Hroom;
    cbn [distinctLoop].
  - split; [rewrite <- Hseen; exact Hnd|]. split.
    + exists []. rewrite app_nil_r. split; [reflexivity|intros p []].
    + split; [lia|]. intros _ e [].
  - assert (Hlift : forall res,
              NoDup (map fst res)
              /\ (exists extra,
                    res = out ++ extra
                    /\ forall p, In p extra ->
                         exists e, In e rest /\ roundId e = fst p
                                   /\ roundEndMs e = snd p /\ snd p <= nowMs)
              /\ Z.of_nat (List.length res)
                 <= Z.max 1 (Z.max limit (Z.of_nat (List.length out)))
              /\ (Z.of_nat (List.length res) < limit ->
                  forall e, In e rest -> roundEndMs e <= nowMs ->
                    In (roundId e) (map fst res)) ->
              (nowMs < roundEndMs entry \/ In (roundId entry) (map fst out)) ->
              NoDup (map fst res)
              /\ (exists extra,
                    res = out ++ extra
                    /\ forall p, In p extra ->
                         exists e, In e (entry :: rest) /\ roundId e = fst p
                                   /\ roundEndMs e = snd p /\ snd p <= nowMs)
              /\ Z.of_nat (List.length res)
                 <= Z.max 1 (Z.max limit (Z.of_nat (List.length out)))
              /\ (Z.of_nat (List.length res) < limit ->
                  forall e, In e (entry :: rest) -> roundEndMs e <= nowMs ->
                    In (roundId e) (map fst res))).
    { intros res (H1 & (extra & Hres & Hextra) & H3 & H4) Hskip.
      split; [exact H1|]. split.
      - exists extra. split; [exact Hres|]. intros p Hp.
        destruct (Hextra p Hp) as [e [He K]]. exists e. split; [right; exact He|exact K].
      - split; [exact H3|]. intros Hlen e [<-|He] Hdue.
        + destruct Hskip as [Hnot|Hin]; [lia|].
          rewrite Hres, map_app. apply in_or_app. left. exact Hin.
        + apply H4; assumption. }
    destruct (nowMs <? roundEndMs entry) eqn:Edue.
    { apply Hlift; [apply IH; assumption|]. left. apply Z.ltb_lt. exact Edue. }
    apply Z.ltb_ge in Edue.
    destruct (Set_has (roundId entry) seen) eqn:Eseen.
    { apply Hlift; [apply IH; assumption|]. right.
      rewrite <- Hseen. apply Set_has_true. exact Eseen. }
    assert (Hfresh : ~ In (roundId entry) (map fst out)).
    { rewrite <- Hseen. intro K. apply Set_has_true in K. congruence. }
    assert (Hseen' : Set_add (roundId entry) seen
                     = map fst (out ++ [(roundId entry, roundEndMs entry)])).
    { unfold Set_add. rewrite Eseen, map_app, Hseen. reflexivity. }
    assert (Hnd' : NoDup (Set_add (roundId entry) seen))
      by (apply Set_add_distinct; exact Hnd).
    assert (Hlen' : Z.of_nat (List.length (out ++ [(roundId entry, roundEndMs entry)]))
                    = Z.of_nat (List.length out) + 1).
    { rewrite length_app. cbn [List.length]. lia. }
    assert (Hout : Z.of_nat (List.length out) < limit \/ List.length out = 0%nat).
    { destruct Hroom as [H | ->]; [left; exact H|right; reflexivity]. }
    destruct (limit <=? Z.of_nat (List.length (out ++ [(roundId entry, roundEndMs entry)])))
      eqn:Efull.
    + apply Z.leb_le in Efull. split; [rewrite <- Hseen'; exact Hnd'|]. split.
      * exists [(roundId entry, roundEndMs entry)]. split; [reflexivity|].
        intros p [<-|[]]. exists entry. cbn [fst snd].
        split; [left; reflexivity|]. repeat split; try reflexivity. exact Edue.
      * split; [lia|]. intro Hlt. lia.
    + apply Z.leb_gt in Efull.
      destruct (IH (out ++ [(roundId entry, roundEndMs entry)])
                   (Set_add (roundId entry) seen) Hseen' Hnd' (or_introl Efull))
        as (H1 & (extra & Hres & Hextra) & H3 & H4).
      split; [exact H1|]. split.
      * exists ((roundId entry, roundEndMs entry) :: extra).
        rewrite Hres, <- app_assoc. split; [reflexivity|].
        intros p [<-|Hp].
        -- exists entry. cbn [fst snd]. split; [left; reflexivity|].
           repeat split; try reflexivity. exact Edue.
        -- destruct (Hextra p Hp) as [e [He K]]. exists e.
           split; [right; exact He|exact K].
      * split; [lia|]. intros Hlt e [<-|He] Hdue.
        -- rewrite Hres, map_app, map_app. apply in_or_app. left.
           apply in_or_app. right. left. reflexivity.
        -- apply H4; assumption.
Qed.

(** The health route looks at each round that is over once: the list has
    no round twice, every round in it has an entry whose end has passed,
    it is never longer than the limit (one element when the limit is
    below one), and when it is shorter than the limit no round that is
    over is missing. *)
Theorem due_rounds_are_distinct_due_and_bounded :
  forall entries nowMs limit,
    let out := distinctDueRounds entries nowMs limit in
    NoDup (map fst out)
    /\ (forall r e, In (r, e) out ->
          e <= nowMs
          /\ exists entry, In entry entries /\ roundId entry = r /\ roundEndMs entry = e)
    /\ Z.of_nat (List.length out) <= Z.max 1 limit
    /\ (Z.of_nat (List.length out) < limit ->
        forall entry, In entry entries -> roundEndMs entry <= nowMs ->
          In (roundId entry) (map fst out)).
Proof.
  intros entries nowMs limit out. subst out. unfold distinctDueRounds.
  destruct (distinctLoop_spec nowMs limit entries [] [] eq_refl (NoDup_nil _)
              (or_intror eq_refl))
    as (H1 & (extra & Hres & Hextra) & H3 & H4).
  split; [exact H1|]. split.
  - intros r e Hin. rewrite Hres in Hin. cbn [app] in Hin.
    destruct (Hextra _ Hin) as [entry (He & Hr & Hend & Hdue)]. cbn [fst snd] in *.
    split; [exact Hdue|]. exists entry. auto.
  - split; [cbn [List.length] in H3; lia|exact H4].
Qed.


Lemma due_rounds_are_distinct_due_and_bounded_witness :
  let mk i r e :=
    {| id := i; roundId := r; market := "SOL"; feedId := "feed";
       roundStartMs := e - 360000; roundEndMs := e; wallet := i;
       direction := UP; stakeBucks := 5%Q; joinedAtMs := e - 350000 |} in
  let entries := [mk "a" "SOL-1200-5m" 1560000; mk "b" "SOL-1200-5m" 1560000;
                  mk "c" "SOL-1320-5m" 1680000] in
  In "SOL-1200-5m" (map fst (distinctDueRounds entries 1600000 500)).
Proof.
  intros mk entries.
  apply (proj2 (proj2 (proj2 (due_rounds_are_distinct_due_and_bounded entries 1600000 500)))
           ltac:(vm_compute; reflexivity) (mk "b" "SOL-1200-5m" 1560000)).
  - right. left. reflexivity.
  - vm_compute. discriminate.
Defined.

End OpsHealthFacts.

(** ** What the client shows for a position *)

Module OnchainFacts.
Import OnchainClient.

(** The estimate of a position is never negative, a position on the side
    that lost is worth nothing, and a position that is part of the totals
    of its round is never estimated above what the round distributes. *)
Theorem position_estimate_is_within_the_pool :
  forall round position,
    0 <= amountLamports position ->
    0 <= upTotal round -> 0 <= downTotal round ->
    0 <= estimatePositionPayoutLamports round position
    /\ (winnerSide round <> 255 -> side position <> winnerSide round ->
          estimatePositionPayoutLamports round position = 0)
    /\ (amountLamports position
        <= (if winnerSide round =? 255 then upTotal round + downTotal round
            else if winnerSide round =? 0 then upTotal round else downTotal round) ->
        estimatePositionPayoutLamports round position
        <= Z.max 0 (distributableLamports round)).
Proof.
  intros round position Ha Hu Hd. unfold estimatePositionPayoutLamports.
  destruct (amountLamports position =? 0); [repeat split; intros; lia|].
  destruct ((upTotal round + downTotal round <=? 0)
            || (distributableLamports round <=? 0)) eqn:E;
    [repeat split; intros; lia|].
  apply orb_false_iff in E. destruct E as [Et Edist].
  apply Z.leb_gt in Et, Edist.
  assert (Hq : forall total,
            0 < total ->
            0 <= Z.quot (amountLamports position * distributableLamports round) total
            /\ (amountLamports position <= total ->
                Z.quot (amountLamports position * distributableLamports round) total
                <= Z.max 0 (distributableLamports round))).
  { intros total Ht. rewrite Z.quot_div_nonneg by nia. split.
    - apply Z.div_pos; nia.
    - intro Hle. apply Z.div_le_upper_bound; [exact Ht|]. nia. }
  destruct (winnerSide round =? 255) eqn:Ew.
  - apply Z.eqb_eq in Ew. destruct (Hq _ Et) as [H0 Hle].
    split; [exact H0|]. split; [congruence|exact Hle].
  - destruct (side position =? winnerSide round) eqn:Es; cbn [negb].
    + apply Z.eqb_eq in Es.
      destruct ((if winnerSide round =? 0 then upTotal round else downTotal round) <=? 0)
        eqn:Ewt; [repeat split; intros; lia|].
      apply Z.leb_gt in Ewt. destruct (Hq _ Ewt) as [H0 Hle].
      split; [exact H0|]. split; [congruence|exact Hle].
    + repeat split; intros; lia.
Qed.

Lemma position_estimate_is_within_the_pool_witness :
  let round := {| status := 2; winnerSide := 0; lockTs := 1260; endTs := 1560;
                  distributableLamports := 940; upTotal := 600; downTotal := 400 |} in
  let position := {| side := 0; amountLamports := 300; claimed := false |} in
  0 <= estimatePositionPayoutLamports round position
  /\ (winnerSide round <> 255 -> side position <> winnerSide round ->
        estimatePositionPayoutLamports round position = 0)
  /\ (amountLamports position
      <= (if winnerSide round =? 255 then upTotal round + downTotal round
          else if winnerSide round =? 0 then upTotal round else downTotal round) ->
      estimatePositionPayoutLamports round position
      <= Z.max 0 (distributableLamports round)).
Proof.
  intros round position.
  apply (position_estimate_is_within_the_pool round position).
  - vm_compute. discriminate.
  - vm_compute. discriminate.
  - vm_compute. discriminate.
Defined.

End OnchainFacts.

(** ** The custody settlement run *)

Module CustodyFacts.
Import Shares Oracle RoundLedger Settlement SettlementRun.

(** *** The plan of a new settlement *)

Lemma to_int_not_nil z :
  Z.to_int z <> Decimal.Pos Decimal.Nil /\ Z.to_int z <> Decimal.Neg Decimal.Nil.
Proof.
  split; intro H; pose proof (DecimalZ.of_to z) as K; rewrite H in K;
    cbn in K; subst z; discriminate H.
Qed.

Lemma numToString_inj a b : numToString a = numToString b -> a = b.
Proof.
  unfold numToString. intro H.
  destruct (to_int_not_nil a) as [Ha1 Ha2]. destruct (to_int_not_nil b) as [Hb1 Hb2].
  pose proof (NilZero.isi (Z.to_int a) Ha1 Ha2) as Ka.
  pose proof (NilZero.isi (Z.to_int b) Hb1 Hb2) as Kb.
  rewrite H in Ka. rewrite Ka in Kb. injection Kb as Kb.
  apply DecimalZ.to_int_inj. exact Kb.
Qed.

Lemma payoutTransfers_shape index recipients t :
  In t (payoutTransfers index recipients) ->
  0 < p_lamports t /\ p_kind t = payout
  /\ exists k, index <= k /\ p_id t = ("payout-" ++ numToString k)%string.
Proof.
  revert index. induction recipients as [|x tl IH]; intros index Hin;
    cbn [payoutTransfers] in Hin; [destruct Hin|].
  assert (Hrest : In t (payoutTransfers (index + 1) tl) ->
                  0 < p_lamports t /\ p_kind t = payout
                  /\ exists k, index <= k /\ p_id t = ("payout-" ++ numToString k)%string).
  { intro K. destruct (IH _ K) as (H1 & H2 & k & Hk & Hid).
    split; [exact H1|]. split; [exact H2|]. exists k. split; [lia|exact Hid]. }
  destruct (lamports x <=? 0) eqn:E; [exact (Hrest Hin)|].
  apply Z.leb_gt in E. destruct Hin as [<-|Hin]; [|exact (Hrest Hin)].
  cbn [p_lamports p_kind p_id]. split; [exact E|]. split; [reflexivity|].
  exists index. split; [lia|reflexivity].
Qed.

Lemma payoutTransfers_sum index recipients :
  Forall (fun p => 0 <= lamports p) recipients ->
  sumOf p_lamports (payoutTransfers index recipients) = sumOf lamports recipients.
Proof.
  revert index. induction recipients as [|x tl IH]; intros index H;
    cbn [payoutTransfers]; [reflexivity|].
  inversion H as [|? ? Hx Htl]; subst.
  destruct (lamports x <=? 0) eqn:E.
  - apply Z.leb_le in E. rewrite JsFacts.sumOf_cons, IH by exact Htl. lia.
  - rewrite !JsFacts.sumOf_cons, IH by exact Htl. reflexivity.
Qed.

Lemma payoutTransfers_ids index recipients :
  NoDup (map p_id (payoutTransfers index recipients)).
Proof.
  revert index. induction recipients as [|x tl IH]; intro index;
    cbn [payoutTransfers]; [constructor|].
  destruct (lamports x <=? 0); [apply IH|].
  cbn [map p_id]. constructor; [|apply IH].
  intro Hin. apply in_map_iff in Hin. destruct Hin as [t [Hid Ht]].
  destruct (payoutTransfers_shape _ _ _ Ht) as (_ & _ & k & Hk & Hidk).
  rewrite Hidk in Hid. cbn [String.append] in Hid.
  injection Hid as Hid. apply numToString_inj in Hid. lia.
Qed.

Lemma settlePayouts_nonneg p0 p1 entries :
  (forall e, In e entries -> 0 < e_stakeLamports e) ->
  let '(_, _, _, _, payouts) := settlePayouts p0 p1 entries in
  Forall (fun p => 0 <= lamports p) payouts.
Proof.
  intro Hpos. unfold settlePayouts.
  destruct ((sumOf e_stakeLamports _ =? 0) || (sumOf e_stakeLamports _ =? 0)
            || Qeq_bool p1 p0).
  - apply PayoutArithmetic.addProRataPayouts_nonneg.
    intros winner Hin. apply in_map_iff in Hin. destruct Hin as [kv [<- Hkv]].
    cbn [lamports].
    destruct entries as [|e0 rest]; [destruct Hkv|].
    destruct (Conservation.mergeByWallet_pos (e0 :: rest) ltac:(discriminate) Hpos)
      as [Hm _].
    rewrite Forall_forall in Hm. apply Z.lt_le_incl, (Hm kv Hkv).
  - apply PayoutArithmetic.addProRataPayouts_nonneg.
    intros winner Hin. apply in_map_iff in Hin. destruct Hin as [e [<- He]].
    cbn [lamports]. apply Z.lt_le_incl, Hpos.
    destruct (Qlt_bool p0 p1); apply filter_In in He; tauto.
Qed.

(** A new settlement is a plan and nothing more: it is PROCESSING and has
    no receipt; every planned transfer moves a positive amount; no two
    planned transfers share an id.  For a pool whose product with the fee
    rate stays below 2^53 (pools up to about 15000 SOL), where the payout
    shares are the ones the code rounds to doubles twice: the planned
    payouts add up to the pool less the fee, the whole plan never moves more
    than the pool, and the fee of the record is the one the doubles
    compute. *)
Theorem new_settlement_plan_stays_within_the_pool :
  forall w nowMs r entries treasuryWallet signerWallet s,
    entries <> [] ->
    (forall e, In e entries -> 0 < e_stakeLamports e) ->
    (upLamportsOf entries + downLamportsOf entries) * FEE_BPS < 2 ^ 53 ->
    createProcessingSettlement w nowMs r entries treasuryWallet signerWallet = Some s ->
    exists planned,
      plannedTransfers s = Some planned
      /\ roundId s = r /\ state s = Some PROCESSING /\ transfers s = []
      /\ (forall t, In t planned -> 0 < p_lamports t)
      /\ NoDup (map p_id planned)
      /\ sumOf p_lamports
               (filter (fun t => match p_kind t with payout => true | fee => false end)
                       planned)
         = upLamportsOf entries + downLamportsOf entries - feeLamports s
      /\ sumOf p_lamports planned <= upLamportsOf entries + downLamportsOf entries
      /\ (forall t, In t planned -> p_kind t = fee ->
            p_wallet t = treasuryWallet /\ p_lamports t = feeLamports s)
      /\ feeLamports s
         = Math_floor (quotient (product (upLamportsOf entries + downLamportsOf entries)
                                         FEE_BPS)
                                10000).
Proof.
  intros w nowMs r entries treasuryWallet signerWallet s Hne Hpos Hbound H.
  assert (Hside : forall dir,
            0 <= sumOf e_stakeLamports
                       (filter (fun item => Direction_eqb (e_direction item) dir)
                               entries)).
  { intro dir. apply JsFacts.sumOf_nonneg. intros x Hx.
    apply Z.lt_le_incl, Hpos. apply filter_In in Hx. tauto. }
  pose proof (Hside UP) as Hup. pose proof (Hside DOWN) as Hdown.
  fold (upLamportsOf entries) in Hup. fold (downLamportsOf entries) in Hdown.
  assert (Hpool : upLamportsOf entries + downLamportsOf entries < 2 ^ 52)
    by (unfold FEE_BPS in Hbound; lia).
  assert (Hrounded :
            (upLamportsOf entries + downLamportsOf entries) * FEE_BPS / 10000
            = Math_floor (quotient (product (upLamportsOf entries + downLamportsOf entries)
                                            FEE_BPS)
                                   10000)).
  { symmetry. apply DoubleFacts.share_exact; [|lia].
    split; [unfold FEE_BPS; lia|exact Hbound]. }
  unfold createProcessingSettlement in H.
  destruct (fetchOracleSnapshotAtTimestamp w _ _) as [endSnapshot|]; [|discriminate].
  destruct (fetchOracleSnapshotAtTimestamp w _ _) as [startSnapshot|]; [|discriminate].
  pose proof (Conservation.settlePayouts_conserves_the_pool
                (price startSnapshot) (price endSnapshot) entries Hne Hpos Hpool) as Hsum.
  pose proof (settlePayouts_nonneg (price startSnapshot) (price endSnapshot) entries Hpos)
    as Hnn.
  pose proof (Decision.custody_fee_ignores_mode
                (price startSnapshot) (price endSnapshot) entries) as Hfee.
  destruct (settlePayouts (price startSnapshot) (price endSnapshot) entries)
    as [[[[m side] feeL] d] payouts].
  destruct Hsum as [Hd Htotal]. destruct Hfee as [HfeeL _].
  injection H as <-.
  cbn [plannedTransfers roundId state transfers feeLamports].
  eexists. split; [reflexivity|]. split; [reflexivity|]. split; [reflexivity|].
  split; [reflexivity|].
  assert (Hfilter : forall l,
            (forall t, In t l -> p_kind t = payout) ->
            filter (fun t => match p_kind t with payout => true | fee => false end) l = l).
  { induction l as [|t tl IH]; intro K; cbn [filter]; [reflexivity|].
    rewrite (K t (or_introl eq_refl)). f_equal. apply IH.
    intros t' Ht'. apply K. right. exact Ht'. }
  assert (Hpay : forall t, In t (payoutTransfers 0 payouts) -> p_kind t = payout)
    by (intros t Ht; apply (payoutTransfers_shape _ _ _ Ht)).
  assert (Hfee0 : 0 <= feeL).
  { rewrite HfeeL. apply Z.div_pos; [|lia]. unfold FEE_BPS. lia. }
  rewrite <- Hrounded, <- HfeeL.
  destruct ((0 <? feeL) && truthy treasuryWallet
            && negb (treasuryWallet =s? signerWallet)) eqn:Eplan.
  - apply andb_true_iff in Eplan. destruct Eplan as [Eplan _].
    apply andb_true_iff in Eplan. destruct Eplan as [Efee _]. apply Z.ltb_lt in Efee.
    cbn [app]. split; [|split; [|split; [|split; [|split; [|reflexivity]]]]].
    + intros t [<-|Ht]; [exact Efee|apply (payoutTransfers_shape _ _ _ Ht)].
    + cbn [map p_id]. constructor; [|apply payoutTransfers_ids].
      intro Hin. apply in_map_iff in Hin. destruct Hin as [t [Hid Ht]].
      destruct (payoutTransfers_shape _ _ _ Ht) as (_ & _ & k & _ & Hidk).
      rewrite Hidk in Hid. cbn [String.append] in Hid. discriminate Hid.
    + cbn [filter p_kind]. rewrite (Hfilter _ Hpay), payoutTransfers_sum by exact Hnn.
      lia.
    + rewrite JsFacts.sumOf_cons, payoutTransfers_sum by exact Hnn.
      cbn [p_lamports]. lia.
    + intros t [<-|Ht] Hk; [split; reflexivity|].
      rewrite (Hpay t Ht) in Hk. discriminate Hk.
  - cbn [app]. split; [|split; [|split; [|split; [|split; [|reflexivity]]]]].
    + intros t Ht. apply (payoutTransfers_shape _ _ _ Ht).
    + apply payoutTransfers_ids.
    + rewrite (Hfilter _ Hpay), payoutTransfers_sum by exact Hnn. lia.
    + rewrite payoutTransfers_sum by exact Hnn. lia.
    + intros t Ht Hk. rewrite (Hpay t Ht) in Hk. discriminate Hk.
Qed.

Lemma new_settlement_plan_stays_within_the_pool_witness :
  let mk i d l :=
    {| e_roundId := "SOL-1200-5m"; e_market := Some "SOL"; e_feedId := None;
       e_roundStartMs := 1200000; e_roundEndMs := 1560000; e_wallet := i;
       e_direction := d; e_stakeUsd := 5; e_stakeLamports := l; e_signature := i;
       e_joinedAtMs := 1200100; e_startPrice := 0; e_clientIp := None |} in
  let entries :=
    [mk "alice" UP 11021500001; mk "bob" UP 11021499999; mk "carol" DOWN 1407000000] in
  let w :=
    {| historical := fun _ ts =>
         Some {| price := if ts =? 1260 then 101 else 100; publishTime := ts |};
       latest := fun _ => None |} in
  exists s planned,
    createProcessingSettlement w 1600000 "SOL-1200-5m" entries "treasury" "signer"
    = Some s
    /\ plannedTransfers s = Some planned
    /\ NoDup (map p_id planned)
    /\ sumOf p_lamports
             (filter (fun t => match p_kind t with payout => true | fee => false end)
                     planned)
       = upLamportsOf entries + downLamportsOf entries - feeLamports s
    /\ sumOf p_lamports planned <= upLamportsOf entries + downLamportsOf entries.
Proof.
  intros mk entries w.
  assert (Hs : exists s,
             createProcessingSettlement w 1600000 "SOL-1200-5m" entries
               "treasury" "signer" = Some s)
    by (eexists; vm_compute; reflexivity).
  destruct Hs as [s Hs].
  assert (Hpos : forall e, In e entries -> 0 < e_stakeLamports e)
    by (intros e [<-|[<-|[<-|[]]]]; vm_compute; reflexivity).
  assert (Hbound : (upLamportsOf entries + downLamportsOf entries) * FEE_BPS < 2 ^ 53)
    by (vm_compute; reflexivity).
  destruct (new_settlement_plan_stays_within_the_pool w 1600000 "SOL-1200-5m" entries
              "treasury" "signer" s ltac:(discriminate) Hpos Hbound Hs)
    as (planned & Hp & _ & _ & _ & _ & Hnd & Hsum & Hle & _).
  exists s, planned. auto.
Defined.

End CustodyFacts.


(** ** The custody run over all due rounds *)

Module CustodyRunFacts.
Import JsFacts Oracle RoundLedger Settlement SettlementRun.

Lemma Map_set_In {V : Type} (k k' : string) (v v' : V) (m : JsMap V) :
  In (k', v') (Map_set k v m) -> k' = k \/ In (k', v') m.
Proof.
  induction m as [|[k0 v0] tl IH]; cbn [Map_set In].
  - intros [H|[]]. left. congruence.
  - destruct (k0 =s? k); cbn [In].
    + intros [H|H]; [left; congruence|right; right; exact H].
    + intros [H|H]; [right; left; exact H|].
      destruct (IH H) as [K|K]; [left; exact K|right; right; exact K].
Qed.

(** Receipts leave the backend, the entries and the lock table alone. *)
Lemma append_frame r transfer st st' :
  appendSettlementTransfer r transfer st = Some st' ->
  pool st' = pool st
  /\ entries (data st') = entries (data st)
  /\ round_processing_locks st' = round_processing_locks st.
Proof.
  unfold appendSettlementTransfer. intro H.
  assert (Hsame : forall x, Some st = Some x ->
            pool x = pool st /\ entries (data x) = entries (data st)
            /\ round_processing_locks x = round_processing_locks st).
  { intros x K. injection K as <-. auto. }
  assert (Hpush : forall l x,
            Some (withData st (withSettlements (data st) l)) = Some x ->
            pool x = pool st /\ entries (data x) = entries (data st)
            /\ round_processing_locks x = round_processing_locks st).
  { intros l x K. injection K as <-. cbn. auto. }
  destruct (pool st).
  - destruct (existsb _ (settlements (data st))); [exact (Hsame _ H)|].
    destruct (findSettlement r (data st)) as [settlement|]; [|discriminate].
    destruct (match t_id transfer with Some _ => _ | None => false end);
      [exact (Hsame _ H)|exact (Hpush _ _ H)].
  - destruct (findSettlement r (data st)) as [settlement|]; [|exact (Hsame _ H)].
    destruct (truthy_opt (t_id transfer) && _); [exact (Hsame _ H)|].
    destruct (existsb _ (transfers settlement)); [exact (Hsame _ H)|exact (Hpush _ _ H)].
Qed.

Lemma transferLoop_frame net r planned :
  forall ls,
    let out := match transferLoop net r planned ls with inl x => x | inr x => x end in
    pool (ls_store out) = pool (ls_store ls)
    /\ entries (data (ls_store out)) = entries (data (ls_store ls))
    /\ round_processing_locks (ls_store out) = round_processing_locks (ls_store ls).
Proof.
  induction planned as [|transfer rest IH]; intro ls; cbn [transferLoop].
  - auto.
  - destruct (existsb _ (transfers (ls_settlement ls))); [apply IH|].
    destruct (sendTransfer net (ls_chain ls) (p_id transfer) _) as [[signature chain']|];
      [|auto].
    destruct (signature =s? "skipped").
    + specialize (IH {| ls_settlement := ls_settlement ls; ls_store := ls_store ls;
                        ls_chain := chain' |}).
      exact IH.
    + destruct (appendSettlementTransfer r _ (ls_store ls)) as [store'|] eqn:Ea;
        [|cbn [ls_store]; auto].
      destruct (append_frame _ _ _ _ Ea) as (H1 & H2 & H3).
      specialize (IH {| ls_settlement :=
                          withTransfers (ls_settlement ls)
                            (transfers (ls_settlement ls)
                             ++ [{| t_id := Some (p_id transfer);
                                    t_wallet := p_wallet transfer;
                                    t_lamports := p_lamports transfer;
                                    t_signature := signature |}]);
                        ls_store := store'; ls_chain := chain' |}).
      cbn [ls_store] in IH. destruct IH as (K1 & K2 & K3).
      split; [congruence|]. split; congruence.
Qed.

Lemma acquire_frame nowMs r staleAfterMs st :
  pool (snd (tryAcquireRoundProcessingLock nowMs r staleAfterMs st)) = pool st
  /\ data (snd (tryAcquireRoundProcessingLock nowMs r staleAfterMs st)) = data st
  /\ (forall r', r' <> r ->
        Map_get r' (round_processing_locks
                      (snd (tryAcquireRoundProcessingLock nowMs r staleAfterMs st)))
        = Map_get r' (round_processing_locks st))
  /\ (fst (tryAcquireRoundProcessingLock nowMs r staleAfterMs st) = false ->
        snd (tryAcquireRoundProcessingLock nowMs r staleAfterMs st) = st).
Proof.
  unfold tryAcquireRoundProcessingLock.
  destruct (pool st) eqn:Ep; cbn [negb]; [|cbn [fst snd]; auto].
  destruct (Map_get r (round_processing_locks st)) as [a|].
  - destruct (a <? nowMs - Z.max 1 staleAfterMs); cbn [fst snd]; [|auto].
    cbn [withLocks pool data round_processing_locks].
    split; [exact Ep|]. split; [reflexivity|]. split; [|discriminate].
    intros r' Hne. apply Map_get_set_other. exact Hne.
  - cbn [fst snd withLocks pool data round_processing_locks].
    split; [exact Ep|]. split; [reflexivity|]. split; [|discriminate].
    intros r' Hne. apply Map_get_set_other. exact Hne.
Qed.

Lemma readLedger_same a b :
  pool b = pool a -> data b = data a -> readLedger b = readLedger a.
Proof. intros Hp Hd. unfold readLedger. rewrite Hp, Hd. reflexivity. Qed.

(** Where [settleOneRound] leaves the store: untouched when the lock is
    refused, and otherwise released from a store that differs from the
    locked one in its settlements only. *)
Lemma settleOneRound_store w net nowMs treasuryWallet signerWallet r entries0 st chain :
  let acq := tryAcquireRoundProcessingLock nowMs r DEFAULT_STALE_AFTER_MS st in
  let out := settleOneRound w net nowMs treasuryWallet signerWallet r entries0 st chain in
  (fst acq = false -> out = (None, snd acq, chain))
  /\ (fst acq = true ->
        exists X,
          snd (fst out) = releaseRoundProcessingLock r X
          /\ pool X = pool (snd acq)
          /\ entries (data X) = entries (data (snd acq))
          /\ round_processing_locks X = round_processing_locks (snd acq)).
Proof.
  unfold settleOneRound.
  destruct (tryAcquireRoundProcessingLock nowMs r DEFAULT_STALE_AFTER_MS st)
    as [hasLock st1].
  cbn [fst snd]. destruct hasLock; cbn [negb]; [|split; [reflexivity|discriminate]].
  split; [discriminate|]. intros _.
  destruct (match findSettlement r (readLedger st1) with
            | Some s => match state s with Some COMPLETED => true | _ => false end
            | None => false
            end).
  { exists st1. cbn [fst snd]. auto. }
  assert (Hadd : forall s,
            pool (addRoundSettlement s st1) = pool st1
            /\ entries (data (addRoundSettlement s st1)) = entries (data st1)
            /\ round_processing_locks (addRoundSettlement s st1)
               = round_processing_locks st1).
  { intro s. unfold addRoundSettlement.
    destruct (existsb _ (settlements (data st1))); cbn; auto. }
  destruct (findSettlement r (readLedger st1)) as [existing|];
    [|destruct (createProcessingSettlement w nowMs r entries0 treasuryWallet signerWallet)
        as [s|]; [destruct (Hadd s) as (A1 & A2 & A3)|exists st1; cbn [fst snd]; auto]].
  all: match goal with
       | |- context [transferLoop ?n ?k ?planned ?start] =>
           pose proof (transferLoop_frame n k planned start) as Hloop;
           cbn [ls_store] in Hloop;
           destruct (transferLoop n k planned start) as [ls|ls];
           destruct Hloop as (K1 & K2 & K3); cbn [fst snd]
       end.
  all: try (exists (ls_store ls); split; [reflexivity|];
            split; [congruence|]; split; congruence).
  all: destruct (forallb _ _);
    [exists (markSettlementCompleted nowMs r (ls_store ls))
    |exists (ls_store ls)];
    (split; [reflexivity|]); cbn; (split; [congruence|]); split; congruence.
Qed.

(** The lock of a round is released on every path of a settlement run.
    With the Postgres ledger: a run that is refused the lock changes
    nothing; a run that is granted the lock leaves the round unlocked,
    whether it completed, failed on the oracle, failed in a transfer, or
    found the round settled; and no run touches the lock of another
    round. *)
Theorem settlement_run_releases_the_lock :
  forall w net nowMs treasuryWallet signerWallet r entries0 st chain,
    pool st = true ->
    let granted := fst (tryAcquireRoundProcessingLock nowMs r DEFAULT_STALE_AFTER_MS st) in
    let out := settleOneRound w net nowMs treasuryWallet signerWallet r entries0 st chain in
    (granted = false -> out = (None, st, chain))
    /\ (granted = true -> Map_get r (round_processing_locks (snd (fst out))) = None)
    /\ (forall r', r' <> r ->
          Map_get r' (round_processing_locks (snd (fst out)))
          = Map_get r' (round_processing_locks st)).
Proof.
  intros w net nowMs treasuryWallet signerWallet r entries0 st chain Hp granted out.
  subst granted out.
  destruct (settleOneRound_store w net nowMs treasuryWallet signerWallet r entries0 st chain)
    as [Hrefused Hgranted].
  destruct (acquire_frame nowMs r DEFAULT_STALE_AFTER_MS st) as (Ap & Ad & Aother & Asame).
  destruct (fst (tryAcquireRoundProcessingLock nowMs r DEFAULT_STALE_AFTER_MS st)) eqn:Eg.
  - destruct (Hgranted eq_refl) as (X & HX & Xp & Xe & Xl).
    assert (Hrel : round_processing_locks (releaseRoundProcessingLock r X)
                   = Map_delete r (round_processing_locks
                                     (snd (tryAcquireRoundProcessingLock nowMs r
                                             DEFAULT_STALE_AFTER_MS st)))).
    { unfold releaseRoundProcessingLock. rewrite Xp, Ap, Hp. cbn [negb withLocks
        round_processing_locks]. rewrite Xl. reflexivity. }
    split; [discriminate|]. split.
    + intros _. rewrite HX, Hrel. apply Map_get_delete_same.
    + intros r' Hne. rewrite HX, Hrel, Map_get_delete_other by exact Hne.
      apply Aother. exact Hne.
  - rewrite (Hrefused eq_refl), (Asame eq_refl). cbn [fst snd].
    split; [reflexivity|]. split; [discriminate|]. reflexivity.
Qed.

Lemma settlement_run_releases_the_lock_witness :
  let entry :=
    {| e_roundId := "SOL-1200-5m"; e_market := Some "SOL"; e_feedId := None;
       e_roundStartMs := 1200000; e_roundEndMs := 1560000; e_wallet := "alice";
       e_direction := UP; e_stakeUsd := 5; e_stakeLamports := 50;
       e_signature := "sig1"; e_joinedAtMs := 1200100; e_startPrice := 0;
       e_clientIp := None |} in
  let st :=
    {| pool := true;
       data := {| entries := [entry]; settlements := [] |};
       join_attempts := []; inMemoryWalletJoinAttempts := [];
       inMemoryIpJoinAttempts := [];
       round_processing_locks := [("BTC-1200-5m", 1590000)] |} in
  let w := {| historical := fun _ _ => None; latest := fun _ => None |} in
  let out := settleOneRound w (fun _ _ => None) 1600000 "treasury" "signer"
               "SOL-1200-5m" [entry] st [] in
  Map_get "SOL-1200-5m" (round_processing_locks (snd (fst out))) = None
  /\ Map_get "BTC-1200-5m" (round_processing_locks (snd (fst out))) = Some 1590000.
Proof.
  intros entry st w out.
  destruct (settlement_run_releases_the_lock w (fun _ _ => None) 1600000
              "treasury" "signer" "SOL-1200-5m" [entry] st [] eq_refl)
    as (_ & Hreleased & Hother).
  split.
  - apply Hreleased. reflexivity.
  - apply (Hother "BTC-1200-5m"). discriminate.
Defined.

Lemma release_frame r st :
  pool (releaseRoundProcessingLock r st) = pool st
  /\ data (releaseRoundProcessingLock r st) = data st.
Proof. unfold releaseRoundProcessingLock. destruct (negb (pool st)); auto. Qed.

Lemma settleOneRound_completed w net nowMs treasuryWallet signerWallet r entries0 st chain s :
  findSettlement r (readLedger st) = Some s ->
  state s = Some COMPLETED ->
  exists st',
    settleOneRound w net nowMs treasuryWallet signerWallet r entries0 st chain
    = (None, st', chain)
    /\ data st' = data st /\ pool st' = pool st.
Proof.
  intros Hfind Hstate. unfold settleOneRound.
  destruct (acquire_frame nowMs r DEFAULT_STALE_AFTER_MS st) as (Ap & Ad & _ & _).
  destruct (tryAcquireRoundProcessingLock nowMs r DEFAULT_STALE_AFTER_MS st)
    as [hasLock st1].
  cbn [snd] in Ap, Ad. rewrite (readLedger_same st st1 Ap Ad), Hfind, Hstate.
  destruct (release_frame r st1) as [Rp Rd].
  destruct hasLock; cbn [negb]; eexists; (split; [reflexivity|]); split; congruence.
Qed.

Lemma groupDue_keys nowMs (P : string -> Prop) (l : list LedgerEntry) :
  (forall e, In e l -> e_roundEndMs e <= nowMs -> P (e_roundId e)) ->
  forall r es, In (r, es) (groupDue nowMs l) -> P r.
Proof.
  unfold groupDue. intro Hl.
  assert (Hgen : forall (acc : JsMap (list LedgerEntry)),
            (forall r es, In (r, es) acc -> P r) ->
            forall r es,
              In (r, es)
                 (fold_left
                    (fun byRound entry =>
                       if nowMs <? e_roundEndMs entry then byRound
                       else
                         Map_set (e_roundId entry)
                           (match Map_get (e_roundId entry) byRound with
                            | Some current => current
                            | None => []
                            end ++ [entry]) byRound) l acc) ->
              P r).
  { induction l as [|x tl IH]; intros acc Hacc r es; cbn [fold_left]; [apply Hacc|].
    apply IH.
    - intros e He. apply Hl. right. exact He.
    - intros r0 es0 Hin. destruct (nowMs <? e_roundEndMs x) eqn:E; [exact (Hacc _ _ Hin)|].
      apply Z.ltb_ge in E. destruct (Map_set_In _ _ _ _ _ Hin) as [->|K].
      + apply Hl; [left; reflexivity|exact E].
      + exact (Hacc _ _ K). }
  apply Hgen. intros r es [].
Qed.

Lemma settleRounds_completed w net nowMs treasuryWallet signerWallet byRound :
  forall st chain summaries,
    (forall r es, In (r, es) byRound ->
       exists s, findSettlement r (readLedger st) = Some s /\ state s = Some COMPLETED) ->
    exists st',
      settleRounds w net nowMs treasuryWallet signerWallet byRound st chain summaries
      = (summaries, st', chain)
      /\ data st' = data st /\ pool st' = pool st.
Proof.
  induction byRound as [|[r es] rest IH]; intros st chain summaries Hdone;
    cbn [settleRounds].
  - exists st. auto.
  - destruct (Hdone r es (or_introl eq_refl)) as [s [Hfind Hstate]].
    destruct (settleOneRound_completed w net nowMs treasuryWallet signerWallet r es st
                chain s Hfind Hstate) as (st1 & -> & Hd & Hp).
    destruct (IH st1 chain summaries) as (st' & Hrun & Hd' & Hp').
    { intros r0 es0 Hin. rewrite (readLedger_same st st1 Hp Hd).
      apply (Hdone r0 es0). right. exact Hin. }
    exists st'. rewrite Hrun. split; [reflexivity|]. split; congruence.
Qed.

Lemma readLedger_entries st e :
  In e (entries (readLedger st)) <-> In e (entries (data st)).
Proof.
  unfold readLedger. destruct (pool st); [|tauto]. cbn [entries].
  split; intro H.
  - exact (Permutation_in _ (Ordering.orderByDesc_perm e_joinedAtMs _) H).
  - exact (Permutation_in _ (Permutation_sym (Ordering.orderByDesc_perm e_joinedAtMs _)) H).
Qed.

(** A round whose settlement is COMPLETED is never paid again.  When every
    round that is over is completed, a run sends no transfer and changes
    nothing in the ledger, whatever the oracle and the network would
    answer. *)
Theorem completed_rounds_are_never_paid_again :
  forall env w net nowMs st chain,
    (forall e, In e (entries (data st)) -> e_roundEndMs e <= nowMs ->
       exists s, findSettlement (e_roundId e) (readLedger st) = Some s
                 /\ state s = Some COMPLETED) ->
    let out := settleDueRounds env w net nowMs st chain in
    snd out = chain
    /\ data (snd (fst out)) = data st
    /\ (fst (fst out) = Some [] \/ fst (fst out) = None).
Proof.
  intros env w net nowMs st chain Hdone out. subst out. unfold settleDueRounds.
  destruct (List.length (groupDue nowMs (entries (readLedger st))) =? 0)%nat;
    [cbn [fst snd]; auto|].
  destruct (payoutSigner env) as [signer|]; [|cbn [fst snd]; auto].
  destruct (resolveTreasuryWallet env signer) as [treasuryWallet|]; [|cbn [fst snd]; auto].
  destruct (settleRounds_completed w net nowMs treasuryWallet signer
              (groupDue nowMs (entries (readLedger st))) st chain [])
    as (st' & -> & Hd & _).
  - apply (groupDue_keys nowMs
             (fun r => exists s, findSettlement r (readLedger st) = Some s
                                 /\ state s = Some COMPLETED)).
    intros e He Hdue. apply Hdone; [apply readLedger_entries; exact He|exact Hdue].
  - cbn [fst snd]. auto.
Qed.

Lemma completed_rounds_are_never_paid_again_witness :
  let entry :=
    {| e_roundId := "SOL-1200-5m"; e_market := Some "SOL"; e_feedId := None;
       e_roundStartMs := 1200000; e_roundEndMs := 1560000; e_wallet := "alice";
       e_direction := UP; e_stakeUsd := 5; e_stakeLamports := 50;
       e_signature := "sig1"; e_joinedAtMs := 1200100; e_startPrice := 0;
       e_clientIp := None |} in
  let done :=
    {| roundId := "SOL-1200-5m"; state := Some COMPLETED; settledAtMs := 1570000;
       mode := REFUND; winnerSide := None; startPrice := 100; endPrice := 101;
       feeLamports := 3;
       plannedTransfers :=
         Some [{| p_id := "payout-0"; p_wallet := "alice"; p_lamports := 47;
                  p_kind := payout |}];
       transfers := [{| t_id := Some "payout-0"; t_wallet := "alice";
                        t_lamports := 47; t_signature := "tx1" |}] |} in
  let st :=
    {| pool := false;
       data := {| entries := [entry]; settlements := [done] |};
       join_attempts := []; inMemoryWalletJoinAttempts := [];
       inMemoryIpJoinAttempts := []; round_processing_locks := [] |} in
  let env :=
    {| TREASURY_WALLET := None; PANCHO_TREASURY_WALLET := None;
       PANCHO_EXPECTED_TREASURY_WALLET := None; payoutSigner := Some "signer";
       toBase58 := fun x => Some x |} in
  let w :=
    {| historical := fun _ ts => Some {| price := 100; publishTime := ts |};
       latest := fun _ => None |} in
  let out := settleDueRounds env w (fun _ _ => Some "tx2") 1600000 st [] in
  snd out = []
  /\ data (snd (fst out)) = data st
  /\ (fst (fst out) = Some [] \/ fst (fst out) = None).
Proof.
  intros entry done st env w out.
  apply (completed_rounds_are_never_paid_again env w (fun _ _ => Some "tx2") 1600000 st []).
  intros e [<-|[]] _. exists done. split; reflexivity.
Defined.

Lemma settleOneRound_summary w net nowMs treasuryWallet signerWallet r entries0 st chain s :
  fst (fst (settleOneRound w net nowMs treasuryWallet signerWallet r entries0 st chain))
  = Some s ->
  sum_roundId s = r.
Proof.
  unfold settleOneRound.
  destruct (tryAcquireRoundProcessingLock nowMs r DEFAULT_STALE_AFTER_MS st)
    as [hasLock st1].
  destruct (negb hasLock); [discriminate|].
  destruct (match findSettlement r (readLedger st1) with
            | Some s0 => match state s0 with Some COMPLETED => true | _ => false end
            | None => false
            end); [discriminate|].
  destruct (match findSettlement r (readLedger st1) with
            | Some s0 => Some (s0, st1)
            | None => _
            end) as [[settlement st2]|]; [|discriminate].
  destruct (transferLoop net r _ _) as [ls|ls]; cbn [fst]; [|discriminate].
  intro H. injection H as <-. reflexivity.
Qed.

Lemma settleOneRound_entries w net nowMs treasuryWallet signerWallet r entries0 st chain :
  entries (data (snd (fst (settleOneRound w net nowMs treasuryWallet signerWallet r
                             entries0 st chain))))
  = entries (data st).
Proof.
  destruct (settleOneRound_store w net nowMs treasuryWallet signerWallet r entries0 st chain)
    as [Hrefused Hgranted].
  destruct (acquire_frame nowMs r DEFAULT_STALE_AFTER_MS st) as (_ & Ad & _ & _).
  destruct (fst (tryAcquireRoundProcessingLock nowMs r DEFAULT_STALE_AFTER_MS st)).
  - destruct (Hgranted eq_refl) as (X & -> & _ & Xe & _).
    destruct (release_frame r X) as [_ ->]. congruence.
  - rewrite (Hrefused eq_refl). cbn [fst snd]. congruence.
Qed.

Lemma settleRounds_spec w net nowMs treasuryWallet signerWallet byRound :
  forall st chain summaries,
    let out := settleRounds w net nowMs treasuryWallet signerWallet byRound st chain
                 summaries in
    (exists newly, snd out = chain ++ newly)
    /\ entries (data (snd (fst out))) = entries (data st)
    /\ exists more,
         fst (fst out) = summaries ++ more
         /\ forall s, In s more -> In (sum_roundId s) (map fst byRound).
Proof.
  induction byRound as [|[r es] rest IH]; intros st chain summaries; cbn [settleRounds].
  - cbn [fst snd]. split; [exists []; rewrite app_nil_r; reflexivity|].
    split; [reflexivity|]. exists []. rewrite app_nil_r. split; [reflexivity|intros s []].
  - pose proof (settleOneRound_summary w net nowMs treasuryWallet signerWallet r es st chain)
      as Hsum.
    pose proof (settleOneRound_entries w net nowMs treasuryWallet signerWallet r es st chain)
      as Hent.
    destruct (Receipts.settleOneRound_skips_receipted w net nowMs treasuryWallet
                signerWallet r es st chain) as (sent & Hsent & _).
    destruct (settleOneRound w net nowMs treasuryWallet signerWallet r es st chain)
      as [[summary st1] chain1].
    cbn [fst snd] in Hsum, Hent, Hsent.
    destruct (IH st1 chain1
                (match summary with Some s => summaries ++ [s] | None => summaries end))
      as ((newly & Hchain) & Hentries & more & Hmore & Hrounds).
    split; [exists (sent ++ newly); rewrite Hchain, Hsent, app_assoc; reflexivity|].
    split; [congruence|].
    destruct summary as [s|].
    + exists (s :: more). rewrite Hmore, <- app_assoc. split; [reflexivity|].
      intros s0 [<-|Hin]; cbn [map fst].
      * left. symmetry. apply Hsum. reflexivity.
      * right. apply Hrounds. exact Hin.
    + exists more. split; [exact Hmore|]. intros s0 Hin. cbn [map fst].
      right. apply Hrounds. exact Hin.
Qed.

Lemma resolveTreasuryWallet_expected env signer pk expected :
  resolveTreasuryWallet env signer = Some pk ->
  PANCHO_EXPECTED_TREASURY_WALLET env = Some expected -> expected <> "" ->
  toBase58 env expected = Some pk.
Proof.
  unfold resolveTreasuryWallet. intros H Hexp Hne. rewrite Hexp in H.
  destruct (toBase58 env _) as [configuredPk|]; [|discriminate].
  unfold truthy in H. destruct (String.eqb_spec expected ""); [contradiction|].
  cbn [negb] in H.
  destruct (toBase58 env expected) as [expectedPk|]; [|discriminate].
  destruct (String.eqb_spec configuredPk expectedPk); [|discriminate].
  congruence.
Qed.

(** What a custody run can touch.  It only ever adds transfers to the
    chain and never changes an entry; every round it reports is a round
    with an entry whose end has passed; and it sends a transfer or writes
    to the ledger only when the payout signer is there and the treasury
    wallet resolves, which, when an expected treasury is configured,
    means that the two are the same key. *)
Theorem custody_run_needs_due_rounds_and_the_expected_treasury :
  forall env w net nowMs st chain,
    let out := settleDueRounds env w net nowMs st chain in
    (exists newly, snd out = chain ++ newly)
    /\ entries (data (snd (fst out))) = entries (data st)
    /\ (forall summaries s,
          fst (fst out) = Some summaries -> In s summaries ->
          exists e, In e (entries (data st))
                    /\ e_roundId e = sum_roundId s /\ e_roundEndMs e <= nowMs)
    /\ (snd out <> chain \/ snd (fst out) <> st ->
        exists signer pk,
          payoutSigner env = Some signer
          /\ resolveTreasuryWallet env signer = Some pk
          /\ forall expected,
               PANCHO_EXPECTED_TREASURY_WALLET env = Some expected -> expected <> "" ->
               toBase58 env expected = Some pk).
Proof.
  intros env w net nowMs st chain out. subst out. unfold settleDueRounds.
  assert (Hidle : forall summaries : option (list SettledRoundSummary),
            summaries = Some [] \/ summaries = None ->
            (exists newly, snd (summaries, st, chain) = chain ++ newly)
            /\ entries (data (snd (fst (summaries, st, chain)))) = entries (data st)
            /\ (forall l s, fst (fst (summaries, st, chain)) = Some l -> In s l ->
                  exists e, In e (entries (data st))
                            /\ e_roundId e = sum_roundId s /\ e_roundEndMs e <= nowMs)
            /\ (snd (summaries, st, chain) <> chain
                \/ snd (fst (summaries, st, chain)) <> st ->
                exists signer pk,
                  payoutSigner env = Some signer
                  /\ resolveTreasuryWallet env signer = Some pk
                  /\ forall expected,
                       PANCHO_EXPECTED_TREASURY_WALLET env = Some expected ->
                       expected <> "" -> toBase58 env expected = Some pk)).
  { intros summaries Hs. cbn [fst snd].
    split; [exists []; rewrite app_nil_r; reflexivity|]. split; [reflexivity|]. split.
    - intros l s Hl Hin. destruct Hs as [-> | ->]; [|discriminate].
      injection Hl as <-. destruct Hin.
    - intros [K|K]; congruence. }
  destruct (List.length (groupDue nowMs (entries (readLedger st))) =? 0)%nat;
    [apply Hidle; auto|].
  destruct (payoutSigner env) as [signer|] eqn:Esigner; [|apply Hidle; auto].
  destruct (resolveTreasuryWallet env signer) as [treasuryWallet|] eqn:Etreasury;
    [|apply Hidle; auto].
  destruct (settleRounds_spec w net nowMs treasuryWallet signer
              (groupDue nowMs (entries (readLedger st))) st chain [])
    as (Hchain & Hentries & more & Hmore & Hrounds).
  destruct (settleRounds w net nowMs treasuryWallet signer _ st chain [])
    as [[summaries st'] chain'].
  cbn [fst snd app] in *. split; [exact Hchain|]. split; [exact Hentries|]. split.
  - intros l s Hl Hin. injection Hl as <-. subst summaries.
    specialize (Hrounds s Hin). apply in_map_iff in Hrounds.
    destruct Hrounds as [[r es] [Hr Hkey]]. cbn [fst] in Hr.
    pose proof (groupDue_keys nowMs
                  (fun r => exists e, In e (entries (data st))
                                      /\ e_roundId e = r /\ e_roundEndMs e <= nowMs)
                  (entries (readLedger st))) as K.
    rewrite <- Hr. apply (K ltac:(intros e He Hdue; exists e;
                                    split; [apply readLedger_entries; exact He|auto])
                            r es Hkey).
  - intros _. exists signer, treasuryWallet. split; [reflexivity|].
    split; [exact Etreasury|].
    intros expected Hexp Hne.
    exact (resolveTreasuryWallet_expected env signer treasuryWallet expected
             Etreasury Hexp Hne).
Qed.


Lemma custody_run_needs_due_rounds_and_the_expected_treasury_witness :
  let entry :=
    {| e_roundId := "SOL-1200-5m"; e_market := Some "SOL"; e_feedId := None;
       e_roundStartMs := 1200000; e_roundEndMs := 1560000; e_wallet := "alice";
       e_direction := UP; e_stakeUsd := 5; e_stakeLamports := 50;
       e_signature := "sig1"; e_joinedAtMs := 1200100; e_startPrice := 0;
       e_clientIp := None |} in
  let st :=
    {| pool := false;
       data := {| entries := [entry]; settlements := [] |};
       join_attempts := []; inMemoryWalletJoinAttempts := [];
       inMemoryIpJoinAttempts := []; round_processing_locks := [] |} in
  let env :=
    {| TREASURY_WALLET := Some "treasury"; PANCHO_TREASURY_WALLET := None;
       PANCHO_EXPECTED_TREASURY_WALLET := Some "treasury";
       payoutSigner := Some "signer"; toBase58 := fun x => Some x |} in
  let w :=
    {| historical := fun _ ts => Some {| price := 100; publishTime := ts |};
       latest := fun _ => None |} in
  exists signer pk,
    payoutSigner env = Some signer
    /\ resolveTreasuryWallet env signer = Some pk
    /\ toBase58 env "treasury" = Some pk.
Proof.
  intros entry st env w.
  destruct (proj2 (proj2 (proj2
              (custody_run_needs_due_rounds_and_the_expected_treasury
                 env w (fun _ _ => Some "tx") 1600000 st [])))
              ltac:(left; vm_compute; discriminate))
    as (signer & pk & Hs & Hr & Hexp).
  exists signer, pk. split; [exact Hs|]. split; [exact Hr|].
  apply (Hexp "treasury"); [reflexivity|discriminate].
Defined.

End CustodyRunFacts.

(** ** The custody ledger: entries *)

Module LedgerFacts.
Import RoundLedger LedgerReach.

Lemma reachable_entries_by_signature st :
  reachable st -> NoDup (map e_signature (entries (data st))).
Proof.
  induction 1 as [p|st entry _ IH|st s _ IH _|st st' r transfer _ IH Happ
                  |st nowMs r _ IH|st nowMs wallet ip _ IH
                  |st nowMs wallet ip window _ IH|st nowMs r stale _ IH|st r _ IH].
  - constructor.
  - unfold addLedgerEntry.
    destruct (existsb (fun item => e_signature item =s? e_signature entry)
                      (entries (data st))) eqn:Ex; cbn [snd]; [exact IH|].
    cbn [withData data entries]. rewrite map_app. cbn [map].
    apply NoDup_app; [exact IH| |].
    + constructor; [intros []|constructor].
    + intros k Hk [<-|[]]. apply in_map_iff in Hk. destruct Hk as [row [Hsig Hrow]].
      assert (existsb (fun item => e_signature item =s? e_signature entry)
                      (entries (data st)) = true).
      { apply existsb_exists. exists row. split; [exact Hrow|].
        apply String.eqb_eq. exact Hsig. }
      congruence.
  - unfold addRoundSettlement.
    destruct (existsb _ (settlements (data st))); [exact IH|]. exact IH.
  - destruct (CustodyRunFacts.append_frame _ _ _ _ Happ) as (_ & -> & _). exact IH.
  - exact IH.
  - rewrite Join.recordJoinAttempt_data. exact IH.
  - rewrite Join.countRecentJoinAttempts_data. exact IH.
  - destruct (CustodyRunFacts.acquire_frame nowMs r stale st) as (_ & -> & _). exact IH.
  - destruct (CustodyRunFacts.release_frame r st) as (_ & ->). exact IH.
Qed.

(** A deposit is counted once.  In every state the custody ledger can
    reach no two entries share a transaction signature; once an entry is
    added its signature is known to the ledger; and adding an entry whose
    signature is known changes nothing and answers [created: false]. *)
Theorem entry_signatures_are_unique :
  forall st,
    reachable st ->
    NoDup (map e_signature (entries (data st)))
    /\ (forall entry,
          hasLedgerEntrySignature (e_signature entry) (snd (addLedgerEntry entry st))
          = true)
    /\ (forall entry,
          hasLedgerEntrySignature (e_signature entry) st = true ->
          addLedgerEntry entry st = (false, st))
    /\ (forall entry,
          hasLedgerEntrySignature (e_signature entry) st = false ->
          fst (addLedgerEntry entry st) = true
          /\ entries (data (snd (addLedgerEntry entry st)))
             = entries (data st) ++ [entry]).
Proof.
  intros st Hreach. split; [apply reachable_entries_by_signature; exact Hreach|].
  unfold hasLedgerEntrySignature, addLedgerEntry. split; [|split].
  - intro entry.
    destruct (existsb (fun item => e_signature item =s? e_signature entry)
                      (entries (data st))) eqn:Ex; cbn [snd]; [exact Ex|].
    cbn [withData data entries]. rewrite existsb_app. cbn [existsb].
    rewrite String.eqb_refl. rewrite orb_true_r. reflexivity.
  - intros entry Hknown. rewrite Hknown. reflexivity.
  - intros entry Hnew. rewrite Hnew. cbn [fst snd withData data entries]. auto.
Qed.

Lemma entry_signatures_are_unique_witness :
  let entry :=
    {| e_roundId := "SOL-1200-5m"; e_market := Some "SOL"; e_feedId := None;
       e_roundStartMs := 1200000; e_roundEndMs := 1560000; e_wallet := "alice";
       e_direction := UP; e_stakeUsd := 5; e_stakeLamports := 50;
       e_signature := "sig1"; e_joinedAtMs := 1200100; e_startPrice := 0;
       e_clientIp := None |} in
  let st0 :=
    {| pool := true; data := EMPTY_LEDGER; join_attempts := [];
       inMemoryWalletJoinAttempts := []; inMemoryIpJoinAttempts := [];
       round_processing_locks := [] |} in
  let st := snd (addLedgerEntry entry st0) in
  NoDup (map e_signature (entries (data st)))
  /\ addLedgerEntry entry st = (false, st).
Proof.
  intros entry st0 st.
  destruct (entry_signatures_are_unique st (reach_entry st0 entry (reach_init true)))
    as (Hnd & _ & Hreplay & _).
  split; [exact Hnd|]. apply Hreplay. reflexivity.
Defined.

End LedgerFacts.

(** ** The route that takes custody entries *)

Module CustodyJoinFacts.
Import Oracle RoundLedger EntriesRoute.

(** What the handler has checked when it answers [created: true]. *)
Lemma accepted_join_was_validated env nowMs clientIp b st :
  body (fst (POST env nowMs clientIp b st)) = OkBody true ->
  exists tx bt,
    getParsedTransaction env (signature b) = Some (Some tx)
    /\ metaErr tx = false /\ blockTime tx = Some bt
    /\ roundStartMs b <= bt * 1000 < roundStartMs b + 60000
    /\ existsb (isTransferIx env b) (instructions tx) = true
    /\ existsb (isMemoIx ("PANCHO|" ++ market b ++ "|" ++ roundId b ++ "|" ++ direction b
                          ++ "|" ++ numToString (stakeUsd b))%string)
               (instructions tx) = true
    /\ existsb (fun x => x =? stakeUsd b) ALLOWED_STAKES = true
    /\ 0 < stakeLamports b <= 25000000000
    /\ roundEndMs b = roundStartMs b + 360000
    /\ exists st2,
         data st2 = data st
         /\ hasLedgerEntrySignature (signature b) st2 = false
         /\ snd (POST env nowMs clientIp b st)
            = snd (addLedgerEntry
                     {| e_roundId := roundId b;
                        e_market := Some (market b);
                        e_feedId := Some (feedId b);
                        e_roundStartMs := roundStartMs b;
                        e_roundEndMs := roundEndMs b;
                        e_wallet := wallet b;
                        e_direction := toDirection (direction b);
                        e_stakeUsd := stakeUsd b;
                        e_stakeLamports := stakeLamports b;
                        e_signature := signature b;
                        e_joinedAtMs := joinedAtOrNow (joinedAtMs b) nowMs;
                        e_startPrice := 0;
                        e_clientIp := clientIp |} st2).
Proof.
  unfold POST, reject.
  destruct (offchainDisabledInProduction env); [discriminate|].
  destruct (negb (truthy (roundId b)) || negb (truthy (market b))
            || negb (truthy (feedId b)) || negb (truthy (wallet b))
            || negb (truthy (direction b)) || negb (truthy (signature b)));
    [discriminate|].
  destruct (negb (has ALLOWED_DIRECTIONS (direction b))); [discriminate|].
  destruct (negb (has ALLOWED_MARKETS (market b))); [discriminate|].
  destruct (negb (existsb (fun x => x =? stakeUsd b) ALLOWED_STAKES)) eqn:Etier;
    [discriminate|].
  destruct ((stakeUsd b <? MIN_STAKE_USD) || (MAX_STAKE_USD <? stakeUsd b)
            || (stakeLamports b <=? 0) || (MAX_STAKE_LAMPORTS <? stakeLamports b))
    eqn:Erange; [discriminate|].
  destruct (negb (roundId b =s? _)); [discriminate|].
  destruct (negb (Z.rem (roundStartMs b) (ENTRY_CYCLE_SECONDS * 1000) =? 0));
    [discriminate|].
  destruct (negb (roundEndMs b =? _)) eqn:Eend; [discriminate|].
  destruct (negb (isPublicKey env (wallet b))); [discriminate|].
  destruct (countRecentJoinAttempts nowMs (wallet b) clientIp RATE_LIMIT_WINDOW_SECONDS
              (recordJoinAttempt nowMs (wallet b) clientIp st))
    as [[walletCount ipCount] st2] eqn:Ecount.
  destruct (Join.attempts_keep_data _ _ _ _ _ _ Ecount) as [Hdata _].
  destruct ((MAX_ATTEMPTS_PER_WALLET_PER_WINDOW <? walletCount)
            || (MAX_ATTEMPTS_PER_IP_PER_WINDOW <? ipCount)); [discriminate|].
  destruct (hasLedgerEntrySignature (signature b) st2) eqn:Eknown; [discriminate|].
  destruct (negb (Oracle.feedId (resolveMarketByKey (Some (market b))) =s? feedId b));
    [discriminate|].
  destruct (getParsedTransaction env (signature b)) as [[tx|]|] eqn:Etx;
    [|discriminate|discriminate].
  destruct (metaErr tx) eqn:Eerr; [discriminate|].
  destruct (blockTime tx) as [bt|] eqn:Ebt; [|discriminate].
  destruct ((bt * 1000 <? roundStartMs b)
            || (roundStartMs b + OPEN_ENTRY_SECONDS * 1000 <=? bt * 1000)) eqn:Ewin;
    [discriminate|].
  destruct (negb (existsb (isTransferIx env b) (instructions tx))) eqn:Etransfer;
    [discriminate|].
  destruct (negb (existsb (isMemoIx _) (instructions tx))) eqn:Ememo; [discriminate|].
  intros _. exists tx, bt.
  apply negb_false_iff in Etier, Eend, Etransfer, Ememo.
  apply orb_false_iff in Ewin. destruct Ewin as [W1 W2].
  apply Z.ltb_ge in W1. apply Z.leb_gt in W2.
  apply orb_false_iff in Erange. destruct Erange as [Erange R4].
  apply orb_false_iff in Erange. destruct Erange as [_ R3].
  apply Z.leb_gt in R3. apply Z.ltb_ge in R4. apply Z.eqb_eq in Eend.
  unfold OPEN_ENTRY_SECONDS, SETTLEMENT_DURATION_SECONDS, MAX_STAKE_LAMPORTS in *.
  split; [reflexivity|]. split; [exact Eerr|]. split; [exact Ebt|].
  split; [lia|]. split; [exact Etransfer|]. split; [exact Ememo|].
  split; [exact Etier|]. split; [lia|]. split; [lia|].
  exists st2. split; [exact Hdata|]. split; [exact Eknown|].
  destruct (addLedgerEntry _ st2) as [created st3]. reflexivity.
Qed.

(** An entry enters the custody ledger only with its deposit behind it.
    When the handler answers [created: true], the transaction named by
    the signature is confirmed without error, its block time lies in the
    open window of the round, it carries a system transfer of exactly the
    stake from the wallet to the escrow and the memo of this market,
    round, direction and tier; and the ledger gains exactly one entry,
    which carries that signature. *)
Theorem accepted_join_has_its_deposit_on_chain :
  forall env nowMs clientIp b st,
    body (fst (POST env nowMs clientIp b st)) = OkBody true ->
    exists tx bt,
      getParsedTransaction env (signature b) = Some (Some tx)
      /\ metaErr tx = false /\ blockTime tx = Some bt
      /\ roundStartMs b <= bt * 1000 < roundStartMs b + 60000
      /\ In (SystemTransfer (wallet b) (escrowAddress env) (stakeLamports b))
            (instructions tx)
      /\ In (SplMemo ("PANCHO|" ++ market b ++ "|" ++ roundId b ++ "|" ++ direction b
                      ++ "|" ++ numToString (stakeUsd b))%string)
            (instructions tx)
      /\ In (stakeUsd b) [5; 10; 25; 50; 100; 250]
      /\ 0 < stakeLamports b <= 25000000000
      /\ exists entry,
           entries (data (snd (POST env nowMs clientIp b st)))
           = entries (data st) ++ [entry]
           /\ e_signature entry = signature b
           /\ e_wallet entry = wallet b
           /\ e_roundId entry = roundId b
           /\ e_stakeLamports entry = stakeLamports b
           /\ e_roundEndMs entry = e_roundStartMs entry + 360000.
Proof.
  intros env nowMs clientIp b st Hok.
  destruct (accepted_join_was_validated env nowMs clientIp b st Hok)
    as (tx & bt & Htx & Herr & Hbt & Hwin & Htransfer & Hmemo & Htier & Hrange & Hend
        & st2 & Hdata & Hknown & Hst).
  exists tx, bt. split; [exact Htx|]. split; [exact Herr|]. split; [exact Hbt|].
  split; [exact Hwin|]. split.
  - apply existsb_exists in Htransfer. destruct Htransfer as [ix [Hin Hix]].
    destruct ix as [source destination lamports| |]; cbn [isTransferIx] in Hix;
      try discriminate.
    apply andb_true_iff in Hix. destruct Hix as [Hix H3].
    apply andb_true_iff in Hix. destruct Hix as [H1 H2].
    apply String.eqb_eq in H1, H2. apply Z.eqb_eq in H3. subst. exact Hin.
  - split.
    + apply existsb_exists in Hmemo. destruct Hmemo as [ix [Hin Hix]].
      destruct ix as [| parsed |]; cbn [isMemoIx] in Hix; try discriminate.
      apply String.eqb_eq in Hix. subst parsed. exact Hin.
    + split.
      * apply existsb_exists in Htier. destruct Htier as [x [Hx Heq]].
        apply Z.eqb_eq in Heq. subst x. exact Hx.
      * split; [exact Hrange|].
        rewrite Hst. unfold addLedgerEntry. unfold hasLedgerEntrySignature in Hknown.
        cbn [e_signature]. rewrite Hknown. cbn [snd withData data entries].
        eexists. rewrite Hdata. split; [reflexivity|].
        cbn [e_signature e_wallet e_roundId e_stakeLamports e_roundEndMs e_roundStartMs].
        repeat split; try reflexivity. exact Hend.
Qed.

Lemma accepted_join_has_its_deposit_on_chain_witness :
  let env :=
    {| offchainDisabledInProduction := false;
       escrowAddress := "escrow";
       isPublicKey := fun _ => true;
       getParsedTransaction := fun _ =>
         Some (Some {| metaErr := false; blockTime := Some 1230;
                       instructions :=
                         [SystemTransfer "alice" "escrow" 1000000000;
                          SplMemo "PANCHO|SOL|SOL-1200-5m|UP|5"] |}) |} in
  let b :=
    {| roundId := "SOL-1200-5m"; market := "SOL";
       feedId := "ef0d8b6fda2ceba41da15d4095d1da392a0d2f8ed0c6c7bc0f4cfac8c280b56d";
       roundStartMs := 1200000; roundEndMs := 1560000; wallet := "alice";
       direction := "UP"; stakeUsd := 5; stakeLamports := 1000000000;
       signature := "sig-alice"; joinedAtMs := Some 1231000; startPrice := 100 |} in
  let st :=
    {| pool := false; data := EMPTY_LEDGER; join_attempts := [];
       inMemoryWalletJoinAttempts := []; inMemoryIpJoinAttempts := [];
       round_processing_locks := [] |} in
  exists tx bt,
    getParsedTransaction env (signature b) = Some (Some tx)
    /\ blockTime tx = Some bt
    /\ roundStartMs b <= bt * 1000 < roundStartMs b + 60000.
Proof.
  intros env b st.
  destruct (accepted_join_has_its_deposit_on_chain env 1231000 (Some "10.0.0.1") b st
              ltac:(vm_compute; reflexivity))
    as (tx & bt & H1 & _ & H2 & H3 & _).
  exists tx, bt. auto.
Defined.

(** The attempt that the handler records is counted at once. *)
Lemma recorded_attempt_is_counted nowMs w ip window st :
  fst (fst (countRecentJoinAttempts nowMs w ip window
              (recordJoinAttempt nowMs w ip st)))
  = fst (fst (countRecentJoinAttempts nowMs w ip window st)) + 1.
Proof.
  assert (Hcut : (nowMs - Z.max 1 window * 1000 <=? nowMs) = true)
    by (apply Z.leb_le; lia).
  unfold countRecentJoinAttempts, recordJoinAttempt.
  destruct (pool st) eqn:Ep; cbn [pool fst join_attempts inMemoryWalletJoinAttempts].
  - rewrite filter_app, length_app. cbn [filter a_wallet a_created_at].
    rewrite String.eqb_refl, Hcut. cbn [andb List.length]. lia.
  - rewrite Locks.Map_get_set_same, filter_app, length_app. cbn [filter].
    rewrite Hcut. cbn [List.length]. lia.
Qed.

Ltac refused :=
  cbn [fst snd status body];
  split; [discriminate|split; [auto|reflexivity]].

(** The join rate limit.  A wallet that already has twelve attempts in the
    last sixty seconds gets no entry from a further request, whatever the
    request carries: it is not answered with [ok], and the entries and
    settlements of the ledger stay as they are. *)
Theorem thirteenth_join_attempt_is_refused :
  forall env nowMs clientIp b st,
    12 <= fst (fst (countRecentJoinAttempts nowMs (wallet b) clientIp
                      RATE_LIMIT_WINDOW_SECONDS st)) ->
    let resp := fst (POST env nowMs clientIp b st) in
    (forall created, body resp <> OkBody created)
    /\ (status resp = 400 \/ status resp = 429 \/ status resp = 503)
    /\ data (snd (POST env nowMs clientIp b st)) = data st.
Proof.
  intros env nowMs clientIp b st Hmany resp. subst resp. unfold POST, reject.
  destruct (offchainDisabledInProduction env); [refused|].
  destruct (negb (truthy (roundId b)) || negb (truthy (market b))
            || negb (truthy (feedId b)) || negb (truthy (wallet b))
            || negb (truthy (direction b)) || negb (truthy (signature b)));
    [refused|].
  destruct (negb (has ALLOWED_DIRECTIONS (direction b))); [refused|].
  destruct (negb (has ALLOWED_MARKETS (market b))); [refused|].
  destruct (negb (existsb (fun x => x =? stakeUsd b) ALLOWED_STAKES));
    [refused|].
  destruct ((stakeUsd b <? MIN_STAKE_USD) || (MAX_STAKE_USD <? stakeUsd b)
            || (stakeLamports b <=? 0) || (MAX_STAKE_LAMPORTS <? stakeLamports b));
    [refused|].
  destruct (negb (roundId b =s? _)); [refused|].
  destruct (negb (Z.rem (roundStartMs b) (ENTRY_CYCLE_SECONDS * 1000) =? 0));
    [refused|].
  destruct (negb (roundEndMs b =? _)); [refused|].
  destruct (negb (isPublicKey env (wallet b))); [refused|].
  pose proof (recorded_attempt_is_counted nowMs (wallet b) clientIp
                RATE_LIMIT_WINDOW_SECONDS st) as Hcount.
  destruct (countRecentJoinAttempts nowMs (wallet b) clientIp RATE_LIMIT_WINDOW_SECONDS
              (recordJoinAttempt nowMs (wallet b) clientIp st))
    as [[walletCount ipCount] st2] eqn:Ecount.
  destruct (Join.attempts_keep_data _ _ _ _ _ _ Ecount) as [Hdata _].
  cbn [fst] in Hcount.
  replace (MAX_ATTEMPTS_PER_WALLET_PER_WINDOW <? walletCount) with true
    by (symmetry; apply Z.ltb_lt; unfold MAX_ATTEMPTS_PER_WALLET_PER_WINDOW; lia).
  cbn [orb fst snd status body]. split; [discriminate|]. split; [auto|exact Hdata].
Qed.

Lemma thirteenth_join_attempt_is_refused_witness :
  let env :=
    {| offchainDisabledInProduction := false;
       escrowAddress := "escrow";
       isPublicKey := fun _ => true;
       getParsedTransaction := fun _ =>
         Some (Some {| metaErr := false; blockTime := Some 1230;
                       instructions :=
                         [SystemTransfer "alice" "escrow" 1000000000;
                          SplMemo "PANCHO|SOL|SOL-1200-5m|UP|5"] |}) |} in
  let b :=
    {| roundId := "SOL-1200-5m"; market := "SOL";
       feedId := "ef0d8b6fda2ceba41da15d4095d1da392a0d2f8ed0c6c7bc0f4cfac8c280b56d";
       roundStartMs := 1200000; roundEndMs := 1560000; wallet := "alice";
       direction := "UP"; stakeUsd := 5; stakeLamports := 1000000000;
       signature := "sig-alice"; joinedAtMs := Some 1231000; startPrice := 100 |} in
  let st :=
    {| pool := true; data := EMPTY_LEDGER;
       join_attempts :=
         map (fun t => {| a_wallet := "alice"; a_ip := None; a_created_at := t |})
             [1230000; 1230001; 1230002; 1230003; 1230004; 1230005;
              1230006; 1230007; 1230008; 1230009; 1230010; 1230011];
       inMemoryWalletJoinAttempts := []; inMemoryIpJoinAttempts := [];
       round_processing_locks := [] |} in
  (forall created, body (fst (POST env 1231000 None b st)) <> OkBody created)
  /\ (status (fst (POST env 1231000 None b st)) = 400
      \/ status (fst (POST env 1231000 None b st)) = 429
      \/ status (fst (POST env 1231000 None b st)) = 503)
  /\ data (snd (POST env 1231000 None b st)) = data st.
Proof.
  intros env b st.
  apply (thirteenth_join_attempt_is_refused env 1231000 None b st).
  vm_compute. discriminate.
Defined.

End CustodyJoinFacts.

(** ** The other queries of the sim ledger *)

Module SimQueryFacts.
Import SetFacts SimLedger SimSettlement SimLedgerQueries.

Lemma ordered_rows {A : Type} (key : A -> Z) (rows : list A) (x : A) :
  In x (orderByDesc key rows) <-> In x rows.
Proof.
  split; intro H.
  - exact (Permutation_in _ (Ordering.orderByDesc_perm key rows) H).
  - exact (Permutation_in _ (Permutation_sym (Ordering.orderByDesc_perm key rows)) H).
Qed.

(** What a wallet gets to see.  [readSimWalletEntries] returns the
    entries of the wallet and no others; [readSimLedgerForWallet] returns
    every entry, of any wallet, of the rounds the wallet has joined and
    nothing of other rounds, so the first is always part of the second;
    both come newest first. *)
Theorem wallet_ledger_is_the_rounds_the_wallet_joined :
  forall w db,
    (forall e, In e (readSimWalletEntries w db)
               <-> In e (sim_entries db) /\ wallet e = w)
    /\ (forall e, In e (readSimLedgerForWallet w db)
                  <-> In e (sim_entries db)
                      /\ exists mine, In mine (sim_entries db)
                                      /\ wallet mine = w /\ roundId mine = roundId e)
    /\ (forall e, In e (readSimWalletEntries w db) -> In e (readSimLedgerForWallet w db))
    /\ StronglySorted (fun a b => joinedAtMs b <= joinedAtMs a)
                      (readSimWalletEntries w db)
    /\ StronglySorted (fun a b => joinedAtMs b <= joinedAtMs a)
                      (readSimLedgerForWallet w db).
Proof.
  intros w db.
  assert (Hmine : forall e, In e (readSimWalletEntries w db)
                            <-> In e (sim_entries db) /\ wallet e = w).
  { intro e. unfold readSimWalletEntries. rewrite ordered_rows, filter_In.
    rewrite String.eqb_eq. tauto. }
  assert (Hids : forall r,
            In r (Set_from (map roundId (filter (fun row => wallet row =s? w)
                                                (sim_entries db))))
            <-> exists mine, In mine (sim_entries db) /\ wallet mine = w
                             /\ roundId mine = r).
  { intro r. rewrite Set_from_spec, in_map_iff. split.
    - intros [mine [Hr Hin]]. apply filter_In in Hin. destruct Hin as [Hin Hw].
      apply String.eqb_eq in Hw. exists mine. auto.
    - intros [mine (Hin & Hw & Hr)]. exists mine. split; [exact Hr|].
      apply filter_In. split; [exact Hin|apply String.eqb_eq; exact Hw]. }
  assert (Hrounds : forall e, In e (readSimLedgerForWallet w db)
                              <-> In e (sim_entries db)
                                  /\ exists mine, In mine (sim_entries db)
                                                  /\ wallet mine = w
                                                  /\ roundId mine = roundId e).
  { intro e. unfold readSimLedgerForWallet.
    destruct (List.length _ =? 0)%nat eqn:E.
    - apply Decision.length_zero_iff in E. split; [intros []|].
      intros [_ Hex]. apply Hids in Hex. rewrite E in Hex. destruct Hex.
    - rewrite ordered_rows, filter_In, Set_has_true, Hids. tauto. }
  split; [exact Hmine|]. split; [exact Hrounds|]. split.
  - intros e He. apply Hrounds. apply Hmine in He. destruct He as [Hin Hw].
    split; [exact Hin|]. exists e. auto.
  - split; [apply Ordering.orderByDesc_sorted|].
    unfold readSimLedgerForWallet. destruct (List.length _ =? 0)%nat;
      [constructor|apply Ordering.orderByDesc_sorted].
Qed.

Lemma poolStep_fold items :
  forall up down wallets,
    let out := fold_left poolStep items (up, down, wallets) in
    (fst (fst out)
     == up + fold_right Qplus 0 (map stakeBucks (filter (isSide UP) items)))%Q
    /\ (snd (fst out)
        == down + fold_right Qplus 0 (map stakeBucks (filter (isSide DOWN) items)))%Q
    /\ snd out = fold_left (fun s x => Set_add x s) (map wallet items) wallets.
Proof.
  induction items as [|x tl IH]; intros up down wallets; cbv zeta;
    cbn [fold_left map filter].
  - cbn [fst snd fold_right].
    split; [symmetry; apply Qplus_0_r|]. split; [symmetry; apply Qplus_0_r|reflexivity].
  - assert (Hstep : poolStep (up, down, wallets) x
                    = match direction x with
                      | UP => ((up + stakeBucks x)%Q, down, Set_add (wallet x) wallets)
                      | DOWN => (up, (down + stakeBucks x)%Q, Set_add (wallet x) wallets)
                      end) by reflexivity.
    rewrite Hstep. clear Hstep.
    destruct (direction x) eqn:Ed.
    + replace (isSide UP x) with true by (unfold isSide; rewrite Ed; reflexivity).
      replace (isSide DOWN x) with false by (unfold isSide; rewrite Ed; reflexivity).
      cbn [map fold_right].
      destruct (IH (up + stakeBucks x)%Q down (Set_add (wallet x) wallets))
        as (H1 & H2 & H3).
      split; [rewrite H1; symmetry; apply Qplus_assoc|]. split; [exact H2|exact H3].
    + replace (isSide UP x) with false by (unfold isSide; rewrite Ed; reflexivity).
      replace (isSide DOWN x) with true by (unfold isSide; rewrite Ed; reflexivity).
      cbn [map fold_right].
      destruct (IH up (down + stakeBucks x)%Q (Set_add (wallet x) wallets))
        as (H1 & H2 & H3).
      split; [exact H1|]. split; [rewrite H2; symmetry; apply Qplus_assoc|exact H3].
Qed.

Lemma Set_fold_length xs acc :
  (List.length acc <= List.length (fold_left (fun s x => Set_add x s) xs acc)
   <= List.length acc + List.length xs)%nat.
Proof.
  revert acc. induction xs as [|x tl IH]; intro acc; cbn [fold_left List.length].
  - lia.
  - pose proof (IH (Set_add x acc)). pose proof (Set_add_length x acc). lia.
Qed.

(** The pool of a round as the pool route shows it.  There are stats
    exactly when the round has an entry; the two sides are the sums of
    the stakes placed on them and the total is the sum of the two; the
    number of entries is the number of rows of the round; and the number
    of players counts each wallet once, so it is at least one and at most
    the number of entries. *)
Theorem pool_stats_add_up :
  forall r db,
    let rows := filter (fun row => roundId row =s? r) (sim_entries db) in
    (readSimRoundPoolStats r db = None <-> rows = [])
    /\ forall stats,
         readSimRoundPoolStats r db = Some stats ->
         ps_roundId stats = r
         /\ (upBucks stats
             == fold_right Qplus 0 (map stakeBucks (filter (isSide UP) rows)))%Q
         /\ (downBucks stats
             == fold_right Qplus 0 (map stakeBucks (filter (isSide DOWN) rows)))%Q
         /\ (totalBucks stats == upBucks stats + downBucks stats)%Q
         /\ ps_entries stats = Z.of_nat (List.length rows)
         /\ 1 <= players stats <= ps_entries stats
         /\ players stats = Z.of_nat (List.length (Set_from (map wallet rows))).
Proof.
  intros r db rows. unfold readSimRoundPoolStats. fold rows.
  pose proof (poolStep_fold rows 0%Q 0%Q []) as Hfold.
  destruct rows as [|first rest] eqn:Erows.
  - split; [tauto|]. intros stats H. discriminate H.
  - rewrite <- Erows in *.
    destruct (fold_left poolStep rows (0%Q, 0%Q, [])) as [[up down] wallets].
    cbn [fst snd] in Hfold. destruct Hfold as (Hup & Hdown & Hwallets).
    split; [split; [discriminate|intro K; rewrite Erows in K; discriminate K]|].
    intros stats H. injection H as <-.
    cbn [ps_roundId upBucks downBucks totalBucks ps_entries players].
    split; [reflexivity|]. split; [rewrite Hup; apply Qplus_0_l|].
    split; [rewrite Hdown; apply Qplus_0_l|]. split; [reflexivity|].
    split; [reflexivity|].
    assert (Hlen : (1 <= List.length wallets <= List.length rows)%nat).
    { rewrite Hwallets. pose proof (Set_fold_length (map wallet rows) []) as K.
      rewrite length_map in K. cbn [List.length] in K. split; [|lia].
      rewrite Erows. cbn [map fold_left].
      pose proof (Set_fold_length (map wallet rest) (Set_add (wallet first) [])) as K'.
      cbn [Set_add Set_has existsb app List.length] in K'. cbn [Set_add Set_has existsb app].
      lia. }
    split; [lia|]. rewrite Hwallets. reflexivity.
Qed.


Lemma wallet_ledger_is_the_rounds_the_wallet_joined_witness :
  let mk i r w j :=
    {| id := i; roundId := r; market := "SOL"; feedId := "feed";
       roundStartMs := 1200000; roundEndMs := 1560000; wallet := w;
       direction := UP; stakeBucks := 5%Q; joinedAtMs := j |} in
  let db := {| sim_entries := [mk "a" "SOL-1200-5m" "alice" 1200100;
                               mk "b" "SOL-1200-5m" "bob" 1200200;
                               mk "c" "SOL-1320-5m" "bob" 1320100];
               sim_round_settlements := [] |} in
  In (mk "a" "SOL-1200-5m" "alice" 1200100) (readSimLedgerForWallet "alice" db).
Proof.
  intros mk db.
  apply (proj1 (proj2 (proj2 (wallet_ledger_is_the_rounds_the_wallet_joined "alice" db)))).
  vm_compute. left. reflexivity.
Defined.

Lemma pool_stats_add_up_witness :
  let mk i w d b :=
    {| id := i; roundId := "SOL-1200-5m"; market := "SOL"; feedId := "feed";
       roundStartMs := 1200000; roundEndMs := 1560000; wallet := w;
       direction := d; stakeBucks := b; joinedAtMs := 1200100 |} in
  let db := {| sim_entries := [mk "a" "alice" UP 25%Q; mk "b" "alice" DOWN 5%Q;
                               mk "c" "bob" UP 10%Q];
               sim_round_settlements := [] |} in
  exists stats,
    readSimRoundPoolStats "SOL-1200-5m" db = Some stats
    /\ 1 <= players stats <= ps_entries stats.
Proof.
  intros mk db.
  assert (Hstats : exists stats, readSimRoundPoolStats "SOL-1200-5m" db = Some stats)
    by (eexists; vm_compute; reflexivity).
  destruct Hstats as [stats Hstats]. exists stats. split; [exact Hstats|].
  apply (proj2 (pool_stats_add_up "SOL-1200-5m" db) stats Hstats).
Defined.

End SimQueryFacts.

(** ** What COMPLETED means *)

Module CompletionFacts.
Import Oracle RoundLedger LedgerReach Settlement.

Lemma same_round_same_row (l : list RoundSettlement) (x y : RoundSettlement) :
  NoDup (map roundId l) -> In x l -> In y l -> roundId x = roundId y -> x = y.
Proof.
  induction l as [|z tl IH]; cbn [map]; intros Hnd Hx Hy Heq; [destruct Hx|].
  inversion Hnd as [|? ? Hz Htl]; subst.
  destruct Hx as [->|Hx], Hy as [->|Hy]; try reflexivity.
  - exfalso. apply Hz. rewrite Heq. apply in_map. exact Hy.
  - exfalso. apply Hz. rewrite <- Heq. apply in_map. exact Hx.
  - apply IH; assumption.
Qed.

(** With one settlement per round, the sorted view of [readLedger] and the
    table give the same settlement for a round. *)
Lemma findSettlement_readLedger r st :
  NoDup (map roundId (settlements (data st))) ->
  findSettlement r (readLedger st) = findSettlement r (data st).
Proof.
  intro Hnd. unfold readLedger. destruct (pool st); [|reflexivity].
  unfold findSettlement. cbn [settlements].
  pose proof (Ordering.orderByDesc_perm settledAtMs (settlements (data st))) as Hperm.
  destruct (find (fun item => roundId item =s? r) (settlements (data st))) as [x|] eqn:Ex.
  - apply find_some in Ex. destruct Ex as [Hx Hrx]. apply String.eqb_eq in Hrx.
    destruct (find (fun item => roundId item =s? r)
                   (orderByDesc settledAtMs (settlements (data st)))) as [y|] eqn:Ey.
    + apply find_some in Ey. destruct Ey as [Hy Hry]. apply String.eqb_eq in Hry.
      apply (Permutation_in _ Hperm) in Hy.
      f_equal. apply (same_round_same_row _ y x Hnd Hy Hx). congruence.
    + exfalso.
      pose proof (find_none _ _ Ey x
                    (Permutation_in _ (Permutation_sym Hperm) Hx)) as K.
      cbn beta in K. rewrite Hrx, String.eqb_refl in K. discriminate K.
  - destruct (find (fun item => roundId item =s? r)
                   (orderByDesc settledAtMs (settlements (data st)))) as [y|] eqn:Ey;
      [|reflexivity].
    exfalso. apply find_some in Ey. destruct Ey as [Hy Hry].
    apply (Permutation_in _ Hperm) in Hy.
    pose proof (find_none _ _ Ex y Hy) as K. cbn beta in K. congruence.
Qed.

Lemma find_updateFirst (r : string) (f : RoundSettlement -> RoundSettlement)
  (l : list RoundSettlement) :
  (forall s, roundId (f s) = roundId s) ->
  find (fun item => roundId item =s? r)
       (updateFirst (fun item => roundId item =s? r) f l)
  = option_map f (find (fun item => roundId item =s? r) l).
Proof.
  intro Hf. induction l as [|x tl IH]; cbn [updateFirst find]; [reflexivity|].
  destruct (roundId x =s? r) eqn:E; cbn [find option_map].
  - rewrite Hf, E. reflexivity.
  - rewrite E. exact IH.
Qed.

(** A receipt changes neither the rounds that have a settlement nor the
    state or the plan of the settlement of its round. *)
Lemma append_keeps_state r transfer st st' :
  appendSettlementTransfer r transfer st = Some st' ->
  map roundId (settlements (data st')) = map roundId (settlements (data st))
  /\ forall cur, findSettlement r (data st) = Some cur ->
       exists cur', findSettlement r (data st') = Some cur'
                    /\ state cur' = state cur.
Proof.
  unfold appendSettlementTransfer. intro H.
  assert (Hsame : forall x, Some st = Some x ->
            map roundId (settlements (data x)) = map roundId (settlements (data st))
            /\ forall cur, findSettlement r (data st) = Some cur ->
                 exists cur', findSettlement r (data x) = Some cur'
                              /\ state cur' = state cur).
  { intros x K. injection K as <-. split; [reflexivity|]. intros cur Hc. exists cur. auto. }
  assert (Hpush : forall x,
            Some (withData st
                    (withSettlements (data st)
                       (updateFirst (fun item => roundId item =s? r)
                          (fun s => withTransfers s (transfers s ++ [transfer]))
                          (settlements (data st))))) = Some x ->
            map roundId (settlements (data x)) = map roundId (settlements (data st))
            /\ forall cur, findSettlement r (data st) = Some cur ->
                 exists cur', findSettlement r (data x) = Some cur'
                              /\ state cur' = state cur).
  { intros x K. injection K as <-. cbn [withData data withSettlements settlements].
    split; [apply Receipts.updateFirst_roundIds; reflexivity|].
    intros cur Hc. unfold findSettlement in *.
    cbn [withData data withSettlements settlements].
    rewrite find_updateFirst by reflexivity. rewrite Hc. cbn [option_map].
    eexists. split; reflexivity. }
  destruct (pool st).
  - destruct (existsb _ (settlements (data st))); [exact (Hsame _ H)|].
    destruct (findSettlement r (data st)) as [settlement|] eqn:Ef; [|discriminate].
    destruct (match t_id transfer with Some _ => _ | None => false end);
      [exact (Hsame _ H)|exact (Hpush _ H)].
  - destruct (findSettlement r (data st)) as [settlement|] eqn:Ef; [|exact (Hsame _ H)].
    destruct (truthy_opt (t_id transfer) && _); [exact (Hsame _ H)|].
    destruct (existsb _ (transfers settlement)); [exact (Hsame _ H)|exact (Hpush _ H)].
Qed.

Lemma transferLoop_keeps_state net r planned :
  forall ls cur,
    NoDup (map roundId (settlements (data (ls_store ls)))) ->
    findSettlement r (data (ls_store ls)) = Some cur ->
    let out := match transferLoop net r planned ls with inl x => x | inr x => x end in
    NoDup (map roundId (settlements (data (ls_store out))))
    /\ exists cur', findSettlement r (data (ls_store out)) = Some cur'
                    /\ state cur' = state cur.
Proof.
  induction planned as [|transfer rest IH]; intros ls cur Hnd Hcur; cbn [transferLoop].
  - split; [exact Hnd|]. exists cur. auto.
  - destruct (existsb _ (transfers (ls_settlement ls))); [apply IH; assumption|].
    destruct (sendTransfer net (ls_chain ls) (p_id transfer) _) as [[signature chain']|];
      [|split; [exact Hnd|exists cur; auto]].
    destruct (signature =s? "skipped").
    + apply (IH {| ls_settlement := ls_settlement ls; ls_store := ls_store ls;
                   ls_chain := chain' |} cur); assumption.
    + destruct (appendSettlementTransfer r _ (ls_store ls)) as [store'|] eqn:Ea;
        [|cbn [ls_store]; split; [exact Hnd|exists cur; auto]].
      destruct (append_keeps_state _ _ _ _ Ea) as [Hids Hstate].
      destruct (Hstate cur Hcur) as (cur1 & Hcur1 & Hst1).
      destruct (IH {| ls_settlement :=
                        withTransfers (ls_settlement ls)
                          (transfers (ls_settlement ls)
                           ++ [{| t_id := Some (p_id transfer);
                                  t_wallet := p_wallet transfer;
                                  t_lamports := p_lamports transfer;
                                  t_signature := signature |}]);
                      ls_store := store'; ls_chain := chain' |} cur1)
        as (K1 & cur' & K2 & K3).
      * cbn [ls_store]. rewrite Hids. exact Hnd.
      * exact Hcur1.
      * split; [exact K1|]. exists cur'. split; [exact K2|congruence].
Qed.

(** The rest of a run once the settlement to work on is fixed: the
    transfer loop, the refreshed settlement, completion and release. *)
Ltac run_to_the_end Hrel Hpaid :=
  match goal with
  | Hgo : exists cur, NoDup _ /\ _ /\ _
    |- context [transferLoop ?n ?k ?planned ?start] =>
      let cur := fresh "cur" in
      let Hnd2 := fresh "Hnd2" in
      let Hcur := fresh "Hcur" in
      let Hstate := fresh "Hstate" in
      let Hloop := fresh "Hloop" in
      let ls := fresh "ls" in
      let Hnd3 := fresh "Hnd3" in
      let cur' := fresh "cur'" in
      let Hcur' := fresh "Hcur'" in
      let Hst' := fresh "Hst'" in
      let Eall := fresh "Eall" in
      let K := fresh "K" in
      destruct Hgo as (cur & Hnd2 & Hcur & Hstate);
      pose proof (transferLoop_keeps_state n k planned start cur Hnd2 Hcur) as Hloop;
      destruct (transferLoop n k planned start) as [ls|ls];
      destruct Hloop as (Hnd3 & cur' & Hcur' & Hst'); cbn [fst snd]; rewrite Hrel;
      [ rewrite (findSettlement_readLedger k (ls_store ls) Hnd3), Hcur';
        destruct (forallb _ _) eqn:Eall;
        [ unfold markSettlementCompleted, findSettlement;
          cbn [withData data withSettlements settlements];
          rewrite find_updateFirst by reflexivity;
          unfold findSettlement in Hcur'; rewrite Hcur'; cbn [option_map];
          intro K; injection K as <-; cbn [plannedTransfers transfers];
          apply Hpaid; exact Eall
        | rewrite Hcur'; intro K; injection K as <-; congruence ]
      | rewrite Hcur'; intro K; injection K as <-; congruence ]
  end.

(** COMPLETED means paid.  When a run leaves the settlement of a round
    COMPLETED that was not COMPLETED before, every transfer of its plan
    has a receipt with that transfer's id. *)
Theorem completed_round_has_a_receipt_for_every_planned_transfer :
  forall w net nowMs treasuryWallet signerWallet r entries0 st chain,
    reachable st ->
    (forall s0, findSettlement r (data st) = Some s0 -> state s0 <> Some COMPLETED) ->
    let st' :=
      snd (fst (settleOneRound w net nowMs treasuryWallet signerWallet r entries0 st
                  chain)) in
    forall s',
      findSettlement r (data st') = Some s' ->
      state s' = Some COMPLETED ->
      forall t,
        In t (match plannedTransfers s' with Some l => l | None => [] end) ->
        exists receipt, In receipt (transfers s') /\ t_id receipt = Some (p_id t).
Proof.
  intros w net nowMs treasuryWallet signerWallet r entries0 st chain Hreach Hopen st'.
  subst st'. intros s' Hs' Hdone.
  pose proof (proj1 (Receipts.reachable_receiptsUnique st Hreach)) as Hnd.
  assert (Hsame : forall X, data X = data st -> findSettlement r (data X) = Some s' ->
                            False).
  { intros X HX K. rewrite HX in K. exact (Hopen s' K Hdone). }
  revert Hs'. unfold settleOneRound.
  destruct (CustodyRunFacts.acquire_frame nowMs r DEFAULT_STALE_AFTER_MS st)
    as (Ap & Ad & _ & _).
  destruct (tryAcquireRoundProcessingLock nowMs r DEFAULT_STALE_AFTER_MS st)
    as [hasLock st1].
  cbn [snd] in Ap, Ad.
  assert (Hnd1 : NoDup (map roundId (settlements (data st1)))) by (rewrite Ad; exact Hnd).
  destruct hasLock; cbn [negb]; [|intro K; destruct (Hsame st1 Ad K)].
  rewrite (findSettlement_readLedger r st1 Hnd1).
  assert (Hrel : forall X, data (releaseRoundProcessingLock r X) = data X)
    by (intro X; apply CustodyRunFacts.release_frame).
  destruct (match findSettlement r (data st1) with
            | Some s => match state s with Some COMPLETED => true | _ => false end
            | None => false
            end) eqn:Ecompleted.
  { cbn [fst snd]. rewrite Hrel. intro K. destruct (Hsame st1 Ad K). }
  assert (Hpaid : forall cur : RoundSettlement,
            forallb (fun transfer =>
                       existsb (sameId (Some (p_id transfer))) (transfers cur))
                    match plannedTransfers cur with Some l => l | None => [] end = true ->
            forall t,
              In t (match plannedTransfers cur with Some l => l | None => [] end) ->
              exists receipt, In receipt (transfers cur) /\ t_id receipt = Some (p_id t)).
  { intros cur Eall t Ht. rewrite forallb_forall in Eall. specialize (Eall t Ht).
    apply existsb_exists in Eall. destruct Eall as [receipt [Hin Hid]].
    exists receipt. split; [exact Hin|].
    unfold sameId in Hid. destruct (t_id receipt) as [i|]; [|discriminate].
    apply String.eqb_eq in Hid. congruence. }
  destruct (findSettlement r (data st1)) as [existing|] eqn:Eexisting.
  - assert (Hgo : exists cur,
              NoDup (map roundId (settlements (data st1)))
              /\ findSettlement r (data st1) = Some cur
              /\ state cur <> Some COMPLETED).
    { exists existing. split; [exact Hnd1|]. split; [exact Eexisting|].
      intro K. rewrite K in Ecompleted. discriminate Ecompleted. }
    run_to_the_end Hrel Hpaid.
  - destruct (createProcessingSettlement w nowMs r entries0 treasuryWallet signerWallet)
      as [s|] eqn:Ecreate;
      [|cbn [fst snd]; rewrite Hrel; intro K; destruct (Hsame st1 Ad K)].
    assert (Hs : roundId s = r /\ state s = Some PROCESSING).
    { unfold createProcessingSettlement in Ecreate.
      destruct (fetchOracleSnapshotAtTimestamp w _ _); [|discriminate].
      destruct (fetchOracleSnapshotAtTimestamp w _ _); [|discriminate].
      destruct (settlePayouts _ _ entries0) as [[[[m side] feeL] d] payouts].
      injection Ecreate as <-. split; reflexivity. }
    destruct Hs as [Hr Hstate].
    assert (Hgo : exists cur,
              NoDup (map roundId (settlements (data (addRoundSettlement s st1))))
              /\ findSettlement r (data (addRoundSettlement s st1)) = Some cur
              /\ state cur <> Some COMPLETED).
    { assert (Hnew : existsb (fun item => roundId item =s? roundId s)
                             (settlements (data st1)) = false).
      { rewrite Hr. apply SimLedgerFacts.find_none_existsb. exact Eexisting. }
      assert (Hadded : exists row,
                settlements (data (addRoundSettlement s st1))
                = settlements (data st1) ++ [row]
                /\ roundId row = r /\ state row = Some PROCESSING).
      { unfold addRoundSettlement. rewrite Hnew.
        cbn [withData data withSettlements settlements].
        destruct (pool st1); eexists; (split; [reflexivity|]); cbn [roundId state]; auto. }
      destruct Hadded as (row & Hrows & Hrr & Hrs).
      exists row. split; [|split].
      - rewrite Hrows, map_app. cbn [map]. apply NoDup_app; [exact Hnd1| |].
        + constructor; [intros []|constructor].
        + intros k Hk [<-|[]]. apply in_map_iff in Hk. destruct Hk as [x [Hx Hin]].
          unfold findSettlement in Eexisting.
          pose proof (find_none _ _ Eexisting x Hin) as K. cbn beta in K.
          rewrite Hx, Hrr, String.eqb_refl in K. discriminate K.
      - unfold findSettlement. rewrite Hrows.
        apply SimLedgerFacts.find_app_none; [exact Eexisting|].
        rewrite Hrr. apply String.eqb_refl.
      - rewrite Hrs. discriminate. }
    run_to_the_end Hrel Hpaid.
Qed.

Lemma completed_round_has_a_receipt_for_every_planned_transfer_witness :
  let entry :=
    {| e_roundId := "SOL-1200-5m"; e_market := Some "SOL"; e_feedId := None;
       e_roundStartMs := 1200000; e_roundEndMs := 1560000; e_wallet := "alice";
       e_direction := UP; e_stakeUsd := 5; e_stakeLamports := 50;
       e_signature := "sig1"; e_joinedAtMs := 1200100; e_startPrice := 0;
       e_clientIp := None |} in
  let st0 :=
    {| pool := false; data := EMPTY_LEDGER; join_attempts := [];
       inMemoryWalletJoinAttempts := []; inMemoryIpJoinAttempts := [];
       round_processing_locks := [] |} in
  let st := snd (addLedgerEntry entry st0) in
  let w :=
    {| historical := fun _ ts => Some {| price := 100; publishTime := ts |};
       latest := fun _ => None |} in
  let net : Network := fun n _ => Some (if (n =? 0)%nat then "tx0" else "tx1") in
  let st' := snd (fst (settleOneRound w net 1600000 "treasury" "signer" "SOL-1200-5m"
                         [entry] st [])) in
  exists s',
    findSettlement "SOL-1200-5m" (data st') = Some s'
    /\ state s' = Some COMPLETED
    /\ forall t,
         In t (match plannedTransfers s' with Some l => l | None => [] end) ->
         exists receipt, In receipt (transfers s') /\ t_id receipt = Some (p_id t).
Proof.
  intros entry st0 st w net st'.
  assert (Hs' : exists s', findSettlement "SOL-1200-5m" (data st') = Some s'
                           /\ state s' = Some COMPLETED)
    by (eexists; split; vm_compute; reflexivity).
  destruct Hs' as (s' & Hfind & Hdone).
  exists s'. split; [exact Hfind|]. split; [exact Hdone|].
  apply (completed_round_has_a_receipt_for_every_planned_transfer
           w net 1600000 "treasury" "signer" "SOL-1200-5m" [entry] st []
           (reach_entry st0 entry (reach_init false))).
  - intros s0 K. vm_compute in K. discriminate K.
  - exact Hfind.
  - exact Hdone.
Defined.

End CompletionFacts.
